(** * frida_web: Session, Script, Bus and Client of the browser client

    A shallow embedding of [src/lib/script.ts], [src/lib/session.ts],
    [src/lib/protocol.ts] and of the Bus / Client file, together with the
    properties the specification states about them.

    Conventions of the embedding:
    - JavaScript values that travel as JSON are the inductive [Js.value];
      numbers are the integers [Z] (serials, handles, request ids and batch
      ids are integers; they stay far below 2^53, where the doubles of
      JavaScript and [Z] agree);
    - an object that the code mutates is a record that is passed along;
      functions return the new record together with what they did to the
      outside (handlers they called, promises they settled, remote calls
      they issued);
    - an exception is a result of its own: the state reached when it is
      thrown is kept, as in JavaScript;
    - a promise is a number; settling it is an effect in the trace;
    - what the runtime provides and the program does not define, the
      codec, [JSON] and the global [console], is a parameter. *)

From stdpp Require Import gmap strings list pretty.

Set Warnings "-register-all".

Open Scope string_scope.
Open Scope list_scope.
Open Scope Z_scope.

(** ** JavaScript values *)

Module Js.

Inductive value : Type :=
| Undefined
| Null
| Bool (b : bool)
| Num (n : Z)
| Str (s : string)
| Arr (elems : list value)
| Obj (props : list (string * value)).

(** [typeof v] *)
Definition typeof (v : value) : string :=
  match v with
  | Undefined => "undefined"
  | Null => "object"
  | Bool _ => "boolean"
  | Num _ => "number"
  | Str _ => "string"
  | Arr _ => "object"
  | Obj _ => "object"
  end.

(** [Array.isArray(v)] *)
Definition isArray (v : value) : bool :=
  match v with Arr _ => true | _ => false end.

(** [v !== null] *)
Definition not_null (v : value) : bool :=
  match v with Null => false | _ => true end.

(** [v === s] for a string literal [s] *)
Definition is_string (v : value) (s : string) : bool :=
  match v with Str s' => bool_decide (s' = s) | _ => false end.

Fixpoint assoc (k : string) (props : list (string * value)) : value :=
  match props with
  | [] => Undefined
  | (k', v) :: rest => if bool_decide (k' = k) then v else assoc k rest
  end.

(** [v.k] for the property names the code reads ([type], [payload],
    [level]): [None] is the TypeError of a read on [null] or [undefined];
    a primitive or an array has no such property and yields [undefined].
    The keys of an [Obj] are distinct, as [JSON.parse] leaves them. *)
Definition get (v : value) (k : string) : option value :=
  match v with
  | Undefined | Null => None
  | Obj props => Some (assoc k props)
  | _ => Some Undefined
  end.

(** [v.length] and [v[i]] where the code has checked [Array.isArray(v)] *)
Definition arrayLength (v : value) : Z :=
  match v with Arr l => Z.of_nat (length l) | _ => 0 end.

Definition index (v : value) (i : nat) : value :=
  match v with Arr l => nth i l Undefined | _ => Undefined end.

(** [v.slice(i)], the rest element of an array destructuring *)
Definition rest (v : value) (i : nat) : list value :=
  match v with Arr l => drop i l | _ => [] end.

(** [String(v)], the conversion that a template literal, [new Error(v)]
    and a property key apply: [None] is its TypeError. An array joins
    the strings of its elements with commas, [null] and [undefined]
    elements being empty. An object is converted by its [toString]
    method: the one of [Object.prototype], unless the object has a
    property "toString" of its own; no value that arrives as JSON is a
    function, so an own "toString" leaves nothing to call and the
    conversion throws. [Num n] prints as JavaScript prints the double [n]
    when [n] is a safe integer (below 2^53 in absolute value). *)
Fixpoint String (v : value) : option string :=
  match v with
  | Undefined => Some "undefined"
  | Null => Some "null"
  | Bool true => Some "true"
  | Bool false => Some "false"
  | Num n => Some (pretty n)
  | Str s => Some s
  | Arr l =>
      (fix join (l : list value) : option string :=
         match l with
         | [] => Some ""
         | x :: more =>
             match (match x with
                    | Undefined | Null => Some ""
                    | _ => String x
                    end) with
             | None => None
             | Some sx =>
                 match more with
                 | [] => Some sx
                 | _ :: _ =>
                     match join more with
                     | None => None
                     | Some rest => Some (sx +:+ "," +:+ rest)
                     end
                 end
             end
         end) l
  | Obj props =>
      if bool_decide ("toString" ∈ props.*1) then None
      else Some "[object Object]"
  end.

(** [v.toString()]: a TypeError on [null] and [undefined], which have no
    properties, and on an object whose own "toString" is not a function;
    on every other value the method found is the one [String] applies. *)
Definition toString (v : value) : option string :=
  match v with
  | Undefined | Null => None
  | _ => String v
  end.

(** What [new Error(message)] followed by the assignments of [name] and
    [stack] builds. *)
Record Error : Type := mkError {
  message : string;
  name : value;
  stack : value;
}.

(** The message of [new Error(m)]: none for [undefined], [String(m)]
    otherwise; [None] when that conversion throws, and no Error is
    built. *)
Definition newError (m : value) : option string :=
  match m with Undefined => Some "" | _ => String m end.

(** The exceptions of the runtime the code can run into. *)
Inductive exn : Type :=
| TypeError (what : string)
| External (what : string).   (* thrown by code outside the repository *)

(** The state of a promise; [resolve] and [reject] act on a pending
    promise only. *)
Inductive promise : Type := Pending | Fulfilled | Rejected.

(** A property of an object of the host, as far as calling it with one
    string shows. *)
Inductive member : Type :=
| Absent                                 (* [undefined], or another falsy value *)
| Function (call : string → option exn)  (* a function: what it throws, if it throws *)
| NotCallable.                           (* a truthy value that is no function *)

(** The global [console] of the runtime the program is loaded in: the
    property found under each name. Browsers and Node give it different
    members. The program prints diagnostics with [console.log] and
    [console.error] on its way; these calls are left out of the
    embedding, and the two members are functions that return. *)
Class Console : Type := {
  console : string → member;
  console_log : console "log" = Function (fun _ => None);
  console_error : console "error" = Function (fun _ => None);
}.

(** A console all of whose members are functions that return. *)
Definition quiet_console : Console :=
  {| console := fun _ => Function (fun _ => None);
     console_log := eq_refl;
     console_error := eq_refl |}.

(** [new Uint8Array(data)]: every number is taken modulo 256. *)
Definition Uint8Array (data : list Z) : list Z :=
  (fun x => x `mod` 256) <$> data.

End Js.

(** ** Computations with state, effects and exceptions

    A JavaScript function body becomes a function from the state it can
    touch to the state it leaves, the effects it had on the outside, in
    order, and either its value or the exception it threw. *)

Module Eff.

Inductive result (A : Type) : Type :=
| Ret (a : A)
| Throw (e : Js.exn).
Arguments Ret {A} a.
Arguments Throw {A} e.

Definition M (S E A : Type) : Type := S → S * list E * result A.

Section monad.
Context {S E : Type}.

Definition ret {A} (a : A) : M S E A := fun s => (s, [], Ret a).

Definition bind {A B} (m : M S E A) (k : A → M S E B) : M S E B :=
  fun s =>
    match m s with
    | (s1, es1, Ret a) =>
        match k a s1 with
        | (s2, es2, r) => (s2, es1 ++ es2, r)
        end
    | (s1, es1, Throw e) => (s1, es1, Throw e)
    end.

Definition get : M S E S := fun s => (s, [], Ret s).
Definition modify (f : S → S) : M S E unit := fun s => (f s, [], Ret tt).
Definition tell (e : E) : M S E unit := fun s => (s, [e], Ret tt).
Definition throw {A} (e : Js.exn) : M S E A := fun s => (s, [], Throw e).

(** [try { m } catch (error) { h(error) }] *)
Definition try_catch {A} (m : M S E A) (h : Js.exn → M S E A) : M S E A :=
  fun s =>
    match m s with
    | (s1, es1, Ret a) => (s1, es1, Ret a)
    | (s1, es1, Throw e) =>
        match h e s1 with
        | (s2, es2, r) => (s2, es1 ++ es2, r)
        end
    end.

(** [arr.forEach(f)]. The length is read once, when the loop starts;
    the indices below it are visited in order; at each index the
    array is read again, and an index it no longer has is passed over.
    So when a callback removes an element at or before its own index,
    the element that follows it is never called. [arr] reads the
    array, which is one object for the whole loop, in the state. *)
Fixpoint forEach_from {L} (arr : S → list L) (f : L → M S E unit)
    (len : nat) (k : nat) : M S E unit :=
  match len with
  | O => ret tt
  | Datatypes.S len' =>
      fun s =>
        match arr s !! k with
        | Some x => bind (f x) (fun _ => forEach_from arr f len' (Datatypes.S k)) s
        | None => forEach_from arr f len' (Datatypes.S k) s
        end
  end.

Definition forEach {L} (arr : S → list L) (f : L → M S E unit) : M S E unit :=
  fun s => forEach_from arr f (length (arr s)) 0%nat s.

(** [for (const x of xs) { body(x) }] over a list that the body does
    not change *)
Fixpoint for_of {A} (xs : list A) (body : A → M S E unit) : M S E unit :=
  match xs with
  | [] => ret tt
  | x :: rest => bind (body x) (fun _ => for_of rest body)
  end.

(** A conversion to a string, or a call of [toString], that can throw. *)
Definition converting {A} (o : option A) : M S E A :=
  match o with
  | Some a => ret a
  | None => throw (Js.TypeError "cannot convert object to primitive value")
  end.
End monad.

Notation "x <- m ;; k" := (bind m (fun x => k))
  (at level 100, m at next level, right associativity, only parsing).
Notation "m ;;; k" := (bind m (fun _ => k))
  (at level 100, right associativity, only parsing).

End Eff.

(** ** protocol.ts *)

Module Protocol.

(** [AgentScriptId = [handle: number]] is a one-element tuple; where it is
    only a key it is represented by its handle. *)
Definition AgentScriptId : Type := Z.

(** [AgentMessageRecord = [kind, scriptId, text, hasData, data]] *)
Record AgentMessageRecord : Type := mkRecord {
  kind : Z;
  scriptId : AgentScriptId;
  text : string;
  hasData : bool;
  data : list Z;
}.

(** [enum AgentMessageKind { Script = 1, Debugger }] *)
Definition AgentMessageKind_Script : Z := 1.
Definition AgentMessageKind_Debugger : Z := 2.

Global Instance AgentMessageRecord_eq_dec : EqDecision AgentMessageRecord.
Proof. solve_decision. Defined.

End Protocol.

(** ** class BrowserEventEmitter

    [listeners] is a [Map] from the event name to the array of its
    listeners. A listener is a closure; [L] is the type of the closures a
    given emitter holds, compared by identity. *)

Module Emitter.

Section emitter.
Context {L : Type} `{EqDecision L}.

Definition addListener (event : string) (l : L)
    (listeners : gmap string (list L)) : gmap string (list L) :=
  <[event := default [] (listeners !! event) ++ [l]]> listeners.

(** [index = arr.indexOf(l); if (index > -1) arr.splice(index, 1)] *)
Fixpoint splice_first (l : L) (arr : list L) : list L :=
  match arr with
  | [] => []
  | x :: rest => if decide (x = l) then rest else x :: splice_first l rest
  end.

Definition removeListener (event : string) (l : L)
    (listeners : gmap string (list L)) : gmap string (list L) :=
  match listeners !! event with
  | Some arr => <[event := splice_first l arr]> listeners
  | None => listeners
  end.

(** The array [emit] walks over; no entry means no call at all. *)
Definition listenersOf (event : string)
    (listeners : gmap string (list L)) : list L :=
  default [] (listeners !! event).
End emitter.

End Emitter.

(** ** script.ts *)

Module Script.
Import Js Eff Protocol.

Inductive state : Type := created | destroyed.

(** The closures that end up in a Script's emitter. *)
Inductive listener : Type :=
| OnDestroyed                (* ScriptServices.onDestroyed *)
| OnMessage                  (* ScriptServices.onMessage *)
| SessionOnce (handle : Z)   (* once-wrapper of Session.createScript *)
| Handler (h : nat)          (* a handler of the user, subscribed as it is *)
| MessageProxy (h : nat).    (* what getProxy("message", h) returns *)

Global Instance listener_eq_dec : EqDecision listener.
Proof. solve_decision. Defined.

(** The arguments an event is emitted with. *)
Inductive args : Type :=
| NoArgs
| MessageArgs (message : value) (data : option (list Z)).

Inductive effect : Type :=
| CallHandler (h : nat) (a : args)              (* a handler of the user runs *)
| CallLogHandler (h : nat) (level text : value) (* a log handler of the user runs *)
| ConsoleCall (method line : string)            (* console[method](line) *)
| Resolved (p : nat) (result : value)           (* resolve(result) *)
| Rejected (p : nat) (error : Js.Error)         (* reject(error) *)
| RegistryDelete (handle : Z)                   (* Session._scripts.delete *)
| PostToAgent (record : AgentMessageRecord).    (* _controller._postToAgent *)

(** The fields of [Script] and of its [ScriptServices]. The log handler
    is a handler of the user, or [defaultLogHandler] for the function
    [log] of the module. *)
Definition defaultLogHandler : nat := 0%nat.

Record t : Type := mk {
  _id : AgentScriptId;
  _state : state;
  _logHandlerImpl : nat;
  _events : gmap string (list listener);
  pendingRequests : gmap string nat;
  nextRequestId : Z;
}.

Definition set_state (st : state) (s : t) : t :=
  mk (_id s) st (_logHandlerImpl s) (_events s) (pendingRequests s) (nextRequestId s).
Definition set_logHandler (h : nat) (s : t) : t :=
  mk (_id s) (_state s) h (_events s) (pendingRequests s) (nextRequestId s).
Definition set_events (ev : gmap string (list listener)) (s : t) : t :=
  mk (_id s) (_state s) (_logHandlerImpl s) ev (pendingRequests s) (nextRequestId s).
Definition set_pendingRequests (pr : gmap string nat) (s : t) : t :=
  mk (_id s) (_state s) (_logHandlerImpl s) (_events s) pr (nextRequestId s).
Definition set_nextRequestId (n : Z) (s : t) : t :=
  mk (_id s) (_state s) (_logHandlerImpl s) (_events s) (pendingRequests s) n.

(** [new Script(controller, id)]: the constructor of [ScriptServices]
    subscribes [onDestroyed] and [onMessage]. *)
Definition new (id : AgentScriptId) : t :=
  mk id created defaultLogHandler
     (Emitter.addListener "message" OnMessage
        (Emitter.addListener "destroyed" OnDestroyed ∅))
     ∅ 1.

(** *** Classification of a message *)

Definition MessageType_Send : string := "send".
Definition MessageType_Error : string := "error".
Definition MessageType_Log : string := "log".

Definition rpc_marker : string := "frida:rpc".

(** The four conjuncts on [message.payload] that [isInternalMessage] and
    [isRpcSendMessage] share. *)
Definition payload_is_rpc (payload : value) : bool :=
  bool_decide (typeof payload = "object")
  && isArray payload
  && bool_decide (1 ≤ arrayLength payload)
  && is_string (index payload 0) rpc_marker.

(** [None] is the TypeError of [message.type] on [null]. *)
Definition isInternalMessage (message : value) : option bool :=
  ty ← Js.get message "type";
  if is_string ty MessageType_Send
  then payload ← Js.get message "payload"; Some (payload_is_rpc payload)
  else Some false.

Definition isRpcSendMessage (message : value) : option bool :=
  payload ← Js.get message "payload"; Some (payload_is_rpc payload).

Definition isLogMessage (message : value) : option bool :=
  ty ← Js.get message "type";
  if is_string ty MessageType_Log then Some true
  else if is_string ty MessageType_Send then
    payload ← Js.get message "payload";
    if bool_decide (typeof payload = "object") && not_null payload
    then pty ← Js.get payload "type"; Some (is_string pty "log")
    else Some false
  else Some false.

(** *** ScriptServices *)

Definition reading {S E A} (o : option A) : M S E A :=
  match o with
  | Some a => ret a
  | None => throw (TypeError "cannot read properties of null or undefined")
  end.

(** The closure stored in [pendingRequests[strId]], called with
    [(error, result)]; [p] is the promise whose [resolve] and [reject] it
    has captured. *)
Definition completionHandler (strId : string) (p : nat)
    (error : option Js.Error) (result : value) : M t effect unit :=
  modify (fun s => set_pendingRequests (delete strId (pendingRequests s)) s) ;;;
  match error with
  | Some e => tell (Rejected p e)
  | None => tell (Resolved p result)
  end.

(** [pendingRequests] is an object literal: a key it does not own is
    looked up in [Object.prototype]. What the members found there do when
    [onRpcMessage] calls them as [f(error, result)], with no receiver. *)
Inductive inherited : Type :=
| Returns           (* [constructor], [toString] *)
| ReturnsOnNull     (* [isPrototypeOf]: [false] when [error] is [null], else it needs [this] *)
| NeedsThis         (* the other methods convert [this] to an object first *)
| NotAFunction.     (* [__proto__] is the prototype itself *)

Definition Object_prototype (key : string) : option inherited :=
  if bool_decide (key = "constructor") then Some Returns
  else if bool_decide (key = "toString") then Some Returns
  else if bool_decide (key = "isPrototypeOf") then Some ReturnsOnNull
  else if bool_decide (key = "__proto__") then Some NotAFunction
  else if bool_decide (key = "hasOwnProperty") then Some NeedsThis
  else if bool_decide (key = "propertyIsEnumerable") then Some NeedsThis
  else if bool_decide (key = "toLocaleString") then Some NeedsThis
  else if bool_decide (key = "valueOf") then Some NeedsThis
  else if bool_decide (key = "__defineGetter__") then Some NeedsThis
  else if bool_decide (key = "__defineSetter__") then Some NeedsThis
  else if bool_decide (key = "__lookupGetter__") then Some NeedsThis
  else if bool_decide (key = "__lookupSetter__") then Some NeedsThis
  else None.

Definition inheritedHandler (f : inherited)
    (error : option Js.Error) (result : value) : M t effect unit :=
  match f, error with
  | Returns, _ | ReturnsOnNull, None => ret tt
  | NotAFunction, _ => throw (TypeError "completionHandler is not a function")
  | _, _ => throw (TypeError "cannot convert undefined or null to object")
  end.

(** [id.toString()]: [null] and [undefined] have no properties; the
    method found on another value may be no function, or may throw. *)
Definition callToString (id : value) : M t effect string :=
  match id with
  | Undefined | Null => reading None
  | _ => converting (Js.toString id)
  end.

(** [error] and [result] are built before the handler found is called;
    [new Error(message)] converts [message] and can throw. *)
Definition onRpcMessage (id operation : value) (params : list value)
    (data : option (list Z)) : M t effect unit :=
  strId <- callToString id ;;
  s <- get ;;
  let found :=
    match pendingRequests s !! strId with
    | Some p => Some (completionHandler strId p)
    | None => inheritedHandler <$> Object_prototype strId
    end in
  match found with
  | None => ret tt
  | Some handler =>
      if is_string operation "ok" then
        handler None (nth 0 params Undefined)
      else if is_string operation "error" then
        message <- converting (newError (nth 0 params Undefined)) ;;
        handler (Some (mkError message
                               (nth 1 params Undefined)
                               (nth 2 params Undefined)))
                Undefined
      else
        handler None Undefined
  end.

Section runtime.
Context {runtime_console : Console}.

(** [function log(level, text)]: [console[level]] converts [level] to a
    property key; the template literal converts [text]; then the member
    found, or [console.log] when it is falsy, is called. *)
Definition log (level text : value) : M t effect unit :=
  key <- converting (Js.String level) ;;
  let method := match console key with Absent => "log" | _ => key end in
  line <- converting (Js.String text) ;;
  match console method with
  | Function call =>
      tell (ConsoleCall method ("[Script] " +:+ line)) ;;;
      match call ("[Script] " +:+ line) with
      | None => ret tt
      | Some e => throw e
      end
  | _ => throw (TypeError "fn is not a function")
  end.

(** [this.script.logHandler(level, text)]: the function [log] of the
    module until the user sets a handler of their own. *)
Definition callLogHandler (h : nat) (level text : value) : M t effect unit :=
  if bool_decide (h = defaultLogHandler) then log level text
  else tell (CallLogHandler h level text).

Definition onMessage (message : value) (data : option (list Z))
    : M t effect unit :=
  ty <- reading (Js.get message "type") ;;
  rpc <- (if is_string ty MessageType_Send
          then reading (isRpcSendMessage message)
          else ret false) ;;
  if (rpc : bool) then
    payload <- reading (Js.get message "payload") ;;
    onRpcMessage (index payload 1) (index payload 2) (rest payload 3) data
  else
    islog <- reading (isLogMessage message) ;;
    if (islog : bool) then
      level <- reading (Js.get message "level") ;;
      payload <- reading (Js.get message "payload") ;;
      s <- get ;;
      callLogHandler (_logHandlerImpl s) level payload
    else ret tt.

(** [getProxy(name, userHandler)]: a proxy for "message", [null] for
    every other signal. *)
Definition getProxy (name : string) (userHandler : nat) : option listener :=
  if bool_decide (name = "message") then Some (MessageProxy userHandler)
  else None.

(** The body of the proxy. *)
Definition messageProxy (userHandler : nat) (a : args) : M t effect unit :=
  match a with
  | MessageArgs message data =>
      internal <- reading (isInternalMessage message) ;;
      if (internal : bool) then ret tt
      else tell (CallHandler userHandler (MessageArgs message data))
  | NoArgs =>
      (* called without arguments, [message] is [undefined] *)
      _ <- reading (isInternalMessage Undefined) ;; ret tt
  end.

Definition onDestroyed : M t effect unit :=
  modify (fun s => set_events (Emitter.removeListener "destroyed" OnDestroyed (_events s)) s) ;;;
  modify (fun s => set_events (Emitter.removeListener "message" OnMessage (_events s)) s).

(** What calling a listener with the arguments of [emit] does. For the
    once-wrapper: the wrapped listener, then [removeListener]. *)
Definition call (event : string) (a : args) (l : listener) : M t effect unit :=
  match l with
  | OnDestroyed => onDestroyed
  | OnMessage =>
      match a with
      | MessageArgs message data => onMessage message data
      | NoArgs => onMessage Undefined None
      end
  | SessionOnce handle =>
      tell (RegistryDelete handle) ;;;
      modify (fun s => set_events (Emitter.removeListener event (SessionOnce handle) (_events s)) s)
  | Handler h => tell (CallHandler h a)
  | MessageProxy h => messageProxy h a
  end.

(** [this._events.emit(event, ...args)] *)
Definition emit (event : string) (a : args) : M t effect unit :=
  forEach (fun s => Emitter.listenersOf event (_events s)) (call event a).

Definition _destroy : M t effect unit :=
  s <- get ;;
  match _state s with
  | destroyed => ret tt
  | created =>
      modify (set_state destroyed) ;;;
      emit "destroyed" NoArgs
  end.

Definition _dispatchMessage (message : value) (data : option (list Z))
    : M t effect unit :=
  emit "message" (MessageArgs message data).

End runtime.

(** [script.logHandler = handler] *)
Definition setLogHandler (handler : nat) : M t effect unit :=
  modify (set_logHandler handler).

Section posting.
(** [JSON.stringify] of the runtime. *)
Variable JSON_stringify : value → string.

(** [post(message, data)]: [data] is the bytes of the ArrayBuffer, or
    [None] for [null]. *)
Definition post (message : value) (data : option (list Z)) : M t effect unit :=
  s <- get ;;
  tell (PostToAgent
          (mkRecord AgentMessageKind_Script (_id s) (JSON_stringify message)
                    (bool_decide (is_Some data)) (default [] data))).

(** [request(operation, params)]; [p] is the promise it creates, whose
    executor runs at once. *)
Definition request (p : nat) (operation : string) (params : list value)
    : M t effect unit :=
  s <- get ;;
  let id := nextRequestId s in
  modify (set_nextRequestId (id + 1)) ;;;
  modify (fun s => set_pendingRequests (<[pretty id := p]> (pendingRequests s)) s) ;;;
  post (Arr (Str rpc_marker :: Num id :: Str operation :: params)) None.

(** [script.exports.name(...args)] *)
Definition exportsCall (p : nat) (name : string) (args : list value)
    : M t effect unit :=
  request p "call" [Str name; Arr args].
End posting.

(** Modelled from the spec: [signals.ts] ([Signal], [SignalAdapter]) is
    not among the sources. [script.message.connect(h)] and
    [script.destroyed.connect(h)] reach [SignalAdapter.addListener], which
    subscribes to the emitter the proxy that [getProxy] returns, or the
    handler itself when [getProxy] returns [null] (section 4.6: user
    handlers sit behind the classification of the Script). *)
Definition connect (name : string) (userHandler : nat) : M t effect unit :=
  match getProxy name userHandler with
  | Some proxy =>
      modify (fun s => set_events (Emitter.addListener name proxy (_events s)) s)
  | None =>
      modify (fun s => set_events (Emitter.addListener name (Handler userHandler) (_events s)) s)
  end.

End Script.

(** ** A JavaScript [Map] whose iteration order matters

    Keys in insertion order; [set] on a key that is present keeps its
    place. *)

Module JsMap.

Section jsmap.
Context {K V : Type} `{EqDecision K}.

Fixpoint get (k : K) (m : list (K * V)) : option V :=
  match m with
  | [] => None
  | (k', v) :: rest => if decide (k' = k) then Some v else get k rest
  end.

Fixpoint set (k : K) (v : V) (m : list (K * V)) : list (K * V) :=
  match m with
  | [] => [(k, v)]
  | (k', v') :: rest =>
      if decide (k' = k) then (k', v) :: rest else (k', v') :: set k v rest
  end.

Fixpoint delete (k : K) (m : list (K * V)) : list (K * V) :=
  match m with
  | [] => []
  | (k', v') :: rest =>
      if decide (k' = k) then rest else (k', v') :: delete k rest
  end.

Definition keys (m : list (K * V)) : list K := fst <$> m.
Definition values (m : list (K * V)) : list V := snd <$> m.
End jsmap.

End JsMap.

(** ** session.ts *)

Module Session.
Import Js Eff Protocol.

Inductive state : Type := attached | interrupted | detached.

Global Instance state_eq_dec : EqDecision state.
Proof. solve_decision. Defined.

Inductive SessionDetachReason : Type :=
| ApplicationRequested
| ProcessReplaced
| ProcessTerminated
| ServerTerminated
| DeviceLost
| ConnectionTerminated.

(** The string each member of the enum stands for. *)
Definition reason_string (r : SessionDetachReason) : string :=
  match r with
  | ApplicationRequested => "application-requested"
  | ProcessReplaced => "process-replaced"
  | ProcessTerminated => "process-terminated"
  | ServerTerminated => "server-terminated"
  | DeviceLost => "device-lost"
  | ConnectionTerminated => "connection-terminated"
  end.

(** [crash.ts] is not among the sources; a [Crash] is only passed on. *)
Inductive Crash : Type := crash (token : nat).

(** [interface PendingMessage] *)
Record PendingMessage : Type := mkPending {
  serial : Z;
  record : AgentMessageRecord;
}.

(** A [Variant] of [rawOptions]: signature and value. *)
Definition VariantDict : Type := list (string * (string * value)).

(** [interface ScriptOptions] *)
Record ScriptOptions : Type := mkOptions {
  opt_name : option string;
  opt_runtime : option string;
}.

(** The calls the Session makes on [_activeSession]. *)
Inductive request : Type :=
| Close
| ResumeReq (rxBatchId : Z)
| CreateScriptReq (source : string) (options : VariantDict)
| PostMessages (records : list AgentMessageRecord) (batchId : Z).

(** A call made on [_activeSession] and the state of the promise it
    returned. *)
Record call : Type := mkCall {
  req : request;
  status : promise;
}.

(** The closures in the emitter of a Session. *)
Inductive listener : Type :=
| Handler (h : nat)    (* a handler of the user *)
| ClientOnce.          (* once-wrapper of Client.attach *)

Global Instance listener_eq_dec : EqDecision listener.
Proof. solve_decision. Defined.

(** The asynchronous methods, for the promise each returns. *)
Inductive operation : Type := OpDetach | OpResume | OpCreateScript.

Inductive effect : Type :=
| OfScript (ref : nat) (e : Script.effect)   (* what a Script did *)
| CallDetached (h : nat) (reason : SessionDetachReason) (c : option Crash)
| ForgetSession                              (* Client._sessions.delete *)
| Completed (op : operation) (result : option nat)  (* its promise is fulfilled *)
| Failed (op : operation).                          (* its promise is rejected *)

(** The fields of [Session], the Script objects it has created ([heap];
    a Script is an index into it, since the caller holds the same
    object) and the calls made on [_activeSession], oldest first. *)
Record t : Type := mk {
  _state : state;
  _lastRxBatchId : Z;
  _pendingMessages : list PendingMessage;
  _nextSerial : Z;
  _pendingDeliveries : Z;
  _scripts : list (Z * nat);
  _events : gmap string (list listener);
  heap : list Script.t;
  calls : list call;
}.

Definition set_state (x : state) (w : t) : t :=
  mk x (_lastRxBatchId w) (_pendingMessages w) (_nextSerial w)
     (_pendingDeliveries w) (_scripts w) (_events w) (heap w) (calls w).
Definition set_lastRxBatchId (x : Z) (w : t) : t :=
  mk (_state w) x (_pendingMessages w) (_nextSerial w)
     (_pendingDeliveries w) (_scripts w) (_events w) (heap w) (calls w).
Definition set_pendingMessages (x : list PendingMessage) (w : t) : t :=
  mk (_state w) (_lastRxBatchId w) x (_nextSerial w)
     (_pendingDeliveries w) (_scripts w) (_events w) (heap w) (calls w).
Definition set_nextSerial (x : Z) (w : t) : t :=
  mk (_state w) (_lastRxBatchId w) (_pendingMessages w) x
     (_pendingDeliveries w) (_scripts w) (_events w) (heap w) (calls w).
Definition set_pendingDeliveries (x : Z) (w : t) : t :=
  mk (_state w) (_lastRxBatchId w) (_pendingMessages w) (_nextSerial w)
     x (_scripts w) (_events w) (heap w) (calls w).
Definition set_scripts (x : list (Z * nat)) (w : t) : t :=
  mk (_state w) (_lastRxBatchId w) (_pendingMessages w) (_nextSerial w)
     (_pendingDeliveries w) x (_events w) (heap w) (calls w).
Definition set_events (x : gmap string (list listener)) (w : t) : t :=
  mk (_state w) (_lastRxBatchId w) (_pendingMessages w) (_nextSerial w)
     (_pendingDeliveries w) (_scripts w) x (heap w) (calls w).
Definition set_heap (x : list Script.t) (w : t) : t :=
  mk (_state w) (_lastRxBatchId w) (_pendingMessages w) (_nextSerial w)
     (_pendingDeliveries w) (_scripts w) (_events w) x (calls w).
Definition set_calls (x : list call) (w : t) : t :=
  mk (_state w) (_lastRxBatchId w) (_pendingMessages w) (_nextSerial w)
     (_pendingDeliveries w) (_scripts w) (_events w) (heap w) x.

(** [new Session(...)] *)
Definition new : t := mk attached 0 [] 1 0 [] ∅ [] [].

(** Calling a method of [_activeSession]: the call goes out and its
    promise is pending. *)
Definition issue (r : request) : M t effect unit :=
  modify (fun w => set_calls (calls w ++ [mkCall r Pending]) w).

(** *** Outbound messages *)

Definition _deliverPendingMessages : M t effect unit :=
  w <- get ;;
  if bool_decide (_pendingDeliveries w > 0) then ret tt
  else
    let messages := _pendingMessages w in
    if bool_decide (length messages = 0%nat) then ret tt
    else
      match messages !! (length messages - 1)%nat with
      | None => ret tt
      | Some lastMessage =>
          let batchId := serial lastMessage in
          let records := record <$> messages in
          modify (set_pendingMessages []) ;;;
          modify (fun w => set_pendingDeliveries (_pendingDeliveries w + 1) w) ;;;
          issue (PostMessages records batchId)
      end.

Definition _postToAgent (r : AgentMessageRecord) : M t effect unit :=
  modify (fun w => set_pendingMessages
                     (_pendingMessages w ++ [mkPending (_nextSerial w) r]) w) ;;;
  modify (fun w => set_nextSerial (_nextSerial w + 1) w) ;;;
  _deliverPendingMessages.

(** *** Scripts of the Session *)

(** What a Script did reaches the Session: the once-listener of
    [createScript] deletes from [_scripts], [post] calls
    [_postToAgent]; the rest goes to the outside. *)
Definition scriptEffect (ref : nat) (e : Script.effect) : M t effect unit :=
  match e with
  | Script.RegistryDelete handle =>
      modify (fun w => set_scripts (JsMap.delete handle (_scripts w)) w)
  | Script.PostToAgent r => _postToAgent r
  | _ => tell (OfScript ref e)
  end.

(** Run a method of the Script object [ref]. *)
Definition onScript {A} (ref : nat) (m : M Script.t Script.effect A)
    : M t effect (option A) :=
  w <- get ;;
  match heap w !! ref with
  | None => ret None
  | Some s =>
      match m s with
      | (s', es, r) =>
          modify (fun w => set_heap (<[ref := s']> (heap w)) w) ;;;
          for_of es (scriptEffect ref) ;;;
          match r with
          | Ret a => ret (Some a)
          | Throw e => throw e
          end
      end
  end.

Section runtime.
Context {runtime_console : Console}.

(** [for (const script of this._scripts.values()) script._destroy()]:
    the iteration is over the Map itself, so an entry deleted before its
    turn is not visited. [keys] are the keys at the start. *)
Fixpoint destroyScripts (keys : list Z) : M t effect unit :=
  match keys with
  | [] => ret tt
  | k :: more =>
      w <- get ;;
      match JsMap.get k (_scripts w) with
      | Some ref => onScript ref Script._destroy ;;; destroyScripts more
      | None => destroyScripts more
      end
  end.

(** What calling a listener of the Session's emitter does. *)
Definition callListener (event : string) (reason : SessionDetachReason)
    (c : option Crash) (l : listener) : M t effect unit :=
  match l with
  | Handler h => tell (CallDetached h reason c)
  | ClientOnce =>
      tell ForgetSession ;;;
      modify (fun w => set_events (Emitter.removeListener event ClientOnce (_events w)) w)
  end.

(** [this._events.emit("detached", reason, crash)] *)
Definition emitDetached (reason : SessionDetachReason) (c : option Crash)
    : M t effect unit :=
  forEach (fun w => Emitter.listenersOf "detached" (_events w))
          (callListener "detached" reason c).

(** *** The methods, up to their first [await] *)

Definition detach : M t effect unit :=
  w <- get ;;
  if bool_decide (_state w = detached) then tell (Completed OpDetach None)
  else
    modify (set_state detached) ;;;
    w <- get ;;
    destroyScripts (JsMap.keys (_scripts w)) ;;;
    modify (set_scripts []) ;;;
    issue Close.

Definition resume : M t effect unit :=
  w <- get ;;
  if bool_decide (_state w ≠ interrupted) then tell (Completed OpResume None)
  else
    modify (set_state attached) ;;;
    w <- get ;;
    issue (ResumeReq (_lastRxBatchId w)).

Definition rawOptions (options : ScriptOptions) : VariantDict :=
  match opt_name options with
  | Some n => [("name", ("s", Str n))]
  | None => []
  end ++
  match opt_runtime options with
  | Some r => [("runtime", ("s", Str r))]
  | None => []
  end.

Definition createScript (source : string) (options : ScriptOptions)
    : M t effect unit :=
  issue (CreateScriptReq source (rawOptions options)).

Definition _onDetached (reason : SessionDetachReason) (c : option Crash)
    : M t effect unit :=
  w <- get ;;
  if bool_decide (_state w = detached) then ret tt
  else
    modify (set_state detached) ;;;
    w <- get ;;
    destroyScripts (JsMap.keys (_scripts w)) ;;;
    modify (set_scripts []) ;;;
    emitDetached reason c.

Section inbound.
(** [JSON.parse] of the runtime; [None] is its SyntaxError. *)
Variable JSON_parse : string → option value.

Definition dispatchRecord (r : AgentMessageRecord) : M t effect unit :=
  w <- get ;;
  match JsMap.get (scriptId r) (_scripts w) with
  | None => ret tt
  | Some ref =>
      match JSON_parse (text r) with
      | None => ret tt
      | Some message =>
          let binaryData :=
            if hasData r then Some (Uint8Array (data r)) else None in
          _ <- onScript ref (Script._dispatchMessage message binaryData) ;;
          ret tt
      end
  end.

Definition _dispatchMessages (messages : list AgentMessageRecord)
    (batchId : Z) : M t effect unit :=
  modify (set_lastRxBatchId batchId) ;;;
  for_of messages dispatchRecord.

(** [this._sink.postMessages(messages, batchId)], whose handler is
    [_dispatchMessages] *)
Definition _handleIncomingMessages (messages : list AgentMessageRecord)
    (batchId : Z) : M t effect unit :=
  _dispatchMessages messages batchId.
End inbound.

(** *** After an [await]: the promise of a call settles *)

Inductive reply : Type :=
| Resolve (v : Z)     (* the value, for the calls that have one *)
| Reject.

(** The tail of [createScript]. *)
Definition scriptCreated (id : Z) : M t effect unit :=
  w <- get ;;
  let ref := length (heap w) in
  modify (fun w => set_heap (heap w ++ [Script.new id]) w) ;;;
  modify (fun w => set_scripts (JsMap.set id ref (_scripts w)) w) ;;;
  _ <- onScript ref
         (modify (fun s => Script.set_events
                    (Emitter.addListener "destroyed" (Script.SessionOnce id)
                       (Script._events s)) s)) ;;
  tell (Completed OpCreateScript (Some ref)).

Definition continuation (r : request) (rep : reply) : M t effect unit :=
  match r, rep with
  | PostMessages _ _, Resolve _ =>
      modify (fun w => set_pendingDeliveries (_pendingDeliveries w - 1) w) ;;;
      _deliverPendingMessages
  | PostMessages _ _, Reject =>
      modify (fun w => set_pendingDeliveries (_pendingDeliveries w - 1) w)
  | Close, _ =>
      (* try { await close() } catch (error) { } *)
      emitDetached ApplicationRequested None ;;;
      tell (Completed OpDetach None)
  | ResumeReq _, Resolve v =>
      modify (set_lastRxBatchId v) ;;;
      _deliverPendingMessages ;;;
      tell (Completed OpResume None)
  | ResumeReq _, Reject => tell (Failed OpResume)
  | CreateScriptReq _ _, Resolve id => scriptCreated id
  | CreateScriptReq _ _, Reject => tell (Failed OpCreateScript)
  end.

Definition outcome (rep : reply) : promise :=
  match rep with Resolve _ => Fulfilled | Reject => Rejected end.

(** The promise of call [i] settles: possible once, while it is
    pending. *)
Definition settle (i : nat) (rep : reply) (w : t)
    : option (t * list effect * result unit) :=
  match calls w !! i with
  | Some (mkCall r Pending) =>
      Some ((modify (fun w => set_calls (<[i := mkCall r (outcome rep)]> (calls w)) w) ;;;
             continuation r rep) w)
  | _ => None
  end.

(** Modelled from the spec: [signals.ts] ([Signal]) is not among the
    sources. [session.detached.connect(h)] subscribes the handler to the
    emitter of the Session, which is the source of that signal (section 4.5:
    a detach notification is emitted to the handlers). *)
Definition subscribe (h : nat) : M t effect unit :=
  modify (fun w => set_events (Emitter.addListener "detached" (Handler h) (_events w)) w).

(** *** What can happen to a Session *)

Inductive event : Type :=
| Detach
| Resume
| CreateScript (source : string) (options : ScriptOptions)
| PostToAgent (r : AgentMessageRecord)
| HandleIncoming (messages : list AgentMessageRecord) (batchId : Z)
| OnDetached (reason : SessionDetachReason) (c : option Crash)
| Settle (i : nat) (rep : reply)
| Subscribe (h : nat)                               (* session.detached.connect(h) *)
| ScriptConnect (ref : nat) (name : string) (h : nat).
    (* script.message.connect(h), script.destroyed.connect(h) *)

Section run.
Variable JSON_parse : string → option value.

(** [None]: the event cannot happen in this state (a promise settles
    once; a Script has the two signals "message" and "destroyed"). *)
Definition step (e : event) (w : t) : option (t * list effect * result unit) :=
  match e with
  | Detach => Some (detach w)
  | Resume => Some (resume w)
  | CreateScript source options => Some (createScript source options w)
  | PostToAgent r => Some (_postToAgent r w)
  | HandleIncoming messages batchId =>
      Some (_handleIncomingMessages JSON_parse messages batchId w)
  | OnDetached reason c => Some (_onDetached reason c w)
  | Settle i rep => settle i rep w
  | Subscribe h => Some (subscribe h w)
  | ScriptConnect ref name h =>
      if bool_decide (name = "message" ∨ name = "destroyed")
      then Some ((_ <- onScript ref (Script.connect name h) ;; ret tt) w)
      else None
  end.

(** The events of a list, one after the other; an exception ends the
    event it was thrown in (the caller of the handler catches it) and
    the next event finds the state as it was left. *)
Fixpoint run (es : list event) (w : t) : option (t * list effect) :=
  match es with
  | [] => Some (w, [])
  | e :: more =>
      match step e w with
      | None => None
      | Some (w1, out1, _) =>
          match run more w1 with
          | None => None
          | Some (w2, out2) => Some (w2, out1 ++ out2)
          end
      end
  end.
End run.

End runtime.

(** *** What the outside has seen of the outbound queue *)

(** The [postMessages] calls made so far, oldest first. *)
Definition batch_of (c : call) : option (list AgentMessageRecord * Z) :=
  match req c with
  | PostMessages records batchId => Some (records, batchId)
  | _ => None
  end.

Definition postMessages_calls (w : t) : list (list AgentMessageRecord * Z) :=
  omap batch_of (calls w).

Definition is_delivery (c : call) : bool :=
  match req c, status c with
  | PostMessages _ _, Pending => true
  | _, _ => false
  end.

(** The [postMessages] calls whose promise is pending. *)
Definition in_flight (w : t) : list call := List.filter is_delivery (calls w).

End Session.

(** ** The Bus: class BrowserDBusClient *)

Module Bus.
Import Js Eff.

(** A message as [parseMessages] hands it over, with the fields that
    [handleMessage] reads. *)
Inductive message : Type :=
| MethodCall (serial : Z)
| MethodReturn (serial : Z) (args : option (list value))
| Error (serial : Z) (errorName : value) (args : option (list value))
| Signal (serial : Z) (objectPath interfaceName memberName : string)
         (args : option (list value)).

(** The method call that [callMethod] builds; [types] is the signature
    given to [parseTypes], [None] when the code sets none. *)
Record outgoing : Type := mkOutgoing {
  serial : Z;
  destination : string;
  objectPath : string;
  interfaceName : string;
  memberName : string;
  types : option string;
  args : option (list value);
}.

(** What a promise is rejected with. *)
Inductive rejection : Type :=
| ErrorWith (message : string)     (* new Error(message) *)
| Thrown (e : Js.exn).             (* an exception inside the async function *)

Inductive effect : Type :=
| Resolved (p : nat) (result : option (list value))
| Rejected (p : nat) (r : rejection)
| CallSignalHandler (h : nat) (args : option (list value))
| LogError.                        (* console.error in the catch of handleMessage *)

(** The fields of the Bus, the buffers it has passed to [ws.send], the
    timers it has set and not yet run, and the clock, in milliseconds.
    In [pendingCalls] a number stands for the pair of [resolve] and
    [reject] of that promise. *)
Record timer : Type := mkTimer {
  due : Z;             (* the time from which the callback may run *)
  timer_serial : Z;    (* [serial] captured by the callback *)
  timer_promise : nat; (* the promise whose [reject] it has captured *)
}.

Record t : Type := mk {
  serialCounter : Z;
  pendingCalls : gmap Z nat;
  signalHandlers : gmap string (list nat);
  sent : list (list Z);
  timers : list timer;
  now : Z;
}.

Definition set_serialCounter (x : Z) (b : t) : t :=
  mk x (pendingCalls b) (signalHandlers b) (sent b) (timers b) (now b).
Definition set_pendingCalls (x : gmap Z nat) (b : t) : t :=
  mk (serialCounter b) x (signalHandlers b) (sent b) (timers b) (now b).
Definition set_signalHandlers (x : gmap string (list nat)) (b : t) : t :=
  mk (serialCounter b) (pendingCalls b) x (sent b) (timers b) (now b).
Definition set_sent (x : list (list Z)) (b : t) : t :=
  mk (serialCounter b) (pendingCalls b) (signalHandlers b) x (timers b) (now b).
Definition set_timers (x : list timer) (b : t) : t :=
  mk (serialCounter b) (pendingCalls b) (signalHandlers b) (sent b) x (now b).
Definition set_now (x : Z) (b : t) : t :=
  mk (serialCounter b) (pendingCalls b) (signalHandlers b) (sent b) (timers b) x.

(** [new BrowserDBusClient(ws)] at time [clock] *)
Definition new (clock : Z) : t := mk 1 ∅ ∅ [] [] clock.

Definition signalKey (objectPath interfaceName memberName : string) : string :=
  objectPath +:+ ":" +:+ interfaceName +:+ ":" +:+ memberName.

Definition addSignalListener (objectPath interfaceName memberName : string)
    (handler : nat) : M t effect unit :=
  modify (fun b => set_signalHandlers
    (Emitter.addListener (signalKey objectPath interfaceName memberName)
       handler (signalHandlers b)) b).

Definition removeSignalListener (objectPath interfaceName memberName : string)
    (handler : nat) : M t effect unit :=
  modify (fun b => set_signalHandlers
    (Emitter.removeListener (signalKey objectPath interfaceName memberName)
       handler (signalHandlers b)) b).

(** *** handleMessage *)

(** [x || 'Unknown error'] *)
Definition falsy (v : value) : bool :=
  match v with
  | Undefined | Null | Bool false | Num 0 | Str "" => true
  | _ => false
  end.

(** [errorMsg.args?.[0]] *)
Definition firstArg (args : option (list value)) : value :=
  match args with
  | Some l => nth 0 l Undefined
  | None => Undefined
  end.

(** The template literal of the Error branch; [None] when converting
    one of its two values throws. *)
Definition errorText (errorName : value) (args : option (list value))
    : option string :=
  match Js.String errorName with
  | None => None
  | Some name =>
      match (if falsy (firstArg args) then Some "Unknown error"
             else Js.String (firstArg args)) with
      | None => None
      | Some detail => Some ("D-Bus Error: " +:+ name +:+ " - " +:+ detail)
      end
  end.

Definition handleOne (msg : message) : M t effect unit :=
  match msg with
  | MethodReturn serial args =>
      b <- get ;;
      match pendingCalls b !! serial with
      | Some p =>
          modify (fun b => set_pendingCalls (delete serial (pendingCalls b)) b) ;;;
          tell (Resolved p args)
      | None => ret tt
      end
  | Error serial errorName args =>
      b <- get ;;
      match pendingCalls b !! serial with
      | Some p =>
          modify (fun b => set_pendingCalls (delete serial (pendingCalls b)) b) ;;;
          text <- converting (errorText errorName args) ;;
          tell (Rejected p (ErrorWith text))
      | None => ret tt
      end
  | Signal _ objectPath interfaceName memberName args =>
      forEach (fun b => Emitter.listenersOf
                          (signalKey objectPath interfaceName memberName)
                          (signalHandlers b))
              (fun handler =>
                 (* try { handler(args) } catch (error) { console.error } *)
                 tell (CallSignalHandler handler args))
  | MethodCall _ => ret tt
  end.

(** [parsed] is what [parseMessages(messageData)] returned, [None] when
    it threw. The [try] spans the whole body: an exception in the loop
    ends the loop and is logged like a failure to parse. The calls of
    [console.log] and [console.error] in the body are taken to return. *)
Definition handleMessage (parsed : option (list message)) : M t effect unit :=
  match parsed with
  | Some messages =>
      try_catch (for_of messages handleOne) (fun _ => tell LogError)
  | None => tell LogError
  end.

(** *** callMethod *)

(** [Object.entries(v)]; a TypeError on [null] and [undefined]. *)
Definition Object_entries (v : value) : option (list (string * value)) :=
  match v with
  | Undefined | Null => None
  | Obj props => Some props
  | Arr l => Some (imap (fun i x => (pretty i, x)) l)
  | Str s =>
      Some (imap (fun i c => (pretty i, Str (String.String c "")))
                 (String.list_ascii_of_string s))
  | Bool _ | Num _ => Some []
  end.

(** [convertedOptions.push([key, [v.signature, v.value]])] for every
    entry *)
Fixpoint convertOptions (entries : list (string * value)) : option (list value) :=
  match entries with
  | [] => Some []
  | (key, v) :: more =>
      sig ← Js.get v "signature";
      val ← Js.get v "value";
      rest ← convertOptions more;
      Some (Arr [Str key; Arr [sig; val]] :: rest)
  end.

(** The branch shared by "Attach" and "CreateScript". *)
Definition withOptions (args : option (list value)) : option (option (list value)) :=
  match args with
  | Some (first :: variantDict :: _) =>
      entries ← Object_entries variantDict;
      converted ← convertOptions entries;
      Some (Some [first; Arr converted])
  | _ => Some args
  end.

(** The branch shared by "LoadScript" and "DestroyScript":
    [message.args = [args[0]]], and no [args] at all without a first
    argument. *)
Definition nestedStruct (args : option (list value)) : option (list value) :=
  match args with
  | Some (scriptIdTuple :: _) => Some [scriptIdTuple]
  | _ => None
  end.

(** The signature and [message.args] for a member, as the branches of
    [callMethod] prepare them; the outer [None] is the TypeError that the
    conversion of the options can throw. What [parseTypes] makes of the
    signature is left to the codec. *)
Definition adapt (memberName : string) (args : option (list value))
    : option (option string * option (list value)) :=
  if bool_decide (memberName = "EnumerateProcesses") then
    Some (Some "a{sv}", Some [Arr []])
  else if bool_decide (memberName = "Attach") then
    a ← withOptions args; Some (Some "ua{sv}", a)
  else if bool_decide (memberName = "CreateScript") then
    a ← withOptions args; Some (Some "sa{sv}", a)
  else if bool_decide (memberName = "LoadScript") then
    Some (Some "((u))", nestedStruct args)
  else if bool_decide (memberName = "DestroyScript") then
    Some (Some "((u))", nestedStruct args)
  else if bool_decide (memberName = "PostMessages") then
    Some (Some "aau", args)
  else if bool_decide (memberName = "Resume") then
    Some (Some "u", args)
  else if bool_decide (memberName = "Close") then
    Some (Some "", Some (default [] args))
  else
    match args with
    | Some (_ :: _) => Some (None, args)
    | _ => Some (None, None)
    end.

(** The delay given to [setTimeout]. *)
Definition callTimeout : Z := 30000.

Section codec.
(** The codec, from the message that [callMethod] has prepared to the
    buffer: [parseTypes] of the signature in [types], then
    [serializeMessage] of the message; [None] when one of the two throws,
    be it that the signature is not one that [parseTypes] accepts or that
    [args] do not fit it. *)
Variable serializeMessage : outgoing → option (list Z).

(** [callMethod(destination, objectPath, interfaceName, memberName,
    args)]; [p] is the promise that the call returns. An exception in
    the body of the async function rejects that promise. *)
Definition callMethod (p : nat)
    (destination objectPath interfaceName memberName : string)
    (args : option (list value)) : M t effect unit :=
  b <- get ;;
  let serial := serialCounter b in
  modify (set_serialCounter (serial + 1)) ;;;
  match adapt memberName args with
  | None => tell (Rejected p (Thrown (TypeError "cannot read properties of null or undefined")))
  | Some (types, margs) =>
      let message :=
        mkOutgoing serial destination objectPath interfaceName memberName
                   types margs in
      match serializeMessage message with
      | None => tell (Rejected p (Thrown (External "serializeMessage")))
      | Some buffer =>
          modify (fun b => set_sent (sent b ++ [buffer]) b) ;;;
          modify (fun b => set_pendingCalls (<[serial := p]> (pendingCalls b)) b) ;;;
          modify (fun b => set_timers
                     (timers b ++ [mkTimer (now b + callTimeout) serial p]) b)
      end
  end.
End codec.

(** The callback given to [setTimeout], for the call [serial] and its
    promise [p] *)
Definition onTimeout (serial : Z) (p : nat) : M t effect unit :=
  b <- get ;;
  if bool_decide (is_Some (pendingCalls b !! serial)) then
    modify (fun b => set_pendingCalls (delete serial (pendingCalls b)) b) ;;;
    tell (Rejected p (ErrorWith "D-Bus call timeout"))
  else ret tt.

(** *** What can happen to a Bus *)

Inductive event : Type :=
| Call (p : nat) (destination objectPath interfaceName memberName : string)
       (args : option (list value))
| Receive (messageData : list Z)     (* a 'message' of the transport *)
| Advance (dt : Z)                   (* time passes *)
| Timeout (k : nat)                  (* the k-th timer runs *)
| AddSignalListener (objectPath interfaceName memberName : string) (h : nat)
| RemoveSignalListener (objectPath interfaceName memberName : string) (h : nat).

Section run.
Variable serializeMessage : outgoing → option (list Z).
(** [parseMessages] of the codec; [None] when it throws. *)
Variable parseMessages : list Z → option (list message).

(** [None]: the event cannot happen in this state. Time does not go
    back, and a timer runs once, not before it is due. *)
Definition step (e : event) (b : t) : option (t * list effect * result unit) :=
  match e with
  | Call p destination objectPath interfaceName memberName args =>
      Some (callMethod serializeMessage p destination objectPath
              interfaceName memberName args b)
  | Receive messageData =>
      Some (handleMessage (parseMessages messageData) b)
  | Advance dt =>
      if bool_decide (0 ≤ dt) then Some (modify (fun b => set_now (now b + dt) b) b)
      else None
  | Timeout k =>
      match timers b !! k with
      | Some tm =>
          if bool_decide (due tm ≤ now b) then
            Some ((modify (fun b => set_timers (delete k (timers b)) b) ;;;
                   onTimeout (timer_serial tm) (timer_promise tm)) b)
          else None
      | None => None
      end
  | AddSignalListener objectPath interfaceName memberName h =>
      Some (addSignalListener objectPath interfaceName memberName h b)
  | RemoveSignalListener objectPath interfaceName memberName h =>
      Some (removeSignalListener objectPath interfaceName memberName h b)
  end.

Fixpoint run (es : list event) (b : t) : option (t * list effect) :=
  match es with
  | [] => Some (b, [])
  | e :: more =>
      match step e b with
      | None => None
      | Some (b1, out1, _) =>
          match run more b1 with
          | None => None
          | Some (b2, out2) => Some (b2, out1 ++ out2)
          end
      end
  end.
End run.

End Bus.

(** ** The facades: BrowserHostSession and BrowserAgentSession

    Each method is a call of the Bus with a fixed destination, path and
    interface; what it passes as [args] is what matters here. [p] is the
    promise of the Bus call that the method awaits. *)

Module Facade.
Import Js Eff.

Section facade.
Variable serializeMessage : Bus.outgoing → option (list Z).

Definition hostCall (p : nat) (memberName : string) (args : option (list value))
    : M Bus.t Bus.effect unit :=
  Bus.callMethod serializeMessage p "re.frida.HostSession17"
    "/re/frida/HostSession" "re.frida.HostSession17" memberName args.

Definition agentCall (p : nat) (sessionId : string) (memberName : string)
    (args : option (list value)) : M Bus.t Bus.effect unit :=
  Bus.callMethod serializeMessage p "re.frida.AgentSession17"
    ("/re/frida/AgentSession/" +:+ sessionId) "re.frida.AgentSession17"
    memberName args.

Definition enumerateProcesses p := hostCall p "EnumerateProcesses" None.
Definition attach p (pid options : value) := hostCall p "Attach" (Some [pid; options]).
Definition reattach p (id : value) := hostCall p "Reattach" (Some [id]).
Definition querySystemParameters p := hostCall p "QuerySystemParameters" None.

Definition close p sessionId := agentCall p sessionId "Close" None.
Definition resume p sessionId (rxBatchId : value) :=
  agentCall p sessionId "Resume" (Some [rxBatchId]).
Definition createScript p sessionId (source options : value) :=
  agentCall p sessionId "CreateScript" (Some [source; options]).
Definition destroyScript p sessionId (scriptId : value) :=
  agentCall p sessionId "DestroyScript" (Some [scriptId]).
Definition loadScript p sessionId (scriptId : value) :=
  agentCall p sessionId "LoadScript" (Some [scriptId]).
Definition postMessages p sessionId (messages batchId : value) :=
  agentCall p sessionId "PostMessages" (Some [messages; batchId]).
End facade.

(** The argument list that [loadScript(scriptId)] and
    [destroyScript(scriptId)] pass to [callMethod]. *)
Definition scriptArgs (scriptId : value) : option (list value) := Some [scriptId].

(** [result[0]] of the methods that return a value; a TypeError when the
    reply has no argument list. *)
Definition firstResult (result : option (list value)) : option value :=
  match result with
  | Some l => Some (nth 0 l Undefined)
  | None => None
  end.

End Facade.

(** ** The Client and its connection *)

Module Client.
Import Js Eff.

Inductive readyState : Type := Connecting | Open | Closed.

Global Instance readyState_eq_dec : EqDecision readyState.
Proof. solve_decision. Defined.

(** The closures in the listeners of a [WebSocketWrapper]. *)
Inductive wsListener : Type :=
| OnceError          (* ws.once('error', reject) *)
| OnceClose          (* ws.once("close", ...) of the open handler *)
| BusHandleMessage.  (* ws.on('message', this.handleMessage.bind(this)) *)

Global Instance wsListener_eq_dec : EqDecision wsListener.
Proof. solve_decision. Defined.

Global Instance promise_eq_dec : EqDecision promise.
Proof. solve_decision. Defined.

(** One call of [_doGetHostConnection]: the [WebSocketWrapper] it
    creates, the promise it returns (fulfilled with [{ bus, session }] of
    this transport) and the Bus that its open handler builds. [authenticating] holds while the open handler waits for the
    "Authenticate" call. *)
Record attempt : Type := mkAttempt {
  ws_state : readyState;
  ws_listeners : gmap string (list wsListener);
  request : promise;
  bus : option Bus.t;
  authenticating : bool;
}.

Definition set_ws_state (x : readyState) (a : attempt) : attempt :=
  mkAttempt x (ws_listeners a) (request a) (bus a) (authenticating a).
Definition set_ws_listeners (x : gmap string (list wsListener)) (a : attempt) : attempt :=
  mkAttempt (ws_state a) x (request a) (bus a) (authenticating a).
Definition set_request (x : promise) (a : attempt) : attempt :=
  mkAttempt (ws_state a) (ws_listeners a) x (bus a) (authenticating a).
Definition set_bus (x : option Bus.t) (a : attempt) : attempt :=
  mkAttempt (ws_state a) (ws_listeners a) (request a) x (authenticating a).
Definition set_authenticating (x : bool) (a : attempt) : attempt :=
  mkAttempt (ws_state a) (ws_listeners a) (request a) (bus a) x.

(** [resolve] and [reject] of a promise do nothing once it is settled. *)
Definition settle (x : promise) (a : attempt) : attempt :=
  match request a with
  | Pending => set_request x a
  | _ => a
  end.

(** A Session object with its [id]; [pid] and [persistTimeout] are
    fields nothing reads. *)
Record sessionObject : Type := mkSessionObject {
  id : string;
  session : Session.t;
}.

(** The fields of [Client], every attempt made so far, oldest first
    (a connection request is an index into [attempts]), the Session
    objects created so far (a Session is an index into [sessions]), and
    the clock. *)
Record t : Type := mk {
  _token : option string;
  _hostConnectionRequest : option nat;
  _sessions : list (string * nat);
  attempts : list attempt;
  sessions : list sessionObject;
  clock : Z;
}.

Definition set_hostConnectionRequest (x : option nat) (c : t) : t :=
  mk (_token c) x (_sessions c) (attempts c) (sessions c) (clock c).
Definition set_sessions_map (x : list (string * nat)) (c : t) : t :=
  mk (_token c) (_hostConnectionRequest c) x (attempts c) (sessions c) (clock c).
Definition set_attempts (x : list attempt) (c : t) : t :=
  mk (_token c) (_hostConnectionRequest c) (_sessions c) x (sessions c) (clock c).
Definition set_sessions (x : list sessionObject) (c : t) : t :=
  mk (_token c) (_hostConnectionRequest c) (_sessions c) (attempts c) x (clock c).
Definition set_clock (x : Z) (c : t) : t :=
  mk (_token c) (_hostConnectionRequest c) (_sessions c) (attempts c) (sessions c) x.

(** [new Client(host, options)] at time [now] *)
Definition new (token : option string) (now : Z) : t :=
  mk token None [] [] [] now.

Inductive effect : Type :=
| Returned (k : nat)                         (* the caller follows attempt k *)
| OfBus (i : nat) (e : Bus.effect)
| OfSession (ref : nat) (e : Session.effect).

Definition onAttempt (i : nat) (f : attempt → attempt) : M t effect unit :=
  modify (fun c => set_attempts (alter f i (attempts c)) c).

(** *** _getHostConnection and _doGetHostConnection *)

(** Up to the return of the promise: the transport is created and
    [reject] waits for its 'error'. *)
Definition _doGetHostConnection : M t effect nat :=
  c <- get ;;
  let k := length (attempts c) in
  modify (fun c => set_attempts
    (attempts c ++ [mkAttempt Connecting (Emitter.addListener "error" OnceError ∅)
                              Pending None false]) c) ;;;
  ret k.

Definition _getHostConnection : M t effect unit :=
  c <- get ;;
  match _hostConnectionRequest c with
  | None =>
      k <- _doGetHostConnection ;;
      modify (set_hostConnectionRequest (Some k)) ;;;
      tell (Returned k)
  | Some k => tell (Returned k)
  end.

(** [session._onDetached(reason, null)] on the Session object [ref]. *)
Definition onSession (ref : nat) (m : M Session.t Session.effect unit)
    : M t effect unit :=
  c <- get ;;
  match sessions c !! ref with
  | None => ret tt
  | Some so =>
      match m (session so) with
      | (s', es, r) =>
          modify (fun c => set_sessions
                    (<[ref := mkSessionObject (id so) s']> (sessions c)) c) ;;;
          for_of es (fun e =>
            match e with
            | Session.ForgetSession =>
                modify (fun c => set_sessions_map (JsMap.delete (id so) (_sessions c)) c)
            | _ => tell (OfSession ref e)
            end) ;;;
          match r with
          | Ret _ => ret tt
          | Throw e => throw e
          end
      end
  end.

Section runtime.
Context {runtime_console : Console}.

(** [for (const session of this._sessions.values())
       session._onDetached(ConnectionTerminated, null)],
    over the Map itself, as in [Session.destroyScripts]. *)
Fixpoint detachSessions (keys : list string) : M t effect unit :=
  match keys with
  | [] => ret tt
  | k :: more =>
      c <- get ;;
      match JsMap.get k (_sessions c) with
      | Some ref =>
          onSession ref (Session._onDetached Session.ConnectionTerminated None) ;;;
          detachSessions more
      | None => detachSessions more
      end
  end.

(** The closure given to [ws.once("close", ...)]. *)
Definition onClose : M t effect unit :=
  modify (set_hostConnectionRequest None) ;;;
  c <- get ;;
  detachSessions (JsMap.keys (_sessions c)).

(** What the Bus of attempt [i] did reaches the open handler when it is
    the promise of "Authenticate" (promise 0 of that Bus) that settled:
    [resolve({ bus, session })] after the [await], [reject(error)] in the
    [catch]. *)
Definition authPromise : nat := 0%nat.

Definition busEffect (i : nat) (e : Bus.effect) : M t effect unit :=
  tell (OfBus i e) ;;;
  c <- get ;;
  match attempts c !! i with
  | Some a =>
      if authenticating a then
        match e with
        | Bus.Resolved p _ =>
            if bool_decide (p = authPromise)
            then onAttempt i (fun a => settle Fulfilled (set_authenticating false a))
            else ret tt
        | Bus.Rejected p _ =>
            if bool_decide (p = authPromise)
            then onAttempt i (fun a => settle Rejected (set_authenticating false a))
            else ret tt
        | _ => ret tt
        end
      else ret tt
  | None => ret tt
  end.

(** Run a method of the Bus of attempt [i]. *)
Definition onBus (i : nat) (m : M Bus.t Bus.effect unit) : M t effect unit :=
  c <- get ;;
  match attempts c !! i with
  | Some a =>
      match bus a with
      | Some b =>
          match m b with
          | (b', es, _) =>
              onAttempt i (set_bus (Some b')) ;;;
              for_of es (busEffect i)
          end
      | None => ret tt
      end
  | None => ret tt
  end.

Section transport.
Variable serializeMessage : Bus.outgoing → option (list Z).
Variable parseMessages : list Z → option (list Bus.message).

(** The listener of 'open'. *)
Definition onOpen (i : nat) : M t effect unit :=
  onAttempt i (fun a => set_ws_listeners
                 (Emitter.addListener "close" OnceClose (ws_listeners a)) a) ;;;
  c <- get ;;
  onAttempt i (fun a => set_ws_listeners
                 (Emitter.addListener "message" BusHandleMessage (ws_listeners a)) a) ;;;
  onAttempt i (set_bus (Some (Bus.new (clock c)))) ;;;
  match _token c with
  | Some token =>
      onAttempt i (set_authenticating true) ;;;
      onBus i (Bus.callMethod serializeMessage authPromise
                 "re.frida.AuthenticationService16"
                 "/re/frida/AuthenticationService"
                 "re.frida.AuthenticationService16"
                 "Authenticate"
                 (Some [Str token]))
  | None => onAttempt i (settle Fulfilled)
  end.

(** What calling a listener of the wrapper of attempt [i] does; the
    once-wrappers call [off] after their listener. *)
Definition callWs (i : nat) (event : string) (data : list Z) (l : wsListener)
    : M t effect unit :=
  match l with
  | OnceError =>
      onAttempt i (settle Rejected) ;;;
      onAttempt i (fun a => set_ws_listeners
                     (Emitter.removeListener event OnceError (ws_listeners a)) a)
  | OnceClose =>
      onClose ;;;
      onAttempt i (fun a => set_ws_listeners
                     (Emitter.removeListener event OnceClose (ws_listeners a)) a)
  | BusHandleMessage =>
      onBus i (Bus.handleMessage (parseMessages data))
  end.

(** [WebSocketWrapper.emit(eventName, data)] on the wrapper of attempt
    [i] *)
Definition wsEmit (i : nat) (event : string) (data : list Z) : M t effect unit :=
  forEach (fun c => match attempts c !! i with
                    | Some a => Emitter.listenersOf event (ws_listeners a)
                    | None => []
                    end)
          (callWs i event data).

(** *** What can happen to a Client *)

Inductive event : Type :=
| GetHostConnection
| WsOpen (i : nat)
| WsError (i : nat)
| WsClose (i : nat)
| WsMessage (i : nat) (data : list Z)
| BusCall (i : nat) (p : nat)
          (destination objectPath interfaceName memberName : string)
          (args : option (list value))
| BusTimeout (i : nat) (k : nat)
| Advance (dt : Z)
| SessionCreated (i : nat) (sessionId : string)
| OnSession (ref : nat) (e : Session.event).

Variable JSON_parse : string → option value.

Definition ws_is (i : nat) (st : readyState) (c : t) : bool :=
  match attempts c !! i with
  | Some a => bool_decide (ws_state a = st)
  | None => false
  end.

Definition ws_live (i : nat) (c : t) : bool :=
  match attempts c !! i with
  | Some a => bool_decide (ws_state a ≠ Closed)
  | None => false
  end.

(** The end of [attach], after its two [await]s: the Session is
    created and registered; the once-listener for "destroyed" is
    subscribed. *)
Definition sessionCreated (i : nat) (sessionId : string) : M t effect unit :=
  c <- get ;;
  let ref := length (sessions c) in
  modify (fun c => set_sessions
    (sessions c ++ [mkSessionObject sessionId Session.new]) c) ;;;
  modify (fun c => set_sessions_map (JsMap.set sessionId ref (_sessions c)) c) ;;;
  onBus i (Bus.addSignalListener ("/re/frida/AgentSession/" +:+ sessionId)
             "re.frida.AgentSession17" "Message" ref) ;;;
  modify (fun c => set_sessions
    (alter (fun so => mkSessionObject (id so)
              (Session.set_events
                 (Emitter.addListener "destroyed" Session.ClientOnce
                    (Session._events (session so)))
                 (session so)))
           ref (sessions c)) c).

(** [None]: the event cannot happen in this state. A transport opens
    once, from connecting; it closes once; it delivers messages while
    it is open; the reply of "Authenticate" is for the open handler
    alone. *)
Definition step (e : event) (c : t) : option (t * list effect * result unit) :=
  match e with
  | GetHostConnection => Some (_getHostConnection c)
  | WsOpen i =>
      if ws_is i Connecting c
      then Some ((onAttempt i (set_ws_state Open) ;;; onOpen i) c)
      else None
  | WsError i =>
      if ws_live i c then Some (wsEmit i "error" [] c) else None
  | WsClose i =>
      if ws_live i c
      then Some ((onAttempt i (set_ws_state Closed) ;;; wsEmit i "close" []) c)
      else None
  | WsMessage i data =>
      if ws_is i Open c then Some (wsEmit i "message" data c) else None
  | BusCall i p destination objectPath interfaceName memberName args =>
      if bool_decide (p ≠ authPromise)
      then Some (onBus i (Bus.callMethod serializeMessage p destination
                            objectPath interfaceName memberName args) c)
      else None
  | BusTimeout i k =>
      match attempts c !! i with
      | Some (mkAttempt _ _ _ (Some b) _) =>
          match Bus.step serializeMessage parseMessages (Bus.Timeout k) b with
          | Some _ =>
              Some (onBus i (fun b =>
                      default (b, [], Ret tt)
                        (Bus.step serializeMessage parseMessages (Bus.Timeout k) b)) c)
          | None => None
          end
      | _ => None
      end
  | Advance dt =>
      if bool_decide (0 ≤ dt) then
        Some ((modify (fun c => set_clock (clock c + dt) c) ;;;
               modify (fun c => set_attempts
                 ((fun a => set_bus
                     ((fun b => Bus.set_now (Bus.now b + dt) b) <$> bus a) a)
                  <$> attempts c) c)) c)
      else None
  | SessionCreated i sessionId =>
      match attempts c !! i with
      | Some a =>
          if bool_decide (ws_state a = Open ∧ request a = Fulfilled)
          then Some (sessionCreated i sessionId c)
          else None
      | None => None
      end
  | OnSession ref e =>
      match sessions c !! ref with
      | Some so =>
          match Session.step JSON_parse e (session so) with
          | Some _ =>
              Some (onSession ref (fun s =>
                      default (s, [], Ret tt) (Session.step JSON_parse e s)) c)
          | None => None
          end
      | None => None
      end
  end.

Fixpoint run (es : list event) (c : t) : option (t * list effect) :=
  match es with
  | [] => Some (c, [])
  | e :: more =>
      match step e c with
      | None => None
      | Some (c1, out1, _) =>
          match run more c1 with
          | None => None
          | Some (c2, out2) => Some (c2, out1 ++ out2)
          end
      end
  end.
End transport.

End runtime.

End Client.


(** * Properties *)

(** ** Computations *)

Module EffFacts.
Import Eff.

Section facts.
Context {S E : Type}.

(** What a computation leaves: its state, its effects, its result. *)
Definition state_of {A} (r : S * list E * result A) : S := r.1.1.
Definition effects_of {A} (r : S * list E * result A) : list E := r.1.2.
Definition result_of {A} (r : S * list E * result A) : result A := r.2.

Lemma run_eta {A} (r : S * list E * result A) :
  r = (state_of r, effects_of r, result_of r).
Proof. by destruct r as [[? ?] ?]. Qed.

Lemma bind_ret_eq {A B} (m : M S E A) (k : A → M S E B) s s1 es1 a :
  m s = (s1, es1, Ret a) →
  bind m k s = (state_of (k a s1), es1 ++ effects_of (k a s1), result_of (k a s1)).
Proof. intros H. unfold bind. rewrite H. by destruct (k a s1) as [[? ?] ?]. Qed.

Lemma bind_throw_eq {A B} (m : M S E A) (k : A → M S E B) s s1 es1 e :
  m s = (s1, es1, Throw e) → bind m k s = (s1, es1, Throw e).
Proof. intros H. unfold bind. by rewrite H. Qed.

Lemma bind_get {B} (k : S → M S E B) s : bind get k s = k s s.
Proof. unfold bind, get. by destruct (k s s) as [[? ?] ?]. Qed.

Lemma bind_modify {B} f (k : unit → M S E B) s : bind (modify f) k s = k tt (f s).
Proof. unfold bind, modify. by destruct (k tt (f s)) as [[? ?] ?]. Qed.

Lemma bind_ret {A B} (a : A) (k : A → M S E B) s : bind (ret a) k s = k a s.
Proof. unfold bind, ret. by destruct (k a s) as [[? ?] ?]. Qed.

Lemma bind_tell {B} e (k : unit → M S E B) s :
  bind (tell e) k s =
    (state_of (k tt s), e :: effects_of (k tt s), result_of (k tt s)).
Proof. unfold bind, tell. by destruct (k tt s) as [[? ?] ?]. Qed.

(** A loop whose callbacks leave the array as it is visits every element
    of it, in order. *)
Lemma forEach_from_fixed {L} (arr : S → list L) (f : L → M S E unit) (l : list L) :
  (∀ x s, x ∈ l → arr s = l → arr (state_of (f x s)) = l) →
  ∀ len k s, arr s = l → (len + k)%nat = length l →
    forEach_from arr f len k s = for_of (drop k l) f s.
Proof.
  intros Hfix len. induction len as [|len IH]; intros k s Hs Hlen.
  - simpl in *. subst k. by rewrite drop_all.
  - simpl. rewrite Hs.
    destruct (lookup_lt_is_Some_2 l k) as [x Hx]; [lia|].
    rewrite Hx, (drop_S l x k Hx). simpl.
    assert (Hin : x ∈ l) by (eapply list_elem_of_lookup_2; eauto).
    specialize (Hfix x s Hin Hs).
    unfold bind. destruct (f x s) as [[s1 es1] [[]|e]] eqn:Hf; [|done].
    unfold state_of in Hfix. simpl in Hfix.
    rewrite (IH (Datatypes.S k) s1 Hfix); [done | lia].
Qed.

Lemma forEach_fixed {L} (arr : S → list L) (f : L → M S E unit) s :
  (∀ x s', x ∈ arr s → arr s' = arr s → arr (state_of (f x s')) = arr s) →
  forEach arr f s = for_of (arr s) f s.
Proof.
  intros Hfix. unfold forEach.
  rewrite (forEach_from_fixed arr f (arr s) Hfix); [by rewrite drop_0 | done | lia].
Qed.

(** A computation keeps a part [proj] of the state. *)
Definition keeps {X A} (proj : S → X) (m : M S E A) : Prop :=
  ∀ s, proj (state_of (m s)) = proj s.

Lemma keeps_ret {X A} (proj : S → X) (a : A) : keeps proj (ret a).
Proof. by intros s. Qed.

Lemma keeps_get {X} (proj : S → X) : keeps proj get.
Proof. by intros s. Qed.

Lemma keeps_tell {X} (proj : S → X) e : keeps proj (tell e).
Proof. by intros s. Qed.

Lemma keeps_throw {X A} (proj : S → X) e : keeps proj (throw (A:=A) e).
Proof. by intros s. Qed.

Lemma keeps_modify {X} (proj : S → X) f :
  (∀ s, proj (f s) = proj s) → keeps proj (modify f).
Proof. intros H s. apply H. Qed.

Lemma keeps_bind {X A B} (proj : S → X) (m : M S E A) (k : A → M S E B) :
  keeps proj m → (∀ a, keeps proj (k a)) → keeps proj (bind m k).
Proof.
  intros Hm Hk s. unfold bind. specialize (Hm s).
  destruct (m s) as [[s1 es1] [a|e]]; [|done].
  specialize (Hk a s1). destruct (k a s1) as [[s2 es2] r].
  unfold state_of in *. cbn in *. congruence.
Qed.

Lemma keeps_for_of {X A} (proj : S → X) (xs : list A) (f : A → M S E unit) :
  (∀ x, keeps proj (f x)) → keeps proj (for_of xs f).
Proof.
  intros Hf. induction xs as [|x xs IH]; [apply keeps_ret|].
  cbn. apply keeps_bind; [apply Hf | done].
Qed.

Lemma keeps_forEach_from {X L} (proj : S → X) (arr : S → list L)
    (f : L → M S E unit) len k :
  (∀ x, keeps proj (f x)) → keeps proj (forEach_from arr f len k).
Proof.
  intros Hf. revert k. induction len as [|len IH]; intros k; [apply keeps_ret|].
  intros s. cbn. destruct (arr s !! k) as [x|]; [|apply IH].
  apply (keeps_bind proj (f x)); [apply Hf | intros _; apply IH].
Qed.

Lemma keeps_forEach {X L} (proj : S → X) (arr : S → list L) (f : L → M S E unit) :
  (∀ x, keeps proj (f x)) → keeps proj (forEach arr f).
Proof. intros Hf s. unfold forEach. by apply keeps_forEach_from. Qed.

(** A computation preserves a property [I] of the state, also when it
    throws. *)
Definition preserves {A} (I : S → Prop) (m : M S E A) : Prop :=
  ∀ s, I s → I (state_of (m s)).

Lemma preserves_ret {A} I (a : A) : preserves I (ret a).
Proof. by intros s. Qed.

Lemma preserves_get I : preserves I get.
Proof. by intros s. Qed.

Lemma preserves_tell I e : preserves I (tell e).
Proof. by intros s. Qed.

Lemma preserves_throw {A} I e : preserves I (throw (A:=A) e).
Proof. by intros s. Qed.

Lemma preserves_modify (I : S → Prop) f :
  (∀ s, I s → I (f s)) → preserves I (modify f).
Proof. intros H s. apply H. Qed.

Lemma preserves_bind {A B} I (m : M S E A) (k : A → M S E B) :
  preserves I m → (∀ a, preserves I (k a)) → preserves I (bind m k).
Proof.
  intros Hm Hk s Hs. unfold bind. specialize (Hm s Hs).
  destruct (m s) as [[s1 es1] [a|e]]; [|done].
  specialize (Hk a s1 Hm). by destruct (k a s1) as [[s2 es2] r].
Qed.

Lemma preserves_for_of {A} I (xs : list A) (f : A → M S E unit) :
  (∀ x, preserves I (f x)) → preserves I (for_of xs f).
Proof.
  intros Hf. induction xs as [|x xs IH]; [apply preserves_ret|].
  cbn. apply preserves_bind; [apply Hf | done].
Qed.

Lemma preserves_forEach_from {L} I (arr : S → list L) (f : L → M S E unit) len k :
  (∀ x, preserves I (f x)) → preserves I (forEach_from arr f len k).
Proof.
  intros Hf. revert k. induction len as [|len IH]; intros k; [apply preserves_ret|].
  intros s. cbn. destruct (arr s !! k) as [x|]; [|apply IH].
  apply (preserves_bind I (f x)); [apply Hf | intros _; apply IH].
Qed.

Lemma preserves_forEach {L} I (arr : S → list L) (f : L → M S E unit) :
  (∀ x, preserves I (f x)) → preserves I (forEach arr f).
Proof. intros Hf s. unfold forEach. by apply preserves_forEach_from. Qed.

Lemma keeps_preserves {X A} (proj : S → X) (P : X → Prop) (m : M S E A) :
  keeps proj m → preserves (fun s => P (proj s)) m.
Proof. intros H s Hs. by rewrite H. Qed.

(** Every effect of a computation satisfies [Q]. *)
Definition produces {A} (Q : E → Prop) (m : M S E A) : Prop :=
  ∀ s, Forall Q (effects_of (m s)).

Lemma produces_ret {A} Q (a : A) : produces Q (ret a).
Proof. intros s. constructor. Qed.

Lemma produces_get Q : produces Q get.
Proof. intros s. constructor. Qed.

Lemma produces_modify Q f : produces Q (modify f).
Proof. intros s. constructor. Qed.

Lemma produces_throw {A} Q e : produces Q (throw (A:=A) e).
Proof. intros s. constructor. Qed.

Lemma produces_tell (Q : E → Prop) e : Q e → produces Q (tell e).
Proof. intros H s. by repeat constructor. Qed.

Lemma produces_bind {A B} Q (m : M S E A) (k : A → M S E B) :
  produces Q m → (∀ a, produces Q (k a)) → produces Q (bind m k).
Proof.
  intros Hm Hk s. unfold bind. specialize (Hm s).
  destruct (m s) as [[s1 es1] [a|e]]; [|done].
  specialize (Hk a s1). destruct (k a s1) as [[s2 es2] r].
  unfold effects_of in *. cbn in *. by apply Forall_app.
Qed.

Lemma produces_for_of {A} Q (xs : list A) (f : A → M S E unit) :
  (∀ x, produces Q (f x)) → produces Q (for_of xs f).
Proof.
  intros Hf. induction xs as [|x xs IH]; [apply produces_ret|].
  cbn. apply produces_bind; [apply Hf | done].
Qed.

Lemma produces_forEach_from {L} Q (arr : S → list L) (f : L → M S E unit) len k :
  (∀ x, produces Q (f x)) → produces Q (forEach_from arr f len k).
Proof.
  intros Hf. revert k. induction len as [|len IH]; intros k; [apply produces_ret|].
  intros s. cbn. destruct (arr s !! k) as [x|]; [|apply IH].
  apply (produces_bind Q (f x)); [apply Hf | intros _; apply IH].
Qed.

Lemma produces_forEach {L} Q (arr : S → list L) (f : L → M S E unit) :
  (∀ x, produces Q (f x)) → produces Q (forEach arr f).
Proof. intros Hf s. unfold forEach. by apply produces_forEach_from. Qed.

(** A loop whose callbacks return, keep [I] and have effects in [Q]
    returns, keeps [I] and has its effects in [Q], also when the callbacks
    change the array. *)
Lemma forEach_from_total {L} (I : S → Prop) (Q : E → Prop)
    (arr : S → list L) (f : L → M S E unit) :
  (∀ x s, I s → x ∈ arr s →
     ∃ s' es, f x s = (s', es, Ret tt) ∧ I s' ∧ Forall Q es) →
  ∀ len k s, I s →
    ∃ s' es, forEach_from arr f len k s = (s', es, Ret tt) ∧ I s' ∧ Forall Q es.
Proof.
  intros Hf len. induction len as [|len IH]; intros k s Hs.
  - exists s, []. by split_and!.
  - cbn. destruct (arr s !! k) as [x|] eqn:Hx; [|by apply IH].
    destruct (Hf x s Hs) as (s1 & es1 & Hfx & Hs1 & Hes1).
    { eapply list_elem_of_lookup_2; eauto. }
    destruct (IH (Datatypes.S k) s1 Hs1) as (s2 & es2 & Hrest & Hs2 & Hes2).
    exists s2, (es1 ++ es2). unfold bind. rewrite Hfx, Hrest.
    split_and!; try done. by apply Forall_app.
Qed.

(** [converting] and [try_catch] *)
Lemma keeps_converting {X A} (proj : S → X) (o : option A) :
  keeps proj (converting o).
Proof. by destruct o. Qed.

Lemma preserves_converting {A} I (o : option A) : preserves I (converting o).
Proof. destruct o; [apply preserves_ret | apply preserves_throw]. Qed.

Lemma produces_converting {A} (Q : E → Prop) (o : option A) :
  produces Q (converting o).
Proof. destruct o; [apply produces_ret | apply produces_throw]. Qed.

Lemma keeps_try_catch {X A} (proj : S → X) (m : M S E A) h :
  keeps proj m → (∀ e, keeps proj (h e)) → keeps proj (try_catch m h).
Proof.
  intros Hm Hh s. unfold try_catch. specialize (Hm s).
  destruct (m s) as [[s1 es1] [a|e]]; [done|].
  specialize (Hh e s1). destruct (h e s1) as [[s2 es2] r].
  unfold state_of in *. cbn in *. congruence.
Qed.

Lemma preserves_try_catch {A} I (m : M S E A) h :
  preserves I m → (∀ e, preserves I (h e)) → preserves I (try_catch m h).
Proof.
  intros Hm Hh s Hs. unfold try_catch. specialize (Hm s Hs).
  destruct (m s) as [[s1 es1] [a|e]]; [done|].
  specialize (Hh e s1 Hm). by destruct (h e s1) as [[s2 es2] r].
Qed.

Lemma produces_try_catch {A} Q (m : M S E A) h :
  produces Q m → (∀ e, produces Q (h e)) → produces Q (try_catch m h).
Proof.
  intros Hm Hh s. unfold try_catch. specialize (Hm s).
  destruct (m s) as [[s1 es1] [a|e]]; [done|].
  specialize (Hh e s1). destruct (h e s1) as [[s2 es2] r].
  unfold effects_of in *. cbn in *. by apply Forall_app.
Qed.

(** Callbacks that change nothing and only report. *)
Lemma for_of_tell {A} (xs : list A) (f : A → M S E unit) (g : A → list E) s :
  (∀ x, x ∈ xs → f x s = (s, g x, Ret tt)) →
  for_of xs f s = (s, concat (g <$> xs), Ret tt).
Proof.
  induction xs as [|x xs IH]; intros Hf; [done|].
  simpl. unfold bind. rewrite (Hf x) by left.
  rewrite IH; [done|]. intros y Hy. apply Hf. by right.
Qed.
End facts.

(** [keeps] and [produces] goals follow the shape of the computation. *)
Ltac step_shape :=
  match goal with
  | |- keeps _ (bind _ _) => apply keeps_bind; [|intros ?]
  | |- keeps _ (ret _) => apply keeps_ret
  | |- keeps _ get => apply keeps_get
  | |- keeps _ (tell _) => apply keeps_tell
  | |- keeps _ (throw _) => apply keeps_throw
  | |- keeps _ (converting _) => apply keeps_converting
  | |- keeps _ (try_catch _ _) => apply keeps_try_catch; [|intros ?]
  | |- keeps _ (modify _) => apply keeps_modify; try done
  | |- keeps _ (for_of _ _) => apply keeps_for_of; intros ?
  | |- keeps _ (forEach _ _) => apply keeps_forEach; intros ?
  | |- produces _ (bind _ _) => apply produces_bind; [|intros ?]
  | |- produces _ (ret _) => apply produces_ret
  | |- produces _ get => apply produces_get
  | |- produces _ (tell _) => apply produces_tell; try done
  | |- produces _ (throw _) => apply produces_throw
  | |- produces _ (converting _) => apply produces_converting
  | |- produces _ (try_catch _ _) => apply produces_try_catch; [|intros ?]
  | |- produces _ (modify _) => apply produces_modify
  | |- produces _ (for_of _ _) => apply produces_for_of; intros ?
  | |- produces _ (forEach _ _) => apply produces_forEach; intros ?
  | |- preserves _ (bind _ _) => apply preserves_bind; [|intros ?]
  | |- preserves _ (ret _) => apply preserves_ret
  | |- preserves _ get => apply preserves_get
  | |- preserves _ (tell _) => apply preserves_tell
  | |- preserves _ (throw _) => apply preserves_throw
  | |- preserves _ (converting _) => apply preserves_converting
  | |- preserves _ (try_catch _ _) => apply preserves_try_catch; [|intros ?]
  | |- preserves _ (for_of _ _) => apply preserves_for_of; intros ?
  | |- preserves _ (forEach _ _) => apply preserves_forEach; intros ?
  | |- preserves _ (if ?b then _ else _) => destruct b
  | |- preserves _ (match ?x with _ => _ end) => destruct x
  | |- keeps _ (if ?b then _ else _) => destruct b
  | |- produces _ (if ?b then _ else _) => destruct b
  | |- keeps _ (match ?x with _ => _ end) => destruct x
  | |- produces _ (match ?x with _ => _ end) => destruct x
  end.

End EffFacts.

(** ** The messages of a Script *)

Module ScriptFacts.
Import Js Eff EffFacts Script.

(** The Script has its [ScriptServices] subscribed (it is not destroyed)
    and the user handlers [hs] connected to "message", in this order. *)
Definition subscribed (hs : list nat) (s : Script.t) : Prop :=
  Emitter.listenersOf "message" (_events s) = OnMessage :: (MessageProxy <$> hs).

(** The calls of the user handlers [hs] with [(message, data)]. *)
Definition forwarded (hs : list nat) (message : value) (data : option (list Z))
    : list effect :=
  (fun h => CallHandler h (MessageArgs message data)) <$> hs.

Lemma completionHandler_events strId p error result s :
  _events (state_of (completionHandler strId p error result s)) = _events s.
Proof. by destruct error. Qed.

(** The decimal string of an integer names no member of
    [Object.prototype]: it begins with a digit or with a minus sign. *)
Lemma pretty_N_go_head (x : N) (s : string) :
  (0 < x)%N → ∃ d rest, pretty_N_go x s = String.String (pretty_N_char d) rest.
Proof.
  revert s. induction (N.lt_wf_0 x) as [x _ IH]. intros s Hx.
  rewrite pretty_N_go_step by done.
  destruct (decide (x `div` 10 = 0)%N) as [->|Hne].
  - rewrite pretty_N_go_0. by eexists _, _.
  - apply IH; [apply N.div_lt; lia | by apply N.neq_0_lt_0].
Qed.

Lemma Object_prototype_digit (d : N) (rest : string) :
  Object_prototype (String.String (pretty_N_char d) rest) = None.
Proof.
  unfold pretty_N_char. repeat case_match; unfold Object_prototype;
    repeat (rewrite bool_decide_eq_false_2 by congruence); reflexivity.
Qed.

Lemma Object_prototype_decimal (n : Z) : Object_prototype (pretty n) = None.
Proof.
  assert (Hpos : ∀ p, Object_prototype (pretty (Npos p)) = None).
  { intros p. unfold pretty, pretty_N. rewrite decide_False by done.
    destruct (pretty_N_go_head (Npos p) "") as (d & rest & ->); [lia|].
    apply Object_prototype_digit. }
  destruct n as [|p|p]; [reflexivity | apply Hpos |].
  unfold pretty, pretty_Z. unfold Object_prototype.
  repeat (rewrite bool_decide_eq_false_2 by (cbn; congruence)). reflexivity.
Qed.

Lemma keeps_reading {S E X A} (proj : S → X) (o : option A) :
  keeps (E:=E) proj (reading o).
Proof. by destruct o. Qed.

(** [id.toString()] does nothing but return or throw. *)
Lemma callToString_run id s :
  callToString id s =
    (s, [], match Js.toString id with
            | Some strId => Ret strId
            | None =>
                Throw (TypeError
                         match id with
                         | Undefined | Null =>
                             "cannot read properties of null or undefined"
                         | _ => "cannot convert object to primitive value"
                         end)
            end).
Proof. destruct id; try done; unfold callToString, converting; by destruct (Js.toString _). Qed.

Lemma keeps_callToString {X} (proj : Script.t → X) id : keeps proj (callToString id).
Proof. intros s. by rewrite callToString_run. Qed.

Lemma produces_callToString (Q : effect → Prop) id : produces Q (callToString id).
Proof. intros s. rewrite callToString_run. constructor. Qed.

Lemma onRpcMessage_keeps_events id operation params data :
  keeps _events (onRpcMessage id operation params data).
Proof.
  unfold onRpcMessage. apply keeps_bind; [apply keeps_callToString|]. intros strId.
  apply keeps_bind; [apply keeps_get|]. intros s. cbv zeta.
  destruct (pendingRequests s !! strId) as [p|];
    [|destruct (Object_prototype strId) as [f|]];
    cbn [fmap option_fmap option_map];
    unfold completionHandler, inheritedHandler; repeat step_shape.
Qed.

Lemma onRpcMessage_events id operation params data s :
  _events (state_of (onRpcMessage id operation params data s)) = _events s.
Proof. apply onRpcMessage_keeps_events. Qed.

Section runtime.
Context {runtime_console : Console}.

(** The log handler leaves the Script as it is. *)
Lemma log_state level text s : state_of (log level text s) = s.
Proof.
  unfold log, converting, bind.
  destruct (Js.String level) as [key|]; [|done]. cbn.
  destruct (Js.String text) as [line|]; [|done]. cbn.
  destruct (console _) as [|call|]; try done. cbn.
  by destruct (call _).
Qed.

Lemma callLogHandler_state h level text s :
  state_of (callLogHandler h level text s) = s.
Proof. unfold callLogHandler. case_bool_decide; [apply log_state | done]. Qed.

Lemma onMessage_keeps_events message data : keeps _events (onMessage message data).
Proof.
  unfold onMessage.
  repeat first [ apply keeps_reading | apply onRpcMessage_keeps_events
               | intros s; by rewrite callLogHandler_state | step_shape ].
Qed.

Lemma onMessage_events message data s :
  _events (state_of (onMessage message data s)) = _events s.
Proof. apply onMessage_keeps_events. Qed.

End runtime.

(** Only [post] reaches [_postToAgent]: neither [emit] nor anything it
    calls does. *)
Definition no_post (e : effect) : Prop :=
  match e with PostToAgent _ => False | _ => True end.

Lemma produces_reading {S E A} (Q : E → Prop) (o : option A) :
  produces (S:=S) Q (reading o).
Proof. destruct o; [apply produces_ret | apply produces_throw]. Qed.

Lemma onRpcMessage_no_post id operation params data :
  produces no_post (onRpcMessage id operation params data).
Proof.
  unfold onRpcMessage. apply produces_bind; [apply produces_callToString|]. intros strId.
  apply produces_bind; [apply produces_get|]. intros s. cbv zeta.
  destruct (pendingRequests s !! strId) as [p|];
    [|destruct (Object_prototype strId) as [f|]];
    cbn [fmap option_fmap option_map];
    unfold completionHandler, inheritedHandler; repeat step_shape.
Qed.

Section runtime.
Context {runtime_console : Console}.

Lemma callLogHandler_no_post h level text :
  produces no_post (callLogHandler h level text).
Proof. unfold callLogHandler, log. cbv zeta. repeat step_shape. Qed.

Lemma onMessage_no_post message data : produces no_post (onMessage message data).
Proof.
  unfold onMessage.
  repeat first [ apply produces_reading | apply onRpcMessage_no_post
               | apply callLogHandler_no_post | step_shape ].
Qed.

Lemma call_no_post event a l : produces no_post (call event a l).
Proof.
  destruct l; cbn [call]; unfold onDestroyed, messageProxy.
  - repeat step_shape.
  - destruct a; apply onMessage_no_post.
  - repeat step_shape.
  - repeat step_shape.
  - repeat first [apply produces_reading | step_shape].
Qed.

Lemma emit_no_post event a : produces no_post (emit event a).
Proof. apply produces_forEach. intros l. apply call_no_post. Qed.

Lemma _destroy_no_post : produces no_post _destroy.
Proof. unfold _destroy. repeat step_shape. apply emit_no_post. Qed.

Lemma _dispatchMessage_no_post message data :
  produces no_post (_dispatchMessage message data).
Proof. apply emit_no_post. Qed.

End runtime.

(** *** Destroying a Script *)

Lemma listenersOf_removeListener (ev ev' : string) (l : listener)
    (e : gmap string (list listener)) :
  Emitter.listenersOf ev (Emitter.removeListener ev' l e) =
    if decide (ev' = ev) then Emitter.splice_first l (Emitter.listenersOf ev e)
    else Emitter.listenersOf ev e.
Proof.
  unfold Emitter.listenersOf, Emitter.removeListener.
  destruct (e !! ev') as [arr|] eqn:Harr.
  - destruct (decide (ev' = ev)) as [->|Hne].
    + by rewrite lookup_insert_eq, Harr.
    + by rewrite lookup_insert_ne.
  - destruct (decide (ev' = ev)) as [->|Hne]; [|done]. by rewrite Harr.
Qed.

Lemma splice_first_subseteq (l x : listener) arr :
  x ∈ Emitter.splice_first l arr → x ∈ arr.
Proof.
  induction arr as [|y arr IH]; cbn; [done|].
  destruct (decide (y = l)); [by right|].
  intros [->|?]%elem_of_cons; [by left | right; auto].
Qed.

(** The listeners of "destroyed" that a Session and its user put there:
    [onDestroyed], the once-wrapper of the Session for the handle the Script
    is registered under, and handlers of the user. *)
Definition destroyed_listener (handle : Z) (l : listener) : bool :=
  match l with
  | OnDestroyed | Handler _ => true
  | SessionOnce handle' => bool_decide (handle' = handle)
  | OnMessage | MessageProxy _ => false
  end.

Definition destroyed_listeners_ok (handle : Z) (s : Script.t) : bool :=
  forallb (destroyed_listener handle)
          (Emitter.listenersOf "destroyed" (_events s)).

(** What [_destroy] can do to the outside. *)
Definition destroy_effect (handle : Z) (e : effect) : Prop :=
  match e with
  | RegistryDelete handle' => handle' = handle
  | CallHandler _ NoArgs => True
  | _ => False
  end.

Section runtime.
Context {runtime_console : Console}.

(** [_destroy] returns, leaves the Script destroyed, and adds no
    listener. *)
Lemma _destroy_total handle s :
  destroyed_listeners_ok handle s = true →
  ∃ s' es,
    _destroy s = (s', es, Ret tt)
    ∧ _state s' = destroyed
    ∧ (∀ l, l ∈ Emitter.listenersOf "destroyed" (_events s') →
            l ∈ Emitter.listenersOf "destroyed" (_events s))
    ∧ Forall (destroy_effect handle) es
    ∧ (_state s = destroyed → s' = s).
Proof.
  intros Hok.
  destruct (_state s) eqn:Hst.
  2:{ exists s, []. unfold _destroy, bind, get. cbn. rewrite Hst. by split_and!. }
  set (I := fun s' : Script.t =>
         _state s' = destroyed ∧
         ∀ l, l ∈ Emitter.listenersOf "destroyed" (_events s') →
              l ∈ Emitter.listenersOf "destroyed" (_events s)).
  destruct (forEach_from_total I (destroy_effect handle)
              (fun s => Emitter.listenersOf "destroyed" (_events s))
              (call "destroyed" NoArgs)) with
    (len := length (Emitter.listenersOf "destroyed" (_events (set_state destroyed s))))
    (k := 0%nat) (s := set_state destroyed s)
    as (s' & es & Hrun & [Hs' Hsub] & Hes).
  - intros x s1 [Hd1 Hsub1] Hx.
    assert (Hxok : destroyed_listener handle x = true).
    { unfold destroyed_listeners_ok in Hok. rewrite forallb_forall in Hok.
      apply Hok, list_elem_of_In, Hsub1, Hx. }
    destruct x; try done; cbn [call].
    + eexists _, []. split; [reflexivity|]. split; [|done]. split; [done|].
      intros l. cbn. rewrite !listenersOf_removeListener. cbn.
      intros Hl%splice_first_subseteq. by apply Hsub1.
    + apply bool_decide_eq_true in Hxok as ->.
      eexists _, [_]. split; [reflexivity|]. split; [|by repeat constructor].
      split; [done|].
      intros l. cbn. rewrite listenersOf_removeListener. cbn.
      intros Hl%splice_first_subseteq. by apply Hsub1.
    + eexists s1, [_]. split; [reflexivity|]. split; [done|]. by repeat constructor.
  - by split.
  - exists s', es. split_and!; try done.
    unfold _destroy.
    rewrite (bind_ret_eq get _ s s [] s eq_refl), Hst.
    rewrite (bind_ret_eq (modify _) _ s (set_state destroyed s) [] tt eq_refl).
    unfold emit, forEach. by rewrite Hrun.
Qed.

(** Reading a property of a message that is not [null]. *)
Definition prop (message : value) (k : string) : value :=
  default Undefined (Js.get message k).

Lemma get_prop message k ty :
  Js.get message "type" = Some ty → Js.get message k = Some (prop message k).
Proof. unfold prop. by destruct message. Qed.

(** [onMessage] by the class of the message. *)
Lemma onMessage_internal message data s :
  isInternalMessage message = Some true →
  onMessage message data s =
    onRpcMessage (index (prop message "payload") 1)
                 (index (prop message "payload") 2)
                 (rest (prop message "payload") 3) data s.
Proof.
  unfold isInternalMessage, onMessage, isRpcSendMessage, reading.
  destruct (Js.get message "type") as [ty|] eqn:Hty; [|done]. cbn.
  rewrite (get_prop message "payload" ty Hty). cbn.
  destruct (is_string ty MessageType_Send); [|done]. cbn.
  intros [= ->]. cbn.
  by destruct (onRpcMessage _ _ _ _ s) as [[? ?] ?].
Qed.

Lemma onMessage_log message data s :
  isInternalMessage message = Some false →
  isLogMessage message = Some true →
  onMessage message data s =
    callLogHandler (_logHandlerImpl s) (prop message "level")
                   (prop message "payload") s.
Proof.
  unfold isInternalMessage, onMessage, isRpcSendMessage, reading.
  destruct (Js.get message "type") as [ty|] eqn:Hty; [|done]. cbn.
  rewrite (get_prop message "payload" ty Hty), (get_prop message "level" ty Hty). cbn.
  destruct (is_string ty MessageType_Send); cbn.
  - intros [= ->] ->. cbn. by destruct (callLogHandler _ _ _ s) as [[? ?] ?].
  - intros _ ->. cbn. by destruct (callLogHandler _ _ _ s) as [[? ?] ?].
Qed.

Lemma onMessage_plain message data s :
  isInternalMessage message = Some false →
  isLogMessage message = Some false →
  onMessage message data s = (s, [], Ret tt).
Proof.
  unfold isInternalMessage, onMessage, isRpcSendMessage, reading.
  destruct (Js.get message "type") as [ty|] eqn:Hty; [|done]. cbn.
  rewrite (get_prop message "payload" ty Hty). cbn.
  destruct (is_string ty MessageType_Send); cbn.
  - intros [= ->] ->. done.
  - intros _ ->. done.
Qed.

Lemma onMessage_null message data s :
  isInternalMessage message = None →
  onMessage message data s =
    (s, [], Throw (TypeError "cannot read properties of null or undefined")).
Proof.
  unfold isInternalMessage, onMessage, reading.
  destruct (Js.get message "type") as [ty|] eqn:Hty; [|done]. cbn.
  rewrite (get_prop message "payload" ty Hty). cbn.
  by destruct (is_string ty MessageType_Send).
Qed.

(** A reply of the internal protocol settles a promise or does nothing:
    no handler of the user is called. *)
Definition no_handler (e : effect) : Prop :=
  match e with CallHandler _ _ => False | _ => True end.

Lemma onRpcMessage_settles_only id operation params data :
  produces no_handler (onRpcMessage id operation params data).
Proof.
  unfold onRpcMessage. apply produces_bind; [apply produces_callToString|]. intros strId.
  apply produces_bind; [apply produces_get|]. intros s. cbv zeta.
  destruct (pendingRequests s !! strId) as [p|];
    [|destruct (Object_prototype strId) as [f|]];
    cbn [fmap option_fmap option_map];
    unfold completionHandler, inheritedHandler; repeat step_shape.
Qed.

Lemma onRpcMessage_no_handler id operation params data s h a :
  CallHandler h a ∉ effects_of (onRpcMessage id operation params data s).
Proof.
  intros Hin.
  pose proof (onRpcMessage_settles_only id operation params data s) as Hall.
  rewrite Forall_forall in Hall. exact (Hall _ Hin).
Qed.

Lemma isLogMessage_defined message b :
  isInternalMessage message = Some b → is_Some (isLogMessage message).
Proof.
  unfold isInternalMessage, isLogMessage.
  destruct (Js.get message "type") as [ty|] eqn:Hty; [|done]. cbn.
  rewrite (get_prop message "payload" ty Hty). cbn. intros _.
  destruct (is_string ty MessageType_Log); [by eexists|].
  destruct (is_string ty MessageType_Send); [|by eexists].
  destruct (prop message "payload"); cbn; by eexists.
Qed.

(** While [ScriptServices] is subscribed, [emit("message", ...)] calls
    [onMessage] and then the proxies, none of which changes the array. *)
Lemma dispatch_listeners hs message data s :
  subscribed hs s →
  _dispatchMessage message data s =
    for_of (OnMessage :: (MessageProxy <$> hs))
           (call "message" (MessageArgs message data)) s.
Proof.
  intros Hsub. unfold _dispatchMessage, emit.
  rewrite forEach_fixed; [by rewrite Hsub|].
  rewrite Hsub. intros x s' Hx Hs'.
  apply elem_of_cons in Hx as [->|Hx].
  - cbn [call]. by rewrite onMessage_events.
  - apply list_elem_of_fmap in Hx as (h & -> & _). cbn [call messageProxy].
    unfold reading. destruct (isInternalMessage message) as [[]|]; done.
Qed.

Lemma proxies_internal hs message data s :
  isInternalMessage message = Some true →
  for_of (MessageProxy <$> hs) (call "message" (MessageArgs message data)) s
  = (s, [], Ret tt).
Proof.
  intros Hint. induction hs as [|h hs IH]; [done|].
  cbn. unfold bind at 1. cbn. rewrite Hint. cbn. by rewrite IH.
Qed.

Lemma proxies_forward hs message data s :
  isInternalMessage message = Some false →
  for_of (MessageProxy <$> hs) (call "message" (MessageArgs message data)) s
  = (s, forwarded hs message data, Ret tt).
Proof.
  intros Hint. induction hs as [|h hs IH]; [done|].
  cbn. unfold bind at 1. cbn. rewrite Hint. cbn. by rewrite IH.
Qed.

(** C3, as the code has it. For a Script whose [ScriptServices] is
    subscribed and whose user handlers [hs] are connected to "message",
    and a decoded message other than [null]: a send-type message whose
    payload is an array that begins with "frida:rpc" reaches no user
    handler; a log-type message, or a send-type message whose payload
    object declares type "log", is given to the current log handler with
    the [level] and [payload] of the message, and when the log handler
    returns it is given to every user handler as well, with its data (when
    the log handler throws, its exception ends the dispatch); any other
    message is given to every user handler with its data. Handlers of the
    user are taken to return. *)
Theorem message_classification (s : Script.t) (hs : list nat)
    (message : value) (data : option (list Z)) (internal : bool) :
  subscribed hs s →
  isInternalMessage message = Some internal →
  if internal then
    ∀ h a, CallHandler h a ∉ effects_of (_dispatchMessage message data s)
  else
    match isLogMessage message with
    | Some true =>
        let logged :=
          callLogHandler (_logHandlerImpl s) (prop message "level")
                         (prop message "payload") s in
        _dispatchMessage message data s =
          match result_of logged with
          | Ret _ => (s, effects_of logged ++ forwarded hs message data, Ret tt)
          | Throw e => (s, effects_of logged, Throw e)
          end
    | Some false =>
        _dispatchMessage message data s = (s, forwarded hs message data, Ret tt)
    | None => False
    end.
Proof.
  intros Hsub Hint. rewrite (dispatch_listeners hs message data s Hsub).
  cbn [for_of call].
  destruct internal.
  - intros h a. unfold bind.
    pose proof (onRpcMessage_no_handler
                  (index (prop message "payload") 1)
                  (index (prop message "payload") 2)
                  (rest (prop message "payload") 3) data s h a) as Hno.
    rewrite (onMessage_internal message data s Hint).
    destruct (onRpcMessage _ _ _ _ s) as [[s1 es1] [[]|e]]; [|done].
    rewrite (proxies_internal hs message data s1 Hint).
    unfold effects_of in *. cbn in *. by rewrite app_nil_r.
  - destruct (isLogMessage_defined message false Hint) as [b Hlog].
    rewrite Hlog. destruct b.
    + cbv zeta. unfold bind. rewrite (onMessage_log message data s Hint Hlog).
      pose proof (callLogHandler_state (_logHandlerImpl s) (prop message "level")
                    (prop message "payload") s) as Hst.
      destruct (callLogHandler _ _ _ s) as [[s1 es1] [[]|e]];
        unfold state_of, effects_of, result_of in *; cbn in *; subst s1; [|done].
      by rewrite (proxies_forward hs message data s Hint).
    + unfold bind. rewrite (onMessage_plain message data s Hint Hlog).
      by rewrite (proxies_forward hs message data s Hint).
Qed.

(** What the log handler does: a handler that the user has set is called
    with the level and the text; the default one prints the text, after
    "[Script] ", with the member of [console] that the level names. *)
Lemma callLogHandler_user h level text s :
  h ≠ defaultLogHandler →
  callLogHandler h level text s = (s, [CallLogHandler h level text], Ret tt).
Proof. intros Hh. unfold callLogHandler. by rewrite bool_decide_eq_false_2. Qed.

Lemma callLogHandler_default level text key line call s :
  Js.String level = Some key →
  Js.String text = Some line →
  console key = Function call →
  callLogHandler defaultLogHandler level text s =
    (s, [ConsoleCall key ("[Script] " +:+ line)],
     match call ("[Script] " +:+ line) with
     | None => Ret tt
     | Some e => Throw e
     end).
Proof.
  intros Hkey Hline Hcall. unfold callLogHandler, log, converting, bind. cbn.
  rewrite Hkey. cbn. rewrite Hcall, Hline. cbn. rewrite Hcall. cbn.
  by destruct (call _).
Qed.

End runtime.

Section examples.
(** The examples run on a console whose members return. *)
#[local] Existing Instance quiet_console.

(** A Script with one user handler, and a log message. *)
Definition example_script : Script.t :=
  state_of (connect "message" 7 (Script.new 5)).

Definition example_log_message : value :=
  Obj [("type", Str "log"); ("level", Str "info"); ("payload", Str "hi")].

Lemma message_classification_witness :
  subscribed [7%nat] example_script ∧
  isInternalMessage example_log_message = Some false ∧
  _dispatchMessage example_log_message None example_script =
    (example_script,
     [ConsoleCall "info" "[Script] hi";
      CallHandler 7 (MessageArgs example_log_message None)], Ret tt).
Proof.
  split; [reflexivity|]. split; [reflexivity|].
  exact (message_classification example_script [7%nat] example_log_message None
           false
           (eq_refl : subscribed [7%nat] example_script) eq_refl).
Defined.

(** C3 as the specification states it fails. A log-type message is
    given to the log handler and to the user handler of "message" too.
    The message [null], which is neither a reply of the internal protocol
    nor a log message, is not forwarded: reading its type throws, and no
    handler is called. Once the Script is destroyed, and [ScriptServices]
    with it no longer subscribed, a log-type message is not given to the
    log handler; the user handler still receives it. And a log-type
    message whose payload cannot be printed is not forwarded by a Script
    that has the default log handler: the handler throws, and the user
    handler is not called. *)
Lemma log_message_reaches_user_handler :
  (isLogMessage example_log_message = Some true ∧
   _dispatchMessage example_log_message None example_script =
     (example_script,
      [ConsoleCall "info" "[Script] hi";
       CallHandler 7 (MessageArgs example_log_message None)], Ret tt))
  ∧ _dispatchMessage Null None example_script =
      (example_script, [],
       Throw (TypeError "cannot read properties of null or undefined"))
  ∧ effects_of (_dispatchMessage example_log_message None
                  (state_of (_destroy example_script)))
    = [CallHandler 7 (MessageArgs example_log_message None)]
  ∧ _dispatchMessage
      (Obj [("type", Str "log"); ("level", Str "info");
            ("payload", Obj [("toString", Num 1)])])
      None example_script =
    (example_script, [],
     Throw (TypeError "cannot convert object to primitive value")).
Proof. split_and!; reflexivity. Qed.

(** A console as browsers have it, where [console.memory] is an object:
    a log message of level "memory" makes the default log handler call
    what is no function, and the user handler is not called. *)
Definition browser_console : Console :=
  {| console := fun key =>
       if bool_decide (key = "memory") then NotCallable
       else Function (fun _ => None);
     console_log := eq_refl;
     console_error := eq_refl |}.

Example log_level_not_a_function :
  _dispatchMessage (runtime_console := browser_console)
    (Obj [("type", Str "log"); ("level", Str "memory"); ("payload", Str "hi")])
    None example_script =
  (example_script, [], Throw (TypeError "fn is not a function")).
Proof. reflexivity. Qed.

End examples.

(** Comparisons of string literals. *)
Ltac decide_literals :=
  repeat match goal with
  | |- context [bool_decide (?a = ?b)] =>
      first [ rewrite (bool_decide_eq_true_2 (a = b)) by done
            | rewrite (bool_decide_eq_false_2 (a = b)) by done ]
  end.

(** The message that carries a reply of the internal protocol: whatever
    the agent has put after the marker. *)
Definition rpcMessage (id operation : value) (params : list value) : value :=
  Obj [("type", Str MessageType_Send);
       ("payload", Arr (Str rpc_marker :: id :: operation :: params))].

(** The reply to a request of this client, whose id is a number. *)
Definition rpcReply (id : Z) (operation : string) (params : list value) : value :=
  Obj [("type", Str MessageType_Send);
       ("payload", Arr (Str rpc_marker :: Num id :: Str operation :: params))].

Lemma rpcMessage_internal id operation params :
  isInternalMessage (rpcMessage id operation params) = Some true.
Proof.
  unfold isInternalMessage, rpcMessage, payload_is_rpc. cbn.
  decide_literals. cbn. decide_literals. cbn.
  rewrite bool_decide_eq_true_2; [done | lia].
Qed.

Lemma rpcReply_internal id operation params :
  isInternalMessage (rpcReply id operation params) = Some true.
Proof. apply (rpcMessage_internal (Num id) (Str operation)). Qed.

(** What [request] leaves for the reply: the handler of promise [p] under
    the decimal string of the id it has drawn. *)
Lemma request_pending JSON_stringify p operation params s :
  pendingRequests (state_of (request JSON_stringify p operation params s))
    !! pretty (nextRequestId s) = Some p.
Proof. cbn. apply lookup_insert_eq. Qed.

(** [new Error(message)] keeps a message that is a string. *)
Lemma newError_string (m : string) : newError (Str m) = Some m.
Proof. reflexivity. Qed.

Section runtime.
Context {runtime_console : Console}.

Lemma onMessage_rpcMessage id operation params data s :
  onMessage (rpcMessage id operation params) data s =
    onRpcMessage id operation params data s.
Proof.
  by rewrite (onMessage_internal _ data s (rpcMessage_internal id operation params)).
Qed.

Lemma onMessage_rpcReply id operation params data s :
  onMessage (rpcReply id operation params) data s =
    onRpcMessage (Num id) (Str operation) params data s.
Proof. apply (onMessage_rpcMessage (Num id) (Str operation)). Qed.

(** The reply to a request that is pending under the decimal string of
    its id: "ok" resolves the promise, "error" rejects it when the
    message can be converted; with no request pending under an integer
    id, the reply is dropped. *)
Lemma rpcReply_ok id params data s p :
  pendingRequests s !! pretty id = Some p →
  onMessage (rpcReply id "ok" params) data s =
    (set_pendingRequests (delete (pretty id) (pendingRequests s)) s,
     [Resolved p (nth 0 params Undefined)], Ret tt).
Proof.
  intros Hp. rewrite onMessage_rpcReply. unfold onRpcMessage. cbn. by rewrite Hp.
Qed.

Lemma rpcReply_error id params data s p text :
  pendingRequests s !! pretty id = Some p →
  newError (nth 0 params Undefined) = Some text →
  onMessage (rpcReply id "error" params) data s =
    (set_pendingRequests (delete (pretty id) (pendingRequests s)) s,
     [Rejected p (mkError text (nth 1 params Undefined)
                          (nth 2 params Undefined))], Ret tt).
Proof.
  intros Hp Htext. rewrite onMessage_rpcReply. unfold onRpcMessage. cbn.
  rewrite Hp. cbn. unfold bind. by rewrite Htext.
Qed.

Lemma rpcReply_dropped id operation params data s :
  pendingRequests s !! pretty id = None →
  onMessage (rpcReply id operation params) data s = (s, [], Ret tt).
Proof.
  intros Hp. rewrite onMessage_rpcReply. unfold onRpcMessage. cbn.
  by rewrite Hp, Object_prototype_decimal.
Qed.

(** C4, as the code has it. An inbound reply
    [["frida:rpc", id, operation, ...params]] of the internal protocol
    whose [id] has the string form [strId]: when a request is pending
    under [strId], "ok" resolves its promise with [params[0]], and "error"
    rejects it with the Error built from [params] (message, name, stack)
    when [params[0]] can be converted to the message, after which the
    request is no longer pending; when that conversion throws, nothing is
    settled and the request stays pending; when none is pending under
    [strId] and [strId] names no member of [Object.prototype], the reply
    changes nothing and has no effect. *)
Theorem rpc_reply_settles (s : Script.t) (id : value) (strId : string)
    (params : list value) (data : option (list Z)) :
  Js.toString id = Some strId →
  match pendingRequests s !! strId with
  | Some p =>
      onMessage (rpcMessage id (Str "ok") params) data s =
        (set_pendingRequests (delete strId (pendingRequests s)) s,
         [Resolved p (nth 0 params Undefined)], Ret tt)
      ∧ onMessage (rpcMessage id (Str "error") params) data s =
          match newError (nth 0 params Undefined) with
          | Some text =>
              (set_pendingRequests (delete strId (pendingRequests s)) s,
               [Rejected p (mkError text (nth 1 params Undefined)
                                    (nth 2 params Undefined))], Ret tt)
          | None =>
              (s, [], Throw (TypeError "cannot convert object to primitive value"))
          end
  | None =>
      Object_prototype strId = None →
      ∀ operation,
        onMessage (rpcMessage id operation params) data s = (s, [], Ret tt)
  end.
Proof.
  intros Hid.
  destruct (pendingRequests s !! strId) as [p|] eqn:Hp.
  - split; rewrite onMessage_rpcMessage; unfold onRpcMessage, bind;
      rewrite callToString_run, Hid; cbn; rewrite Hp; cbn; [done|].
    by destruct (newError (nth 0 params Undefined)).
  - intros Hproto operation. rewrite onMessage_rpcMessage.
    unfold onRpcMessage, bind. rewrite callToString_run, Hid. cbn.
    by rewrite Hp, Hproto.
Qed.

End runtime.

Section examples.
(** The examples run on a console whose members return. *)
#[local] Existing Instance quiet_console.

(** A Script with a call of an export under way: request 1 is pending
    for promise 11. *)
Definition calling_script : Script.t :=
  state_of (exportsCall (fun _ => "") 11 "add" [Num 1; Num 2] example_script).

Lemma rpc_reply_settles_witness :
  Js.toString (Num 1) = Some "1" ∧
  pendingRequests calling_script !! "1" = Some 11%nat ∧
  onMessage (rpcMessage (Num 1) (Str "ok") [Num 3]) None calling_script =
    (set_pendingRequests (delete "1" (pendingRequests calling_script))
                         calling_script,
     [Resolved 11 (Num 3)], Ret tt) ∧
  onMessage (rpcMessage (Num 1) (Str "error")
                        [Str "boom"; Str "RangeError"; Str "at add"])
            None calling_script =
    (set_pendingRequests (delete "1" (pendingRequests calling_script))
                         calling_script,
     [Rejected 11 (mkError "boom" (Str "RangeError") (Str "at add"))], Ret tt).
Proof.
  split; [reflexivity|]. split; [reflexivity|]. split.
  - exact (proj1 (rpc_reply_settles calling_script (Num 1) "1" [Num 3] None
                    eq_refl)).
  - exact (proj2 (rpc_reply_settles calling_script (Num 1) "1"
                    [Str "boom"; Str "RangeError"; Str "at add"] None eq_refl)).
Defined.

(** C4 as the specification states it fails. An "error" reply to a
    pending request whose message cannot be converted rejects nothing:
    [new Error] throws, and the request stays pending. A reply whose id
    is the name of a member of [Object.prototype] is not dropped when no
    request is pending: the member is called, and throws. And a reply
    without an id is not dropped either: [toString] is read on
    [undefined]. *)
Lemma rpc_reply_not_settled :
  (pendingRequests calling_script !! "1" = Some 11%nat ∧
   onMessage (rpcMessage (Num 1) (Str "error") [Obj [("toString", Num 1)]])
             None calling_script =
     (calling_script, [],
      Throw (TypeError "cannot convert object to primitive value")))
  ∧ (pendingRequests example_script !! "valueOf" = None ∧
     onMessage (rpcMessage (Str "valueOf") (Str "ok") []) None example_script =
       (example_script, [],
        Throw (TypeError "cannot convert undefined or null to object")))
  ∧ (pendingRequests example_script = ∅ ∧
     onMessage (Obj [("type", Str "send"); ("payload", Arr [Str "frida:rpc"])])
               None example_script =
       (example_script, [],
        Throw (TypeError "cannot read properties of null or undefined"))).
Proof. split_and!; reflexivity. Qed.

(** The same at the level of the Script: the reply to the first call of an
    export resolves the promise of that call, and the user handler of
    "message" is not called. *)
Example export_call_resolved :
  let s1 := state_of (exportsCall (fun _ => "") 11 "add" [Num 1; Num 2] example_script) in
  effects_of (_dispatchMessage (rpcReply 1 "ok" [Num 3]) None s1) = [Resolved 11 (Num 3)].
Proof. reflexivity. Qed.

End examples.

End ScriptFacts.

(** ** The Session *)

Module SessionFacts.
Import Js Eff EffFacts Protocol Session.

Section runtime.
Context {runtime_console : Console}.

(** *** What leaves a part of the Session alone *)

Section keeping.
Context {X : Type} (proj : Session.t → X).
(** [proj] does not look at the heap, the registry or the emitter. *)
Hypothesis proj_heap : ∀ x w, proj (set_heap x w) = proj w.
Hypothesis proj_scripts : ∀ x w, proj (set_scripts x w) = proj w.
Hypothesis proj_events : ∀ x w, proj (set_events x w) = proj w.
(** [ok e]: the effect [e] of a Script keeps [proj]. *)
Variable ok : Script.effect → Prop.
Hypothesis ok_keeps : ∀ ref e, ok e → keeps proj (scriptEffect ref e).

Lemma keeps_onScript {A} ref (m : M Script.t Script.effect A) :
  (∀ s, Forall ok (effects_of (m s))) → keeps proj (onScript ref m).
Proof.
  intros Hm. unfold onScript. apply keeps_bind; [apply keeps_get|]. intros w.
  destruct (heap w !! ref) as [s|]; [|apply keeps_ret].
  specialize (Hm s). destruct (m s) as [[s' es] r]. unfold effects_of in Hm. cbn in Hm.
  apply keeps_bind; [by apply keeps_modify|]. intros _.
  apply keeps_bind.
  - clear -Hm ok_keeps. induction Hm as [|e es He _ IH]; [apply keeps_ret|].
    cbn. apply keeps_bind; [by apply ok_keeps | done].
  - intros _. destruct r; [apply keeps_ret | apply keeps_throw].
Qed.

Lemma keeps_destroyScripts keys :
  (∀ s, Forall ok (effects_of (Script._destroy s))) →
  keeps proj (destroyScripts keys).
Proof.
  intros Hd. induction keys as [|k keys IH]; [apply keeps_ret|].
  cbn. apply keeps_bind; [apply keeps_get|]. intros w.
  destruct (JsMap.get k (_scripts w)); [|done].
  apply keeps_bind; [by apply keeps_onScript | done].
Qed.

Lemma keeps_emitDetached reason c : keeps proj (emitDetached reason c).
Proof.
  apply keeps_forEach. intros [h|]; cbn; [apply keeps_tell|].
  apply keeps_bind; [apply keeps_tell|]. intros _. by apply keeps_modify.
Qed.
End keeping.

(** *** C10: the state of the Session *)

Lemma issue_state r : keeps _state (issue r).
Proof. unfold issue. repeat step_shape. Qed.

Lemma _deliverPendingMessages_state : keeps _state _deliverPendingMessages.
Proof. unfold _deliverPendingMessages, issue. repeat step_shape. Qed.

Lemma _postToAgent_state r : keeps _state (_postToAgent r).
Proof. unfold _postToAgent. repeat step_shape. apply _deliverPendingMessages_state. Qed.

Lemma scriptEffect_state ref e : keeps _state (scriptEffect ref e).
Proof. destruct e; cbn; repeat step_shape. apply _postToAgent_state. Qed.

Lemma onScript_state {A} ref (m : M Script.t Script.effect A) :
  keeps _state (onScript ref m).
Proof.
  apply (keeps_onScript _state) with (ok := fun _ => True); try done.
  - intros ? e _. apply scriptEffect_state.
  - intros s. apply Forall_true. done.
Qed.

Lemma destroyScripts_state keys : keeps _state (destroyScripts keys).
Proof.
  induction keys as [|k keys IH]; cbn; repeat step_shape; try done.
  apply onScript_state.
Qed.

Lemma emitDetached_state reason c : keeps _state (emitDetached reason c).
Proof. by apply keeps_emitDetached. Qed.

Lemma _dispatchMessages_state JSON_parse messages batchId :
  keeps _state (_dispatchMessages JSON_parse messages batchId).
Proof.
  unfold _dispatchMessages, dispatchRecord. repeat step_shape.
  apply onScript_state.
Qed.

Lemma continuation_state r rep : keeps _state (continuation r rep).
Proof.
  destruct r, rep; cbn [continuation]; unfold scriptCreated; repeat step_shape;
    first [apply _deliverPendingMessages_state | apply emitDetached_state
          | apply onScript_state].
Qed.

(** [resume()] leaves [interrupted] for [attached] and does nothing in the
    two other states. *)
Lemma resume_interrupted w :
  _state w = interrupted →
  resume w =
    (set_calls (calls w ++ [mkCall (ResumeReq (_lastRxBatchId w)) Pending])
       (set_state attached w), [], Ret tt).
Proof. intros H. unfold resume. cbn. rewrite H. reflexivity. Qed.

Lemma resume_otherwise w :
  _state w ≠ interrupted → resume w = (w, [Completed OpResume None], Ret tt).
Proof. intros H. unfold resume. cbn. by rewrite bool_decide_eq_true_2. Qed.

(** On a detached Session [detach()] and [_onDetached] return at once. *)
Lemma detach_detached w :
  _state w = detached → detach w = (w, [Completed OpDetach None], Ret tt).
Proof. intros H. unfold detach. cbn. by rewrite bool_decide_eq_true_2. Qed.

Lemma _onDetached_detached reason c w :
  _state w = detached → _onDetached reason c w = (w, [], Ret tt).
Proof. intros H. unfold _onDetached. cbn. by rewrite bool_decide_eq_true_2. Qed.

Lemma keeps_eq {X A} (proj : Session.t → X) (m : M Session.t effect A) w w' out r :
  keeps proj m → m w = (w', out, r) → proj w' = proj w.
Proof. intros H Hm. specialize (H w). by rewrite Hm in H. Qed.

Lemma step_detached JSON_parse e w w' out r :
  _state w = detached → step JSON_parse e w = Some (w', out, r) →
  _state w' = detached.
Proof.
  intros Hd Hstep. rewrite <- Hd.
  destruct e; cbn [step] in Hstep.
  - rewrite detach_detached in Hstep by done. congruence.
  - rewrite resume_otherwise in Hstep by (by rewrite Hd). congruence.
  - apply (inj Some) in Hstep. revert Hstep. apply keeps_eq, issue_state.
  - apply (inj Some) in Hstep. revert Hstep. apply keeps_eq, _postToAgent_state.
  - apply (inj Some) in Hstep. revert Hstep. apply keeps_eq, _dispatchMessages_state.
  - rewrite _onDetached_detached in Hstep by done. congruence.
  - unfold settle in Hstep. destruct (calls w !! i) as [[rq []]|]; try done.
    apply (inj Some) in Hstep. revert Hstep. apply keeps_eq.
    repeat step_shape. apply continuation_state.
  - apply (inj Some) in Hstep. revert Hstep. apply keeps_eq.
    unfold subscribe. repeat step_shape.
  - case_bool_decide; [|done].
    apply (inj Some) in Hstep. revert Hstep. apply keeps_eq.
    repeat step_shape. apply onScript_state.
Qed.

Lemma run_detached JSON_parse es w w' out :
  _state w = detached → run JSON_parse es w = Some (w', out) →
  _state w' = detached.
Proof.
  revert w out. induction es as [|e es IH]; intros w out Hd Hrun; cbn in Hrun.
  - congruence.
  - destruct (step JSON_parse e w) as [[[w1 out1] r]|] eqn:Hstep; [|done].
    destruct (run JSON_parse es w1) as [[w2 out2]|] eqn:Hrest; [|done].
    injection Hrun as <- _.
    eapply IH; [|done]. eapply step_detached; eauto.
Qed.

(** C10. Once the state of a Session is [detached], no sequence of
    operations (detach, resume, createScript, _postToAgent, incoming
    messages, _onDetached, the completion of any pending call) changes it;
    and [resume()], in any Session [w0], goes from [interrupted] to
    [attached] and does nothing in the two other states. *)
Theorem detached_is_terminal (JSON_parse : string → option value)
    (es : list event) (w w' : Session.t) (out : list effect) (w0 : Session.t) :
  _state w = detached →
  run JSON_parse es w = Some (w', out) →
  _state w' = detached
  ∧ match _state w0 with
    | interrupted => _state (state_of (resume w0)) = attached
    | _ => resume w0 = (w0, [Completed OpResume None], Ret tt)
    end.
Proof.
  intros Hd Hrun. split; [by eapply run_detached|].
  destruct (_state w0) eqn:H0.
  - apply resume_otherwise. by rewrite H0.
  - by rewrite resume_interrupted.
  - apply resume_otherwise. by rewrite H0.
Qed.

(** *** C1 and C2: the outbound queue *)

Definition is_postMessages (c : call) : bool :=
  match req c with PostMessages _ _ => true | _ => false end.

(** The [postMessages] calls made so far, settled or not, oldest first. *)
Definition deliveries (w : Session.t) : list call :=
  List.filter is_postMessages (calls w).

(** What the outbound side of a Session consists of. *)
Definition view (w : Session.t)
    : list PendingMessage * Z * Z * list call :=
  (_pendingMessages w, _nextSerial w, _pendingDeliveries w, deliveries w).


Lemma filter_filter_sub {A} (f g : A → bool) l :
  (∀ x, f x = true → g x = true) →
  List.filter f (List.filter g l) = List.filter f l.
Proof.
  intros Hfg. induction l as [|x l IH]; [done|]. cbn.
  destruct (g x) eqn:Hg; cbn; destruct (f x) eqn:Hf; rewrite ?IH; try done.
  apply Hfg in Hf. congruence.
Qed.

Lemma in_flight_deliveries w :
  in_flight w = List.filter is_delivery (deliveries w).
Proof.
  unfold in_flight, deliveries. symmetry. apply filter_filter_sub.
  intros [[] []]; done.
Qed.

Lemma issue_view r :
  is_postMessages (mkCall r Pending) = false → keeps view (issue r).
Proof.
  intros Hr w. unfold issue, view, deliveries. cbn.
  by rewrite List.filter_app; cbn; rewrite Hr, app_nil_r.
Qed.

Lemma scriptEffect_view ref e :
  ScriptFacts.no_post e → keeps view (scriptEffect ref e).
Proof. destruct e; cbn; intros H; repeat step_shape. done. Qed.

Lemma onScript_view {A} ref (m : M Script.t Script.effect A) :
  produces ScriptFacts.no_post m → keeps view (onScript ref m).
Proof.
  intros Hm. apply (keeps_onScript view) with (ok := ScriptFacts.no_post); try done.
  intros ? e. apply scriptEffect_view.
Qed.

Lemma destroyScripts_view keys : keeps view (destroyScripts keys).
Proof.
  apply (keeps_destroyScripts view) with (ok := ScriptFacts.no_post); try done.
  - intros ? e. apply scriptEffect_view.
  - apply ScriptFacts._destroy_no_post.
Qed.

Lemma emitDetached_view reason c : keeps view (emitDetached reason c).
Proof. by apply keeps_emitDetached. Qed.

Lemma detach_view : keeps view detach.
Proof.
  unfold detach. repeat step_shape; try done.
  - apply destroyScripts_view.
  - by apply issue_view.
Qed.

Lemma _onDetached_view reason c : keeps view (_onDetached reason c).
Proof.
  unfold _onDetached. repeat step_shape; try done.
  - apply destroyScripts_view.
  - apply emitDetached_view.
Qed.

Lemma resume_view : keeps view resume.
Proof. unfold resume. repeat step_shape; try done. by apply issue_view. Qed.

Lemma createScript_view source options : keeps view (createScript source options).
Proof. by apply issue_view. Qed.

Lemma _dispatchMessages_view JSON_parse messages batchId :
  keeps view (_dispatchMessages JSON_parse messages batchId).
Proof.
  unfold _dispatchMessages, dispatchRecord. repeat step_shape; try done.
  apply onScript_view, ScriptFacts._dispatchMessage_no_post.
Qed.

Lemma subscribe_view h : keeps view (subscribe h).
Proof. unfold subscribe. by repeat step_shape. Qed.

Lemma connect_view ref name h :
  keeps view (_ <- onScript ref (Script.connect name h) ;; ret tt).
Proof.
  repeat step_shape. apply onScript_view.
  unfold Script.connect. repeat step_shape.
Qed.

Lemma scriptCreated_view id : keeps view (scriptCreated id).
Proof.
  unfold scriptCreated. repeat step_shape; try done.
  apply onScript_view. repeat step_shape.
Qed.

Definition settled (c : call) : Prop := status c ≠ Pending.

(** The deliveries and the counter [_pendingDeliveries]: either every
    delivery is settled and the counter is 0, or the last one alone is
    pending and the counter is 1. *)
Inductive flight : list call → Z → Prop :=
| flight_idle l : Forall settled l → flight l 0
| flight_busy l c :
    Forall settled l → status c = Pending → flight (l ++ [c]) 1.

(** The serial that [_postToAgent] gives to the record submitted at
    position [i], from 0. *)
Definition serial_at (i : nat) : Z := Z.of_nat i + 1.

(** Batches that follow each other from position [n] of the submission
    order: none is empty, and the id of each is the serial of its last
    record. *)
Fixpoint batches_from (n : nat) (bs : list (list AgentMessageRecord * Z)) : Prop :=
  match bs with
  | [] => True
  | (records, batchId) :: more =>
      records ≠ []
      ∧ batchId = serial_at (n + length records - 1)
      ∧ batches_from (n + length records) more
  end.

(** The records of the batches, in the order they were sent. *)
Definition sent_of (ds : list call) : list AgentMessageRecord :=
  concat (fst <$> omap batch_of ds).

(** The invariant of the outbound side, for the records [L] submitted
    so far. *)
Definition queue_ok (L : list AgentMessageRecord)
    (v : list PendingMessage * Z * Z * list call) : Prop :=
  let '(queue, next, pd, ds) := v in
  flight ds pd
  ∧ sent_of ds ++ (record <$> queue) = L
  ∧ serial <$> queue = serial_at <$> seq (length (sent_of ds)) (length queue)
  ∧ next = serial_at (length L)
  ∧ batches_from 0 (omap batch_of ds).

Lemma batches_from_snoc n bs records batchId :
  batches_from n bs →
  records ≠ [] →
  batchId = serial_at (n + length (concat (fst <$> bs)) + length records - 1) →
  batches_from n (bs ++ [(records, batchId)]).
Proof.
  revert n. induction bs as [|[r b] bs IH]; intros n Hbs Hne Hid; cbn in *.
  - rewrite Nat.add_0_r in Hid. done.
  - destruct Hbs as (? & ? & Hbs). split_and!; try done.
    apply IH; try done. rewrite length_app in Hid. rewrite Hid. f_equal. lia.
Qed.


(** *** _deliverPendingMessages *)

Lemma deliver_noop w :
  _pendingDeliveries w > 0 ∨ _pendingMessages w = [] →
  _deliverPendingMessages w = (w, [], Ret tt).
Proof.
  intros [H|H]; unfold _deliverPendingMessages; cbn.
  - by rewrite bool_decide_eq_true_2.
  - rewrite H. by destruct (bool_decide _).
Qed.

Lemma deliver_send w q m :
  ¬ _pendingDeliveries w > 0 → _pendingMessages w = q ++ [m] →
  _deliverPendingMessages w =
    (set_calls (calls w ++ [mkCall (PostMessages (record <$> q ++ [m]) (serial m)) Pending])
       (set_pendingDeliveries (_pendingDeliveries w + 1)
          (set_pendingMessages [] w)), [], Ret tt).
Proof.
  intros Hpd Hq. unfold _deliverPendingMessages. cbn.
  rewrite bool_decide_eq_false_2 by done. rewrite Hq.
  rewrite bool_decide_eq_false_2 by (rewrite length_app; cbn; lia).
  rewrite length_app. cbn.
  replace (length q + 1 - 1)%nat with (length q + 0)%nat by lia.
  rewrite lookup_app_r, Nat.add_0_r, Nat.sub_diag by lia. done.
Qed.

Lemma deliveries_snoc w c :
  is_postMessages c = true →
  deliveries (set_calls (calls w ++ [c]) w) = deliveries w ++ [c].
Proof. intros Hc. unfold deliveries. cbn. rewrite List.filter_app. cbn. by rewrite Hc. Qed.

Lemma sent_of_snoc ds records batchId st :
  sent_of (ds ++ [mkCall (PostMessages records batchId) st]) = sent_of ds ++ records.
Proof.
  unfold sent_of. rewrite omap_app, fmap_app, concat_app. cbn. by rewrite app_nil_r.
Qed.

Lemma serial_last (q : list PendingMessage) m n :
  serial <$> (q ++ [m]) = serial_at <$> seq n (length (q ++ [m])) →
  serial m = serial_at (n + length q).
Proof.
  rewrite length_app. cbn. rewrite seq_app, !fmap_app. cbn.
  intros H. apply app_inj_2 in H as [_ H]; [|done]. congruence.
Qed.

Lemma queue_ok_send L q m next ds :
  queue_ok L (q ++ [m], next, 0, ds) →
  queue_ok L ([], next, 1,
              ds ++ [mkCall (PostMessages (record <$> q ++ [m]) (serial m)) Pending]).
Proof.
  intros (Hfl & HL & Hser & Hnext & Hb).
  inversion Hfl as [l Hl Hds Hpd | l c Hl Hc Hds Hpd]; subst l.
  unfold queue_ok. split_and!.
  - by apply flight_busy.
  - rewrite sent_of_snoc. by rewrite app_nil_r.
  - done.
  - done.
  - rewrite omap_app. apply batches_from_snoc; [done | |].
    + by destruct q.
    + apply serial_last in Hser. rewrite Hser. f_equal.
      rewrite length_fmap, length_app. cbn. unfold sent_of. lia.
Qed.

Lemma queue_ok_post L queue next pd ds r :
  queue_ok L (queue, next, pd, ds) →
  queue_ok (L ++ [r]) (queue ++ [mkPending next r], next + 1, pd, ds).
Proof.
  intros (Hfl & HL & Hser & Hnext & Hb). unfold queue_ok. split_and!; try done.
  - rewrite fmap_app, app_assoc. by rewrite HL.
  - rewrite fmap_app, length_app, seq_app, fmap_app.
    rewrite Hser. f_equal. cbn. f_equal.
    rewrite Hnext, <- HL, length_app, length_fmap. done.
  - rewrite Hnext, length_app. cbn. unfold serial_at. lia.
Qed.

Lemma view_deliver_send w q m :
  ¬ _pendingDeliveries w > 0 → _pendingMessages w = q ++ [m] →
  view (state_of (_deliverPendingMessages w)) =
    ([], _nextSerial w, _pendingDeliveries w + 1,
     deliveries w ++ [mkCall (PostMessages (record <$> q ++ [m]) (serial m)) Pending]).
Proof.
  intros Hpd Hq. rewrite (deliver_send w q m Hpd Hq).
  unfold view, state_of, deliveries. cbn. by rewrite List.filter_app.
Qed.

Lemma deliver_ok L w :
  queue_ok L (view w) → queue_ok L (view (state_of (_deliverPendingMessages w))).
Proof.
  intros H.
  destruct (decide (_pendingDeliveries w > 0)) as [Hpd|Hpd].
  { by rewrite deliver_noop by (by left). }
  destruct (decide (_pendingMessages w = [])) as [Hq|Hq].
  { by rewrite deliver_noop by (by right). }
  apply exists_last in Hq as (q & m & Hq).
  rewrite (view_deliver_send w q m Hpd Hq).
  unfold view in H. rewrite Hq in H.
  pose proof H as (Hfl & _). inversion Hfl as [l Hl Hds H0 | l c Hl Hc Hds H1]; [|lia].
  rewrite <- H0 in *. by apply queue_ok_send.
Qed.

Lemma view_post r w :
  view (state_of (_postToAgent r w)) =
  view (state_of (_deliverPendingMessages
    (set_nextSerial (_nextSerial w + 1)
       (set_pendingMessages (_pendingMessages w ++ [mkPending (_nextSerial w) r]) w)))).
Proof.
  unfold _postToAgent.
  erewrite bind_ret_eq by reflexivity. erewrite bind_ret_eq by reflexivity.
  reflexivity.
Qed.

Lemma post_ok L r w :
  queue_ok L (view w) → queue_ok (L ++ [r]) (view (state_of (_postToAgent r w))).
Proof.
  intros H. rewrite view_post. apply deliver_ok.
  by apply queue_ok_post.
Qed.

(** *** A promise settles *)

Lemma deliveries_split w i x :
  calls w !! i = Some x →
  deliveries w =
    List.filter is_postMessages (take i (calls w))
    ++ (if is_postMessages x then [x] else [])
    ++ List.filter is_postMessages (drop (S i) (calls w)).
Proof.
  intros Hi. unfold deliveries.
  rewrite <- (take_drop_middle (calls w) i x Hi) at 1.
  rewrite List.filter_app. cbn. by destruct (is_postMessages x).
Qed.

Lemma deliveries_mark w i x y :
  calls w !! i = Some x →
  deliveries (set_calls (<[i := y]> (calls w)) w) =
    List.filter is_postMessages (take i (calls w))
    ++ (if is_postMessages y then [y] else [])
    ++ List.filter is_postMessages (drop (S i) (calls w)).
Proof.
  intros Hi. unfold deliveries. cbn.
  rewrite insert_take_drop by (by eapply lookup_lt_Some).
  rewrite List.filter_app. cbn. by destruct (is_postMessages y).
Qed.

Lemma deliveries_mark_other w i r st st' :
  calls w !! i = Some (mkCall r st) →
  is_postMessages (mkCall r st) = false →
  deliveries (set_calls (<[i := mkCall r st']> (calls w)) w) = deliveries w.
Proof.
  intros Hi Hr. rewrite (deliveries_mark w i _ _ Hi), (deliveries_split w i _ Hi).
  unfold is_postMessages in *. cbn in *. by rewrite Hr.
Qed.

(** The delivery that settles is the last one, the only one in flight. *)
Lemma flight_mark w i records batchId st' :
  calls w !! i = Some (mkCall (PostMessages records batchId) Pending) →
  flight (deliveries w) (_pendingDeliveries w) →
  ∃ l, Forall settled l
       ∧ _pendingDeliveries w = 1
       ∧ deliveries w = l ++ [mkCall (PostMessages records batchId) Pending]
       ∧ deliveries (set_calls (<[i := mkCall (PostMessages records batchId) st']> (calls w)) w)
         = l ++ [mkCall (PostMessages records batchId) st'].
Proof.
  intros Hi Hfl.
  rewrite (deliveries_mark w i _ _ Hi). rewrite (deliveries_split w i _ Hi) in *.
  cbn in *.
  set (pre := List.filter is_postMessages (take i (calls w))) in *.
  set (post := List.filter is_postMessages (drop (S i) (calls w))) in *.
  clearbody pre post.
  inversion Hfl as [l Hl Hds Hpd | l c Hl Hc Hds Hpd].
  - exfalso. subst l. apply Forall_app in Hl as [_ Hl].
    apply Forall_cons in Hl as [Hl _]. by apply Hl.
  - destruct post as [|y post _] using rev_ind.
    + apply app_inj_tail in Hds as [-> ->]. exists pre. done.
    + exfalso. rewrite app_comm_cons, app_assoc in Hds.
      apply app_inj_tail in Hds as [-> _].
      apply Forall_app in Hl as [_ Hl].
      apply Forall_cons in Hl as [Hl _]. by apply Hl.
Qed.

Lemma queue_ok_settled L queue next l records batchId st' :
  st' ≠ Pending →
  queue_ok L (queue, next, 1, l ++ [mkCall (PostMessages records batchId) Pending]) →
  queue_ok L (queue, next, 0, l ++ [mkCall (PostMessages records batchId) st']).
Proof.
  intros Hst (Hfl & HL & Hser & Hnext & Hb). unfold queue_ok.
  rewrite sent_of_snoc in *. rewrite omap_app in *. cbn in *.
  split_and!; try done.
  apply flight_idle.
  inversion Hfl as [|l' c Hl Hc Hds Hpd].
  apply app_inj_tail in Hds as [-> ->].
  apply Forall_app. split; [done|]. by repeat constructor.
Qed.

(** The records that an event passes to [_postToAgent]. *)
Definition submitted_by (e : event) : list AgentMessageRecord :=
  match e with PostToAgent r => [r] | _ => [] end.

Definition submitted (es : list event) : list AgentMessageRecord :=
  concat (submitted_by <$> es).

Lemma state_of_bind_modify {A} f (k : unit → M Session.t effect A) w :
  state_of (bind (modify f) k w) = state_of (k tt (f w)).
Proof. by erewrite bind_ret_eq by reflexivity. Qed.

Lemma settle_delivery_ok L w i records batchId rep :
  calls w !! i = Some (mkCall (PostMessages records batchId) Pending) →
  queue_ok L (view w) →
  queue_ok L (view (state_of
    ((modify (fun w => set_calls (<[i := mkCall (PostMessages records batchId) (outcome rep)]> (calls w)) w) ;;;
      continuation (PostMessages records batchId) rep) w))).
Proof.
  intros Hi H. rewrite state_of_bind_modify.
  pose proof H as (Hfl & _).
  destruct (flight_mark w i records batchId (outcome rep) Hi Hfl)
    as (l & Hl & Hpd & Hds & Hds').
  set (w1 := set_calls _ w) in *.
  assert (H1 : queue_ok L (view (set_pendingDeliveries (_pendingDeliveries w1 - 1) w1))).
  { change (view (set_pendingDeliveries (_pendingDeliveries w1 - 1) w1))
      with (_pendingMessages w, _nextSerial w, _pendingDeliveries w - 1, deliveries w1).
    rewrite Hds', Hpd. unfold view in H. rewrite Hds, Hpd in H.
    apply queue_ok_settled; [by destruct rep | done]. }
  destruct rep; cbn [continuation].
  - rewrite state_of_bind_modify. by apply deliver_ok.
  - done.
Qed.

(** What follows a call that is not a delivery. *)
Lemma continuation_ok L rq rep :
  is_postMessages (mkCall rq Pending) = false →
  preserves (fun w => queue_ok L (view w)) (continuation rq rep).
Proof.
  intros Hrq.
  destruct rq, rep; try done; cbn [continuation]; repeat step_shape.
  - apply (keeps_preserves view (queue_ok L)), emitDetached_view.
  - apply (keeps_preserves view (queue_ok L)), emitDetached_view.
  - by apply preserves_modify.
  - intros w. apply deliver_ok.
  - apply (keeps_preserves view (queue_ok L)), scriptCreated_view.
Qed.

Lemma queue_step_ok JSON_parse L e w w' out r :
  queue_ok L (view w) → step JSON_parse e w = Some (w', out, r) →
  queue_ok (L ++ submitted_by e) (view w').
Proof.
  intros H Hstep.
  assert (Hkeep : ∀ m : M Session.t effect unit,
            keeps view m → m w = (w', out, r) → queue_ok (L ++ []) (view w')).
  { intros m Hm Hw. rewrite app_nil_r. by rewrite (keeps_eq view m w w' out r Hm Hw). }
  destruct e; cbn [step submitted_by] in *; try apply (inj Some) in Hstep.
  - revert Hstep. apply Hkeep, detach_view.
  - revert Hstep. apply Hkeep, resume_view.
  - revert Hstep. apply Hkeep, createScript_view.
  - apply (post_ok L r0) in H. by rewrite Hstep in H.
  - revert Hstep. apply Hkeep, _dispatchMessages_view.
  - revert Hstep. apply Hkeep, _onDetached_view.
  - rewrite app_nil_r. unfold settle in Hstep.
    destruct (calls w !! i) as [[rq []]|] eqn:Hi; try done.
    apply (inj Some) in Hstep.
    destruct (is_postMessages (mkCall rq Pending)) eqn:Hrq.
    + destruct rq; try done.
      pose proof (settle_delivery_ok L w i records batchId rep Hi H) as H'.
      by rewrite Hstep in H'.
    + assert (H' : queue_ok L (view (state_of
        ((modify (fun w => set_calls (<[i := mkCall rq (outcome rep)]> (calls w)) w) ;;;
          continuation rq rep) w)))).
      { rewrite state_of_bind_modify. apply continuation_ok; [done|].
        change (view (set_calls (<[i:=mkCall rq (outcome rep)]> (calls w)) w))
          with (_pendingMessages w, _nextSerial w, _pendingDeliveries w,
                deliveries (set_calls (<[i:=mkCall rq (outcome rep)]> (calls w)) w)).
        by rewrite (deliveries_mark_other w i rq Pending (outcome rep) Hi Hrq). }
      by rewrite Hstep in H'.
  - revert Hstep. apply Hkeep, subscribe_view.
  - case_bool_decide; [|done]. apply (inj Some) in Hstep.
    revert Hstep. apply Hkeep, connect_view.
Qed.

Lemma queue_run_ok JSON_parse es : ∀ L w w' out,
  queue_ok L (view w) → run JSON_parse es w = Some (w', out) →
  queue_ok (L ++ submitted es) (view w').
Proof.
  induction es as [|e es IH]; intros L w w' out H Hrun; cbn in Hrun.
  - injection Hrun as <- _. unfold submitted. cbn. by rewrite app_nil_r.
  - destruct (step JSON_parse e w) as [[[w1 out1] r]|] eqn:Hstep; [|done].
    destruct (run JSON_parse es w1) as [[w2 out2]|] eqn:Hrest; [|done].
    injection Hrun as <- _.
    unfold submitted. cbn. rewrite app_assoc.
    eapply IH; [|done]. eapply queue_step_ok; eauto.
Qed.

Lemma new_ok : queue_ok [] (view new).
Proof.
  unfold queue_ok, view. cbn. split_and!; try done.
  apply flight_idle. constructor.
Qed.

(** *** When the queue is empty *)







Lemma deliveries_are_postMessages w c : c ∈ deliveries w → is_postMessages c = true.
Proof.
  unfold deliveries. rewrite list_elem_of_In, List.filter_In. by intros [_ ?].
Qed.

Lemma filter_settled l : Forall settled l → List.filter is_delivery l = [].
Proof.
  induction 1 as [|c l Hc _ IH]; [done|]. cbn. rewrite IH.
  unfold is_delivery, settled in *. by destruct (req c), (status c).
Qed.

Lemma in_flight_flight w :
  flight (deliveries w) (_pendingDeliveries w) →
  _pendingDeliveries w = Z.of_nat (length (in_flight w))
  ∧ (length (in_flight w) ≤ 1)%nat.
Proof.
  rewrite in_flight_deliveries. intros Hfl.
  inversion Hfl as [l Hl Hds Hpd | l c Hl Hc Hds Hpd].
  - rewrite filter_settled by done. cbn. split; [done | lia].
  - assert (Hp : is_postMessages c = true).
    { apply (deliveries_are_postMessages w). rewrite <- Hds.
      apply elem_of_app. right. by left. }
    rewrite List.filter_app, filter_settled by done. cbn.
    unfold is_delivery, is_postMessages in *. rewrite Hc.
    destruct (req c); try done.
Qed.

(** C1. In every state that a Session reaches, whatever the order of
    posts, completions and the other operations: the [postMessages] calls
    made so far are all settled and [_pendingDeliveries] is 0, or the last
    of them alone is pending and [_pendingDeliveries] is 1; so at most one
    is in flight, and a delivery was issued only when every earlier one had
    resolved or rejected. [_deliverPendingMessages] does nothing while a
    delivery is in flight or the queue is empty; otherwise it sends the
    whole queue in one call. *)
Theorem single_flight (JSON_parse : string → option value) (es : list event)
    (w : Session.t) (out : list effect) :
  run JSON_parse es new = Some (w, out) →
  flight (deliveries w) (_pendingDeliveries w)
  ∧ (length (in_flight w) ≤ 1)%nat
  ∧ _pendingDeliveries w = Z.of_nat (length (in_flight w))
  ∧ match in_flight w, last (_pendingMessages w) with
    | [], Some lastMessage =>
        in_flight (state_of (_deliverPendingMessages w))
        = [mkCall (PostMessages (record <$> _pendingMessages w)
                                (serial lastMessage)) Pending]
        ∧ _pendingMessages (state_of (_deliverPendingMessages w)) = []
    | _, _ => _deliverPendingMessages w = (w, [], Ret tt)
    end.
Proof.
  intros Hrun.
  pose proof (queue_run_ok JSON_parse es [] new w out new_ok Hrun) as (Hfl & _).
  destruct (in_flight_flight w Hfl) as [Hpd Hle].
  split_and!; try done.
  destruct (in_flight w) as [|c fl] eqn:Hin.
  - destruct (last (_pendingMessages w)) as [m|] eqn:Hlast.
    + destruct (decide (_pendingMessages w = [])) as [Hq|Hq].
      { by rewrite Hq in Hlast. }
      apply exists_last in Hq as (q & m' & Hq).
      rewrite Hq, last_snoc in Hlast. injection Hlast as ->.
      rewrite (deliver_send w q m) by (done || (cbn in Hpd; lia)).
      unfold state_of. cbn. split; [|done].
      unfold in_flight in *. cbn. rewrite List.filter_app, Hin, Hq. done.
    + apply deliver_noop. right. by apply last_None.
  - apply deliver_noop. left. rewrite Hpd. cbn. lia.
Qed.

End runtime.

Section examples.
(** The examples run on a console whose members return. *)
#[local] Existing Instance quiet_console.

(** Two records, and a run in which the second is posted while the first
    is in flight. *)
Definition record_a : AgentMessageRecord := mkRecord 1 5 "a" false [].
Definition record_b : AgentMessageRecord := mkRecord 1 5 "b" false [].

Definition no_parse : string → option value := fun _ => None.

Lemma single_flight_witness :
  ∃ w out,
    run no_parse [PostToAgent record_a; PostToAgent record_b; Settle 0 (Resolve 0)] new
      = Some (w, out)
    ∧ in_flight w = [mkCall (PostMessages [record_b] 2) Pending]
    ∧ _pendingDeliveries w = 1.
Proof.
  eexists _, _. split; [vm_compute; reflexivity|].
  split; [vm_compute; reflexivity|].
  refine (proj1 (proj2 (proj2 (single_flight no_parse
    [PostToAgent record_a; PostToAgent record_b; Settle 0 (Resolve 0)] _ _ _)))).
  vm_compute; reflexivity.
Defined.

End examples.

Section runtime.
Context {runtime_console : Console}.


End runtime.

Section examples.
(** The examples run on a console whose members return. *)
#[local] Existing Instance quiet_console.



Lemma detached_is_terminal_witness :
  ∃ w' out,
    run no_parse [Resume; PostToAgent record_a; Settle 0 (Resolve 0);
                  OnDetached ProcessTerminated None; Settle 1 Reject]
        (state_of (detach new)) = Some (w', out)
    ∧ _state w' = detached.
Proof.
  eexists _, _. split; [vm_compute; reflexivity|].
  refine (proj1 (detached_is_terminal no_parse
    [Resume; PostToAgent record_a; Settle 0 (Resolve 0);
     OnDetached ProcessTerminated None; Settle 1 Reject]
    (state_of (detach new)) _ _ new _ _)); vm_compute; reflexivity.
Defined.

End examples.

Section runtime.
Context {runtime_console : Console}.

(** *** C7: detach *)

(** Facts on the Map of the Scripts. *)
Lemma JsMap_get_In {V} (k : Z) (v : V) m : JsMap.get k m = Some v → In (k, v) m.
Proof.
  induction m as [|[k' v'] m IH]; cbn; [done|].
  destruct (decide (k' = k)) as [->|]; [intros [= ->]; by left | right; auto].
Qed.

Lemma JsMap_In_delete {V} (k : Z) (x : Z * V) m : In x (JsMap.delete k m) → In x m.
Proof.
  induction m as [|[k' v'] m IH]; cbn; [done|].
  destruct (decide (k' = k)); [by right|]. intros [?|?]; [by left | right; auto].
Qed.

Lemma JsMap_get_delete_ne {V} (k k' : Z) (m : list (Z * V)) :
  k ≠ k' → JsMap.get k (JsMap.delete k' m) = JsMap.get k m.
Proof.
  intros Hne. induction m as [|[k0 v0] m IH]; cbn; [done|].
  destruct (decide (k0 = k')) as [->|]; cbn.
  - by destruct (decide (k' = k)).
  - destruct (decide (k0 = k)); [done | apply IH].
Qed.

Lemma JsMap_get_keys {V} (k : Z) (m : list (Z * V)) :
  k ∉ JsMap.keys m → JsMap.get k m = None.
Proof.
  induction m as [|[k0 v0] m IH]; cbn; [done|].
  intros [? ?]%not_elem_of_cons. destruct (decide (k0 = k)); [done | auto].
Qed.

Lemma JsMap_keys_delete {V} (k k' : Z) (m : list (Z * V)) :
  k ∈ JsMap.keys (JsMap.delete k' m) → k ∈ JsMap.keys m.
Proof.
  induction m as [|[k0 v0] m IH]; cbn; [done|].
  destruct (decide (k0 = k')); cbn; [by right|].
  intros [->|?]%elem_of_cons; [by left | right; auto].
Qed.

Lemma JsMap_NoDup_delete {V} (k : Z) (m : list (Z * V)) :
  NoDup (JsMap.keys m) → NoDup (JsMap.keys (JsMap.delete k m)).
Proof.
  induction m as [|[k0 v0] m IH]; cbn; [done|].
  intros [Hk0 Hm]%NoDup_cons. destruct (decide (k0 = k)); [done|]. cbn.
  apply NoDup_cons. split; [|auto]. intros ?%JsMap_keys_delete. done.
Qed.

Lemma JsMap_get_delete_eq {V} (k : Z) (m : list (Z * V)) :
  NoDup (JsMap.keys m) → JsMap.get k (JsMap.delete k m) = None.
Proof.
  induction m as [|[k0 v0] m IH]; cbn; [done|].
  intros [Hk0 Hm]%NoDup_cons. destruct (decide (k0 = k)) as [->|Hne]; cbn.
  - by apply JsMap_get_keys.
  - destruct (decide (k0 = k)); [done | auto].
Qed.

(** The Map of the Scripts is a Map, and every Script in it has, for
    "destroyed", only the listeners that the code and the user put there. *)
Definition registry_check (scripts : list (Z * nat)) (heap : list Script.t) : bool :=
  forallb (fun '(handle, ref) =>
             match heap !! ref with
             | Some s => ScriptFacts.destroyed_listeners_ok handle s
             | None => true
             end) scripts.

Definition registry_ok (w : Session.t) : Prop :=
  registry_check (_scripts w) (heap w) = true ∧ NoDup (JsMap.keys (_scripts w)).

(** Everything of a Session but its Scripts. *)
Definition shell (w : Session.t) :=
  (_state w, _lastRxBatchId w, _pendingMessages w, _nextSerial w,
   _pendingDeliveries w, _events w, calls w).

Lemma registry_check_get scripts heap k ref s :
  registry_check scripts heap = true →
  JsMap.get k scripts = Some ref → heap !! ref = Some s →
  ScriptFacts.destroyed_listeners_ok k s = true.
Proof.
  unfold registry_check. rewrite forallb_forall. intros Hall Hget Hs.
  specialize (Hall (k, ref) (JsMap_get_In _ _ _ Hget)). cbn in Hall. by rewrite Hs in Hall.
Qed.

(** One Script of the registry is destroyed. *)
Lemma destroyOne_total w k ref s :
  registry_ok w → JsMap.get k (_scripts w) = Some ref → heap w !! ref = Some s →
  ∃ w' out s',
    onScript ref Script._destroy w = (w', out, Ret (Some tt))
    ∧ registry_ok w'
    ∧ shell w' = shell w
    ∧ heap w' = <[ref := s']> (heap w)
    ∧ Script._state s' = Script.destroyed
    ∧ (Script._state s = Script.destroyed → s' = s)
    ∧ (∀ k', k' ≠ k → JsMap.get k' (_scripts w') = JsMap.get k' (_scripts w))
    ∧ (∀ x, In x (_scripts w') → In x (_scripts w)).
Proof.
  intros [Hreg Hnd] Hget Hs.
  pose proof (registry_check_get _ _ _ _ _ Hreg Hget Hs) as Hok.
  destruct (ScriptFacts._destroy_total k s Hok) as (s' & es & Hd & Hst & Hsub & Hes & Hsame).
  unfold onScript.
  rewrite bind_get, Hs, Hd, bind_modify.
  set (w0 := set_heap _ w).
  assert (Hreg0 : registry_check (_scripts w0) (heap w0) = true).
  { subst w0. cbn. unfold registry_check in *. rewrite forallb_forall in *.
    intros [k1 ref1] Hin. specialize (Hreg _ Hin). cbn in *.
    destruct (decide (ref1 = ref)) as [->|Hne].
    - rewrite list_lookup_insert_eq by (by eapply lookup_lt_Some).
      rewrite Hs in Hreg. unfold ScriptFacts.destroyed_listeners_ok in *.
      rewrite forallb_forall in *. intros l Hl. apply Hreg.
      by apply list_elem_of_In, Hsub, list_elem_of_In.
    - by rewrite list_lookup_insert_ne. }
  assert (Hloop : ∃ w' out,
    for_of es (scriptEffect ref) w0 = (w', out, Ret tt)
    ∧ registry_ok w' ∧ shell w' = shell w0 ∧ heap w' = heap w0
    ∧ (∀ k', k' ≠ k → JsMap.get k' (_scripts w') = JsMap.get k' (_scripts w0))
    ∧ (∀ x, In x (_scripts w') → In x (_scripts w0))).
  { assert (Hok0 : registry_ok w0) by (by split).
    clear Hd Hreg0. clearbody w0. revert w0 Hok0.
    induction Hes as [|e es He _ IH]; intros w0 Hok0.
    - exists w0, []. by split_and!.
    - destruct e; try done; cbn in He.
      + destruct a; [|done].
        destruct (IH w0 Hok0) as (w' & out & Hrun & ? & ? & ? & ? & ?).
        exists w', (OfScript ref (Script.CallHandler h Script.NoArgs) :: out).
        cbn [for_of scriptEffect]. rewrite bind_tell, Hrun. by split_and!.
      + subst handle.
        set (w1 := set_scripts (JsMap.delete k (_scripts w0)) w0).
        assert (Hok1 : registry_ok w1).
        { destruct Hok0 as [Hc Hn]. split; [|by apply JsMap_NoDup_delete].
          subst w1. cbn. unfold registry_check in *. rewrite forallb_forall in *.
          intros x Hx. apply Hc. by eapply JsMap_In_delete. }
        destruct (IH w1 Hok1) as (w' & out & Hrun & ? & Hsh & Hh & Hg & Hi).
        exists w', out. cbn [for_of scriptEffect]. rewrite bind_modify. fold w1.
        rewrite Hrun. split_and!; try done.
        * intros k' Hk'. rewrite Hg by done. subst w1. cbn.
          by apply JsMap_get_delete_ne.
        * intros x Hx. apply Hi in Hx. subst w1. cbn in Hx.
          by eapply JsMap_In_delete. }
  destruct Hloop as (w' & out & Hrun & Hok' & Hsh & Hh & Hg & Hi).
  exists w', out, s'.
  rewrite (bind_ret_eq _ _ w0 w' out tt Hrun). cbn.
  rewrite app_nil_r. by split_and!.
Qed.

(** Every Script of the registry is destroyed, whatever the once-listeners
    delete meanwhile. *)
Lemma destroyScripts_total keys : ∀ w,
  registry_ok w →
  ∃ w' out,
    destroyScripts keys w = (w', out, Ret tt)
    ∧ registry_ok w'
    ∧ shell w' = shell w
    ∧ (∀ ref s, heap w !! ref = Some s →
         ∃ s', heap w' !! ref = Some s'
               ∧ (Script._state s = Script.destroyed → s' = s))
    ∧ (∀ k ref s, k ∈ keys → JsMap.get k (_scripts w) = Some ref →
         heap w !! ref = Some s →
         ∃ s', heap w' !! ref = Some s' ∧ Script._state s' = Script.destroyed).
Proof.
  induction keys as [|k keys IH]; intros w Hok.
  - exists w, []. split_and!; try done.
    + intros ref s Hs. by exists s.
    + intros k ref s Hk. by apply elem_of_nil in Hk.
  - cbn [destroyScripts]. rewrite bind_get.
    destruct (JsMap.get k (_scripts w)) as [ref|] eqn:Hget.
    + destruct (heap w !! ref) as [s|] eqn:Hs.
      * destruct (destroyOne_total w k ref s Hok Hget Hs)
          as (w1 & out1 & s1 & Hrun1 & Hok1 & Hsh1 & Hheap1 & Hst1 & Hsame1 & Hg1 & Hi1).
        destruct (IH w1 Hok1) as (w2 & out2 & Hrun2 & Hok2 & Hsh2 & Hmono2 & Hall2).
        exists w2, (out1 ++ out2).
        rewrite (bind_ret_eq _ _ w w1 out1 (Some tt) Hrun1), Hrun2.
        assert (Hmono1 : ∀ ref' s', heap w !! ref' = Some s' →
                  ∃ s'', heap w1 !! ref' = Some s''
                         ∧ (Script._state s' = Script.destroyed → s'' = s')).
        { intros ref' s' Hs'. rewrite Hheap1.
          destruct (decide (ref' = ref)) as [->|Hne].
          - rewrite list_lookup_insert_eq by (by eapply lookup_lt_Some).
            exists s1. split; [done|]. rewrite Hs in Hs'. injection Hs' as <-. done.
          - rewrite list_lookup_insert_ne by done. by exists s'. }
        split_and!; try done.
        -- by rewrite Hsh2.
        -- intros ref' s' Hs'.
           destruct (Hmono1 ref' s' Hs') as (s'' & Hs'' & Hd'').
           destruct (Hmono2 ref' s'' Hs'') as (s3 & Hs3 & Hd3).
           exists s3. split; [done|]. intros Hd. specialize (Hd'' Hd). subst s''. auto.
        -- intros k' ref' s' Hk' Hget' Hs'.
           destruct (decide (k' = k)) as [->|Hne].
           ++ rewrite Hget in Hget'. injection Hget' as <-.
              assert (Hs1 : heap w1 !! ref = Some s1).
              { rewrite Hheap1. apply list_lookup_insert_eq. by eapply lookup_lt_Some. }
              destruct (Hmono2 ref s1 Hs1) as (s3 & Hs3 & Hd3).
              exists s3. split; [done|]. by rewrite (Hd3 Hst1).
           ++ apply elem_of_cons in Hk' as [?|Hk']; [done|].
              destruct (Hmono1 ref' s' Hs') as (s'' & Hs'' & _).
              apply (Hall2 k' ref' s'' Hk'); [|done]. by rewrite Hg1.
      * assert (Hrun1 : onScript ref Script._destroy w = (w, [], Ret None)).
        { unfold onScript. by rewrite bind_get, Hs. }
        destruct (IH w Hok) as (w2 & out2 & Hrun2 & Hok2 & Hsh2 & Hmono2 & Hall2).
        exists w2, out2.
        rewrite (bind_ret_eq _ _ w w [] None Hrun1), Hrun2.
        split_and!; try done.
        intros k' ref' s' Hk' Hget' Hs'.
        apply elem_of_cons in Hk' as [->|Hk']; [|by eapply Hall2].
        congruence.
    + destruct (IH w Hok) as (w2 & out2 & Hrun2 & Hok2 & Hsh2 & Hmono2 & Hall2).
      exists w2, out2. split_and!; try done.
      intros k' ref' s' Hk' Hget' Hs'.
      apply elem_of_cons in Hk' as [->|Hk']; [|by eapply Hall2].
      congruence.
Qed.

(** Before the remote call settles, only Scripts have acted. *)
Definition of_script (e : effect) : Prop :=
  match e with OfScript _ _ => True | _ => False end.

Lemma _postToAgent_silent (Q : effect → Prop) r : produces Q (_postToAgent r).
Proof.
  unfold _postToAgent, _deliverPendingMessages, issue. repeat step_shape.
Qed.

Lemma destroyScripts_of_script keys : produces of_script (destroyScripts keys).
Proof.
  induction keys as [|k keys IH]; cbn [destroyScripts]; repeat step_shape; try done.
  unfold onScript. repeat step_shape; try done.
  destruct x; cbn [scriptEffect]; repeat step_shape.
  apply _postToAgent_silent.
Qed.

(** The handlers of "detached" are called in the order they were
    connected. *)
Lemma emitDetached_handlers hs reason c w :
  Emitter.listenersOf "detached" (_events w) = Handler <$> hs →
  emitDetached reason c w =
    (w, (fun h => CallDetached h reason c) <$> hs, Ret tt).
Proof.
  intros Hl. unfold emitDetached.
  rewrite forEach_fixed.
  - rewrite Hl.
    rewrite (for_of_tell _ _ (fun l => match l with
                                       | Handler h => [CallDetached h reason c]
                                       | ClientOnce => []
                                       end)).
    + f_equal. f_equal. clear. induction hs as [|h hs IH]; [done|]. cbn. by rewrite IH.
    + intros x (h & -> & _)%list_elem_of_fmap. done.
  - intros x s' Hx Hs'. rewrite Hl in Hx.
    apply list_elem_of_fmap in Hx as (h & -> & _). exact Hs'.
Qed.

Lemma registry_ok_shell w w' :
  _scripts w' = _scripts w → heap w' = heap w → registry_ok w → registry_ok w'.
Proof. unfold registry_ok. by intros -> ->. Qed.

(** The first [detach()], up to its [await]. *)
Lemma detach_first w :
  registry_ok w → _state w ≠ detached →
  ∃ w' out,
    destroyScripts (JsMap.keys (_scripts w)) (set_state detached w) = (w', out, Ret tt)
    ∧ detach w =
        (set_calls (calls w ++ [mkCall Close Pending]) (set_scripts [] w'), out, Ret tt)
    ∧ shell w' = shell (set_state detached w)
    ∧ (∀ k ref s, JsMap.get k (_scripts w) = Some ref → heap w !! ref = Some s →
         ∃ s', heap w' !! ref = Some s' ∧ Script._state s' = Script.destroyed).
Proof.
  intros Hok Hst.
  destruct (destroyScripts_total (JsMap.keys (_scripts w)) (set_state detached w))
    as (w' & out & Hrun & Hok' & Hsh & Hmono & Hall).
  { by apply (registry_ok_shell w). }
  exists w', out. split_and!; try done.
  - unfold detach. rewrite bind_get, bool_decide_eq_false_2 by done.
    rewrite bind_modify, bind_get.
    change (_scripts (set_state detached w)) with (_scripts w).
    rewrite (bind_ret_eq _ _ _ w' out tt Hrun).
    rewrite bind_modify. unfold issue, modify, state_of, effects_of, result_of. cbn.
    rewrite app_nil_r. do 3 f_equal.
    injection Hsh as _ _ _ _ _ _ Hc. by rewrite Hc.
  - intros k ref s Hget Hs. apply (Hall k ref s); try done.
    apply JsMap_get_In in Hget. apply list_elem_of_In.
    unfold JsMap.keys. apply in_map_iff. by exists (k, ref).
Qed.

(** C7. The first [detach()] of a Session that is not detached: the
    state becomes [detached], [_destroy] has run on every Script of the
    registry, the registry is empty, one [close()] call is pending, and so
    far only Scripts have acted; however [close()] then settles, resolved or
    rejected, the handlers of "detached" are called with
    "application-requested" and no crash, and the promise of [detach()] is
    fulfilled. A further [detach()], while the first one waits or after it,
    or after [_onDetached], changes nothing and calls nothing: its promise
    is fulfilled at once; [_onDetached] after [detach()] does nothing
    either. *)
Theorem detach_idempotent (w : Session.t) (hs : list nat) (rep : reply)
    (reason : SessionDetachReason) (c : option Crash) :
  registry_ok w →
  Emitter.listenersOf "detached" (_events w) = Handler <$> hs →
  _state w ≠ detached →
  let w1 := state_of (detach w) in
  let i := length (calls w) in
  let w2 := set_calls (<[i := mkCall Close (outcome rep)]> (calls w1)) w1 in
  let w3 := state_of (_onDetached reason c w) in
  result_of (detach w) = Ret tt
  ∧ Forall of_script (effects_of (detach w))
  ∧ _state w1 = detached
  ∧ _scripts w1 = []
  ∧ (∀ k ref s, JsMap.get k (_scripts w) = Some ref → heap w !! ref = Some s →
       ∃ s', heap w1 !! ref = Some s' ∧ Script._state s' = Script.destroyed)
  ∧ calls w1 = calls w ++ [mkCall Close Pending]
  ∧ settle i rep w1 =
      Some (w2, ((fun h => CallDetached h ApplicationRequested None) <$> hs)
                ++ [Completed OpDetach None], Ret tt)
  ∧ detach w1 = (w1, [Completed OpDetach None], Ret tt)
  ∧ detach w2 = (w2, [Completed OpDetach None], Ret tt)
  ∧ _onDetached reason c w1 = (w1, [], Ret tt)
  ∧ detach w3 = (w3, [Completed OpDetach None], Ret tt).
Proof.
  intros Hok Hl Hst w1 i w2 w3.
  destruct (detach_first w Hok Hst) as (w' & out & Hrun & Hdet & Hsh & Hall).
  assert (Hw1 : w1 = set_calls (calls w ++ [mkCall Close Pending]) (set_scripts [] w')).
  { subst w1. by rewrite Hdet. }
  injection Hsh as Hst' _ _ _ _ Hev Hcalls.
  assert (Hd1 : _state w1 = detached) by (by rewrite Hw1).
  assert (Hi : calls w1 !! i = Some (mkCall Close Pending)).
  { rewrite Hw1. cbn. subst i. by rewrite lookup_app_r, Nat.sub_diag by lia. }
  split_and!.
  - by rewrite Hdet.
  - rewrite Hdet. unfold effects_of. cbn.
    pose proof (destroyScripts_of_script (JsMap.keys (_scripts w)) (set_state detached w)) as H.
    by rewrite Hrun in H.
  - done.
  - by rewrite Hw1.
  - intros k ref s Hget Hs. rewrite Hw1. cbn. eauto.
  - by rewrite Hw1.
  - unfold settle. rewrite Hi. f_equal. rewrite bind_modify. fold w2.
    cbn [continuation].
    assert (Hl2 : Emitter.listenersOf "detached" (_events w2) = Handler <$> hs).
    { subst w2. rewrite Hw1. cbn. by rewrite Hev. }
    rewrite (bind_ret_eq _ _ _ _ _ tt (emitDetached_handlers hs _ _ w2 Hl2)).
    unfold tell, state_of, effects_of, result_of. done.
  - by apply detach_detached.
  - by apply detach_detached.
  - by apply _onDetached_detached.
  - apply detach_detached. subst w3. unfold _onDetached.
    rewrite bind_get, bool_decide_eq_false_2 by done. rewrite bind_modify.
    assert (Hk : keeps _state
      (w0 <- get ;; destroyScripts (JsMap.keys (_scripts w0)) ;;;
       modify (set_scripts []) ;;; emitDetached reason c)).
    { repeat step_shape; try done.
      - apply destroyScripts_state.
      - apply emitDetached_state. }
    by rewrite (Hk (set_state detached w)).
Qed.

End runtime.

Section examples.
(** The examples run on a console whose members return. *)
#[local] Existing Instance quiet_console.

(** A Session with two Scripts, a handler of "destroyed" on the first and
    a handler of "detached". *)
Definition example_session : Session.t :=
  let created :=
    default new (fst <$> run no_parse
      [CreateScript "a" (mkOptions None None); Settle 0 (Resolve 5);
       CreateScript "b" (mkOptions (Some "b") None); Settle 1 (Resolve 6)] new) in
  let connected := state_of (onScript 0 (Script.connect "destroyed" 9) created) in
  set_events (Emitter.addListener "detached" (Handler 3) (_events connected)) connected.

Lemma detach_idempotent_witness :
  let w1 := state_of (detach example_session) in
  effects_of (detach example_session)
    = [OfScript 0 (Script.CallHandler 9 Script.NoArgs)]
  ∧ _state w1 = detached
  ∧ _scripts w1 = []
  ∧ Script._state <$> heap w1 = [Script.destroyed; Script.destroyed]
  ∧ (effects_of <$> settle 2 Reject w1)
    = Some [CallDetached 3 ApplicationRequested None; Completed OpDetach None]
  ∧ detach w1 = (w1, [Completed OpDetach None], Ret tt).
Proof.
  assert (H1 : registry_ok example_session).
  { split; [vm_compute; reflexivity|]. apply (bool_decide_unpack _). vm_compute. exact I. }
  assert (H2 : Emitter.listenersOf "detached" (_events example_session) = Handler <$> [3%nat]).
  { vm_compute; reflexivity. }
  assert (H3 : _state example_session ≠ detached).
  { vm_compute. discriminate. }
  pose proof (detach_idempotent example_session [3%nat] Reject ProcessTerminated None
                H1 H2 H3) as (_ & _ & Hst & Hsc & _ & _ & Hsettle & Hd & _).
  change (length (calls example_session)) with 2%nat in Hsettle.
  split_and!;
    [ vm_compute; reflexivity | exact Hst | exact Hsc | vm_compute; reflexivity
    | by rewrite Hsettle | exact Hd ].
Defined.
End examples.

End SessionFacts.

(** ** The Sessions that the code can produce *)

Module SessionReach.
Import Js Eff EffFacts Protocol Session SessionFacts.

Section runtime.
Context {runtime_console : Console}.

(** *** What the listeners of "destroyed" of a Script can become *)

(** [s'] has, for "destroyed", listeners that [s] had or handlers of the
    user. *)
Definition follows (s s' : Script.t) : Prop :=
  ∀ l, l ∈ Emitter.listenersOf "destroyed" (Script._events s') →
       l ∈ Emitter.listenersOf "destroyed" (Script._events s)
       ∨ ∃ h, l = Script.Handler h.

Lemma follows_refl s : follows s s.
Proof. intros l Hl. by left. Qed.

Lemma follows_trans s1 s2 s3 : follows s1 s2 → follows s2 s3 → follows s1 s3.
Proof.
  intros H12 H23 l Hl. destruct (H23 l Hl) as [Hl2|?]; [|by right]. by apply H12.
Qed.

Lemma follows_ok handle s s' :
  follows s s' →
  ScriptFacts.destroyed_listeners_ok handle s = true →
  ScriptFacts.destroyed_listeners_ok handle s' = true.
Proof.
  unfold ScriptFacts.destroyed_listeners_ok. rewrite !forallb_forall.
  intros Hf Hok l Hl%list_elem_of_In.
  destruct (Hf l Hl) as [Hl'|[h ->]]; [|done]. by apply Hok, list_elem_of_In.
Qed.

Lemma follows_events s s' :
  Script._events s' = Script._events s → follows s s'.
Proof. intros He l. rewrite He. by left. Qed.

Lemma follows_remove s ev l :
  follows s (Script.set_events (Emitter.removeListener ev l (Script._events s)) s).
Proof.
  intros x. cbn. rewrite ScriptFacts.listenersOf_removeListener.
  destruct (decide (ev = "destroyed")); [|by left].
  intros ?%ScriptFacts.splice_first_subseteq. by left.
Qed.

Lemma call_follows s0 event a l :
  preserves (follows s0) (Script.call event a l).
Proof.
  intros s Hs. destruct l; cbn [Script.call].
  - unfold Script.onDestroyed. rewrite bind_modify.
    eapply follows_trans; [exact Hs|].
    eapply follows_trans;
      [apply (follows_remove s "destroyed" Script.OnDestroyed)|].
    exact (follows_remove _ "message" Script.OnMessage).
  - eapply follows_trans; [exact Hs|]. apply follows_events.
    destruct a; apply ScriptFacts.onMessage_events.
  - rewrite bind_tell. eapply follows_trans; [exact Hs|].
    exact (follows_remove s event (Script.SessionOnce handle)).
  - done.
  - eapply follows_trans; [exact Hs|]. apply follows_events.
    unfold Script.messageProxy, Script.reading.
    destruct a as [|message data].
    + by destruct (Script.isInternalMessage Undefined) as [[]|].
    + by destruct (Script.isInternalMessage message) as [[]|].
Qed.

Lemma emit_follows event a s : follows s (state_of (Script.emit event a s)).
Proof.
  apply (preserves_forEach (follows s)); [|apply follows_refl].
  intros l. apply call_follows.
Qed.

Lemma _destroy_follows s : follows s (state_of (Script._destroy s)).
Proof.
  unfold Script._destroy. rewrite bind_get.
  destruct (Script._state s); [|apply follows_refl].
  rewrite bind_modify.
  eapply follows_trans; [|apply emit_follows]. by apply follows_events.
Qed.

Lemma connect_follows name h s : follows s (state_of (Script.connect name h s)).
Proof.
  unfold Script.connect, Script.getProxy. case_bool_decide as Hn.
  - subst name. intros l. cbn. unfold Emitter.listenersOf, Emitter.addListener.
    rewrite lookup_insert_ne by done. by left.
  - intros l. cbn. unfold Emitter.listenersOf, Emitter.addListener.
    destruct (decide (name = "destroyed")) as [->|Hne].
    + rewrite lookup_insert_eq. cbn.
      intros [?| ->%list_elem_of_singleton]%elem_of_app; [by left | right; eauto].
    + rewrite lookup_insert_ne by done. by left.
Qed.

(** *** The invariant of a Session *)

Definition is_handler (l : listener) : bool :=
  match l with Handler _ => true | ClientOnce => false end.

(** The registry is in order, its Scripts are objects of the heap, and
    "detached" has handlers of the user only. *)
Definition session_ok (w : Session.t) : Prop :=
  registry_ok w
  ∧ Forall (fun kr : Z * nat => (kr.2 < length (heap w))%nat) (_scripts w)
  ∧ forallb is_handler (Emitter.listenersOf "detached" (_events w)) = true.

(** The parts of a Session that the invariant reads. *)
Definition core (w : Session.t) := (_scripts w, heap w, _events w).

Lemma core_session_ok {A} (m : M Session.t effect A) :
  keeps core m → preserves session_ok m.
Proof.
  intros Hk w Hw. specialize (Hk w). unfold core in Hk.
  injection Hk as Hs Hh He. unfold session_ok, registry_ok in *.
  by rewrite Hs, Hh, He.
Qed.

Lemma _deliverPendingMessages_core : keeps core _deliverPendingMessages.
Proof. unfold _deliverPendingMessages, issue. repeat step_shape. Qed.

Lemma _postToAgent_core r : keeps core (_postToAgent r).
Proof. unfold _postToAgent. repeat step_shape. apply _deliverPendingMessages_core. Qed.

Lemma delete_session_ok handle w :
  session_ok w → session_ok (set_scripts (JsMap.delete handle (_scripts w)) w).
Proof.
  intros ([Hc Hn] & Hr & He). unfold session_ok, registry_ok.
  split_and!; cbn; try done.
  - unfold registry_check in *. rewrite forallb_forall in *.
    intros x Hx%JsMap_In_delete. by apply Hc.
  - by apply JsMap_NoDup_delete.
  - rewrite Forall_forall in *. intros x Hx%list_elem_of_In%JsMap_In_delete.
    by apply Hr, list_elem_of_In.
Qed.

Lemma scriptEffect_ok ref e : preserves session_ok (scriptEffect ref e).
Proof.
  destruct e; cbn [scriptEffect]; try apply preserves_tell.
  - apply preserves_modify. intros w Hw. by apply delete_session_ok.
  - apply core_session_ok, _postToAgent_core.
Qed.

Lemma onScript_ok {A} ref (m : M Script.t Script.effect A) :
  (∀ s, follows s (state_of (m s))) → preserves session_ok (onScript ref m).
Proof.
  intros Hm w Hw. unfold onScript. rewrite bind_get.
  destruct (heap w !! ref) as [s|] eqn:Hs; [|done].
  specialize (Hm s). destruct (m s) as [[s' es] r]. unfold state_of in Hm. cbn in Hm.
  rewrite bind_modify.
  assert (H0 : session_ok (set_heap (<[ref := s']> (heap w)) w)).
  { destruct Hw as ([Hc Hn] & Hr & He). unfold session_ok, registry_ok.
    split_and!; cbn; try done.
    - unfold registry_check in *. rewrite forallb_forall in *.
      intros [k1 ref1] Hin. specialize (Hc _ Hin). cbn in *.
      destruct (decide (ref1 = ref)) as [->|Hne].
      + rewrite list_lookup_insert_eq by (by eapply lookup_lt_Some).
        rewrite Hs in Hc. by eapply follows_ok.
      + by rewrite list_lookup_insert_ne.
    - by rewrite length_insert. }
  revert H0. generalize (set_heap (<[ref := s']> (heap w)) w). clear Hs Hw w.
  intros w Hw.
  assert (Hloop : preserves session_ok (for_of es (scriptEffect ref))).
  { apply preserves_for_of. intros e. apply scriptEffect_ok. }
  specialize (Hloop w Hw). unfold bind.
  destruct (for_of es (scriptEffect ref) w) as [[w1 out1] [[]|e]]; [|done].
  by destruct r.
Qed.

Lemma destroyScripts_ok keys : preserves session_ok (destroyScripts keys).
Proof.
  induction keys as [|k keys IH]; cbn [destroyScripts]; repeat step_shape; try done.
  apply onScript_ok. apply _destroy_follows.
Qed.

Lemma empty_registry_ok w : session_ok w → session_ok (set_scripts [] w).
Proof.
  intros (_ & _ & He). unfold session_ok, registry_ok.
  split_and!; cbn; try done. constructor.
Qed.

Lemma splice_first_In (l x : listener) arr :
  In x (Emitter.splice_first l arr) → In x arr.
Proof.
  induction arr as [|y arr IH]; cbn; [done|].
  destruct (decide (y = l)); [by right|]. intros [?|?]; [by left | right; auto].
Qed.

Lemma emitDetached_ok reason c : preserves session_ok (emitDetached reason c).
Proof.
  apply preserves_forEach. intros [h|]; cbn [callListener]; repeat step_shape.
  apply preserves_modify.
  intros w (? & ? & He). split_and!; try done. cbn.
  unfold Emitter.listenersOf, Emitter.removeListener in *.
  destruct (_events w !! "detached") as [arr|] eqn:Harr; cbn in *.
  - rewrite lookup_insert_eq. cbn. rewrite forallb_forall in *.
    intros x Hx%splice_first_In. by apply He.
  - by rewrite Harr.
Qed.

Lemma set_state_ok st :
  preserves (E:=effect) session_ok (modify (set_state st)).
Proof. by apply core_session_ok, keeps_modify. Qed.

Lemma issue_ok r : preserves session_ok (issue r).
Proof. by apply core_session_ok, keeps_modify. Qed.

Lemma detach_ok : preserves session_ok detach.
Proof.
  unfold detach. repeat step_shape.
  - apply set_state_ok.
  - apply destroyScripts_ok.
  - apply preserves_modify. intros w. apply empty_registry_ok.
  - apply issue_ok.
Qed.

Lemma _onDetached_ok reason c : preserves session_ok (_onDetached reason c).
Proof.
  unfold _onDetached. repeat step_shape.
  - apply set_state_ok.
  - apply destroyScripts_ok.
  - apply preserves_modify. intros w. apply empty_registry_ok.
  - apply emitDetached_ok.
Qed.

Lemma resume_ok : preserves session_ok resume.
Proof.
  unfold resume. repeat step_shape.
  - apply set_state_ok.
  - apply issue_ok.
Qed.

Lemma _dispatchMessages_ok JSON_parse messages batchId :
  preserves session_ok (_dispatchMessages JSON_parse messages batchId).
Proof.
  unfold _dispatchMessages, dispatchRecord. repeat step_shape.
  - by apply core_session_ok, keeps_modify.
  - apply onScript_ok. intros s. apply emit_follows.
Qed.

Lemma JsMap_In_set {V} (k : Z) (v : V) m x :
  In x (JsMap.set k v m) → x = (k, v) ∨ In x m.
Proof.
  induction m as [|[k' v'] m IH]; cbn.
  - intros [<-|[]]. by left.
  - destruct (decide (k' = k)) as [->|Hne]; cbn.
    + intros [<-|?]; [by left | right; by right].
    + intros [<-|Hx]; [right; by left|].
      destruct (IH Hx); [by left | right; by right].
Qed.

Lemma JsMap_keys_set {V} (k : Z) (v : V) m :
  JsMap.keys (JsMap.set k v m) =
    if decide (k ∈ JsMap.keys m) then JsMap.keys m else JsMap.keys m ++ [k].
Proof.
  unfold JsMap.keys.
  induction m as [|[k' v'] m IH]; cbn [JsMap.set]; rewrite ?fmap_cons, ?fmap_nil.
  - by rewrite decide_False by apply not_elem_of_nil.
  - cbn [fst]. destruct (decide (k' = k)) as [->|Hne]; rewrite fmap_cons; cbn [fst].
    + rewrite decide_True by (by left). done.
    + rewrite IH. destruct (decide (k ∈ m.*1)) as [Hin|Hnin].
      * rewrite decide_True by (by right). done.
      * rewrite decide_False; [done|].
        intros [?|?]%elem_of_cons; [congruence | done].
Qed.

Lemma JsMap_NoDup_set {V} (k : Z) (v : V) m :
  NoDup (JsMap.keys m) → NoDup (JsMap.keys (JsMap.set k v m)).
Proof.
  intros Hn. rewrite JsMap_keys_set. destruct (decide _); [done|].
  apply NoDup_app. split_and!; [done | | apply NoDup_singleton].
  intros x Hx ->%list_elem_of_singleton. done.
Qed.

Lemma onScript_silent {A} ref (m : M Script.t Script.effect A) w s s' a :
  heap w !! ref = Some s → m s = (s', [], Ret a) →
  onScript ref m w = (set_heap (<[ref := s']> (heap w)) w, [], Ret (Some a)).
Proof.
  intros Href Hm. unfold onScript. rewrite bind_get, Href, Hm.
  rewrite bind_modify. cbn [for_of]. by rewrite bind_ret.
Qed.

Lemma scriptCreated_ok id : preserves session_ok (scriptCreated id).
Proof.
  intros w ([Hc Hn] & Hr & He).
  unfold scriptCreated. rewrite bind_get, !bind_modify.
  set (w1 := set_scripts _ (set_heap _ w)).
  assert (Href : heap w1 !! length (heap w) = Some (Script.new id)).
  { subst w1. cbn. by rewrite lookup_app_r, Nat.sub_diag by lia. }
  erewrite bind_ret_eq by (eapply onScript_silent; [exact Href | reflexivity]).
  unfold state_of, tell. cbn [fst].
  unfold session_ok, registry_ok. split_and!; cbn.
  - unfold registry_check in *. rewrite forallb_forall in *.
    intros [k r] [[= -> ->]|Hin]%JsMap_In_set.
    + rewrite list_lookup_insert_eq by (rewrite length_app; cbn; lia).
      unfold ScriptFacts.destroyed_listeners_ok, Emitter.listenersOf.
      cbn [Script._events Script.set_events]. rewrite lookup_insert_eq.
      cbn [default Datatypes.id]. rewrite forallb_app.
      cbn [forallb ScriptFacts.destroyed_listener].
      rewrite bool_decide_eq_true_2 by done. by vm_compute.
    + assert (Hlt : (r < length (heap w))%nat).
      { rewrite Forall_forall in Hr. by apply (Hr (k, r)), list_elem_of_In. }
      rewrite list_lookup_insert_ne by lia. rewrite lookup_app_l by done.
      by apply (Hc (k, r)).
  - by apply JsMap_NoDup_set.
  - rewrite Forall_forall in *. rewrite length_insert, length_app. cbn.
    intros [k r] [[= -> ->]|Hin]%list_elem_of_In%JsMap_In_set; cbn; [lia|].
    specialize (Hr (k, r)). cbn in Hr. rewrite list_elem_of_In in Hr.
    specialize (Hr Hin). lia.
  - done.
Qed.

Lemma continuation_session_ok r rep : preserves session_ok (continuation r rep).
Proof.
  destruct r, rep; cbn [continuation]; repeat step_shape;
    try (apply emitDetached_ok);
    try (apply scriptCreated_ok);
    try (apply core_session_ok, _deliverPendingMessages_core);
    try (by apply core_session_ok, keeps_modify).
Qed.

Lemma subscribe_ok h : preserves session_ok (subscribe h).
Proof.
  apply preserves_modify. intros w (? & ? & He).
  unfold session_ok. split_and!; try done. cbn.
  unfold Emitter.listenersOf, Emitter.addListener in *.
  rewrite lookup_insert_eq. cbn. rewrite forallb_app, He. done.
Qed.

Lemma step_session_ok JSON_parse e w w' out r :
  session_ok w → step JSON_parse e w = Some (w', out, r) → session_ok w'.
Proof.
  intros Hw Hstep.
  assert (Hp : ∀ m : M Session.t effect unit,
            preserves session_ok m → m w = (w', out, r) → session_ok w').
  { intros m Hm Hrun. specialize (Hm w Hw). by rewrite Hrun in Hm. }
  destruct e; cbn [step] in Hstep; try apply (inj Some) in Hstep.
  - revert Hstep. apply Hp, detach_ok.
  - revert Hstep. apply Hp, resume_ok.
  - revert Hstep. apply Hp, issue_ok.
  - revert Hstep. apply Hp, core_session_ok, _postToAgent_core.
  - revert Hstep. apply Hp, _dispatchMessages_ok.
  - revert Hstep. apply Hp, _onDetached_ok.
  - unfold settle in Hstep. destruct (calls w !! i) as [[rq []]|]; try done.
    apply (inj Some) in Hstep. revert Hstep. apply Hp.
    repeat step_shape.
    + by apply core_session_ok, keeps_modify.
    + apply continuation_session_ok.
  - revert Hstep. apply Hp, subscribe_ok.
  - case_bool_decide; [|done]. apply (inj Some) in Hstep.
    revert Hstep. apply Hp. repeat step_shape.
    apply onScript_ok. intros s. apply connect_follows.
Qed.

Lemma new_session_ok : session_ok new.
Proof. unfold session_ok, registry_ok. cbn. split_and!; try done; constructor. Qed.

(** Every Session that the code can produce satisfies the invariant: its
    registry is in order ([registry_ok]) and "detached" has handlers of the
    user only. *)
Lemma run_session_ok JSON_parse es : ∀ w w' out,
  session_ok w → run JSON_parse es w = Some (w', out) → session_ok w'.
Proof.
  induction es as [|e es IH]; intros w w' out Hw Hrun; cbn in Hrun.
  - by injection Hrun as <- _.
  - destruct (step JSON_parse e w) as [[[w1 out1] r]|] eqn:Hstep; [|done].
    destruct (run JSON_parse es w1) as [[w2 out2]|] eqn:Hrest; [|done].
    injection Hrun as <- _.
    eapply IH; [|done]. by eapply step_session_ok.
Qed.
(** *** [_onDetached] on a Session that the code can produce *)

Definition not_forget (e : effect) : Prop := e ≠ ForgetSession.

Lemma handlers_of (ls : list listener) :
  forallb is_handler ls = true → ∃ hs, ls = Handler <$> hs.
Proof.
  induction ls as [|[h|] ls IH]; cbn; [by exists [] | | done].
  intros [hs ->]%IH. by exists (h :: hs).
Qed.

Lemma _onDetached_total reason c w :
  session_ok w →
  ∃ w' out,
    _onDetached reason c w = (w', out, Ret tt)
    ∧ _state w' = detached
    ∧ Forall not_forget out.
Proof.
  intros (Hreg & _ & [hs Hhs]%handlers_of).
  destruct (decide (_state w = detached)) as [Hd|Hd].
  { exists w, []. by rewrite _onDetached_detached. }
  destruct (destroyScripts_total (JsMap.keys (_scripts w)) (set_state detached w))
    as (w1 & out1 & Hrun & _ & Hsh & _).
  { by apply (registry_ok_shell w). }
  injection Hsh as Hst _ _ _ _ Hev _.
  pose proof (destroyScripts_of_script (JsMap.keys (_scripts w)) (set_state detached w))
    as Hout1.
  rewrite Hrun in Hout1. unfold effects_of in Hout1. cbn in Hout1.
  eexists _, _. split_and!.
  - unfold _onDetached. rewrite bind_get, bool_decide_eq_false_2 by done.
    rewrite bind_modify, bind_get.
    change (_scripts (set_state detached w)) with (_scripts w).
    rewrite (bind_ret_eq _ _ _ w1 out1 tt Hrun), bind_modify.
    rewrite (emitDetached_handlers hs); [reflexivity|].
    cbn. by rewrite Hev.
  - cbn. exact Hst.
  - cbn. apply Forall_app. split.
    + eapply Forall_impl; [exact Hout1|]. by intros [].
    + apply Forall_fmap, Forall_forall. by intros.
Qed.
End runtime.

End SessionReach.

(** ** The Bus *)

Module BusFacts.
Import Js Eff EffFacts Bus.

(** *** C9: the arguments of LoadScript and DestroyScript *)

(** The specification's reading: every argument of the list wrapped in
    one more tuple level. *)
Definition extraTupleLevel (args : list value) : list value :=
  (fun a => Arr [a]) <$> args.

(** An AgentScriptId: the tuple [[handle]]. *)
Definition scriptIdOf (handle : Z) : value := Arr [Num handle].

(** The specification's reading of "matches the declared type
    signature": the types that occur in "((u))", and the values of each.
    A structure is the tuple of its fields; the argument list of a call
    is the tuple of the types of its signature. *)
Inductive dbusType : Type :=
| UInt32
| Struct (fields : list dbusType).

Fixpoint hasType (ty : dbusType) (v : value) : bool :=
  match ty, v with
  | UInt32, Num n => bool_decide (0 ≤ n < 2 ^ 32)
  | Struct fields, Arr elems =>
      (fix all (tys : list dbusType) (vs : list value) : bool :=
         match tys, vs with
         | [], [] => true
         | ty :: tys, v :: vs => hasType ty v && all tys vs
         | _, _ => false
         end) fields elems
  | _, _ => false
  end.

(** "((u))": one argument, a structure whose only field is a structure
    of one unsigned integer. *)
Definition scriptHandleSignature : list dbusType := [Struct [Struct [UInt32]]].

Definition matchesSignature (signature : list dbusType) (args : list value) : bool :=
  hasType (Struct signature) (Arr args).

(** What [callMethod] encodes for "LoadScript" and for "DestroyScript":
    the list that holds the first argument it was given, and nothing
    else. The facade passes [[scriptId]], so the encoded list is the list
    of the facade, unchanged. *)
Lemma script_handle_passed_on (member : string) (scriptId : value) :
  member = "LoadScript" ∨ member = "DestroyScript" →
  adapt member (Facade.scriptArgs scriptId)
    = Some (Some "((u))", Facade.scriptArgs scriptId)
  ∧ Facade.scriptArgs scriptId = Some [scriptId].
Proof. by intros [-> | ->]. Qed.

(** No script id [[handle]] passed on like this matches "((u))"; the list
    with one more tuple level around it does. *)
Lemma script_id_mismatch (handle : Z) :
  matchesSignature scriptHandleSignature [scriptIdOf handle] = false
  ∧ (0 ≤ handle < 2 ^ 32 →
     matchesSignature scriptHandleSignature (extraTupleLevel [scriptIdOf handle])
       = true).
Proof.
  split; [reflexivity|]. intros Hh.
  unfold matchesSignature, scriptHandleSignature, extraTupleLevel, scriptIdOf.
  cbn. by rewrite bool_decide_eq_true_2.
Qed.

(** C9 fails in the code: for the script id [[7]] the facade passes
    [[[7]]], and for "LoadScript" and "DestroyScript" that same list is
    what is encoded under the signature "((u))". It does not match the
    signature; the list with one more tuple level around the script id,
    which the specification describes, would. *)
Lemma no_extra_tuple_level :
  Facade.scriptArgs (scriptIdOf 7) = Some [Arr [Num 7]]
  ∧ adapt "LoadScript" (Facade.scriptArgs (scriptIdOf 7))
    = Some (Some "((u))", Some [Arr [Num 7]])
  ∧ adapt "DestroyScript" (Facade.scriptArgs (scriptIdOf 7))
    = Some (Some "((u))", Some [Arr [Num 7]])
  ∧ matchesSignature scriptHandleSignature [Arr [Num 7]] = false
  ∧ extraTupleLevel [scriptIdOf 7] = [Arr [Arr [Num 7]]]
  ∧ matchesSignature scriptHandleSignature (extraTupleLevel [scriptIdOf 7]) = true.
Proof. by split_and!. Qed.

(** *** C5: a reply is matched by the serial of its frame *)

(** What a method return or an error carries besides its serial: the
    arguments, and for an error its name. *)
Inductive reply : Type :=
| Returns (args : option (list value))
| Fails (errorName : value) (args : option (list value)).

(** The method return, or the error, whose own [serial] field is
    [serial]. *)
Definition replyMessage (serial : Z) (r : reply) : message :=
  match r with
  | Returns args => MethodReturn serial args
  | Fails errorName args => Error serial errorName args
  end.

(** What such a frame does once a call is found under its serial, [p]
    being the promise of that call: the promise is settled, unless the
    text of the error cannot be built; then the exception is caught and
    logged, and the promise is never settled. *)
Definition settlement (p : nat) (r : reply) : effect :=
  match r with
  | Returns args => Resolved p args
  | Fails errorName args =>
      match errorText errorName args with
      | Some text => Rejected p (ErrorWith text)
      | None => LogError
      end
  end.


Lemma handleMessage_matched b serial r p :
  pendingCalls b !! serial = Some p →
  handleMessage (Some [replyMessage serial r]) b =
    (set_pendingCalls (delete serial (pendingCalls b)) b, [settlement p r], Ret tt).
Proof.
  intros H. unfold handleMessage, try_catch. cbn [for_of].
  destruct r as [rargs|errorName rargs]; cbn [replyMessage handleOne settlement].
  - unfold bind at 1. by rewrite bind_get, H.
  - unfold bind at 1. rewrite bind_get, H. cbn.
    by destruct (errorText errorName rargs).
Qed.


(** A codec that serializes every message, and calls made through it. *)
Definition codec_ok : outgoing → option (list Z) := fun _ => Some [].

Definition two_calls : Bus.t :=
  state_of ((callMethod codec_ok 11 "re.frida.HostSession17" "/re/frida/HostSession"
               "re.frida.HostSession17" "QuerySystemParameters" None ;;;
             callMethod codec_ok 12 "re.frida.HostSession17" "/re/frida/HostSession"
               "re.frida.HostSession17" "Reattach" (Some [Arr [Str "s"]]))
            (new 0)).

(** A reply as a D-Bus peer sends it. The peer numbers its own messages,
    and [serial] is that number; the call that the reply answers is named
    in [replySerial]. [handleMessage] reads [serial] and never
    [replySerial]: [received] is what it sees of the reply. *)
Record wireReply : Type := mkWireReply {
  wire_serial : Z;
  replySerial : Z;
  carried : reply;
}.

Definition received (w : wireReply) : message :=
  replyMessage (wire_serial w) (carried w).

(** C5 fails in the code. Two calls are pending, call 1 for promise 11
    and call 2 for promise 12. The peer answers call 2 first and call 1
    second, in its first and its second message. The promise of call 1 is
    resolved with the result of call 2, and the promise of call 2 with the
    result of call 1: the calls are matched by the order in which the peer
    sends, not by the call each reply names. When the numbers of the peer
    are not serials of pending calls, both replies are dropped and both
    calls stay pending. *)
Lemma replies_matched_by_frame_serial :
  pendingCalls two_calls = {[1 := 11%nat; 2 := 12%nat]}
  ∧ handleMessage
      (Some [received (mkWireReply 1 2 (Returns (Some [Str "result of call 2"])));
             received (mkWireReply 2 1 (Returns (Some [Str "result of call 1"])))])
      two_calls
    = (set_pendingCalls ∅ two_calls,
       [Resolved 11 (Some [Str "result of call 2"]);
        Resolved 12 (Some [Str "result of call 1"])], Ret tt)
  ∧ handleMessage
      (Some [received (mkWireReply 101 2 (Returns (Some [Str "result of call 2"])));
             received (mkWireReply 102 1 (Returns (Some [Str "result of call 1"])))])
      two_calls
    = (two_calls, [], Ret tt).
Proof. split_and!; vm_compute; reflexivity. Qed.

(** *** C6: the timeout of a call *)

(** The promise that an effect settles. *)
Definition settles (e : effect) : option nat :=
  match e with
  | Resolved p _ | Rejected p _ => Some p
  | _ => None
  end.

(** The promises settled in a trace, in order, with repetitions. *)
Definition settled_in (out : list effect) : list nat := omap settles out.

(** The promises that the calls of a list of events return. *)
Definition caller (e : event) : option nat :=
  match e with Call p _ _ _ _ _ => Some p | _ => None end.

Definition callers (es : list event) : list nat := omap caller es.

(** A call that goes out is registered with a timer due [callTimeout]
    later. *)
Lemma callMethod_sent serializeMessage p destination objectPath interfaceName
    memberName args b types margs buffer :
  adapt memberName args = Some (types, margs) →
  serializeMessage (mkOutgoing (serialCounter b) destination objectPath
                      interfaceName memberName types margs) = Some buffer →
  callMethod serializeMessage p destination objectPath interfaceName memberName args b
  = (mk (serialCounter b + 1) (<[serialCounter b := p]> (pendingCalls b))
        (signalHandlers b) (sent b ++ [buffer])
        (timers b ++ [mkTimer (now b + callTimeout) (serialCounter b) p]) (now b),
     [], Ret tt).
Proof.
  intros Ha Hs. unfold callMethod. rewrite bind_get, bind_modify, Ha. cbn.
  rewrite Hs. by rewrite !bind_modify.
Qed.

(** A call that does not go out is rejected at once and leaves nothing
    behind but the serial it has used. *)
Lemma callMethod_failed serializeMessage p destination objectPath interfaceName
    memberName args b :
  (adapt memberName args = None
   ∨ ∃ types margs, adapt memberName args = Some (types, margs)
       ∧ serializeMessage (mkOutgoing (serialCounter b) destination objectPath
                             interfaceName memberName types margs) = None) →
  ∃ r, callMethod serializeMessage p destination objectPath interfaceName memberName args b
       = (set_serialCounter (serialCounter b + 1) b, [Rejected p r], Ret tt).
Proof.
  intros [Ha|(types & margs & Ha & Hs)]; unfold callMethod;
    rewrite bind_get, bind_modify, Ha; cbn.
  - by eexists.
  - rewrite Hs. by eexists.
Qed.

Lemma onTimeout_pending serial p b :
  is_Some (pendingCalls b !! serial) →
  onTimeout serial p b =
    (set_pendingCalls (delete serial (pendingCalls b)) b,
     [Rejected p (ErrorWith "D-Bus call timeout")], Ret tt).
Proof.
  intros H. unfold onTimeout. rewrite bind_get, bool_decide_eq_true_2 by done.
  by rewrite bind_modify.
Qed.

Lemma onTimeout_gone serial p b :
  pendingCalls b !! serial = None → onTimeout serial p b = (b, [], Ret tt).
Proof.
  intros H. unfold onTimeout. rewrite bind_get, bool_decide_eq_false_2; [done|].
  rewrite H. by intros [? ?].
Qed.

(** The invariant of a Bus, for the promises [used] by the calls made so
    far and the trace [out] so far: a pending call has a serial below the
    counter and a promise of its own, not settled yet; a timer belongs to
    the call that has its serial; no promise was settled twice. *)
Definition bus_ok (used : list nat) (b : Bus.t) (out : list effect) : Prop :=
  (∀ s p, pendingCalls b !! s = Some p →
     s < serialCounter b ∧ p ∈ used ∧ p ∉ settled_in out)
  ∧ (∀ s s' p, pendingCalls b !! s = Some p → pendingCalls b !! s' = Some p → s = s')
  ∧ (∀ tm, tm ∈ timers b →
       timer_serial tm < serialCounter b
       ∧ ∀ p', pendingCalls b !! timer_serial tm = Some p' → p' = timer_promise tm)
  ∧ NoDup (settled_in out)
  ∧ (∀ p, p ∈ settled_in out → p ∈ used).

Lemma settled_in_app out out' : settled_in (out ++ out') = settled_in out ++ settled_in out'.
Proof. apply omap_app. Qed.

Lemma bus_ok_new t0 : bus_ok [] (new t0) [].
Proof.
  split_and!; try done.
  - intros tm Htm. by apply elem_of_nil in Htm.
  - constructor.
Qed.

(** Removing a pending call and settling its promise. *)
Lemma bus_ok_settle used b out s p e :
  bus_ok used b out → pendingCalls b !! s = Some p → settles e = Some p →
  bus_ok used (set_pendingCalls (delete s (pendingCalls b)) b) (out ++ [e]).
Proof.
  intros (H1 & H2 & H3 & H4 & H5) Hs He.
  destruct (H1 s p Hs) as (Hlt & Hused & Hnot).
  assert (Hset : settled_in (out ++ [e]) = settled_in out ++ [p]).
  { rewrite settled_in_app. unfold settled_in at 2. cbn. by rewrite He. }
  split_and!; cbn.
  - intros s' p' [Hne Hs']%lookup_delete_Some.
    destruct (H1 s' p' Hs') as (? & ? & ?). split_and!; try done.
    rewrite Hset. apply not_elem_of_app. split; [done|].
    intros ->%list_elem_of_singleton. apply Hne. by eapply H2.
  - intros s1 s2 p' [_ Hs1]%lookup_delete_Some [_ Hs2]%lookup_delete_Some. by eapply H2.
  - intros tm Htm. destruct (H3 tm Htm) as [? Hp]. split; [done|].
    intros p' [_ ?]%lookup_delete_Some. auto.
  - rewrite Hset. apply NoDup_app. split_and!; [done | | apply NoDup_singleton].
    intros x Hx ->%list_elem_of_singleton. done.
  - intros p'. rewrite Hset. intros [? | ->%list_elem_of_singleton]%elem_of_app; auto.
Qed.

(** Effects that settle nothing. *)
Lemma bus_ok_silent used b out out' :
  bus_ok used b out → settled_in out' = [] → bus_ok used b (out ++ out').
Proof.
  intros (H1 & H2 & H3 & H4 & H5) Hq. unfold bus_ok.
  rewrite settled_in_app, Hq, app_nil_r. by split_and!.
Qed.

(** Removing a pending call and settling nothing. *)
Lemma bus_ok_dropped used b out s :
  bus_ok used b out →
  bus_ok used (set_pendingCalls (delete s (pendingCalls b)) b) out.
Proof.
  intros (H1 & H2 & H3 & H4 & H5).
  split_and!; cbn; try done.
  - intros s' p' [Hne Hs']%lookup_delete_Some. by apply H1.
  - intros s1 s2 p' [_ Hs1]%lookup_delete_Some [_ Hs2]%lookup_delete_Some. by eapply H2.
  - intros tm Htm. destruct (H3 tm Htm) as [? Hp]. split; [done|].
    intros p' [_ ?]%lookup_delete_Some. auto.
Qed.

Lemma handleOne_ok used b out msg :
  bus_ok used b out →
  bus_ok used (state_of (handleOne msg b)) (out ++ effects_of (handleOne msg b)).
Proof.
  intros H. destruct msg as [s|s margs|s errorName margs|s path iface member margs].
  - cbn. by rewrite app_nil_r.
  - cbn [handleOne]. rewrite bind_get.
    destruct (pendingCalls b !! s) as [p|] eqn:Hs.
    + rewrite bind_modify. by eapply bus_ok_settle.
    + cbn. by rewrite app_nil_r.
  - cbn [handleOne]. rewrite bind_get.
    destruct (pendingCalls b !! s) as [p|] eqn:Hs.
    + rewrite bind_modify. unfold converting.
      destruct (errorText errorName margs) as [text|].
      * rewrite bind_ret. by eapply bus_ok_settle.
      * cbn. rewrite app_nil_r. by apply bus_ok_dropped.
    + cbn. by rewrite app_nil_r.
  - cbn [handleOne].
    set (m := forEach _ _).
    assert (Hk : keeps (fun b : Bus.t => b) m).
    { subst m. repeat step_shape. }
    assert (Hp : produces (fun e => settles e = None) m).
    { subst m. repeat step_shape. }
    rewrite (Hk b). apply bus_ok_silent; [done|].
    specialize (Hp b). induction Hp as [|e es He _ IH]; [done|].
    unfold settled_in in *. cbn. by rewrite He.
Qed.

Lemma handleMessages_ok used b out messages :
  bus_ok used b out →
  bus_ok used (state_of (for_of messages handleOne b))
         (out ++ effects_of (for_of messages handleOne b)).
Proof.
  revert b out. induction messages as [|msg messages IH]; intros b out H.
  - cbn. by rewrite app_nil_r.
  - cbn [for_of]. unfold bind.
    pose proof (handleOne_ok used b out msg H) as H1.
    destruct (handleOne msg b) as [[b1 out1] [[]|e]]; [|done].
    unfold state_of, effects_of in H1. cbn in H1.
    specialize (IH b1 (out ++ out1) H1).
    destruct (for_of messages handleOne b1) as [[b2 out2] r2].
    unfold state_of, effects_of in *. cbn in *. by rewrite app_assoc.
Qed.

Lemma handleMessage_ok used b out parsed :
  bus_ok used b out →
  bus_ok used (state_of (handleMessage parsed b))
         (out ++ effects_of (handleMessage parsed b)).
Proof.
  destruct parsed as [messages|]; cbn [handleMessage].
  2:{ intros H. by apply bus_ok_silent. }
  intros H. pose proof (handleMessages_ok used b out messages H) as H1.
  unfold try_catch.
  destruct (for_of messages handleOne b) as [[b1 out1] [[]|e]]; [done|].
  unfold state_of, effects_of in *. cbn in *.
  rewrite app_assoc. by apply bus_ok_silent.
Qed.

Lemma elem_of_list_delete {A} (x : A) (l : list A) i : x ∈ delete i l → x ∈ l.
Proof.
  intros [j Hj]%list_elem_of_lookup.
  destruct (decide (j < i)%nat).
  - rewrite list_lookup_delete_lt in Hj by done. by eapply list_elem_of_lookup_2.
  - rewrite list_lookup_delete_ge in Hj by lia. by eapply list_elem_of_lookup_2.
Qed.

Lemma callMethod_ok serializeMessage used b out p destination objectPath
    interfaceName memberName args :
  bus_ok used b out → p ∉ used →
  let r := callMethod serializeMessage p destination objectPath interfaceName
             memberName args b in
  bus_ok (used ++ [p]) (state_of r) (out ++ effects_of r).
Proof.
  intros (H1 & H2 & H3 & H4 & H5) Hp r.
  assert (Hfail : ∀ rj, r = (set_serialCounter (serialCounter b + 1) b, [Rejected p rj], Ret tt) →
            bus_ok (used ++ [p]) (state_of r) (out ++ effects_of r)).
  { intros rj ->. unfold state_of, effects_of. cbn.
    assert (Hset : settled_in (out ++ [Rejected p rj]) = settled_in out ++ [p]).
    { by rewrite settled_in_app. }
    split_and!; cbn.
    - intros s p' Hs. destruct (H1 s p' Hs) as (? & ? & ?). split_and!.
      + lia.
      + apply elem_of_app; by left.
      + rewrite Hset. apply not_elem_of_app. split; [done|].
        intros ->%list_elem_of_singleton. done.
    - done.
    - intros tm Htm. destruct (H3 tm Htm) as [? ?]. split; [lia | done].
    - rewrite Hset. apply NoDup_app. split_and!; [done | | apply NoDup_singleton].
      intros x Hx ->%list_elem_of_singleton. auto.
    - intros p'. rewrite Hset, !elem_of_app. intros [?|?]; auto. }
  destruct (adapt memberName args) as [[types margs]|] eqn:Ha.
  2:{ destruct (callMethod_failed serializeMessage p destination objectPath
                  interfaceName memberName args b) as [rj Hr]; [by left|].
      by apply (Hfail rj). }
  destruct (serializeMessage (mkOutgoing (serialCounter b) destination objectPath
              interfaceName memberName types margs)) as [buffer|] eqn:Hs.
  2:{ destruct (callMethod_failed serializeMessage p destination objectPath
                  interfaceName memberName args b) as [rj Hr]; [right; eauto|].
      by apply (Hfail rj). }
  subst r. rewrite (callMethod_sent _ _ _ _ _ _ _ _ _ _ _ Ha Hs).
  unfold state_of, effects_of. cbn. rewrite app_nil_r.
  split_and!; cbn.
  - intros s p' [[<- <-]|[Hne Hs']]%lookup_insert_Some.
    + split_and!; [lia | apply elem_of_app; right; by left | auto].
    + destruct (H1 s p' Hs') as (? & ? & ?).
      split_and!; [lia | apply elem_of_app; by left | done].
  - intros s s' p' Hs1 Hs2.
    apply lookup_insert_Some in Hs1 as [[Hs1 Hp1]|[Hne1 Hs1]];
      apply lookup_insert_Some in Hs2 as [[Hs2 Hp2]|[Hne2 Hs2]].
    + congruence.
    + subst p'. destruct (H1 s' p Hs2) as (_ & ? & _). done.
    + subst p'. destruct (H1 s p Hs1) as (_ & ? & _). done.
    + by eapply H2.
  - intros tm [Htm | ->%list_elem_of_singleton]%elem_of_app; cbn.
    + destruct (H3 tm Htm) as [Hlt Hp']. split; [lia|].
      intros p'. rewrite lookup_insert_ne by lia. auto.
    + split; [lia|]. intros p'. rewrite lookup_insert_eq. congruence.
  - done.
  - intros p' Hp'. apply elem_of_app. left. auto.
Qed.

Lemma timeout_ok used b out k tm :
  bus_ok used b out → timers b !! k = Some tm →
  let r := (modify (fun b => set_timers (delete k (timers b)) b) ;;;
            onTimeout (timer_serial tm) (timer_promise tm)) b in
  bus_ok used (state_of r) (out ++ effects_of r).
Proof.
  intros H Htm r.
  assert (Hk : bus_ok used (set_timers (delete k (timers b)) b) out).
  { destruct H as (H1 & H2 & H3 & H4 & H5). split_and!; try done.
    intros tm' Htm'%elem_of_list_delete. by apply H3. }
  subst r. rewrite bind_modify.
  destruct (pendingCalls b !! timer_serial tm) as [p'|] eqn:Hs.
  - rewrite onTimeout_pending by (cbn; by rewrite Hs).
    destruct H as (_ & _ & H3 & _). 
    assert (p' = timer_promise tm) as ->.
    { eapply H3; [|done]. by eapply list_elem_of_lookup_2. }
    by eapply bus_ok_settle.
  - rewrite onTimeout_gone by done. unfold state_of, effects_of. cbn.
    by rewrite app_nil_r.
Qed.

Section runs.
Variable serializeMessage : outgoing → option (list Z).
Variable parseMessages : list Z → option (list message).

Lemma bus_step_ok used b out e b' out' r :
  bus_ok used b out →
  (∀ p, caller e = Some p → p ∉ used) →
  step serializeMessage parseMessages e b = Some (b', out', r) →
  bus_ok (used ++ callers [e]) b' (out ++ out').
Proof.
  intros H Hfresh Hstep.
  destruct e as [p dst pth ifc mem ar|messageData|dt|k|? ? ? ?|? ? ? ?];
    cbn [step] in Hstep; cbn [callers omap caller].
  - apply (inj Some) in Hstep.
    pose proof (callMethod_ok serializeMessage used b out p dst pth
                  ifc mem ar H (Hfresh p eq_refl)) as H'.
    cbv zeta in H'. by rewrite Hstep in H'.
  - apply (inj Some) in Hstep. rewrite app_nil_r.
    pose proof (handleMessage_ok used b out (parseMessages messageData) H) as H'.
    by rewrite Hstep in H'.
  - case_bool_decide; [|done]. apply (inj Some) in Hstep. injection Hstep as <- <- _.
    rewrite !app_nil_r. destruct H as (H1 & H2 & H3 & H4 & H5). by split_and!.
  - destruct (timers b !! k) as [tm|] eqn:Htm; [|done].
    case_bool_decide; [|done]. apply (inj Some) in Hstep. rewrite app_nil_r.
    pose proof (timeout_ok used b out k tm H Htm) as H'. cbv zeta in H'.
    by rewrite Hstep in H'.
  - apply (inj Some) in Hstep. injection Hstep as <- <- _. rewrite !app_nil_r.
    destruct H as (H1 & H2 & H3 & H4 & H5). by split_and!.
  - apply (inj Some) in Hstep. injection Hstep as <- <- _. rewrite !app_nil_r.
    destruct H as (H1 & H2 & H3 & H4 & H5). by split_and!.
Qed.

Lemma bus_run_ok es : ∀ used b out b' out',
  bus_ok used b out →
  NoDup (used ++ callers es) →
  run serializeMessage parseMessages es b = Some (b', out') →
  bus_ok (used ++ callers es) b' (out ++ out').
Proof.
  induction es as [|e es IH]; intros used b out b' out' H Hnd Hrun; cbn in Hrun.
  - injection Hrun as <- <-. unfold callers. cbn. by rewrite !app_nil_r.
  - destruct (step _ _ e b) as [[[b1 out1] r]|] eqn:Hstep; [|done].
    destruct (run _ _ es b1) as [[b2 out2]|] eqn:Hrest; [|done].
    injection Hrun as <- <-.
    assert (Hsplit : callers (e :: es) = callers [e] ++ callers es).
    { unfold callers. by rewrite <- omap_app. }
    rewrite Hsplit, !app_assoc in *.
    eapply IH; [|done|done].
    eapply bus_step_ok; [done| |done].
    intros p Hp Hin. apply NoDup_app in Hnd as (Hnd & _ & _).
    apply NoDup_app in Hnd as (_ & Hdis & _).
    apply (Hdis p Hin). unfold callers. cbn. rewrite Hp. by left.
Qed.
End runs.


Definition no_messages : list Z → option (list message) := fun _ => None.

(** A call, and 30000 ms without a reply. *)
Definition timed_out_run : list event :=
  [Call 11 "re.frida.HostSession17" "/re/frida/HostSession"
        "re.frida.HostSession17" "QuerySystemParameters" None;
   Advance 30000].

End BusFacts.

(** ** The Client *)

Module ClientFacts.
Import Js Eff EffFacts Client.

Section runtime.
Context {runtime_console : Console}.

(** *** Listeners of an emitter *)

Section listeners.
Context {L : Type} `{EqDecision L}.

Lemma listenersOf_add (ev ev' : string) (l : L) (e : gmap string (list L)) :
  Emitter.listenersOf ev (Emitter.addListener ev' l e) =
    if decide (ev' = ev) then Emitter.listenersOf ev e ++ [l]
    else Emitter.listenersOf ev e.
Proof.
  unfold Emitter.listenersOf, Emitter.addListener.
  destruct (decide (ev' = ev)) as [->|Hne].
  - by rewrite lookup_insert_eq.
  - by rewrite lookup_insert_ne.
Qed.

Lemma listenersOf_remove (ev ev' : string) (l : L) (e : gmap string (list L)) :
  Emitter.listenersOf ev (Emitter.removeListener ev' l e) =
    if decide (ev' = ev) then Emitter.splice_first l (Emitter.listenersOf ev e)
    else Emitter.listenersOf ev e.
Proof.
  unfold Emitter.listenersOf, Emitter.removeListener.
  destruct (e !! ev') as [arr|] eqn:Harr.
  - destruct (decide (ev' = ev)) as [->|Hne].
    + by rewrite lookup_insert_eq, Harr.
    + by rewrite lookup_insert_ne.
  - destruct (decide (ev' = ev)) as [->|Hne]; [|done]. by rewrite Harr.
Qed.
End listeners.

Section loops.
Context {S E L : Type}.

Lemma forEach_nil (arr : S → list L) (f : L → M S E unit) s :
  arr s = [] → forEach arr f s = (s, [], Ret tt).
Proof. intros H. unfold forEach. by rewrite H. Qed.

Lemma forEach_one (arr : S → list L) (f : L → M S E unit) s x :
  arr s = [x] → forEach arr f s = f x s.
Proof.
  intros H. unfold forEach. rewrite H. cbn. rewrite H. unfold bind, ret.
  change ([x] !! 0%nat) with (Some x). cbv beta iota.
  destruct (f x s) as [[s1 es] [[]|e]]; [|done]. by rewrite app_nil_r.
Qed.
End loops.

(** *** The parts of a Client *)

(** What the transport of an attempt is for the connection: its state
    and its listeners. *)
Definition wire (a : attempt) : readyState * gmap string (list wsListener) :=
  (ws_state a, ws_listeners a).

Definition conn (c : t) := (_hostConnectionRequest c, wire <$> attempts c).

Definition sess (c : t) := (_sessions c, sessions c).

Definition outer (c : t) := (conn c, sess c).

Lemma fmap_alter_same {A B} (g : A → B) (f : A → A) i (l : list A) :
  (∀ a, g (f a) = g a) → g <$> alter f i l = g <$> l.
Proof.
  intros Hf. apply list_eq. intros j. rewrite !list_lookup_fmap.
  destruct (decide (i = j)) as [->|Hne].
  - rewrite list_lookup_alter_eq. destruct (l !! j); cbn; [by rewrite Hf | done].
  - by rewrite list_lookup_alter_ne.
Qed.

Lemma onAttempt_outer i f :
  (∀ a, wire (f a) = wire a) → keeps outer (onAttempt i f).
Proof.
  intros Hf. apply keeps_modify. intros c. unfold outer, conn, sess. cbn.
  by rewrite fmap_alter_same.
Qed.

Lemma settle_wire x a : wire (settle x a) = wire a.
Proof. unfold settle. by destruct (request a). Qed.

Lemma busEffect_outer i e : keeps outer (busEffect i e).
Proof.
  unfold busEffect. repeat step_shape; try done;
    apply onAttempt_outer; intros a'; by rewrite settle_wire.
Qed.

Lemma onBus_outer i m : keeps outer (onBus i m).
Proof.
  unfold onBus. repeat step_shape; try done.
  - by apply onAttempt_outer.
  - apply busEffect_outer.
Qed.

Lemma onSession_conn ref m : keeps conn (onSession ref m).
Proof. unfold onSession. repeat step_shape; done. Qed.

Lemma outer_eq c c' :
  outer c' = outer c →
  _hostConnectionRequest c' = _hostConnectionRequest c
  ∧ wire <$> attempts c' = wire <$> attempts c
  ∧ _sessions c' = _sessions c ∧ sessions c' = sessions c.
Proof. unfold outer, conn, sess. by intros [= -> -> -> ->]. Qed.


(** *** Invariants *)

(** The listeners of a transport: the once-wrapper of "close" is there
    exactly while the transport is open; "error" has the once-wrapper of
    [reject] until it is called; "message" has the handler of the Bus once
    the transport has opened. *)
Definition wire_ok (x : readyState * gmap string (list wsListener)) : Prop :=
  Emitter.listenersOf "close" x.2 = (if decide (x.1 = Open) then [OnceClose] else [])
  ∧ (Emitter.listenersOf "error" x.2 = [OnceError]
     ∨ Emitter.listenersOf "error" x.2 = [])
  ∧ (Emitter.listenersOf "message" x.2 = [BusHandleMessage] ∧ x.1 ≠ Connecting
     ∨ Emitter.listenersOf "message" x.2 = [] ∧ x.1 ≠ Open).

(** The slot holds an attempt that was made, and a transport that is not
    closed is the transport of the attempt in the slot. *)
Definition conn_ok
    (x : option nat * list (readyState * gmap string (list wsListener))) : Prop :=
  (∀ k, x.1 = Some k → (k < length x.2)%nat)
  ∧ (∀ i w, x.2 !! i = Some w → w.1 ≠ Closed → x.1 = Some i)
  ∧ Forall wire_ok x.2.

Definition sess_ok (x : list (string * nat) * list sessionObject) : Prop :=
  Forall (λ so, SessionReach.session_ok (session so)) x.2
  ∧ Forall (λ kr : string * nat, (kr.2 < length x.2)%nat) x.1.

Definition client_ok (c : t) : Prop := conn_ok (conn c) ∧ sess_ok (sess c).

Lemma keeps_outer_ok {A} (m : M t effect A) : keeps outer m → preserves client_ok m.
Proof.
  intros Hk c Hc. specialize (Hk c). unfold client_ok.
  pose proof (f_equal fst Hk) as H1. pose proof (f_equal snd Hk) as H2.
  change (conn (state_of (m c)) = conn c) in H1.
  change (sess (state_of (m c)) = sess c) in H2.
  by rewrite H1, H2.
Qed.

Lemma conn_ok_alter slot l i g :
  conn_ok (slot, l) →
  (∀ w, l !! i = Some w → wire_ok (g w) ∧ ((g w).1 ≠ Closed → slot = Some i)) →
  conn_ok (slot, alter g i l).
Proof.
  intros (Hs & Hl & Hw) Hg. unfold conn_ok in *. cbn in *. split_and!.
  - intros k Hk. rewrite length_alter. auto.
  - intros j w. destruct (decide (i = j)) as [->|Hne].
    + rewrite list_lookup_alter_eq. destruct (l !! j) as [w0|] eqn:Hj; [|done].
      intros [= <-]. by apply Hg.
    + rewrite list_lookup_alter_ne by done. apply Hl.
  - rewrite Forall_lookup in *. intros j w. destruct (decide (i = j)) as [->|Hne].
    + rewrite list_lookup_alter_eq. destruct (l !! j) as [w0|] eqn:Hj; [|done].
      intros [= <-]. by apply Hg.
    + rewrite list_lookup_alter_ne by done. apply Hw.
Qed.

Lemma fmap_alter {A B} (g : A → B) (f : A → A) (f' : B → B) i (l : list A) :
  (∀ a, g (f a) = f' (g a)) → g <$> alter f i l = alter f' i (g <$> l).
Proof.
  intros Hf. apply list_eq. intros j.
  destruct (decide (i = j)) as [->|Hne].
  - rewrite list_lookup_fmap, !list_lookup_alter_eq, list_lookup_fmap.
    destruct (l !! j); cbn; [by rewrite Hf | done].
  - by rewrite list_lookup_fmap, !list_lookup_alter_ne, list_lookup_fmap.
Qed.

Lemma ws_is_lookup i st c :
  ws_is i st c = true ↔ ∃ a, attempts c !! i = Some a ∧ ws_state a = st.
Proof.
  unfold ws_is. destruct (attempts c !! i) as [a|].
  - rewrite bool_decide_eq_true. split; [eauto | by intros (? & [= <-] & ?)].
  - split; [done | by intros (? & ? & _)].
Qed.

Lemma ws_live_lookup i c :
  ws_live i c = true ↔ ∃ a, attempts c !! i = Some a ∧ ws_state a ≠ Closed.
Proof.
  unfold ws_live. destruct (attempts c !! i) as [a|].
  - rewrite bool_decide_eq_true. split; [eauto | by intros (? & [= <-] & ?)].
  - split; [done | by intros (? & ? & _)].
Qed.

Lemma wire_lookup c i a :
  attempts c !! i = Some a → (conn c).2 !! i = Some (wire a).
Proof. intros H. unfold conn. cbn. by rewrite list_lookup_fmap, H. Qed.

(** *** The connection getter *)

Definition fresh : attempt :=
  mkAttempt Connecting (Emitter.addListener "error" OnceError ∅) Pending None false.

Lemma getter_some c k :
  _hostConnectionRequest c = Some k →
  _getHostConnection c = (c, [Returned k], Ret tt).
Proof. intros H. unfold _getHostConnection. by rewrite bind_get, H. Qed.

Lemma getter_none c :
  _hostConnectionRequest c = None →
  _getHostConnection c =
    (set_hostConnectionRequest (Some (length (attempts c)))
       (set_attempts (attempts c ++ [fresh]) c),
     [Returned (length (attempts c))], Ret tt).
Proof.
  intros H. unfold _getHostConnection, _doGetHostConnection.
  rewrite bind_get, H. unfold bind, get, modify, ret, tell. done.
Qed.

Lemma conn_ok_fresh l : conn_ok (None, l) → conn_ok (Some (length l), l ++ [wire fresh]).
Proof.
  intros (_ & Hl & Hw). unfold conn_ok in *. cbn in *. split_and!.
  - intros k [= <-]. rewrite length_app. cbn. lia.
  - intros i w Hi Hlive. destruct (decide (i < length l)%nat) as [Hlt|Hge].
    + rewrite lookup_app_l in Hi by done. by specialize (Hl i w Hi Hlive).
    + rewrite lookup_app_r in Hi by lia.
      destruct (i - length l)%nat as [|n] eqn:Hn; [|by destruct n].
      f_equal. lia.
  - apply Forall_app. split; [done|]. apply Forall_singleton.
    unfold wire_ok. split_and!; [done | by left | by right].
Qed.


(** *** The Sessions are told that the connection is gone *)

Definition detached_object (so : sessionObject) : sessionObject :=
  mkSessionObject (id so)
    (state_of (Session._onDetached Session.ConnectionTerminated None (session so))).

(** What [_onDetached] of the Session does to the outside: the calls of
    the handlers of its Scripts and of its own handlers of "detached". *)
Definition detach_effects (so : sessionObject) : list Session.effect :=
  effects_of (Session._onDetached Session.ConnectionTerminated None (session so)).

Definition object_ok (so : sessionObject) : Prop :=
  SessionReach.session_ok (session so).

Lemma detached_object_state so :
  object_ok so → Session._state (session (detached_object so)) = Session.detached.
Proof.
  intros Hok.
  destruct (SessionReach._onDetached_total Session.ConnectionTerminated None _ Hok)
    as (w' & out & Hrun & Hst & _).
  unfold detached_object. cbn [session]. by rewrite Hrun.
Qed.

Lemma detached_object_ok so : object_ok so → object_ok (detached_object so).
Proof. intros Hok. by apply SessionReach._onDetached_ok. Qed.

Lemma detached_object_idem so :
  object_ok so → detached_object (detached_object so) = detached_object so.
Proof.
  intros Hok. pose proof (detached_object_state so Hok) as Hst.
  unfold detached_object at 1.
  rewrite SessionFacts._onDetached_detached by done. done.
Qed.

Lemma onSession_detach ref c so :
  sessions c !! ref = Some so → object_ok so →
  onSession ref (Session._onDetached Session.ConnectionTerminated None) c =
    (set_sessions (<[ref := detached_object so]> (sessions c)) c,
     OfSession ref <$> detach_effects so, Ret tt).
Proof.
  intros Hso Hok. unfold detach_effects.
  destruct (SessionReach._onDetached_total Session.ConnectionTerminated None _ Hok)
    as (w' & out & Hrun & Hst & Hout).
  unfold onSession. rewrite bind_get, Hso, Hrun, bind_modify.
  erewrite bind_ret_eq.
  2:{ apply (for_of_tell _ _ (λ e, [OfSession ref e])).
      intros e He. rewrite Forall_forall in Hout. specialize (Hout e He).
      by destruct e. }
  unfold detached_object. rewrite Hrun. unfold ret, state_of, effects_of, result_of.
  cbn. rewrite app_nil_r. do 2 f_equal.
  clear. induction out as [|e out IH]; [done|]. cbn. by rewrite IH.
Qed.

Lemma onSession_none ref m c :
  sessions c !! ref = None → onSession ref m c = (c, [], Ret tt).
Proof. intros H. unfold onSession. by rewrite bind_get, H. Qed.

Lemma set_sessions_same c : set_sessions (sessions c) c = c.
Proof. by destruct c. Qed.

Lemma detachSessions_total keys : ∀ c,
  Forall object_ok (sessions c) →
  ∃ ss out,
    detachSessions keys c = (set_sessions ss c, out, Ret tt)
    ∧ Forall object_ok ss
    ∧ length ss = length (sessions c)
    ∧ (∀ ref so, sessions c !! ref = Some so →
         ss !! ref = Some so ∨ ss !! ref = Some (detached_object so))
    ∧ (∀ k ref so, k ∈ keys → JsMap.get k (_sessions c) = Some ref →
         sessions c !! ref = Some so →
         ss !! ref = Some (detached_object so)
         ∧ OfSession ref <$> detach_effects so ⊆ out).
Proof.
  induction keys as [|k keys IH]; intros c Hok.
  { exists (sessions c), []. cbn. rewrite set_sessions_same.
    split_and!; try done; [by left | by intros ? ? ? ?%elem_of_nil]. }
  cbn [detachSessions]. rewrite bind_get.
  destruct (JsMap.get k (_sessions c)) as [ref|] eqn:Hk.
  - destruct (sessions c !! ref) as [so|] eqn:Hso.
    + assert (Hso_ok : object_ok so).
      { rewrite Forall_lookup in Hok. by eapply Hok. }
      pose proof (onSession_detach ref c so Hso Hso_ok) as Hrun1.
      set (out1 := OfSession ref <$> detach_effects so) in *.
      set (c1 := set_sessions (<[ref := detached_object so]> (sessions c)) c) in *.
      destruct (IH c1) as (ss & out2 & Hrun2 & Hss & Hlen & Hany & Hall).
      { subst c1. cbn. apply Forall_insert; [done|]. by apply detached_object_ok. }
      assert (Href : ss !! ref = Some (detached_object so)).
      { destruct (Hany ref (detached_object so)) as [H|H].
        - subst c1. cbn. apply list_lookup_insert_eq. by eapply lookup_lt_Some.
        - done.
        - by rewrite detached_object_idem in H. }
      exists ss, (out1 ++ out2). split_and!.
      * rewrite (bind_ret_eq _ _ _ _ _ _ Hrun1), Hrun2. done.
      * done.
      * rewrite Hlen. subst c1. cbn. by rewrite length_insert.
      * intros ref' so' Hso'. destruct (decide (ref' = ref)) as [->|Hne].
        -- right. by assert (so' = so) as -> by congruence.
        -- apply Hany. subst c1. cbn. by rewrite list_lookup_insert_ne.
      * intros k' ref' so' Hin Hget Hso'.
        destruct (decide (ref' = ref)) as [->|Hne].
        -- assert (so' = so) as -> by congruence. split; [done|].
           intros e He. apply elem_of_app. by left.
        -- apply elem_of_cons in Hin as [->|Hin]; [congruence|].
           destruct (Hall k' ref' so' Hin) as [H1 H2]; [done| |].
           { subst c1. cbn. by rewrite list_lookup_insert_ne. }
           split; [done|]. intros e He. apply elem_of_app. right. by apply H2.
    + destruct (IH c Hok) as (ss & out2 & Hrun2 & Hss & Hlen & Hany & Hall).
      exists ss, out2. split_and!; try done.
      * rewrite (bind_ret_eq _ _ _ _ _ _ (onSession_none ref _ c Hso)), Hrun2. done.
      * intros k' ref' so' [->|Hin]%elem_of_cons Hget Hso'; [congruence|].
        by apply (Hall k' ref' so').
  - destruct (IH c Hok) as (ss & out2 & Hrun2 & Hss & Hlen & Hany & Hall).
    exists ss, out2. split_and!; try done.
    intros k' ref' so' [->|Hin]%elem_of_cons Hget Hso'; [congruence|].
    by apply (Hall k' ref' so').
Qed.

(** *** The transport opens *)

Section transport.
Variable serializeMessage : Bus.outgoing → option (list Z).
Variable parseMessages : list Z → option (list Bus.message).

Definition opened (w : readyState * gmap string (list wsListener)) :=
  (Open, Emitter.addListener "message" BusHandleMessage
           (Emitter.addListener "close" OnceClose w.2)).

Lemma open_outer i c :
  outer (state_of ((onAttempt i (set_ws_state Open) ;;; onOpen serializeMessage i) c)) =
    ((_hostConnectionRequest c, alter opened i (wire <$> attempts c)), sess c).
Proof.
  unfold onOpen, onAttempt. rewrite !bind_modify, bind_get, !bind_modify.
  cbn [_token set_attempts attempts clock].
  assert (Hc : ∀ f1 f2,
    (∀ a, wire (f1 a) = wire a) → (∀ a, wire (f2 a) = wire a) →
    outer (set_attempts
      (alter f2 i (alter f1 i
        (alter (λ a, set_ws_listeners
                  (Emitter.addListener "message" BusHandleMessage (ws_listeners a)) a) i
          (alter (λ a, set_ws_listeners
                    (Emitter.addListener "close" OnceClose (ws_listeners a)) a) i
            (alter (set_ws_state Open) i (attempts c)))))) c)
    = ((_hostConnectionRequest c, alter opened i (wire <$> attempts c)), sess c)).
  { intros f1 f2 H1 H2. unfold outer, conn, sess. cbn. do 2 f_equal.
    rewrite (fmap_alter_same wire f2), (fmap_alter_same wire f1) by done.
    rewrite (fmap_alter wire _
               (λ w, (w.1, Emitter.addListener "message" BusHandleMessage w.2))) by done.
    rewrite (fmap_alter wire _
               (λ w, (w.1, Emitter.addListener "close" OnceClose w.2))) by done.
    rewrite (fmap_alter wire _ (λ w, (Open, w.2))) by done.
    rewrite !list_alter_alter_eq. done. }
  destruct (_token c) as [token|].
  - rewrite bind_modify, onBus_outer. cbn [attempts set_attempts]. by apply Hc.
  - unfold modify, state_of. cbn [fst attempts set_attempts].

    apply Hc; [done|]. intros a. apply settle_wire.
Qed.


(** *** 'error' and 'message' of the transport *)

Lemma error_step i c :
  client_ok c → ws_live i c = true →
  client_ok (state_of (wsEmit parseMessages i "error" [] c))
  ∧ _hostConnectionRequest (state_of (wsEmit parseMessages i "error" [] c))
    = _hostConnectionRequest c.
Proof.
  intros [Hconn Hsess] (a & Ha & Hlive)%ws_live_lookup.
  assert (Hw : wire_ok (wire a)).
  { destruct Hconn as (_ & _ & Hw). rewrite Forall_lookup in Hw.
    by apply (Hw i), wire_lookup. }
  destruct Hw as (Hclose & [Herr|Herr] & Hmsg).
  - unfold wsEmit. rewrite (forEach_one _ _ c OnceError) by (by rewrite Ha).
    cbn [callWs]. unfold onAttempt. rewrite !bind_modify.
    unfold modify, state_of. cbn [fst]. split; [|done].
    split; [|done]. unfold conn. cbn.
    rewrite (fmap_alter wire _
               (λ w, (w.1, Emitter.removeListener "error" OnceError w.2))) by done.
    rewrite (fmap_alter_same wire) by (intros; apply settle_wire).
    apply conn_ok_alter; [done|]. intros w Hi.
    assert (w = wire a) as ->.
    { apply wire_lookup in Ha. unfold conn in Ha. cbn in Ha. congruence. }
    split; [|intros Hl; destruct Hconn as (_ & Hl' & _);
             apply (Hl' i (wire a)); [by apply wire_lookup | done]].
    unfold wire_ok. cbn [fst snd wire] in *.
    rewrite !listenersOf_remove. cbn. rewrite Herr. cbn.
    split_and!; [done | by right | done].
  - unfold wsEmit. rewrite forEach_nil by (by rewrite Ha). done.
Qed.

Lemma message_step i data c :
  client_ok c → ws_is i Open c = true →
  outer (state_of (wsEmit parseMessages i "message" data c)) = outer c.
Proof.
  intros [Hconn Hsess] (a & Ha & Hopen)%ws_is_lookup.
  assert (Hw : wire_ok (wire a)).
  { destruct Hconn as (_ & _ & Hw). rewrite Forall_lookup in Hw.
    by apply (Hw i), wire_lookup. }
  destruct Hw as (Hclose & _ & [[Hmsg _]|[Hmsg _]]).
  - unfold wsEmit. rewrite (forEach_one _ _ c BusHandleMessage) by (by rewrite Ha).
    cbn [callWs].
    apply onBus_outer.
  - unfold wsEmit. rewrite forEach_nil by (by rewrite Ha). done.
Qed.


(** *** 'close' of the transport *)

Variable JSON_parse : string → option value.

Abbreviation step := (Client.step serializeMessage parseMessages JSON_parse).
Abbreviation run := (Client.run serializeMessage parseMessages JSON_parse).

Definition closed (a : attempt) : attempt :=
  set_ws_listeners (Emitter.removeListener "close" OnceClose (ws_listeners a))
    (set_ws_state Closed a).

Lemma get_In {V} (k : string) (v : V) m : JsMap.get k m = Some v → (k, v) ∈ m.
Proof.
  induction m as [|[k' v'] m IH]; cbn; [done|].
  destruct (decide (k' = k)) as [->|]; [intros [= ->]; by left | right; auto].
Qed.

Lemma live_is_slot c i a :
  client_ok c → attempts c !! i = Some a → ws_state a ≠ Closed →
  _hostConnectionRequest c = Some i.
Proof.
  intros [(_ & Hl & _) _] Ha Hlive. apply (Hl i (wire a)); [|done].
  by apply wire_lookup.
Qed.

Lemma attempt_wire_ok c i a :
  client_ok c → attempts c !! i = Some a → wire_ok (wire a).
Proof.
  intros [(_ & _ & Hw) _] Ha. rewrite Forall_lookup in Hw.
  by apply (Hw i), wire_lookup.
Qed.

(** The transport of attempt [i] closes after it had opened. *)
Lemma close_open i c a :
  client_ok c → attempts c !! i = Some a → ws_state a = Open →
  ∃ ss out,
    step (WsClose i) c =
      Some (set_attempts (alter closed i (attempts c))
              (set_sessions ss (set_hostConnectionRequest None c)), out, Ret tt)
    ∧ Forall object_ok ss
    ∧ length ss = length (sessions c)
    ∧ (∀ k ref, JsMap.get k (_sessions c) = Some ref →
         ∃ so, sessions c !! ref = Some so
               ∧ ss !! ref = Some (detached_object so)
               ∧ OfSession ref <$> detach_effects so ⊆ out).
Proof.
  intros Hc Ha Hopen.
  pose proof (attempt_wire_ok c i a Hc Ha) as (Hclose & _).
  cbn [wire fst snd] in Hclose. rewrite Hopen in Hclose. cbn in Hclose.
  destruct Hc as [_ [Hobj Hrefs]]. cbn [sess fst snd] in *.
  set (c2 := set_hostConnectionRequest None
               (set_attempts (alter (set_ws_state Closed) i (attempts c)) c)).
  destruct (detachSessions_total (JsMap.keys (_sessions c)) c2 Hobj)
    as (ss & out & Hrun & Hss & Hlen & _ & Hall).
  exists ss, out. split_and!; try done.
  - cbn [Client.step].
    assert (ws_live i c = true) as ->.
    { apply ws_live_lookup. exists a. by rewrite Hopen. }
    f_equal. unfold onAttempt. rewrite bind_modify. unfold wsEmit.
    rewrite (forEach_one _ _ _ OnceClose).
    2:{ cbn. by rewrite list_lookup_alter_eq, Ha. }
    cbn [callWs]. unfold onClose.
    erewrite bind_ret_eq.
    2:{ rewrite bind_modify, bind_get. exact Hrun. }
    unfold onAttempt, modify, state_of, effects_of, result_of. cbn.
    rewrite app_nil_r, list_alter_alter_eq. done.
  - intros k ref Hget.
    assert (Hlt : (ref < length (sessions c))%nat).
    { rewrite Forall_forall in Hrefs. by apply (Hrefs (k, ref)), get_In. }
    destruct (lookup_lt_is_Some_2 _ _ Hlt) as [so Hso].
    exists so. split; [done|].
    apply (Hall k ref so); try done.
    unfold JsMap.keys. apply list_elem_of_fmap. exists (k, ref).
    split; [done | by apply get_In].
Qed.

Lemma close_open_ok i c a ss :
  client_ok c → attempts c !! i = Some a → ws_state a = Open →
  Forall object_ok ss → length ss = length (sessions c) →
  client_ok (set_attempts (alter closed i (attempts c))
               (set_sessions ss (set_hostConnectionRequest None c))).
Proof.
  intros Hc Ha Hopen Hss Hlen.
  pose proof (attempt_wire_ok c i a Hc Ha) as (Hclose & Herr & Hmsg).
  split.
  - unfold conn. cbn [_hostConnectionRequest attempts set_attempts set_sessions
                      set_hostConnectionRequest].
    rewrite (fmap_alter wire _
      (λ w, (Closed, Emitter.removeListener "close" OnceClose w.2))) by done.
    unfold conn_ok. cbn [fst snd]. split_and!.
    + done.
    + intros j w. destruct (decide (i = j)) as [->|Hne].
      * rewrite list_lookup_alter_eq, list_lookup_fmap, Ha. by intros [= <-].
      * rewrite list_lookup_alter_ne, list_lookup_fmap by done.
        destruct (attempts c !! j) as [b|] eqn:Hb; [|done]. intros [= <-] Hlive.
        pose proof (live_is_slot c i a Hc Ha) as Hi.
        pose proof (live_is_slot c j b Hc Hb Hlive) as Hj.
        rewrite Hopen in Hi. specialize (Hi ltac:(done)). congruence.
    + destruct Hc as [(_ & _ & Hw) _]. cbn [conn snd] in Hw.
      rewrite Forall_lookup in *. intros j w.
      destruct (decide (i = j)) as [->|Hne].
      * rewrite list_lookup_alter_eq, list_lookup_fmap, Ha. intros [= <-].
        unfold wire_ok. cbn [wire fst snd] in *.
        rewrite !listenersOf_remove. cbn. split_and!; try done.
        -- rewrite Hclose, Hopen. cbn. done.
        -- left. destruct Hmsg as [[? _]|[_ ?]]; done.
      * rewrite list_lookup_alter_ne by done. apply Hw.
  - destruct Hc as [_ [_ Hrefs]]. split; [done|]. cbn [sess fst snd] in *.
    cbn. by rewrite Hlen.
Qed.

(** The transport of attempt [i] closes and had never opened. *)
Lemma close_connecting i c a :
  client_ok c → attempts c !! i = Some a → ws_state a = Connecting →
  step (WsClose i) c =
    Some (set_attempts (alter (set_ws_state Closed) i (attempts c)) c, [], Ret tt)
  ∧ client_ok (set_attempts (alter (set_ws_state Closed) i (attempts c)) c).
Proof.
  intros Hc Ha Hst.
  pose proof (attempt_wire_ok c i a Hc Ha) as (Hclose & Herr & Hmsg).
  cbn [wire fst snd] in *. rewrite Hst in Hclose. cbn in Hclose.
  split.
  - cbn [Client.step].
    assert (ws_live i c = true) as ->.
    { apply ws_live_lookup. exists a. by rewrite Hst. }
    f_equal. unfold onAttempt. rewrite bind_modify. unfold wsEmit.
    rewrite forEach_nil; [done|]. cbn. by rewrite list_lookup_alter_eq, Ha.
  - destruct Hc as [Hconn Hsess]. split; [|done].
    unfold conn in *. cbn [_hostConnectionRequest attempts set_attempts].
    rewrite (fmap_alter wire _ (λ w, (Closed, w.2))) by done.
    apply conn_ok_alter; [done|]. intros w.
    rewrite list_lookup_fmap, Ha. intros [= <-]. split; [|done].
    unfold wire_ok. cbn [wire fst snd]. rewrite Hclose. split_and!; try done.
    right. destruct Hmsg as [[_ ?]|[? _]]; done.
Qed.


(** *** The Sessions of the Client *)

Lemma In_delete {V} (k : string) (x : string * V) m :
  x ∈ JsMap.delete k m → x ∈ m.
Proof.
  induction m as [|[k' v'] m IH]; cbn; [done|].
  destruct (decide (k' = k)); [by right|].
  intros [->|?]%elem_of_cons; [by left | right; auto].
Qed.

Lemma In_set {V} (k : string) (v : V) m x :
  x ∈ JsMap.set k v m → x = (k, v) ∨ x ∈ m.
Proof.
  induction m as [|[k' v'] m IH]; cbn.
  - intros ->%list_elem_of_singleton. by left.
  - destruct (decide (k' = k)) as [->|Hne].
    + intros [->|?]%elem_of_cons; [by left | right; by right].
    + intros [->|Hx]%elem_of_cons; [right; by left|].
      destruct (IH Hx); [by left | right; by right].
Qed.

Lemma onSession_sess_ok ref m c :
  (∀ s, SessionReach.session_ok s → SessionReach.session_ok (state_of (m s))) →
  sess_ok (sess c) → sess_ok (sess (state_of (onSession ref m c))).
Proof.
  intros Hm Hc. unfold onSession. rewrite bind_get.
  destruct (sessions c !! ref) as [so|] eqn:Hso; [|done].
  assert (Hs' : SessionReach.session_ok (state_of (m (session so)))).
  { apply Hm. destruct Hc as [Hobj _]. rewrite Forall_lookup in Hobj.
    by apply (Hobj ref so). }
  destruct (m (session so)) as [[s' es] r]. unfold state_of in Hs'. cbn in Hs'.
  refine ((_ : preserves (λ c, sess_ok (sess c)) _) c Hc).
  repeat step_shape.
  - apply preserves_modify. intros c0 [Hobj Hrefs]. split; cbn in *.
    + by apply Forall_insert.
    + by rewrite length_insert.
  - apply preserves_modify. intros c0 [Hobj Hrefs]. split; [done|]. cbn in *.
    rewrite Forall_forall in *. intros x Hx%In_delete. auto.
Qed.

Lemma new_object_ok (so : sessionObject) :
  object_ok so →
  object_ok (mkSessionObject (id so)
    (Session.set_events
       (Emitter.addListener "destroyed" Session.ClientOnce
          (Session._events (session so))) (session so))).
Proof.
  intros (Hreg & Hrefs & Hev). unfold object_ok, SessionReach.session_ok.
  split_and!; try done. cbn. by rewrite listenersOf_add.
Qed.

Lemma sessionCreated_conn i sessionId :
  keeps conn (sessionCreated i sessionId).
Proof.
  unfold sessionCreated. repeat step_shape; try done.
  intros c. pose proof (onBus_outer i
    (Bus.addSignalListener ("/re/frida/AgentSession/" +:+ sessionId)
       "re.frida.AgentSession17" "Message" (length (sessions a))) c) as H.
  exact (f_equal fst H).
Qed.

Lemma sessionCreated_sess_ok i sessionId c :
  sess_ok (sess c) → sess_ok (sess (state_of (sessionCreated i sessionId c))).
Proof.
  intros [Hobj Hrefs]. unfold sessionCreated. rewrite bind_get, !bind_modify.
  set (c2 := set_sessions_map _ (set_sessions _ c)).
  assert (Hc2 : sess_ok (sess c2)).
  { subst c2. split; cbn in *.
    - apply Forall_app. split; [done|]. apply Forall_singleton.
      apply SessionReach.new_session_ok.
    - rewrite Forall_forall in *. rewrite length_app. cbn.
      intros x [->|Hx]%In_set; cbn; [lia|]. specialize (Hrefs x Hx). lia. }
  refine ((_ : preserves (λ c, sess_ok (sess c)) _) c2 Hc2).
  repeat step_shape.
  - intros c0 Hc0.
    pose proof (onBus_outer i
      (Bus.addSignalListener ("/re/frida/AgentSession/" +:+ sessionId)
         "re.frida.AgentSession17" "Message" (length (sessions c))) c0) as H.
    apply (f_equal snd) in H.
    change (sess (state_of (onBus i (Bus.addSignalListener
              ("/re/frida/AgentSession/" +:+ sessionId)
              "re.frida.AgentSession17" "Message" (length (sessions c))) c0))
            = sess c0) in H.
    by rewrite H.
  - apply preserves_modify. intros c0 [Hobj0 Hrefs0]. split; cbn in *.
    + rewrite Forall_lookup in *. intros j so.
      destruct (decide (length (sessions c) = j)) as [<-|Hne].
      * rewrite list_lookup_alter_eq.
        destruct (sessions c0 !! length (sessions c)) as [so0|] eqn:Hso0; [|done].
        intros [= <-]. apply new_object_ok. by apply (Hobj0 _ _ Hso0).
      * rewrite list_lookup_alter_ne by done. apply Hobj0.
    + by rewrite length_alter.
Qed.

Lemma advance_outer dt :
  keeps (E:=effect) outer
    (modify (λ c, set_clock (clock c + dt) c) ;;;
     modify (λ c, set_attempts
       ((λ a, set_bus ((λ b, Bus.set_now (Bus.now b + dt) b) <$> bus a) a)
        <$> attempts c) c)).
Proof.
  repeat step_shape. intros c. unfold outer, conn, sess. cbn.
  do 2 f_equal. rewrite <- list_fmap_compose. by apply list_fmap_ext.
Qed.


(** *** Every step keeps the invariant *)

(** How a step changes the slot: it is filled by the getter when it is
    empty, and emptied when the transport of its attempt closes after it
    had opened. *)
Definition slot_change (e : event) (c c' : t) : Prop :=
  _hostConnectionRequest c' = _hostConnectionRequest c
  ∨ (e = GetHostConnection ∧ _hostConnectionRequest c = None
     ∧ _hostConnectionRequest c' = Some (length (attempts c)))
  ∨ (∃ i, e = WsClose i ∧ ws_is i Open c = true
     ∧ _hostConnectionRequest c = Some i ∧ _hostConnectionRequest c' = None).

Lemma kept e c c' :
  conn c' = conn c → sess_ok (sess c') → client_ok c →
  client_ok c' ∧ slot_change e c c'.
Proof.
  intros Hconn Hsess [Hc _]. split.
  - split; [by rewrite Hconn | done].
  - left. exact (f_equal fst Hconn).
Qed.

Lemma kept_outer e c c' :
  outer c' = outer c → client_ok c → client_ok c' ∧ slot_change e c c'.
Proof.
  intros H Hc. pose proof (f_equal fst H) as H1. pose proof (f_equal snd H) as H2.
  change (conn c' = conn c) in H1. change (sess c' = sess c) in H2.
  apply kept; try done. rewrite H2. by destruct Hc.
Qed.

Lemma opened_ok i c a :
  client_ok c → attempts c !! i = Some a → ws_state a = Connecting →
  conn_ok (_hostConnectionRequest c, alter opened i (wire <$> attempts c)).
Proof.
  intros Hc Ha Hst.
  pose proof (attempt_wire_ok c i a Hc Ha) as (Hclose & Herr & Hmsg).
  cbn [wire fst snd] in *. rewrite Hst in *. cbn in Hclose.
  apply conn_ok_alter; [by destruct Hc|]. intros w.
  rewrite list_lookup_fmap, Ha. intros [= <-]. split.
  - unfold wire_ok, opened. cbn [wire fst snd].
    rewrite !listenersOf_add. cbn. rewrite Hclose.
    destruct Hmsg as [[_ ?]|[-> _]]; [done|]. split_and!; [done | done | by left].
  - intros _. apply (live_is_slot c i a Hc Ha). by rewrite Hst.
Qed.

Lemma client_step_ok e c c' out r :
  client_ok c → step e c = Some (c', out, r) → client_ok c' ∧ slot_change e c c'.
Proof.
  intros Hc Hstep. destruct e; cbn [Client.step] in Hstep.
  - apply (inj Some) in Hstep.
    destruct (_hostConnectionRequest c) as [k|] eqn:Hslot.
    + rewrite (getter_some c k Hslot) in Hstep. injection Hstep as <- _ _.
      split; [done | by left].
    + rewrite (getter_none c Hslot) in Hstep. injection Hstep as <- _ _.
      split; [|right; left; by rewrite Hslot].
      destruct Hc as [Hconn Hsess]. split; [|done].
      unfold conn in *. cbn. rewrite Hslot in Hconn.
      rewrite fmap_app. cbn. rewrite <- (length_fmap wire). by apply conn_ok_fresh.
  - destruct (ws_is i Connecting c) eqn:Hi; [|done].
    apply ws_is_lookup in Hi as (a & Ha & Hst).
    apply (inj Some) in Hstep.
    pose proof (open_outer i c) as Ho. rewrite Hstep in Ho.
    unfold state_of in Ho. cbn [fst] in Ho.
    pose proof (f_equal fst Ho) as H1. pose proof (f_equal snd Ho) as H2.
    change (conn c' = (_hostConnectionRequest c, alter opened i (wire <$> attempts c))) in H1.
    change (sess c' = sess c) in H2.
    split.
    + split; [rewrite H1; by eapply opened_ok | rewrite H2; by destruct Hc].
    + left. exact (f_equal fst H1).
  - destruct (ws_live i c) eqn:Hi; [|done].
    apply (inj Some) in Hstep.
    destruct (error_step i c Hc Hi) as [H1 H2]. rewrite Hstep in H1, H2.
    split; [done | by left].
  - pose proof Hstep as Hi.
    change (step (WsClose i) c = Some (c', out, r)) in Hstep.
    destruct (ws_live i c) eqn:Hlive in Hi; [clear Hi|done].
    apply ws_live_lookup in Hlive as (a & Ha & Hlive).
    destruct (ws_state a) eqn:Hst; [| |done].
    + destruct (close_connecting i c a Hc Ha Hst) as [Hrun Hok].
      rewrite Hrun in Hstep. injection Hstep as <- _ _. split; [done | by left].
    + destruct (close_open i c a Hc Ha Hst) as (ss & out' & Hrun & Hss & Hlen & _).
      rewrite Hrun in Hstep. injection Hstep as <- _ _. split.
      * by eapply close_open_ok.
      * right; right. exists i. split_and!; try done.
        -- apply ws_is_lookup. eauto.
        -- apply (live_is_slot c i a Hc Ha). by rewrite Hst.
  - destruct (ws_is i Open c) eqn:Hi; [|done].
    apply (inj Some) in Hstep.
    pose proof (message_step i data c Hc Hi) as Ho. rewrite Hstep in Ho.
    by apply kept_outer.
  - case_bool_decide; [|done]. apply (inj Some) in Hstep.
    apply kept_outer; [|done].
    pose proof (onBus_outer i
      (Bus.callMethod serializeMessage p destination objectPath interfaceName
         memberName args) c) as Ho.
    by rewrite Hstep in Ho.
  - destruct (attempts c !! i) as [[? ? ? [b|] ?]|]; try done.
    destruct (Bus.step _ _ _ b); [|done]. apply (inj Some) in Hstep.
    apply kept_outer; [|done].
    pose proof (onBus_outer i
      (λ b, default (b, [], Ret tt)
              (Bus.step serializeMessage parseMessages (Bus.Timeout k) b)) c) as Ho.
    by rewrite Hstep in Ho.
  - case_bool_decide; [|done]. apply (inj Some) in Hstep.
    apply kept_outer; [|done].
    pose proof (advance_outer dt c) as Ho. by rewrite Hstep in Ho.
  - destruct (attempts c !! i) as [a|]; [|done].
    case_bool_decide; [|done]. apply (inj Some) in Hstep.
    apply kept; [| |done].
    + pose proof (sessionCreated_conn i sessionId c) as Ho. by rewrite Hstep in Ho.
    + pose proof (sessionCreated_sess_ok i sessionId c (proj2 Hc)) as Ho.
      by rewrite Hstep in Ho.
  - destruct (sessions c !! ref) as [so|]; [|done].
    destruct (Session.step JSON_parse e (session so)); [|done].
    apply (inj Some) in Hstep.
    apply kept; [| |done].
    + pose proof (onSession_conn ref
        (λ s, default (s, [], Ret tt) (Session.step JSON_parse e s)) c) as Ho.
      by rewrite Hstep in Ho.
    + pose proof (onSession_sess_ok ref
        (λ s, default (s, [], Ret tt) (Session.step JSON_parse e s)) c) as Ho.
      rewrite Hstep in Ho. apply Ho; [|by destruct Hc].
      intros s Hs. destruct (Session.step JSON_parse e s) as [[[w out'] r']|] eqn:Hs'.
      * by eapply SessionReach.step_session_ok.
      * done.
Qed.

Lemma new_client_ok token now : client_ok (new token now).
Proof.
  split.
  - unfold conn_ok. cbn. split_and!; [done | | done]. intros i w Hi. by rewrite lookup_nil in Hi.
  - split; cbn; done.
Qed.

Lemma client_run_ok es : ∀ c c' out,
  client_ok c → run es c = Some (c', out) → client_ok c'.
Proof.
  induction es as [|e es IH]; intros c c' out Hc Hrun; cbn in Hrun.
  - by injection Hrun as <- _.
  - destruct (step e c) as [[[c1 out1] r]|] eqn:Hstep; [|done].
    destruct (run es c1) as [[c2 out2]|] eqn:Hrest; [|done].
    injection Hrun as <- _.
    eapply IH; [|done]. by eapply client_step_ok.
Qed.


(** C8, amended. In every state the Client reaches: a transport that is
    not closed belongs to the attempt in the slot, so at most one is open
    or connecting; while the slot holds an attempt the getter returns that
    attempt and opens nothing; when the slot is empty every transport is
    closed and the getter opens one; the slot is only filled by the getter
    and only emptied by the close of a transport that had opened; that
    close empties the slot and runs
    [_onDetached(ConnectionTerminated, null)] on every Session of the
    registry, whose state is then [detached] and whose handlers have been
    called; the close of a transport that never opened leaves the slot and
    the Sessions as they are. *)
Theorem shared_connection token now es c out :
  run es (new token now) = Some (c, out) →
  (∀ i, ws_live i c = true → _hostConnectionRequest c = Some i)
  ∧ (∀ k, _hostConnectionRequest c = Some k →
       (k < length (attempts c))%nat
       ∧ _getHostConnection c = (c, [Returned k], Ret tt))
  ∧ (_hostConnectionRequest c = None →
       (∀ i, ws_live i c = false)
       ∧ _getHostConnection c =
           (set_hostConnectionRequest (Some (length (attempts c)))
              (set_attempts (attempts c ++ [fresh]) c),
            [Returned (length (attempts c))], Ret tt))
  ∧ (∀ e c' out' r, step e c = Some (c', out', r) → slot_change e c c')
  ∧ (∀ i, ws_is i Open c = true →
       ∃ c' out',
         step (WsClose i) c = Some (c', out', Ret tt)
         ∧ _hostConnectionRequest c' = None
         ∧ _sessions c' = _sessions c
         ∧ ∀ k ref, JsMap.get k (_sessions c) = Some ref →
             ∃ so, sessions c !! ref = Some so
                   ∧ sessions c' !! ref = Some (detached_object so)
                   ∧ Session._state (session (detached_object so)) = Session.detached
                   ∧ OfSession ref <$> detach_effects so ⊆ out')
  ∧ (∀ i, ws_is i Connecting c = true →
       ∃ c',
         step (WsClose i) c = Some (c', [], Ret tt)
         ∧ _hostConnectionRequest c' = _hostConnectionRequest c
         ∧ sess c' = sess c).
Proof.
  intros Hrun.
  assert (Hc : client_ok c).
  { eapply client_run_ok; [|exact Hrun]. apply new_client_ok. }
  split_and!.
  - intros i (a & Ha & Hlive)%ws_live_lookup. by eapply live_is_slot.
  - intros k Hk. split; [|by apply getter_some].
    destruct Hc as [(Hs & _) _]. specialize (Hs k Hk).
    unfold conn in Hs. cbn in Hs. by rewrite length_fmap in Hs.
  - intros Hslot. split; [|by apply getter_none].
    intros i. destruct (ws_live i c) eqn:Hi; [|done].
    apply ws_live_lookup in Hi as (a & Ha & Hlive).
    pose proof (live_is_slot c i a Hc Ha Hlive). congruence.
  - intros e c' out' r Hstep. by destruct (client_step_ok e c c' out' r Hc Hstep).
  - intros i (a & Ha & Hopen)%ws_is_lookup.
    destruct (close_open i c a Hc Ha Hopen) as (ss & out' & Hstep & Hss & Hlen & Hall).
    eexists _, out'. split_and!; [exact Hstep | done | done |].
    intros k ref Hget. destruct (Hall k ref Hget) as (so & Hso & Hso' & Hout).
    exists so. split_and!; try done.
    apply detached_object_state.
    destruct Hc as [_ [Hobj _]]. rewrite Forall_lookup in Hobj. by apply (Hobj ref).
  - intros i (a & Ha & Hst)%ws_is_lookup.
    destruct (close_connecting i c a Hc Ha Hst) as [Hstep _].
    eexists. split_and!; [exact Hstep | done | done].
Qed.

End transport.

End runtime.

Section examples.
(** The examples run on a console whose members return. *)
#[local] Existing Instance quiet_console.

(** A Client without a token: two callers, the transport opens, a
    Session is attached and a handler connected to its "detached". *)
Definition attached_run : list event :=
  [GetHostConnection; GetHostConnection; WsOpen 0;
   SessionCreated 0 "s"; OnSession 0 (Session.Subscribe 4)].

Definition attached_client : t :=
  default (new None 0)
    (fst <$> run BusFacts.codec_ok BusFacts.no_messages SessionFacts.no_parse
               attached_run (new None 0)).

Definition attached_session : sessionObject :=
  default (mkSessionObject "" Session.new) (sessions attached_client !! 0%nat).

Lemma shared_connection_witness :
  run BusFacts.codec_ok BusFacts.no_messages SessionFacts.no_parse
      attached_run (new None 0)
    = Some (attached_client, [Returned 0%nat; Returned 0%nat])
  ∧ (∀ i, ws_live i attached_client = true →
          _hostConnectionRequest attached_client = Some i)
  ∧ _getHostConnection attached_client = (attached_client, [Returned 0%nat], Ret tt)
  ∧ ∃ c' out',
      step BusFacts.codec_ok BusFacts.no_messages SessionFacts.no_parse
           (WsClose 0) attached_client = Some (c', out', Ret tt)
      ∧ _hostConnectionRequest c' = None
      ∧ OfSession 0 <$> [Session.CallDetached 4 Session.ConnectionTerminated None]
          ⊆ out'.
Proof.
  assert (Hrun : run BusFacts.codec_ok BusFacts.no_messages SessionFacts.no_parse
                   attached_run (new None 0)
                 = Some (attached_client, [Returned 0%nat; Returned 0%nat]))
    by (vm_compute; reflexivity).
  destruct (shared_connection _ _ _ None 0 attached_run attached_client _ Hrun)
    as (Hlive & Hsome & _ & _ & Hclose & _).
  destruct (Hsome 0%nat) as [_ Hget]; [vm_compute; reflexivity|].
  destruct (Hclose 0%nat) as (c' & out' & Hstep & Hslot & _ & Hall);
    [vm_compute; reflexivity|].
  destruct (Hall "s" 0%nat) as (so & Hso & _ & _ & Hout);
    [vm_compute; reflexivity|].
  assert (Hs : sessions attached_client !! 0%nat = Some attached_session)
    by (vm_compute; reflexivity).
  assert (He : detach_effects attached_session
               = [Session.CallDetached 4 Session.ConnectionTerminated None])
    by (vm_compute; reflexivity).
  rewrite Hs in Hso. injection Hso as <-. rewrite He in Hout.
  split_and!; [exact Hrun | exact Hlive | exact Hget |].
  exists c', out'. split_and!; [exact Hstep | exact Hslot | exact Hout].
Defined.

(** C8 as the specification states it fails. With a token, the
    transport opens and closes while "Authenticate" has no reply: the slot
    is empty again, the promise of the first attempt is still pending, and
    the next caller gets a second attempt with a second transport. Without
    a token, a transport that fails and closes before it opens leaves the
    slot as it is: the next caller gets the rejected attempt. *)
Lemma second_attempt_while_first_pending :
  (∃ c,
     run BusFacts.codec_ok BusFacts.no_messages SessionFacts.no_parse
         [GetHostConnection; WsOpen 0; WsClose 0; GetHostConnection]
         (new (Some "t") 0) = Some (c, [Returned 0%nat; Returned 1%nat])
     ∧ request <$> attempts c = [Pending; Pending]
     ∧ ws_state <$> attempts c = [Closed; Connecting])
  ∧ (∃ c,
       run BusFacts.codec_ok BusFacts.no_messages SessionFacts.no_parse
           [GetHostConnection; WsError 0; WsClose 0; GetHostConnection]
           (new None 0) = Some (c, [Returned 0%nat; Returned 0%nat])
       ∧ _hostConnectionRequest c = Some 0%nat
       ∧ request <$> attempts c = [Rejected]
       ∧ ws_state <$> attempts c = [Closed]).
Proof. split; eexists; split_and!; vm_compute; reflexivity. Qed.

End examples.

End ClientFacts.

(** ** The Bus: serials, timers and signals *)

Module BusMore.
Import Js Eff EffFacts Bus BusFacts.

(** *** Serials and timers of the pending calls *)

(** After [n] calls of [callMethod] the counter is [1 + n]; a pending
    call sits under a serial that was drawn, and the timer set for it is
    still there, due at most [callTimeout] from now. *)
Definition serial_inv (n : nat) (b : Bus.t) : Prop :=
  serialCounter b = 1 + Z.of_nat n
  ∧ ∀ s p, pendingCalls b !! s = Some p →
      1 ≤ s < serialCounter b
      ∧ ∃ tm, tm ∈ timers b ∧ timer_serial tm = s ∧ timer_promise tm = p
              ∧ due tm ≤ now b + callTimeout.

Lemma serial_inv_new t0 : serial_inv 0 (new t0).
Proof. split; [done|]. intros s p. cbn. by rewrite lookup_empty. Qed.

(** What [handleMessage] leaves of the Bus: it only takes pending calls
    away. *)
Definition shrinks (b0 b : Bus.t) : Prop :=
  serialCounter b = serialCounter b0
  ∧ timers b = timers b0
  ∧ now b = now b0
  ∧ sent b = sent b0
  ∧ ∀ s p, pendingCalls b !! s = Some p → pendingCalls b0 !! s = Some p.

Lemma handleOne_shrinks b0 msg : preserves (shrinks b0) (handleOne msg).
Proof.
  destruct msg; cbn [handleOne]; repeat step_shape;
    try (apply preserves_modify; intros b (? & ? & ? & ? & Hp);
         unfold shrinks; split_and!; try done; cbn;
         intros s' p' [_ Hs']%lookup_delete_Some; auto).
Qed.

Lemma handleMessage_shrinks parsed b : shrinks b (state_of (handleMessage parsed b)).
Proof.
  assert (H : preserves (shrinks b) (handleMessage parsed)).
  { destruct parsed; cbn [handleMessage]; repeat step_shape. apply handleOne_shrinks. }
  apply H. by split_and!.
Qed.

Lemma elem_of_delete_other {A} (x y : A) (l : list A) k :
  x ∈ l → l !! k = Some y → x ≠ y → x ∈ delete k l.
Proof.
  intros [j Hj]%list_elem_of_lookup Hk Hne.
  assert (j ≠ k) by (intros ->; congruence).
  destruct (decide (j < k)%nat).
  - apply (list_elem_of_lookup_2 _ j). by rewrite list_lookup_delete_lt.
  - apply (list_elem_of_lookup_2 _ (j - 1)%nat).
    rewrite list_lookup_delete_ge by lia. by replace (S (j - 1)) with j by lia.
Qed.

Section runs.
Variable serializeMessage : outgoing → option (list Z).
Variable parseMessages : list Z → option (list message).

Lemma callMethod_cases p destination objectPath interfaceName memberName args b :
  let r := callMethod serializeMessage p destination objectPath interfaceName
             memberName args b in
  (∃ buffer,
     r = (mk (serialCounter b + 1) (<[serialCounter b := p]> (pendingCalls b))
             (signalHandlers b) (sent b ++ [buffer])
             (timers b ++ [mkTimer (now b + callTimeout) (serialCounter b) p]) (now b),
          [], Ret tt))
  ∨ (∃ e, r = (set_serialCounter (serialCounter b + 1) b, [Rejected p e], Ret tt)).
Proof.
  intros r. subst r.
  destruct (adapt memberName args) as [[types margs]|] eqn:Ha.
  - destruct (serializeMessage (mkOutgoing (serialCounter b) destination objectPath
                                  interfaceName memberName types margs))
      as [buffer|] eqn:Hs.
    + left. exists buffer. by eapply callMethod_sent.
    + right. apply callMethod_failed. right. eauto.
  - right. apply callMethod_failed. by left.
Qed.

Lemma serial_step n e b b' out r :
  serial_inv n b →
  step serializeMessage parseMessages e b = Some (b', out, r) →
  serial_inv (n + length (callers [e])) b'.
Proof.
  intros [Hc Hp] Hstep.
  destruct e as [p dst path iface member args | messageData | dt | k | ? ? ? ? | ? ? ? ?];
    cbn [step] in Hstep; simpl (length _); rewrite ?Nat.add_0_r.
  - apply (inj Some) in Hstep.
    destruct (callMethod_cases p dst path iface member args b)
      as [[buffer Hr]|[e Hr]]; rewrite Hr in Hstep; injection Hstep as <- _ _.
    + split; [cbn; lia|]. cbn. intros s p'.
      destruct (decide (s = serialCounter b)) as [->|Hne].
      * rewrite lookup_insert_eq. intros [= <-]. split; [lia|].
        eexists. split; [apply elem_of_app; right; by left|]. cbn. by split_and!.
      * rewrite lookup_insert_ne by done. intros Hs.
        destruct (Hp s p' Hs) as [? (tm & ? & ? & ? & ?)]. split; [lia|].
        exists tm. split_and!; try done. apply elem_of_app. by left.
    + split; [cbn; lia|]. cbn. intros s p' Hs.
      destruct (Hp s p' Hs) as [? ?]. split; [lia | done].
  - apply (inj Some) in Hstep.
    pose proof (handleMessage_shrinks (parseMessages messageData) b) as Hsh.
    rewrite Hstep in Hsh. destruct Hsh as (H1 & H2 & H3 & _ & H5).
    unfold state_of in *. cbn [fst] in *.
    split; [rewrite H1; lia|]. intros s p Hs. rewrite H1, H2, H3. by apply Hp, H5.
  - case_bool_decide; [|done]. injection Hstep as <- _ _.
    split; [cbn; lia|]. cbn. intros s p Hs.
    destruct (Hp s p Hs) as [? (tm & ? & ? & ? & ?)]. split; [done|].
    exists tm. split_and!; try done. lia.
  - destruct (timers b !! k) as [tm|] eqn:Htm; [|done].
    case_bool_decide; [|done]. apply (inj Some) in Hstep.
    rewrite bind_modify in Hstep.
    split.
    { destruct (pendingCalls b !! timer_serial tm) eqn:Hs.
      - rewrite onTimeout_pending in Hstep by (cbn; by rewrite Hs).
        injection Hstep as <- _ _. cbn. lia.
      - rewrite onTimeout_gone in Hstep by done. injection Hstep as <- _ _. cbn. lia. }
    assert (Hb' : serialCounter b' = serialCounter b ∧ now b' = now b
                  ∧ timers b' = delete k (timers b)
                  ∧ pendingCalls b' = delete (timer_serial tm) (pendingCalls b)).
    { destruct (pendingCalls b !! timer_serial tm) eqn:Hs.
      - rewrite onTimeout_pending in Hstep by (cbn; by rewrite Hs).
        injection Hstep as <- _ _. done.
      - rewrite onTimeout_gone in Hstep by done. injection Hstep as <- _ _.
        cbn. split_and!; try done. by rewrite delete_id. }
    destruct Hb' as (-> & -> & -> & ->).
    intros s p [Hne Hs]%lookup_delete_Some.
    destruct (Hp s p Hs) as [? (tm' & ? & ? & ? & ?)]. split; [done|].
    exists tm'. split_and!; try done.
    eapply elem_of_delete_other; [done | done | congruence].
  - injection Hstep as <- _ _. split; [cbn; lia | done].
  - injection Hstep as <- _ _. split; [cbn; lia | done].
Qed.

Lemma callers_cons e es : callers (e :: es) = callers [e] ++ callers es.
Proof. unfold callers. cbn. by destruct (caller e). Qed.

Lemma serial_run es : ∀ n b b' out,
  serial_inv n b →
  run serializeMessage parseMessages es b = Some (b', out) →
  serial_inv (n + length (callers es)) b'.
Proof.
  induction es as [|e es IH]; intros n b b' out Hb Hrun; cbn [run] in Hrun.
  - injection Hrun as <- _. cbn. by rewrite Nat.add_0_r.
  - destruct (step serializeMessage parseMessages e b) as [[[b1 out1] r]|] eqn:Hstep;
      [|done].
    destruct (run serializeMessage parseMessages es b1) as [[b2 out2]|] eqn:Hrest;
      [|done].
    injection Hrun as <- _.
    rewrite callers_cons, length_app, Nat.add_assoc.
    eapply IH; [|done]. by eapply serial_step.
Qed.


(** X1. Serials: after any run of the Bus the counter is one more than
    the number of [callMethod] calls made, whether they went out or
    failed; every pending call sits under a serial between 1 and the
    counter, so nothing is pending under the serial the next call will
    draw; and a call, whatever it is given, advances the counter by one and
    leaves every pending call in place. *)
Theorem serials_count_calls (t0 : Z) (es : list event) (b : Bus.t)
    (out : list effect) :
  run serializeMessage parseMessages es (new t0) = Some (b, out) →
  serialCounter b = 1 + Z.of_nat (length (callers es))
  ∧ pendingCalls b !! serialCounter b = None
  ∧ (∀ s p, pendingCalls b !! s = Some p → 1 ≤ s < serialCounter b)
  ∧ (∀ p dst path iface member args,
       let r := callMethod serializeMessage p dst path iface member args b in
       serialCounter (state_of r) = serialCounter b + 1
       ∧ ∀ s p', pendingCalls b !! s = Some p' →
                  pendingCalls (state_of r) !! s = Some p').
Proof.
  intros Hrun.
  destruct (serial_run es 0 (new t0) b out (serial_inv_new t0) Hrun) as [Hc Hp].
  assert (Hfresh : pendingCalls b !! serialCounter b = None).
  { destruct (pendingCalls b !! serialCounter b) as [p|] eqn:Hs; [|done].
    destruct (Hp _ _ Hs) as [? _]. lia. }
  split_and!; try done.
  - intros s p Hs. by destruct (Hp s p Hs).
  - intros p dst path iface member args r. subst r.
    destruct (callMethod_cases p dst path iface member args b)
      as [[buffer ->]|[e ->]]; cbn; (split; [done|]); [|done].
    intros s p' Hs. rewrite lookup_insert_ne; [done|]. intros <-. congruence.
Qed.

(** X2. No call is left without its timeout: in every state the Bus
    reaches, a pending call still has the timer that was set for it, due
    at most 30000 ms from now; once that much time has passed, the timer
    runs and rejects the promise of the call with "D-Bus call timeout" and
    takes the call out of [pendingCalls]. *)
Theorem pending_call_has_timer (t0 : Z) (es : list event) (b : Bus.t)
    (out : list effect) (s : Z) (p : nat) :
  run serializeMessage parseMessages es (new t0) = Some (b, out) →
  pendingCalls b !! s = Some p →
  ∃ k tm,
    timers b !! k = Some tm
    ∧ timer_serial tm = s ∧ timer_promise tm = p
    ∧ due tm ≤ now b + 30000
    ∧ ∀ dt, 0 ≤ dt → due tm ≤ now b + dt →
        run serializeMessage parseMessages [Advance dt; Timeout k] b =
          Some (set_pendingCalls (delete s (pendingCalls b))
                  (set_timers (delete k (timers b)) (set_now (now b + dt) b)),
                [Rejected p (ErrorWith "D-Bus call timeout")]).
Proof.
  intros Hrun Hs.
  destruct (serial_run es 0 (new t0) b out (serial_inv_new t0) Hrun) as [_ Hp].
  destruct (Hp s p Hs) as [_ (tm & [k Hk]%list_elem_of_lookup & <- & <- & Hdue)].
  exists k, tm. split_and!; try done.
  intros dt Hdt Hnow. cbn [run step].
  rewrite bool_decide_eq_true_2 by done.
  unfold modify at 1. cbn [timers set_now now]. rewrite Hk.
  rewrite bool_decide_eq_true_2 by done.
  rewrite bind_modify, onTimeout_pending by (cbn; by rewrite Hs). done.
Qed.

(** X3. A promise is settled at most once: over any run of the Bus in
    which every call has its own promise, no promise is resolved or
    rejected twice, by whatever mix of replies, errors and timers; only
    promises that a call returned are settled; and the promise of a call
    that is still pending has not been settled. *)
Theorem promise_settled_once (t0 : Z) (es : list event) (b : Bus.t)
    (out : list effect) :
  run serializeMessage parseMessages es (new t0) = Some (b, out) →
  NoDup (callers es) →
  NoDup (settled_in out)
  ∧ (∀ p, p ∈ settled_in out → p ∈ callers es)
  ∧ (∀ s p, pendingCalls b !! s = Some p → p ∈ callers es ∧ p ∉ settled_in out).
Proof.
  intros Hrun Hnd.
  destruct (bus_run_ok serializeMessage parseMessages es [] (new t0) [] b out
              (bus_ok_new t0) Hnd Hrun) as (H1 & _ & _ & H4 & H5).
  split_and!; try done. intros s p Hs. by destruct (H1 s p Hs) as (_ & ? & ?).
Qed.


Lemma convertOptions_null props k v :
  (k, v) ∈ props → v = Null ∨ v = Undefined → convertOptions props = None.
Proof.
  intros Hin Hv. induction props as [|[k' v'] props IH]; [by apply elem_of_nil in Hin|].
  cbn [convertOptions]. apply elem_of_cons in Hin as [[= <- <-]|Hin].
  - by destruct Hv as [-> | ->].
  - rewrite (IH Hin). destruct (Js.get v' "signature"); [|done]. cbn.
    by destruct (Js.get v' "value").
Qed.

(** X4. "Attach" and "CreateScript" with options that cannot be
    converted: when the second argument is [null] or [undefined], or is an
    object one of whose entries is [null] or [undefined], the conversion
    throws a TypeError inside [callMethod]. The promise of the call is
    rejected with it, nothing is sent, no call is registered and no timer is
    set; the serial that was drawn is used up. *)
Theorem unconvertible_options_reject (p : nat) (dst path iface member : string)
    (first options : value) (more : list value) (b : Bus.t) :
  member = "Attach" ∨ member = "CreateScript" →
  options = Null ∨ options = Undefined
  ∨ (∃ props k v, options = Obj props ∧ (k, v) ∈ props ∧ (v = Null ∨ v = Undefined)) →
  ∃ what,
    callMethod serializeMessage p dst path iface member
               (Some (first :: options :: more)) b
    = (set_serialCounter (serialCounter b + 1) b,
       [Rejected p (Thrown (TypeError what))], Ret tt).
Proof.
  intros Hm Ho. eexists.
  assert (Ha : adapt member (Some (first :: options :: more)) = None).
  { assert (Hw : withOptions (Some (first :: options :: more)) = None).
    { cbn [withOptions]. destruct Ho as [-> | [-> | (props & k & v & -> & Hin & Hv)]];
        [done | done |].
      cbn. by rewrite (convertOptions_null props k v Hin Hv). }
    destruct Hm as [-> | ->]; unfold adapt; ScriptFacts.decide_literals; by rewrite Hw. }
  unfold callMethod. rewrite bind_get, bind_modify, Ha. reflexivity.
Qed.

(** X5. Signals: a signal calls the handlers registered under its
    object path, interface and member, in the order they were added, each
    with the arguments of the signal, and changes nothing in the Bus;
    handlers under another key are not called. [addSignalListener] puts
    the handler last under its key and [removeSignalListener] takes out its
    first registration; neither touches another key. *)
Theorem signal_reaches_subscribers (b : Bus.t) (ser : Z)
    (path iface member : string) (args : option (list value)) (h : nat) :
  let key := signalKey path iface member in
  let hs := Emitter.listenersOf key (signalHandlers b) in
  let added := state_of (addSignalListener path iface member h b) in
  let removed := state_of (removeSignalListener path iface member h b) in
  handleMessage (Some [Signal ser path iface member args]) b
    = (b, (λ h, CallSignalHandler h args) <$> hs, Ret tt)
  ∧ (∀ key', Emitter.listenersOf key' (signalHandlers added)
             = if decide (key = key') then hs ++ [h]
               else Emitter.listenersOf key' (signalHandlers b))
  ∧ (∀ key', Emitter.listenersOf key' (signalHandlers removed)
             = if decide (key = key') then Emitter.splice_first h hs
               else Emitter.listenersOf key' (signalHandlers b))
  ∧ Emitter.splice_first h (hs ++ [h])
    = if bool_decide (h ∈ hs) then Emitter.splice_first h hs ++ [h] else hs.
Proof.
  intros key hs added removed. split_and!.
  - cbn [handleMessage for_of handleOne]. unfold try_catch.
    erewrite bind_ret_eq.
    2:{ rewrite forEach_fixed by done.
        apply (for_of_tell _ _ (λ h, [CallSignalHandler h args])). done. }
    unfold ret, state_of, effects_of, result_of. cbn. rewrite app_nil_r.
    do 2 f_equal. fold key hs.
    clear. induction hs as [|x hs IH]; [done|]. cbn. by rewrite IH.
  - intros key'. subst added. cbn. fold key.
    unfold Emitter.listenersOf, Emitter.addListener.
    destruct (decide (key = key')) as [<-|Hne].
    + by rewrite lookup_insert_eq.
    + by rewrite lookup_insert_ne.
  - intros key'. subst removed. cbn. fold key.
    unfold hs, Emitter.listenersOf, Emitter.removeListener.
    destruct (signalHandlers b !! key) as [arr|] eqn:Harr.
    + destruct (decide (key = key')) as [<-|Hne].
      * by rewrite lookup_insert_eq.
      * by rewrite lookup_insert_ne.
    + destruct (decide (key = key')) as [<-|Hne]; [by rewrite Harr | done].
  - clear. induction hs as [|x hs IH]; cbn.
    + by rewrite decide_True.
    + destruct (decide (x = h)) as [->|Hne].
      * by rewrite bool_decide_eq_true_2 by (by left).
      * rewrite IH. case_bool_decide as Hin.
        -- by rewrite bool_decide_eq_true_2 by (by right).
        -- rewrite bool_decide_eq_false_2; [done|].
           intros [?|?]%elem_of_cons; [congruence | done].
Qed.

End runs.

(** A call that went out, 30000 ms ago. *)
Definition waiting_bus : Bus.t :=
  default (new 0) (fst <$> run codec_ok no_messages timed_out_run (new 0)).

Lemma serials_count_calls_witness :
  run codec_ok no_messages timed_out_run (new 0) = Some (waiting_bus, [])
  ∧ serialCounter waiting_bus = 2
  ∧ pendingCalls waiting_bus !! 2 = None.
Proof.
  assert (Hrun : run codec_ok no_messages timed_out_run (new 0)
                 = Some (waiting_bus, [])) by (vm_compute; reflexivity).
  destruct (serials_count_calls codec_ok no_messages 0 timed_out_run waiting_bus []
              Hrun) as (Hc & Hfree & _).
  split_and!; [exact Hrun | rewrite Hc; reflexivity |].
  rewrite Hc in Hfree. exact Hfree.
Defined.

Lemma pending_call_has_timer_witness :
  run codec_ok no_messages timed_out_run (new 0) = Some (waiting_bus, [])
  ∧ pendingCalls waiting_bus !! 1 = Some 11%nat
  ∧ ∃ k b',
      run codec_ok no_messages [Advance 0; Timeout k] waiting_bus
      = Some (b', [Rejected 11 (ErrorWith "D-Bus call timeout")]).
Proof.
  assert (Hrun : run codec_ok no_messages timed_out_run (new 0)
                 = Some (waiting_bus, [])) by (vm_compute; reflexivity).
  assert (Hp : pendingCalls waiting_bus !! 1 = Some 11%nat)
    by (vm_compute; reflexivity).
  destruct (pending_call_has_timer codec_ok no_messages 0 timed_out_run waiting_bus []
              1 11%nat Hrun Hp) as (k & tm & Htm & Hs & Hpr & Hdue & Hfire).
  split_and!; [exact Hrun | exact Hp |].
  exists k. eexists. apply (Hfire 0); [done|].
  destruct k as [|k]; vm_compute in Htm; [|discriminate Htm].
  injection Htm as <-. vm_compute. discriminate.
Defined.

Lemma promise_settled_once_witness :
  ∃ b,
    run codec_ok no_messages (timed_out_run ++ [Timeout 0]) (new 0)
      = Some (b, [Rejected 11 (ErrorWith "D-Bus call timeout")])
    ∧ NoDup (callers (timed_out_run ++ [Timeout 0]))
    ∧ NoDup (settled_in [Rejected 11 (ErrorWith "D-Bus call timeout")]).
Proof.
  eexists. 
  assert (Hnd : NoDup (callers (timed_out_run ++ [Timeout 0])))
    by (apply (bool_decide_unpack _); vm_compute; exact I).
  split; [vm_compute; reflexivity|]. split; [exact Hnd|].
  match goal with
  | |- NoDup (settled_in ?out) =>
      refine (proj1 (promise_settled_once codec_ok no_messages 0
                       (timed_out_run ++ [Timeout 0]) _ out _ Hnd))
  end.
  vm_compute. reflexivity.
Defined.

Lemma unconvertible_options_reject_witness :
  ∃ what,
    callMethod codec_ok 11 "re.frida.HostSession17" "/re/frida/HostSession"
               "re.frida.HostSession17" "Attach" (Some [Num 1234; Null]) (new 0)
    = (set_serialCounter 2 (new 0), [Rejected 11 (Thrown (TypeError what))], Ret tt).
Proof.
  apply (unconvertible_options_reject codec_ok 11 "re.frida.HostSession17"
           "/re/frida/HostSession" "re.frida.HostSession17" "Attach"
           (Num 1234) Null [] (new 0)).
  - left. reflexivity.
  - left. reflexivity.
Defined.

End BusMore.

(** ** The Script: its end and its requests *)

Module ScriptMore.
Import Js Eff EffFacts Protocol Script ScriptFacts.

Section runtime.
Context {runtime_console : Console}.

(** *** A loop over an array that is fixed from some index on *)

Lemma forEach_from_rest {S E L} (arr : S → list L) (f : L → M S E unit) (l : list L) :
  ∀ len k s,
    (∀ x s, x ∈ drop k l → arr s = l → arr (state_of (f x s)) = l) →
    arr s = l → (length l ≤ len + k)%nat →
    forEach_from arr f len k s = for_of (drop k l) f s.
Proof.
  intros len. induction len as [|len IH]; intros k s Hfix Hs Hlen.
  - simpl in *. by rewrite drop_ge.
  - simpl. rewrite Hs. destruct (l !! k) as [x|] eqn:Hx.
    + rewrite (drop_S l x k Hx). simpl.
      assert (Hin : x ∈ drop k l).
      { rewrite (drop_S l x k Hx). by left. }
      pose proof (Hfix x s Hin Hs) as Hfx.
      unfold bind. destruct (f x s) as [[s1 es1] [[]|e]] eqn:Hf; [|done].
      unfold state_of in Hfx. simpl in Hfx.
      rewrite (IH (Datatypes.S k) s1); [done | | done | lia].
      intros y s' Hy. apply Hfix. rewrite (drop_S l x k Hx). by right.
    + apply lookup_ge_None in Hx.
      rewrite (IH (Datatypes.S k) s); [ | | done | lia].
      * by rewrite !drop_ge by lia.
      * intros y s' Hy. rewrite drop_ge in Hy by lia. by apply elem_of_nil in Hy.
Qed.

(** A loop whose callbacks may throw: what every callback keeps, the
    loop keeps. *)
Lemma forEach_from_inv {S E L} (I : S → Prop) (Q : E → Prop)
    (arr : S → list L) (f : L → M S E unit) :
  (∀ x s, I s → x ∈ arr s →
     I (state_of (f x s)) ∧ Forall Q (effects_of (f x s))) →
  ∀ len k s, I s →
    I (state_of (forEach_from arr f len k s))
    ∧ Forall Q (effects_of (forEach_from arr f len k s)).
Proof.
  intros Hf len. induction len as [|len IH]; intros k s Hs; [by split|].
  simpl. destruct (arr s !! k) as [x|] eqn:Hx; [|by apply IH].
  destruct (Hf x s Hs) as [H1 H2]; [by eapply list_elem_of_lookup_2|].
  unfold bind. destruct (f x s) as [[s1 es1] [[]|e]]; [|by split].
  unfold state_of, effects_of in *. cbn in *.
  destruct (IH (Datatypes.S k) s1 H1) as [H3 H4].
  destruct (forEach_from arr f len (Datatypes.S k) s1) as [[s2 es2] r]. cbn in *.
  split; [done|]. by apply Forall_app.
Qed.

Lemma forEach_from_S {S E L} (arr : S → list L) (f : L → M S E unit) len k s x :
  arr s !! k = Some x →
  forEach_from arr f (Datatypes.S len) k s
  = bind (f x) (λ _, forEach_from arr f len (Datatypes.S k)) s.
Proof. intros H. simpl. by rewrite H. Qed.

(** *** [_destroy] of a Script that a Session has created *)

(** The Script as [onDestroyed] leaves it. *)
Definition unsubscribed (s : Script.t) : Script.t :=
  set_events
    (Emitter.removeListener "message" OnMessage
       (Emitter.removeListener "destroyed" OnDestroyed (_events s)))
    (set_state destroyed s).

Lemma handlers_called (hs : list nat) a s :
  for_of (Handler <$> hs) (call "destroyed" a) s
  = (s, (λ h, CallHandler h a) <$> hs, Ret tt).
Proof.
  rewrite (for_of_tell _ _ (λ l, match l with
                                 | Handler h => [CallHandler h a]
                                 | _ => []
                                 end)).
  - do 2 f_equal. induction hs as [|h hs IH]; [done|]. cbn. by rewrite IH.
  - by intros x (h & -> & _)%list_elem_of_fmap.
Qed.

(** [OnDestroyed] is first and takes itself out of the array while
    [emit] walks over it; the listener behind it moves to the index that was
    just visited and is passed over; the handlers of the user follow. *)
Lemma _destroy_created s skipped hs :
  _state s = created →
  Emitter.listenersOf "destroyed" (_events s)
    = OnDestroyed :: skipped :: (Handler <$> hs) →
  _destroy s = (unsubscribed s, (λ h, CallHandler h NoArgs) <$> hs, Ret tt)
  ∧ Emitter.listenersOf "destroyed" (_events (unsubscribed s))
    = skipped :: (Handler <$> hs).
Proof.
  intros Hst Hl.
  assert (Hl' : Emitter.listenersOf "destroyed" (_events (unsubscribed s))
                = skipped :: (Handler <$> hs)).
  { unfold unsubscribed. cbn [_events set_events].
    rewrite !listenersOf_removeListener.
    rewrite decide_False, decide_True, Hl by done. cbn [Emitter.splice_first].
    by rewrite decide_True. }
  split; [|done].
  unfold _destroy. rewrite bind_get, Hst, bind_modify.
  unfold emit, forEach.
  replace (length (Emitter.listenersOf "destroyed" (_events (set_state destroyed s))))
    with (Datatypes.S (Datatypes.S (length hs)))
    by (cbn [_events set_state]; rewrite Hl; cbn; by rewrite length_fmap).
  rewrite (forEach_from_S _ _ _ _ _ OnDestroyed)
    by (cbn [_events set_state]; by rewrite Hl).
  cbn [call]. unfold onDestroyed.
  rewrite (bind_ret_eq _ _ _ (unsubscribed s) [] tt) by (by rewrite !bind_modify).
  rewrite (forEach_from_rest _ _ (skipped :: (Handler <$> hs))).
  - cbn [drop]. rewrite ?drop_0, handlers_called. done.
  - cbn [drop]. rewrite ?drop_0. intros x s1 (h & -> & _)%list_elem_of_fmap Hs1. done.
  - done.
  - cbn. rewrite length_fmap. lia.
Qed.


Lemma unsubscribed_messages s hs :
  subscribed hs s →
  Emitter.listenersOf "message" (_events (unsubscribed s)) = MessageProxy <$> hs.
Proof.
  unfold subscribed, unsubscribed. intros Hsub. cbn [_events set_events].
  rewrite !listenersOf_removeListener.
  rewrite decide_True, decide_False, Hsub by done. cbn [Emitter.splice_first].
  by rewrite decide_True.
Qed.

Lemma proxies_only hs message data s :
  Emitter.listenersOf "message" (_events s) = MessageProxy <$> hs →
  _dispatchMessage message data s =
    for_of (MessageProxy <$> hs) (call "message" (MessageArgs message data)) s.
Proof.
  intros Hl. unfold _dispatchMessage, emit.
  rewrite forEach_fixed; [by rewrite Hl|].
  rewrite Hl. intros x s' (h & -> & _)%list_elem_of_fmap Hs'.
  cbn [call messageProxy]. unfold reading.
  destruct (isInternalMessage message) as [[]|]; done.
Qed.

(** X6. A destroyed Script no longer hears the internal protocol. After
    [_destroy] of a Script that was created ([onDestroyed] first among the
    listeners of "destroyed"), [ScriptServices] is unsubscribed from
    "message": a reply ["frida:rpc", ...] that arrives then settles nothing
    and leaves [pendingRequests] as it is, so an export call still pending
    never completes; a log message no longer reaches the log handler; the
    user handlers of "message" still get every message that is not
    internal. *)
Theorem destroyed_script_ignores_replies (s : Script.t) (skipped : listener)
    (ds hs : list nat) (message : value) (data : option (list Z)) :
  _state s = created →
  subscribed hs s →
  Emitter.listenersOf "destroyed" (_events s)
    = OnDestroyed :: skipped :: (Handler <$> ds) →
  let s' := state_of (_destroy s) in
  _state s' = destroyed
  ∧ pendingRequests s' = pendingRequests s
  ∧ _dispatchMessage message data s' =
      (s',
       match isInternalMessage message with
       | Some false => forwarded hs message data
       | _ => []
       end,
       match isInternalMessage message, hs with
       | None, _ :: _ => Throw (TypeError "cannot read properties of null or undefined")
       | _, _ => Ret tt
       end).
Proof.
  intros Hst Hsub Hl s'.
  destruct (_destroy_created s skipped ds Hst Hl) as [Hd _].
  subst s'. rewrite Hd. unfold state_of. cbn [fst].
  split_and!; [done | done |].
  rewrite (proxies_only hs message data _ (unsubscribed_messages s hs Hsub)).
  destruct (isInternalMessage message) as [[]|] eqn:Hint.
  - by apply proxies_internal.
  - by apply proxies_forward.
  - destruct hs as [|h hs]; [done|].
    cbn [fmap list_fmap for_of call messageProxy]. unfold bind, reading.
    by rewrite Hint.
Qed.

End runtime.

Section examples.
(** The examples run on a console whose members return. *)
#[local] Existing Instance quiet_console.

(** A Script as [createScript] returns it, with a handler connected to
    "message" and one to "destroyed". *)
Definition registered_script : Script.t :=
  state_of (connect "destroyed" 8
    (set_events (Emitter.addListener "destroyed" (SessionOnce 5)
                   (_events example_script)) example_script)).

Lemma destroyed_script_ignores_replies_witness :
  _state registered_script = created
  ∧ subscribed [7%nat] registered_script
  ∧ Emitter.listenersOf "destroyed" (_events registered_script)
    = [OnDestroyed; SessionOnce 5; Handler 8]
  ∧ effects_of (_dispatchMessage (rpcReply 1 "ok" [Num 3]) None
                  (state_of (_destroy registered_script))) = []
  ∧ effects_of (_dispatchMessage example_log_message None
                  (state_of (_destroy registered_script)))
    = [CallHandler 7 (MessageArgs example_log_message None)].
Proof.
  assert (H1 : _state registered_script = created) by reflexivity.
  assert (H2 : subscribed [7%nat] registered_script) by reflexivity.
  assert (H3 : Emitter.listenersOf "destroyed" (_events registered_script)
               = OnDestroyed :: SessionOnce 5 :: (Handler <$> [8%nat]))
    by reflexivity.
  split_and!; [exact H1 | exact H2 | exact H3 | |].
  - destruct (destroyed_script_ignores_replies registered_script (SessionOnce 5)
                [8%nat] [7%nat] (rpcReply 1 "ok" [Num 3]) None H1 H2 H3)
      as (_ & _ & Hd).
    rewrite Hd. reflexivity.
  - destruct (destroyed_script_ignores_replies registered_script (SessionOnce 5)
                [8%nat] [7%nat] example_log_message None H1 H2 H3)
      as (_ & _ & Hd).
    rewrite Hd. reflexivity.
Defined.

End examples.

Section runtime.
Context {runtime_console : Console}.

(** *** Requests of the internal protocol *)

(** No request is pending under an id that has not been drawn yet. *)
Definition requests_ok (s : Script.t) : Prop :=
  ∀ i, nextRequestId s ≤ i → pendingRequests s !! pretty i = None.

Lemma requests_ok_new id : requests_ok (Script.new id).
Proof. intros i _. apply lookup_empty. Qed.

Lemma requests_ok_fewer s s' :
  nextRequestId s' = nextRequestId s →
  (∀ k, pendingRequests s !! k = None → pendingRequests s' !! k = None) →
  requests_ok s → requests_ok s'.
Proof. intros Hn Hp Hs i Hi. apply Hp, Hs. by rewrite <- Hn. Qed.

Section posting.
Variable JSON_stringify : value → string.

(** X7. A request and its reply. [request] draws the next id, which no
    pending request has, registers the promise under it beside the requests
    already pending, and posts ["frida:rpc", id, operation, ...params] as a
    message of the Script without data. The reply
    ["frida:rpc", id, "ok", result, ...] then resolves that promise with
    [result], calls no user handler, and leaves the pending requests as
    they were before the request; ids are never reused. *)
Theorem request_reply_round_trip (s : Script.t) (hs : list nat) (p : nat)
    (operation : string) (params : list value) (result : value)
    (more : list value) (data : option (list Z)) :
  subscribed hs s →
  requests_ok s →
  let id := nextRequestId s in
  let r := request JSON_stringify p operation params s in
  effects_of r
    = [PostToAgent
         (mkRecord AgentMessageKind_Script (_id s)
            (JSON_stringify (Arr (Str "frida:rpc" :: Num id :: Str operation :: params)))
            false [])]
  ∧ pendingRequests s !! pretty id = None
  ∧ pendingRequests (state_of r) = <[pretty id := p]> (pendingRequests s)
  ∧ nextRequestId (state_of r) = id + 1
  ∧ requests_ok (state_of r)
  ∧ _dispatchMessage (rpcReply id "ok" (result :: more)) data (state_of r)
    = (set_nextRequestId (id + 1) s, [Resolved p result], Ret tt).
Proof.
  intros Hsub Hok id r.
  assert (Hfresh : pendingRequests s !! pretty id = None) by (apply Hok; lia).
  assert (Hr : r = (set_pendingRequests (<[pretty id := p]> (pendingRequests s))
                      (set_nextRequestId (id + 1) s),
                    [PostToAgent
                       (mkRecord AgentMessageKind_Script (_id s)
                          (JSON_stringify
                             (Arr (Str "frida:rpc" :: Num id :: Str operation :: params)))
                          false [])], Ret tt)).
  { subst r. unfold request. rewrite bind_get, !bind_modify. unfold post.
    rewrite bind_get. reflexivity. }
  rewrite Hr. unfold state_of, effects_of. cbn [fst snd].
  split_and!; try done.
  - intros i Hi. cbn in *. rewrite lookup_insert_ne; [apply Hok; lia|].
    intros Heq%(inj pretty). lia.
  - rewrite (dispatch_listeners hs) by exact Hsub.
    cbn [for_of call].
    erewrite bind_ret_eq.
    2:{ apply rpcReply_ok. cbn [pendingRequests set_pendingRequests].
        apply lookup_insert_eq. }
    rewrite proxies_internal by apply rpcReply_internal.
    unfold state_of, effects_of, result_of. cbn.
    rewrite delete_insert_id by done. by destruct s.
Qed.

End posting.

End runtime.

Section examples.
(** The examples run on a console whose members return. *)
#[local] Existing Instance quiet_console.

Lemma request_reply_round_trip_witness :
  subscribed [] (Script.new 5)
  ∧ requests_ok (Script.new 5)
  ∧ pendingRequests
      (state_of (request (λ _, "") 11 "call" [Str "add"] (Script.new 5))) !! "1"
    = Some 11%nat
  ∧ _dispatchMessage (rpcReply 1 "ok" [Num 3]) None
      (state_of (request (λ _, "") 11 "call" [Str "add"] (Script.new 5)))
    = (set_nextRequestId 2 (Script.new 5), [Resolved 11 (Num 3)], Ret tt).
Proof.
  assert (H1 : subscribed [] (Script.new 5)) by reflexivity.
  pose proof (requests_ok_new 5) as H2.
  destruct (request_reply_round_trip (λ _, "") (Script.new 5) [] 11 "call"
              [Str "add"] (Num 3) [] None H1 H2)
    as (_ & _ & Hp & _ & _ & Hd).
  split_and!; [exact H1 | exact H2 | | exact Hd].
  rewrite Hp. reflexivity.
Defined.

End examples.

Section runtime.
Context {runtime_console : Console}.

(** *** The listeners of a Script that a Session has created *)

Definition message_listener (l : listener) : bool :=
  match l with OnMessage | MessageProxy _ => true | _ => false end.

(** "message" has [onMessage] and proxies of user handlers only;
    "destroyed" has [onDestroyed] while the Script is not destroyed, then
    the once-wrapper of the Session, then handlers of the user. *)
Definition script_shape (s : Script.t) : Prop :=
  forallb message_listener (Emitter.listenersOf "message" (_events s)) = true
  ∧ ∃ hs, Emitter.listenersOf "destroyed" (_events s)
          = match _state s with
            | created => OnDestroyed :: SessionOnce (_id s) :: (Handler <$> hs)
            | destroyed => SessionOnce (_id s) :: (Handler <$> hs)
            end.

(** What a Script does without reaching into its Session. *)
Definition harmless (e : effect) : Prop :=
  match e with RegistryDelete _ | PostToAgent _ => False | _ => True end.

Definition frame (s : Script.t) := (_id s, _state s, _events s).

Lemma frame_shape s s' : frame s' = frame s → script_shape s → script_shape s'.
Proof. unfold frame, script_shape. by intros [= -> -> ->]. Qed.

Lemma onRpcMessage_frame id operation params data :
  keeps frame (onRpcMessage id operation params data).
Proof.
  unfold onRpcMessage. apply keeps_bind; [apply keeps_callToString|]. intros strId.
  apply keeps_bind; [apply keeps_get|]. intros s. cbv zeta.
  destruct (pendingRequests s !! strId) as [p|];
    [|destruct (Object_prototype strId) as [f|]];
    cbn [fmap option_fmap option_map];
    unfold completionHandler, inheritedHandler; repeat step_shape.
Qed.

Lemma onRpcMessage_harmless id operation params data :
  produces harmless (onRpcMessage id operation params data).
Proof.
  unfold onRpcMessage. apply produces_bind; [apply produces_callToString|]. intros strId.
  apply produces_bind; [apply produces_get|]. intros s. cbv zeta.
  destruct (pendingRequests s !! strId) as [p|];
    [|destruct (Object_prototype strId) as [f|]];
    cbn [fmap option_fmap option_map];
    unfold completionHandler, inheritedHandler; repeat step_shape.
Qed.

Lemma callLogHandler_harmless h level text :
  produces harmless (callLogHandler h level text).
Proof. unfold callLogHandler, log. cbv zeta. repeat step_shape. Qed.

Lemma onMessage_frame message data : keeps frame (onMessage message data).
Proof.
  unfold onMessage.
  repeat first [ apply keeps_reading | apply onRpcMessage_frame
               | intros s; by rewrite callLogHandler_state | step_shape ].
Qed.

Lemma onMessage_harmless message data : produces harmless (onMessage message data).
Proof.
  unfold onMessage.
  repeat first [ apply produces_reading | apply onRpcMessage_harmless
               | apply callLogHandler_harmless | step_shape ].
Qed.

Lemma messageProxy_frame h a : keeps frame (messageProxy h a).
Proof. unfold messageProxy, reading. repeat first [step_shape | done]. Qed.

Lemma messageProxy_harmless h a : produces harmless (messageProxy h a).
Proof. unfold messageProxy. repeat first [apply produces_reading | step_shape]. Qed.

Lemma new_shape id : script_shape
  (set_events (Emitter.addListener "destroyed" (SessionOnce id) (_events (Script.new id)))
     (Script.new id)).
Proof. split; [done|]. by exists []. Qed.

Lemma _destroy_shape s :
  script_shape s →
  script_shape (state_of (_destroy s))
  ∧ Forall harmless (effects_of (_destroy s))
  ∧ result_of (_destroy s) = Ret tt.
Proof.
  intros [Hm [hs Hd]]. destruct (_state s) eqn:Hst.
  - destruct (_destroy_created s (SessionOnce (_id s)) hs Hst Hd) as [-> Hd'].
    unfold state_of, effects_of, result_of. cbn [fst snd]. split_and!; [|by apply Forall_fmap, Forall_true|done].
    split.
    + unfold unsubscribed. cbn [_events set_events].
      rewrite !listenersOf_removeListener, decide_True, decide_False by done.
      rewrite forallb_forall in *. intros x Hx%list_elem_of_In%splice_first_subseteq.
      by apply Hm, list_elem_of_In.
    + exists hs. by rewrite Hd'.
  - unfold _destroy. rewrite bind_get, Hst.
    unfold ret, state_of, effects_of, result_of. cbn [fst snd].
    split_and!; [|done|done].
    split; [done|]. exists hs. by rewrite Hst.
Qed.

Lemma _dispatchMessage_shape message data s :
  script_shape s →
  script_shape (state_of (_dispatchMessage message data s))
  ∧ Forall harmless (effects_of (_dispatchMessage message data s)).
Proof.
  intros Hs. unfold _dispatchMessage, emit, forEach.
  set (I := λ s' : Script.t, frame s' = frame s).
  destruct (forEach_from_inv I harmless
              (λ s, Emitter.listenersOf "message" (_events s))
              (call "message" (MessageArgs message data)))
    with (len := length (Emitter.listenersOf "message" (_events s)))
         (k := 0%nat) (s := s) as [HI HQ]; [|done|].
  - intros x s1 Hs1 Hx.
    assert (Hx' : message_listener x = true).
    { destruct Hs as [Hm _]. rewrite forallb_forall in Hm. apply Hm, list_elem_of_In.
      unfold I, frame in Hs1. injection Hs1 as _ _ <-. done. }
    destruct x; try done; cbn [call].
    + split; [|apply onMessage_harmless].
      unfold I. by rewrite onMessage_frame.
    + split; [|apply messageProxy_harmless].
      unfold I. by rewrite messageProxy_frame.
  - split; [|done]. by eapply frame_shape.
Qed.

Lemma connect_message h s :
  connect "message" h s
  = (set_events (Emitter.addListener "message" (MessageProxy h) (_events s)) s, [], Ret tt).
Proof. reflexivity. Qed.

Lemma connect_destroyed h s :
  connect "destroyed" h s
  = (set_events (Emitter.addListener "destroyed" (Handler h) (_events s)) s, [], Ret tt).
Proof. reflexivity. Qed.

Lemma connect_shape name h s :
  name = "message" ∨ name = "destroyed" →
  script_shape s →
  script_shape (state_of (connect name h s)) ∧ effects_of (connect name h s) = [].
Proof.
  intros Hname [Hm [hs Hd]].
  destruct Hname as [-> | ->]; [rewrite connect_message | rewrite connect_destroyed];
    unfold state_of, effects_of; cbn [fst snd]; (split; [|done]);
    unfold script_shape; cbn [_events set_events _state _id];
    rewrite !ClientFacts.listenersOf_add.
  - rewrite decide_True, decide_False by done. split; [|by exists hs].
    by rewrite forallb_app, Hm.
  - rewrite decide_False, decide_True by done. split; [done|].
    exists (hs ++ [h]). rewrite Hd. destruct (_state s); cbn; by rewrite fmap_app.
Qed.

End runtime.

End ScriptMore.

(** ** The Session: registry, state and inbound batches *)

Module SessionMore.
Import Js Eff EffFacts Protocol Session SessionFacts.

Section runtime.
Context {runtime_console : Console}.

(** *** The Scripts of a Session and its registry *)

Definition heap_ok (w : Session.t) : Prop :=
  Forall ScriptMore.script_shape (heap w).

(** All of a Session but its heap. *)
Definition skel (w : Session.t) :=
  (_state w, _lastRxBatchId w, _pendingMessages w, _nextSerial w,
   _pendingDeliveries w, _scripts w, _events w, calls w).

Lemma concat_singletons {A B} (f : A → B) (l : list A) :
  concat ((λ x, [f x]) <$> l) = f <$> l.
Proof. induction l as [|x l IH]; [done|]. cbn. by rewrite IH. Qed.

(** A method of a Script that does not reach into the Session changes
    that Script only; what it did is passed on to the outside. *)
Lemma onScript_harmless {A} ref (m : M Script.t Script.effect A) w s :
  heap w !! ref = Some s →
  Forall ScriptMore.harmless (effects_of (m s)) →
  onScript ref m w =
    (set_heap (<[ref := state_of (m s)]> (heap w)) w,
     OfScript ref <$> effects_of (m s),
     match result_of (m s) with Ret a => Ret (Some a) | Throw e => Throw e end).
Proof.
  intros Href Hes. unfold onScript. rewrite bind_get, Href.
  destruct (m s) as [[s' es] r]. unfold state_of, effects_of, result_of in *.
  cbn [fst snd] in *. rewrite bind_modify.
  erewrite bind_ret_eq.
  2:{ apply (for_of_tell _ _ (λ e, [OfScript ref e])).
      intros e He. rewrite Forall_forall in Hes. specialize (Hes e He).
      by destruct e. }
  rewrite concat_singletons.
  destruct r; unfold ret, throw, state_of, effects_of, result_of; cbn;
    by rewrite app_nil_r.
Qed.

Lemma onScript_missing {A} ref (m : M Script.t Script.effect A) w :
  heap w !! ref = None → onScript ref m w = (w, [], Ret None).
Proof. intros H. unfold onScript. by rewrite bind_get, H. Qed.

Lemma onScript_shape {A} ref (m : M Script.t Script.effect A) w :
  (∀ s, ScriptMore.script_shape s →
        ScriptMore.script_shape (state_of (m s))
        ∧ Forall ScriptMore.harmless (effects_of (m s))) →
  heap_ok w →
  heap_ok (state_of (onScript ref m w))
  ∧ skel (state_of (onScript ref m w)) = skel w
  ∧ Forall of_script (effects_of (onScript ref m w)).
Proof.
  intros Hm Hw. destruct (heap w !! ref) as [s|] eqn:Href.
  - assert (Hs : ScriptMore.script_shape s).
    { unfold heap_ok in Hw. rewrite Forall_lookup in Hw. by eapply Hw. }
    destruct (Hm s Hs) as [Hs' Hes].
    rewrite (onScript_harmless ref m w s Href Hes).
    unfold state_of at 1 3, effects_of at 1. cbn [fst snd]. split_and!.
    + unfold heap_ok. cbn. by apply Forall_insert.
    + done.
    + apply Forall_fmap, Forall_true. done.
  - rewrite (onScript_missing ref m w Href). by split_and!.
Qed.

(** [destroyScripts] destroys Scripts and leaves the rest of the Session,
    the registry too, as it is. *)
Lemma destroyScripts_shape keys : ∀ w,
  heap_ok w →
  ∃ w' out,
    destroyScripts keys w = (w', out, Ret tt)
    ∧ heap_ok w' ∧ skel w' = skel w ∧ Forall of_script out.
Proof.
  induction keys as [|k keys IH]; intros w Hw.
  { exists w, []. by split_and!. }
  cbn [destroyScripts]. rewrite bind_get.
  destruct (JsMap.get k (_scripts w)) as [ref|]; [|by apply IH].
  destruct (onScript_shape ref Script._destroy w) as (H1 & H2 & H3); [|done|].
  { intros s Hs. by destruct (ScriptMore._destroy_shape s Hs) as (? & ? & _). }
  assert (Hr : ∃ o, result_of (onScript ref Script._destroy w) = Ret o).
  { destruct (heap w !! ref) as [s|] eqn:Href.
    - assert (Hs : ScriptMore.script_shape s).
      { unfold heap_ok in Hw. rewrite Forall_lookup in Hw. by eapply Hw. }
      destruct (ScriptMore._destroy_shape s Hs) as (_ & Hes & Hres).
      rewrite (onScript_harmless ref _ w s Href Hes), Hres. by eexists.
    - rewrite (onScript_missing ref _ w Href). by eexists. }
  destruct Hr as [o Hr].
  destruct (onScript ref Script._destroy w) as [[w1 out1] r1] eqn:Hon.
  unfold state_of, effects_of, result_of in *. cbn [fst snd] in *. subst r1.
  destruct (IH w1 H1) as (w' & out2 & Hrun & H4 & H5 & H6).
  exists w', (out1 ++ out2).
  rewrite (bind_ret_eq _ _ w w1 out1 o Hon), Hrun.
  split_and!; [done | done | congruence | by apply Forall_app].
Qed.


Lemma skel_eq w w' :
  skel w' = skel w →
  _state w' = _state w ∧ _lastRxBatchId w' = _lastRxBatchId w
  ∧ _pendingMessages w' = _pendingMessages w ∧ _nextSerial w' = _nextSerial w
  ∧ _pendingDeliveries w' = _pendingDeliveries w ∧ _scripts w' = _scripts w
  ∧ _events w' = _events w ∧ calls w' = calls w.
Proof. unfold skel. by intros [= -> -> -> -> -> -> -> ->]. Qed.

Lemma emitDetached_rest reason c :
  keeps (λ w, (heap w, _scripts w, _state w)) (emitDetached reason c).
Proof.
  apply keeps_forEach. intros [h|]; cbn [callListener]; repeat step_shape.
Qed.

(** The part of [detach] and [_onDetached] they share. *)
Lemma destroy_all w (k : unit → M Session.t effect unit) :
  heap_ok w →
  ∃ w1 out,
    heap_ok w1 ∧ skel w1 = skel (set_state detached w) ∧ Forall of_script out
    ∧ (modify (set_state detached) ;;;
       w <- get ;;
       destroyScripts (JsMap.keys (_scripts w)) ;;;
       modify (set_scripts []) ;;; k tt) w
      = (state_of (k tt (set_scripts [] w1)),
         out ++ effects_of (k tt (set_scripts [] w1)),
         result_of (k tt (set_scripts [] w1))).
Proof.
  intros Hw.
  destruct (destroyScripts_shape (JsMap.keys (_scripts w)) (set_state detached w))
    as (w1 & out & Hrun & H1 & H2 & H3); [done|].
  exists w1, out. split_and!; try done.
  rewrite bind_modify, bind_get.
  change (_scripts (set_state detached w)) with (_scripts w).
  rewrite (bind_ret_eq _ _ _ w1 out tt Hrun), bind_modify. done.
Qed.

Section inbound.
Variable JSON_parse : string → option value.

Lemma _dispatchMessages_shape messages batchId w :
  heap_ok w →
  let w' := state_of (_dispatchMessages JSON_parse messages batchId w) in
  heap_ok w' ∧ _scripts w' = _scripts w ∧ _state w' = _state w
  ∧ _lastRxBatchId w' = batchId.
Proof.
  intros Hw.
  set (I := λ w' : Session.t,
         heap_ok w' ∧ _scripts w' = _scripts w ∧ _state w' = _state w
         ∧ _lastRxBatchId w' = batchId).
  assert (Hp : preserves I (for_of messages (dispatchRecord JSON_parse))).
  { unfold dispatchRecord. repeat step_shape.
    intros w0 (Ha & Hb & Hc & Hd).
    destruct (onScript_shape n
                (Script._dispatchMessage v
                   (if hasData x then Some (Uint8Array (data x)) else None)) w0)
      as (He & Hf%skel_eq & _); [|done|].
    { intros s Hs. by apply ScriptMore._dispatchMessage_shape. }
    destruct Hf as (? & ? & _ & _ & _ & ? & _).
    unfold I. split_and!; congruence. }
  unfold _dispatchMessages. rewrite bind_modify.
  apply Hp. by split_and!.
Qed.


(** How a step changes the registry: not at all, by one [set] for a
    Script just created, or by the [clear] of the step that detaches. *)
Definition registry_change (w w' : Session.t) : Prop :=
  _scripts w' = _scripts w
  ∨ (∃ id, _scripts w' = JsMap.set id (length (heap w)) (_scripts w))
  ∨ (_scripts w' = [] ∧ _state w ≠ detached ∧ _state w' = detached).

Lemma kept_registry (m : M Session.t effect unit) w :
  keeps (λ w, (heap w, _scripts w)) m → heap_ok w →
  heap_ok (state_of (m w)) ∧ registry_change w (state_of (m w)).
Proof.
  intros Hk Hw. specialize (Hk w).
  pose proof (f_equal fst Hk) as H1. pose proof (f_equal snd Hk) as H2.
  cbn [fst snd] in H1, H2.
  split; [unfold heap_ok; rewrite H1; exact Hw | by left].
Qed.

Lemma _deliverPendingMessages_rest :
  keeps (λ w, (heap w, _scripts w)) _deliverPendingMessages.
Proof. unfold _deliverPendingMessages, issue. repeat step_shape. Qed.

Lemma scriptCreated_shape id w :
  heap_ok w →
  heap_ok (state_of (scriptCreated id w))
  ∧ _scripts (state_of (scriptCreated id w))
    = JsMap.set id (length (heap w)) (_scripts w).
Proof.
  intros Hw. unfold scriptCreated. rewrite bind_get, !bind_modify.
  set (w1 := set_scripts _ (set_heap _ w)).
  assert (Href : heap w1 !! length (heap w) = Some (Script.new id)).
  { subst w1. cbn. by rewrite lookup_app_r, Nat.sub_diag by lia. }
  erewrite bind_ret_eq
    by (eapply SessionReach.onScript_silent; [exact Href | reflexivity]).
  unfold state_of, tell. cbn [fst]. split; [|done].
  unfold heap_ok. subst w1. cbn [heap set_heap set_scripts].
  rewrite insert_app_r_alt, Nat.sub_diag by lia. cbn [insert list_insert].
  apply Forall_app. split; [done|]. apply Forall_singleton.
  apply ScriptMore.new_shape.
Qed.

Lemma shape_step e w w' out r :
  heap_ok w → step JSON_parse e w = Some (w', out, r) →
  heap_ok w' ∧ registry_change w w'.
Proof.
  intros Hw Hstep.
  assert (Hkept : ∀ m : M Session.t effect unit,
            keeps (λ w, (heap w, _scripts w)) m → m w = (w', out, r) →
            heap_ok w' ∧ registry_change w w').
  { intros m Hk Hm. pose proof (kept_registry m w Hk Hw) as H. by rewrite Hm in H. }
  destruct e as [| | source options | rec | messages batchId | reason c | i rep | h
                | ref name h]; cbn [step] in Hstep; try apply (inj Some) in Hstep.
  - destruct (decide (_state w = detached)) as [Hd|Hd].
    { rewrite detach_detached in Hstep by done. injection Hstep as <- _ _.
      split; [done | by left]. }
    unfold detach in Hstep. rewrite bind_get, bool_decide_eq_false_2 in Hstep by done.
    destruct (destroy_all w (λ _, issue Close) Hw) as (w1 & out1 & H1 & H2 & _ & Hrun).
    rewrite Hrun in Hstep. injection Hstep as <- _ _.
    apply skel_eq in H2 as (H2 & _).
    split; [done|]. right; right. by split_and!.
  - revert Hstep. apply Hkept. unfold resume, issue. repeat step_shape.
  - revert Hstep. apply Hkept. unfold createScript, issue. repeat step_shape.
  - revert Hstep. apply Hkept. unfold _postToAgent. repeat step_shape.
    apply _deliverPendingMessages_rest.
  - pose proof (_dispatchMessages_shape messages batchId w Hw) as H.
    unfold _handleIncomingMessages in Hstep. rewrite Hstep in H.
    destruct H as (? & ? & _). split; [done | by left].
  - destruct (decide (_state w = detached)) as [Hd|Hd].
    { rewrite _onDetached_detached in Hstep by done. injection Hstep as <- _ _.
      split; [done | by left]. }
    unfold _onDetached in Hstep.
    rewrite bind_get, bool_decide_eq_false_2 in Hstep by done.
    destruct (destroy_all w (λ _, emitDetached reason c) Hw)
      as (w1 & out1 & H1 & H2 & _ & Hrun).
    rewrite Hrun in Hstep. injection Hstep as <- _ _.
    apply skel_eq in H2 as (H2 & _).
    pose proof (emitDetached_rest reason c (set_scripts [] w1)) as Hk.
    injection Hk as Hk1 Hk2 Hk3.
    split; [unfold heap_ok; by rewrite Hk1|]. right; right.
    split_and!; [by rewrite Hk2 | done | by rewrite Hk3].
  - unfold settle in Hstep. destruct (calls w !! i) as [[rq []]|]; try done.
    apply (inj Some) in Hstep. rewrite bind_modify in Hstep.
    set (w0 := set_calls _ w) in Hstep.
    assert (Hw0 : heap_ok w0) by done.
    assert (Hkept0 : ∀ m : M Session.t effect unit,
              keeps (λ w, (heap w, _scripts w)) m → m w0 = (w', out, r) →
              heap_ok w' ∧ registry_change w w').
    { intros m Hk Hm. pose proof (kept_registry m w0 Hk Hw0) as H. by rewrite Hm in H. }
    assert (He : keeps (λ w, (heap w, _scripts w))
                   (emitDetached ApplicationRequested None)).
    { intros w2. pose proof (emitDetached_rest ApplicationRequested None w2) as H.
      by injection H as -> ->. }
    destruct rq as [| b | source options | records batchId], rep as [v|];
      cbn [continuation] in Hstep;
      try (revert Hstep; apply Hkept0; repeat step_shape;
           first [apply He | apply _deliverPendingMessages_rest]).
    destruct (scriptCreated_shape v w0 Hw0) as [H1 H2].
    rewrite Hstep in H1, H2. split; [done|]. right; left. by exists v.
  - revert Hstep. apply Hkept. unfold subscribe. repeat step_shape.
  - case_bool_decide as Hname; [|done]. apply (inj Some) in Hstep.
    destruct (onScript_shape ref (Script.connect name h) w) as (H1 & H2 & _); [|done|].
    { intros s Hs. destruct (ScriptMore.connect_shape name h s Hname Hs) as [? ->].
      by split. }
    assert (Hst : state_of ((_ <- onScript ref (Script.connect name h) ;; ret tt) w)
                  = state_of (onScript ref (Script.connect name h) w)).
    { unfold bind, ret. destruct (onScript ref (Script.connect name h) w) as [[? ?] []];
        done. }
    rewrite Hstep in Hst. unfold state_of at 1 in Hst. cbn [fst] in Hst. subst w'.
    apply skel_eq in H2 as (_ & _ & _ & _ & _ & ? & _). split; [done | by left].
Qed.

Lemma shape_run es : ∀ w w' out,
  heap_ok w → run JSON_parse es w = Some (w', out) → heap_ok w'.
Proof.
  induction es as [|e es IH]; intros w w' out Hw Hrun; cbn in Hrun.
  - by injection Hrun as <- _.
  - destruct (step JSON_parse e w) as [[[w1 out1] r]|] eqn:Hstep; [|done].
    destruct (run JSON_parse es w1) as [[w2 out2]|] eqn:Hrest; [|done].
    injection Hrun as <- _.
    eapply IH; [|done]. by eapply shape_step.
Qed.

Lemma new_heap_ok : heap_ok new.
Proof. constructor. Qed.


(** *** What the user does with a Script *)

(** Besides the events of the Session: the tail of [script.unload()]
    ([_destroy()], once [destroyScript] has resolved; that remote call is a
    call of the Bus and leaves no trace in the Session), [script.post],
    a call of an export, and the setter of [logHandler]. *)
Inductive action : Type :=
| OfSession (e : event)
| Unloaded (ref : nat)
| Post (ref : nat) (message : value) (data : option (list Z))
| ExportsCall (ref : nat) (p : nat) (name : string) (args : list value)
| SetLogHandler (ref : nat) (h : nat).

Variable JSON_stringify : value → string.

Definition onScript_ {A} (ref : nat) (m : M Script.t Script.effect A)
    : M Session.t effect unit :=
  _ <- onScript ref m ;; ret tt.

Definition perform (a : action) (w : Session.t)
    : option (Session.t * list effect * result unit) :=
  match a with
  | OfSession e => step JSON_parse e w
  | Unloaded ref => Some (onScript_ ref Script._destroy w)
  | Post ref message data =>
      Some (onScript_ ref (Script.post JSON_stringify message data) w)
  | ExportsCall ref p name args =>
      Some (onScript_ ref (Script.exportsCall JSON_stringify p name args) w)
  | SetLogHandler ref h => Some (onScript_ ref (Script.setLogHandler h) w)
  end.

Fixpoint performs (acts : list action) (w : Session.t)
    : option (Session.t * list effect) :=
  match acts with
  | [] => Some (w, [])
  | a :: more =>
      match perform a w with
      | None => None
      | Some (w1, out1, _) =>
          match performs more w1 with
          | None => None
          | Some (w2, out2) => Some (w2, out1 ++ out2)
          end
      end
  end.

Lemma onScript__state {A} ref (m : M Script.t Script.effect A) w :
  state_of (onScript_ ref m w) = state_of (onScript ref m w).
Proof.
  unfold onScript_, bind, ret. by destruct (onScript ref m w) as [[? ?] []].
Qed.

(** A method of a Script whose one effect is a [_postToAgent]. *)
Lemma onScript_posting {A} ref (m : M Script.t Script.effect A) w s s' rec a :
  heap w !! ref = Some s →
  m s = (s', [Script.PostToAgent rec], Ret a) →
  onScript ref m w =
    (state_of (_postToAgent rec (set_heap (<[ref := s']> (heap w)) w)),
     effects_of (_postToAgent rec (set_heap (<[ref := s']> (heap w)) w)),
     match result_of (_postToAgent rec (set_heap (<[ref := s']> (heap w)) w)) with
     | Ret _ => Ret (Some a)
     | Throw e => Throw e
     end).
Proof.
  intros Href Hm. unfold onScript. rewrite bind_get, Href, Hm, bind_modify.
  cbn [for_of scriptEffect]. unfold bind, ret.
  destruct (_postToAgent rec _) as [[w1 es1] [[]|e]]; cbn;
    by rewrite ?app_nil_r.
Qed.

Lemma _postToAgent_rest rec : keeps (λ w, (heap w, _scripts w)) (_postToAgent rec).
Proof. unfold _postToAgent. repeat step_shape. apply _deliverPendingMessages_rest. Qed.

Lemma posting_shape {A} ref (m : M Script.t Script.effect A) w :
  (∀ s, ∃ s' rec a, m s = (s', [Script.PostToAgent rec], Ret a)
                    ∧ ScriptMore.frame s' = ScriptMore.frame s) →
  heap_ok w →
  heap_ok (state_of (onScript ref m w))
  ∧ _scripts (state_of (onScript ref m w)) = _scripts w.
Proof.
  intros Hm Hw. destruct (heap w !! ref) as [s|] eqn:Href.
  - destruct (Hm s) as (s' & rec & a & Hms & Hfr).
    rewrite (onScript_posting ref m w s s' rec a Href Hms).
    unfold state_of at 1 3. cbn [fst].
    pose proof (_postToAgent_rest rec (set_heap (<[ref := s']> (heap w)) w)) as Hk.
    pose proof (f_equal fst Hk) as H1. pose proof (f_equal snd Hk) as H2.
    cbn [fst snd] in H1, H2. split; [|by rewrite H2].
    unfold heap_ok. rewrite H1. cbn. apply Forall_insert; [done|].
    eapply ScriptMore.frame_shape; [exact Hfr|].
    unfold heap_ok in Hw. rewrite Forall_lookup in Hw. by eapply Hw.
  - by rewrite (onScript_missing ref m w Href).
Qed.

Lemma shape_perform a w w' out r :
  heap_ok w → perform a w = Some (w', out, r) →
  heap_ok w' ∧ registry_change w w'.
Proof.
  intros Hw Hp. destruct a as [e | ref | ref message data | ref p name args | ref h];
    cbn [perform] in Hp; [by eapply shape_step | | | |]; apply (inj Some) in Hp.
  - destruct (onScript_shape ref Script._destroy w) as (H1 & H2 & _); [|done|].
    { intros s Hs. by destruct (ScriptMore._destroy_shape s Hs) as (? & ? & _). }
    rewrite <- onScript__state, Hp in H1, H2.
    apply skel_eq in H2 as (_ & _ & _ & _ & _ & ? & _). split; [done | by left].
  - destruct (posting_shape ref (Script.post JSON_stringify message data) w) as [H1 H2];
      [|done|].
    { intros s. by eexists s, _, tt. }
    rewrite <- onScript__state, Hp in H1, H2. split; [done | by left].
  - destruct (posting_shape ref (Script.exportsCall JSON_stringify p name args) w)
      as [H1 H2]; [|done|].
    { intros s. by eexists _, _, tt. }
    rewrite <- onScript__state, Hp in H1, H2. split; [done | by left].
  - destruct (onScript_shape ref (Script.setLogHandler h) w) as (H1 & H2 & _); [|done|].
    { intros s Hs. split; [|done]. by eapply ScriptMore.frame_shape. }
    rewrite <- onScript__state, Hp in H1, H2.
    apply skel_eq in H2 as (_ & _ & _ & _ & _ & ? & _). split; [done | by left].
Qed.

Lemma shape_performs acts : ∀ w w' out,
  heap_ok w → performs acts w = Some (w', out) → heap_ok w'.
Proof.
  induction acts as [|a acts IH]; intros w w' out Hw Hrun; cbn in Hrun.
  - by injection Hrun as <- _.
  - destruct (perform a w) as [[[w1 out1] r]|] eqn:Hstep; [|done].
    destruct (performs acts w1) as [[w2 out2]|] eqn:Hrest; [|done].
    injection Hrun as <- _.
    eapply IH; [|done]. by eapply shape_perform.
Qed.

(** X8. Scripts leave the registry only when the Session detaches. In
    every state a Session reaches, whatever is done next (a Script is
    destroyed by [unload()], a message is dispatched, posted, ...) leaves
    [_scripts] as it is, or registers the Script just created, or is the
    [detach()] or [_onDetached] that clears the registry and takes the
    Session to [detached]: the once-listener that [createScript] subscribes
    to "destroyed" in order to delete the entry is never called, because
    [onDestroyed], which precedes it, removes itself from the array during
    [emit]. *)
Theorem scripts_leave_registry_on_detach_only (acts : list action)
    (w : Session.t) (out : list effect) (a : action) (w' : Session.t)
    (out' : list effect) (r : result unit) :
  performs acts new = Some (w, out) →
  perform a w = Some (w', out', r) →
  registry_change w w'.
Proof.
  intros Hrun Hp.
  assert (Hw : heap_ok w) by (eapply shape_performs; [apply new_heap_ok | done]).
  by destruct (shape_perform a w w' out' r Hw Hp).
Qed.


(** *** The state [interrupted] *)

Definition is_resume (c : call) : bool :=
  match req c with ResumeReq _ => true | _ => false end.

(** The Session is not interrupted and has made no call of [resume]. *)
Definition never_resumed (w : Session.t) : Prop :=
  _state w ≠ interrupted ∧ Forall (λ c, is_resume c = false) (calls w).

Lemma quiet_never_resumed {A} (m : M Session.t effect A) :
  keeps (λ w, (_state w, calls w)) m → preserves never_resumed m.
Proof.
  apply (keeps_preserves (λ w, (_state w, calls w))
           (λ x, x.1 ≠ interrupted ∧ Forall (λ c, is_resume c = false) x.2)).
Qed.

Lemma issue_never_resumed r :
  is_resume (mkCall r Pending) = false → preserves never_resumed (issue r).
Proof.
  intros Hr. apply preserves_modify. intros w [H1 H2]. split; [done|]. cbn.
  apply Forall_app. split; [done|]. by apply Forall_singleton.
Qed.

Lemma _deliverPendingMessages_never_resumed :
  preserves never_resumed _deliverPendingMessages.
Proof.
  unfold _deliverPendingMessages. repeat step_shape;
    first [by apply issue_never_resumed
          | apply quiet_never_resumed; by apply keeps_modify].
Qed.

Lemma _postToAgent_never_resumed rec : preserves never_resumed (_postToAgent rec).
Proof.
  unfold _postToAgent. repeat step_shape;
    first [apply _deliverPendingMessages_never_resumed
          | apply quiet_never_resumed; by apply keeps_modify].
Qed.

Lemma onScript_never_resumed {A} ref (m : M Script.t Script.effect A) :
  preserves never_resumed (onScript ref m).
Proof.
  unfold onScript. repeat step_shape;
    try (apply quiet_never_resumed; by apply keeps_modify).
  destruct x; cbn [scriptEffect]; repeat step_shape;
    first [apply _postToAgent_never_resumed
          | apply quiet_never_resumed; by apply keeps_modify].
Qed.

Lemma destroyScripts_never_resumed keys : preserves never_resumed (destroyScripts keys).
Proof.
  induction keys as [|k keys IH]; cbn [destroyScripts]; repeat step_shape; try done.
  apply onScript_never_resumed.
Qed.

Lemma emitDetached_never_resumed reason c :
  preserves never_resumed (emitDetached reason c).
Proof.
  apply quiet_never_resumed, keeps_forEach.
  intros [h|]; cbn [callListener]; repeat step_shape.
Qed.

Lemma detached_never_resumed :
  preserves (E:=effect) never_resumed (modify (set_state detached)).
Proof. apply preserves_modify. by intros w [_ ?]. Qed.

Lemma perform_never_resumed a w w' out r :
  never_resumed w → perform a w = Some (w', out, r) → never_resumed w'.
Proof.
  intros Hw Hp.
  assert (Hkept : ∀ m : M Session.t effect unit,
            preserves never_resumed m → m w = (w', out, r) → never_resumed w').
  { intros m Hm Hrun. specialize (Hm w Hw). by rewrite Hrun in Hm. }
  destruct a as [e | ref | ref message data | ref p name args | ref h];
    cbn [perform] in Hp.
  2-5: apply (inj Some) in Hp; revert Hp; apply Hkept; unfold onScript_;
       repeat step_shape; apply onScript_never_resumed.
  destruct e as [| | source options | rec | messages batchId | reason c | i rep | h
                | ref name h]; cbn [step] in Hp; try apply (inj Some) in Hp.
  - revert Hp. apply Hkept. unfold detach. repeat step_shape.
    + apply detached_never_resumed.
    + apply destroyScripts_never_resumed.
    + apply quiet_never_resumed. by apply keeps_modify.
    + by apply issue_never_resumed.
  - rewrite resume_otherwise in Hp by apply Hw. by injection Hp as <- _ _.
  - revert Hp. apply Hkept. by apply issue_never_resumed.
  - revert Hp. apply Hkept, _postToAgent_never_resumed.
  - revert Hp. apply Hkept. unfold _handleIncomingMessages, _dispatchMessages,
      dispatchRecord. repeat step_shape.
    + apply quiet_never_resumed. by apply keeps_modify.
    + apply onScript_never_resumed.
  - revert Hp. apply Hkept. unfold _onDetached. repeat step_shape.
    + apply detached_never_resumed.
    + apply destroyScripts_never_resumed.
    + apply quiet_never_resumed. by apply keeps_modify.
    + apply emitDetached_never_resumed.
  - unfold settle in Hp. destruct (calls w !! i) as [[rq []]|] eqn:Hi; try done.
    apply (inj Some) in Hp. rewrite bind_modify in Hp.
    assert (Hrq : is_resume (mkCall rq Pending) = false).
    { destruct Hw as [_ Hc]. rewrite Forall_lookup in Hc. by apply (Hc i). }
    set (w0 := set_calls _ w) in Hp.
    assert (Hw0 : never_resumed w0).
    { destruct Hw as [? Hc]. split; [done|]. subst w0. cbn.
      by apply Forall_insert. }
    assert (Hp0 : preserves never_resumed (continuation rq rep)).
    { destruct rq as [| b | source options | records batchId], rep as [v|];
        try done; cbn [continuation]; unfold scriptCreated; repeat step_shape;
        first [apply emitDetached_never_resumed
              | apply _deliverPendingMessages_never_resumed
              | apply onScript_never_resumed
              | apply quiet_never_resumed; by apply keeps_modify]. }
    specialize (Hp0 w0 Hw0). by rewrite Hp in Hp0.
  - revert Hp. apply Hkept. apply quiet_never_resumed. by apply keeps_modify.
  - case_bool_decide; [|done]. apply (inj Some) in Hp. revert Hp. apply Hkept.
    repeat step_shape. apply onScript_never_resumed.
Qed.

Lemma performs_never_resumed acts : ∀ w w' out,
  never_resumed w → performs acts w = Some (w', out) → never_resumed w'.
Proof.
  induction acts as [|a acts IH]; intros w w' out Hw Hrun; cbn in Hrun.
  - by injection Hrun as <- _.
  - destruct (perform a w) as [[[w1 out1] r]|] eqn:Hstep; [|done].
    destruct (performs acts w1) as [[w2 out2]|] eqn:Hrest; [|done].
    injection Hrun as <- _.
    eapply IH; [|done]. by eapply perform_never_resumed.
Qed.

(** X9. A Session is never interrupted. Whatever has been done with a
    Session and its Scripts, its state is [attached] or [detached], no
    call of [resume] of the agent session has been made, and [resume()]
    returns at once: nothing assigns "interrupted" to [_state]. *)
Theorem never_interrupted (acts : list action) (w : Session.t)
    (out : list effect) :
  performs acts new = Some (w, out) →
  (_state w = attached ∨ _state w = detached)
  ∧ Forall (λ c, is_resume c = false) (calls w)
  ∧ resume w = (w, [Completed OpResume None], Ret tt).
Proof.
  intros Hrun.
  assert (Hw : never_resumed w).
  { eapply performs_never_resumed; [|exact Hrun]. split; [done | constructor]. }
  destruct Hw as [Hst Hc]. split_and!; [|done | by apply resume_otherwise].
  destruct (_state w); auto. done.
Qed.


(** *** Inbound batches *)

Lemma dispatchRecord_shape r w :
  heap_ok w →
  heap_ok (state_of (dispatchRecord JSON_parse r w))
  ∧ skel (state_of (dispatchRecord JSON_parse r w)) = skel w.
Proof.
  intros Hw. unfold dispatchRecord. rewrite bind_get.
  destruct (JsMap.get (scriptId r) (_scripts w)) as [ref|]; [|done].
  destruct (JSON_parse (text r)) as [message|]; [|done].
  destruct (onScript_shape ref
              (Script._dispatchMessage message
                 (if hasData r then Some (Uint8Array (data r)) else None)) w)
    as (H1 & H2 & _); [|done|].
  { intros s Hs. by apply ScriptMore._dispatchMessage_shape. }
  by rewrite <- (onScript__state ref) in H1, H2.
Qed.

(** The records that the loop of [_dispatchMessages] does not pass over:
    the Script is in the registry and the text is JSON. *)
Definition dispatched (w : Session.t) (r : AgentMessageRecord) : bool :=
  bool_decide (is_Some (JsMap.get (scriptId r) (_scripts w)))
  && bool_decide (is_Some (JSON_parse (text r))).

Lemma dispatchRecord_skip r w w0 :
  _scripts w0 = _scripts w → dispatched w r = false →
  dispatchRecord JSON_parse r w0 = (w0, [], Ret tt).
Proof.
  intros Hs Hd. unfold dispatchRecord. rewrite bind_get, Hs.
  unfold dispatched in Hd.
  destruct (JsMap.get (scriptId r) (_scripts w)) as [ref|]; [|done].
  destruct (JSON_parse (text r)) as [message|]; [|done].
  rewrite !bool_decide_eq_true_2 in Hd by done. done.
Qed.

Lemma for_of_dispatched w messages : ∀ w0,
  heap_ok w0 → _scripts w0 = _scripts w →
  for_of messages (dispatchRecord JSON_parse) w0
  = for_of (List.filter (dispatched w) messages) (dispatchRecord JSON_parse) w0.
Proof.
  induction messages as [|r messages IH]; intros w0 Hw0 Hs; [done|].
  cbn [for_of List.filter]. destruct (dispatched w r) eqn:Hd.
  - cbn [for_of]. unfold bind.
    destruct (dispatchRecord_shape r w0 Hw0) as [H1 H2].
    apply skel_eq in H2 as (_ & _ & _ & _ & _ & H2 & _).
    destruct (dispatchRecord JSON_parse r w0) as [[w1 out1] [[]|e]]; [|done].
    unfold state_of in H1, H2. cbn [fst] in H1, H2.
    rewrite (IH w1) by congruence. done.
  - unfold bind. rewrite (dispatchRecord_skip r w w0 Hs Hd).
    rewrite (IH w0) by done. by destruct (for_of _ _ w0) as [[? ?] ?].
Qed.

(** X10. An inbound batch. In every state a Session reaches,
    [_dispatchMessages] records the batch id first, whatever the batch
    holds, and does with the batch what it does with the records of it
    whose Script is in the registry and whose text is JSON: the others are
    passed over, one by one, and do not end the loop. The registry and the
    state of the Session are left as they are. *)
Theorem unknown_records_skipped (acts : list action) (w : Session.t)
    (out : list effect) (messages : list AgentMessageRecord) (batchId : Z) :
  performs acts new = Some (w, out) →
  let result := _dispatchMessages JSON_parse messages batchId w in
  result = _dispatchMessages JSON_parse (List.filter (dispatched w) messages) batchId w
  ∧ _lastRxBatchId (state_of result) = batchId
  ∧ _scripts (state_of result) = _scripts w
  ∧ _state (state_of result) = _state w.
Proof.
  intros Hrun result.
  assert (Hw : heap_ok w) by (eapply shape_performs; [apply new_heap_ok | done]).
  destruct (_dispatchMessages_shape messages batchId w Hw) as (_ & H1 & H2 & H3).
  split_and!; try done.
  subst result. unfold _dispatchMessages. rewrite !bind_modify.
  by apply (for_of_dispatched w).
Qed.

Lemma emit_null l ls data s :
  Emitter.listenersOf "message" (Script._events s) = l :: ls →
  ScriptMore.message_listener l = true →
  Script._dispatchMessage Null data s
  = (s, [], Throw (TypeError "cannot read properties of null or undefined")).
Proof.
  intros Hl Hm. unfold Script._dispatchMessage, Script.emit, forEach.
  rewrite Hl. cbn [length].
  rewrite (ScriptMore.forEach_from_S _ _ _ _ s l) by (by rewrite Hl).
  unfold bind. by destruct l.
Qed.

Lemma set_heap_same w : set_heap (heap w) w = w.
Proof. by destruct w. Qed.

(** X11. The message [null] ends the batch. When the text of a record is
    the JSON [null] and its Script, which is in the registry, has a listener
    of "message", the read of [message.type] throws in that listener:
    nothing in [_dispatchMessages] catches it, so the TypeError leaves
    [_dispatchMessages] and the records that follow in the batch are not
    dispatched, although the batch id has been recorded. *)
Theorem null_message_aborts_batch (acts : list action) (w : Session.t)
    (out : list effect) (r : AgentMessageRecord)
    (more : list AgentMessageRecord) (batchId : Z) (ref : nat) (s : Script.t)
    (l : Script.listener) (ls : list Script.listener) :
  performs acts new = Some (w, out) →
  JsMap.get (scriptId r) (_scripts w) = Some ref →
  heap w !! ref = Some s →
  Emitter.listenersOf "message" (Script._events s) = l :: ls →
  JSON_parse (text r) = Some Null →
  ∃ what,
    _dispatchMessages JSON_parse (r :: more) batchId w
    = (set_lastRxBatchId batchId w, [], Throw (TypeError what)).
Proof.
  intros Hrun Hget Href Hl Hparse.
  assert (Hw : heap_ok w) by (eapply shape_performs; [apply new_heap_ok | done]).
  assert (Hs : ScriptMore.script_shape s).
  { unfold heap_ok in Hw. rewrite Forall_lookup in Hw. by eapply Hw. }
  assert (Hm : ScriptMore.message_listener l = true).
  { destruct Hs as [Hs _]. rewrite Hl in Hs. cbn in Hs. by apply andb_prop in Hs as [? _]. }
  eexists. unfold _dispatchMessages. rewrite bind_modify. cbn [for_of].
  unfold bind at 1. unfold dispatchRecord. rewrite bind_get.
  change (_scripts (set_lastRxBatchId batchId w)) with (_scripts w).
  rewrite Hget, Hparse.
  unfold bind at 1. unfold onScript. rewrite bind_get.
  change (heap (set_lastRxBatchId batchId w)) with (heap w).
  rewrite Href, (emit_null l ls _ s Hl Hm), bind_modify.
  cbn [for_of]. rewrite bind_ret. unfold throw. cbn [heap set_heap set_lastRxBatchId].
  rewrite list_insert_id by done. reflexivity.
Qed.

End inbound.

End runtime.

Section examples.
(** The examples run on a console whose members return. *)
#[local] Existing Instance quiet_console.

(** A Session with one Script, of handle 5. *)
Definition no_text : value → string := λ _, "".

Definition one_script_run : list action :=
  [OfSession (CreateScript "source" (mkOptions None None));
   OfSession (Settle 0 (Resolve 5))].

Definition one_script : Session.t :=
  default new (fst <$> performs no_parse no_text one_script_run new).

Definition unloaded : Session.t :=
  state_of (onScript_ 0 Script._destroy one_script).

Lemma scripts_leave_registry_on_detach_only_witness :
  performs no_parse no_text one_script_run new
    = Some (one_script, [Completed OpCreateScript (Some 0%nat)])
  ∧ perform no_parse no_text (Unloaded 0) one_script = Some (unloaded, [], Ret tt)
  ∧ registry_change one_script unloaded
  ∧ _scripts unloaded = [(5, 0%nat)]
  ∧ Script._state <$> heap unloaded !! 0%nat = Some Script.destroyed.
Proof.
  assert (H1 : performs no_parse no_text one_script_run new
               = Some (one_script, [Completed OpCreateScript (Some 0%nat)]))
    by (vm_compute; reflexivity).
  assert (H2 : perform no_parse no_text (Unloaded 0) one_script
               = Some (unloaded, [], Ret tt)) by (vm_compute; reflexivity).
  split_and!; [exact H1 | exact H2 | | reflexivity | reflexivity].
  exact (scripts_leave_registry_on_detach_only no_parse no_text one_script_run
           one_script _ (Unloaded 0) unloaded [] (Ret tt) H1 H2).
Defined.

Lemma never_interrupted_witness :
  ∃ w out,
    performs no_parse no_text
      (one_script_run ++ [OfSession Resume; Post 0 (Str "hi") None; OfSession Detach])
      new = Some (w, out)
    ∧ _state w = detached
    ∧ resume w = (w, [Completed OpResume None], Ret tt).
Proof.
  eexists _, _.
  match goal with
  | |- ?run = Some (?w, ?out) ∧ _ =>
      assert (H1 : run = Some (w, out)) by (vm_compute; reflexivity)
  end.
  destruct (never_interrupted no_parse no_text _ _ _ H1) as (_ & _ & H2).
  split_and!; [exact H1 | reflexivity | exact H2].
Defined.

(** A parser that knows one text, which stands for a send message with
    payload 1. *)
Definition parse_x : string → option value :=
  λ text, if decide (text = "x")
          then Some (Obj [("type", Str "send"); ("payload", Num 1)])
          else None.

Lemma unknown_records_skipped_witness :
  performs parse_x no_text one_script_run new
    = Some (one_script, [Completed OpCreateScript (Some 0%nat)])
  ∧ _dispatchMessages parse_x
      [mkRecord 1 6 "x" false []; mkRecord 1 5 "{" false []; mkRecord 1 5 "x" false []]
      9 one_script
    = _dispatchMessages parse_x [mkRecord 1 5 "x" false []] 9 one_script.
Proof.
  assert (H1 : performs parse_x no_text one_script_run new
               = Some (one_script, [Completed OpCreateScript (Some 0%nat)]))
    by (vm_compute; reflexivity).
  split; [exact H1|].
  exact (proj1 (unknown_records_skipped parse_x no_text one_script_run one_script _
                  [mkRecord 1 6 "x" false []; mkRecord 1 5 "{" false [];
                   mkRecord 1 5 "x" false []] 9 H1)).
Defined.

Definition parse_null : string → option value := λ _, Some Null.

Lemma null_message_aborts_batch_witness :
  performs parse_null no_text one_script_run new
    = Some (one_script, [Completed OpCreateScript (Some 0%nat)])
  ∧ ∃ what,
      _dispatchMessages parse_null
        [mkRecord 1 5 "null" false []; mkRecord 1 5 "x" false []] 9 one_script
      = (set_lastRxBatchId 9 one_script, [], Throw (TypeError what)).
Proof.
  assert (H1 : performs parse_null no_text one_script_run new
               = Some (one_script, [Completed OpCreateScript (Some 0%nat)]))
    by (vm_compute; reflexivity).
  split; [exact H1|].
  apply (null_message_aborts_batch parse_null no_text one_script_run one_script _
           (mkRecord 1 5 "null" false []) [mkRecord 1 5 "x" false []] 9 0%nat
           (Script.set_events
              (Emitter.addListener "destroyed" (Script.SessionOnce 5)
                 (Script._events (Script.new 5))) (Script.new 5))
           Script.OnMessage [] H1); reflexivity.
Defined.

End examples.

End SessionMore.

(** ** The Client: the registry of Sessions *)

Module ClientMore.
Import Js Eff EffFacts Client ClientFacts.

Section runtime.
Context {runtime_console : Console}.

(** *** The registry of Sessions *)

Section forgetting.
Import Session SessionFacts SessionReach.

Lemma onScript_not_forget {A} ref (m : M Script.t Script.effect A) :
  produces not_forget (onScript ref m).
Proof.
  unfold onScript. repeat step_shape; try done.
  destruct x; cbn [scriptEffect]; repeat step_shape.
  apply _postToAgent_silent.
Qed.

Lemma destroyScripts_not_forget keys : produces not_forget (destroyScripts keys).
Proof.
  induction keys as [|k keys IH]; cbn [destroyScripts]; repeat step_shape; try done.
  apply onScript_not_forget.
Qed.

Lemma emitDetached_not_forget reason c w :
  session_ok w → Forall not_forget (effects_of (emitDetached reason c w)).
Proof.
  intros (_ & _ & [hs Hhs]%handlers_of).
  rewrite (emitDetached_handlers hs) by done. unfold effects_of. cbn.
  apply Forall_fmap, Forall_forall. by intros.
Qed.

(** No step of a Session calls the once-listener that the Client has
    subscribed to "destroyed": the Session emits "detached" only. *)
Lemma step_not_forget JSON_parse e w w' out r :
  session_ok w → Session.step JSON_parse e w = Some (w', out, r) →
  Forall not_forget out.
Proof.
  intros Hw Hstep.
  assert (Hq : ∀ m : M Session.t effect unit,
            produces not_forget m → m w = (w', out, r) → Forall not_forget out).
  { intros m Hm Hrun. specialize (Hm w). by rewrite Hrun in Hm. }
  destruct e as [| | source options | rec | messages batchId | reason c | i rep | h
                | ref name h]; cbn [Session.step] in Hstep;
    try apply (inj Some) in Hstep.
  - revert Hstep. apply Hq. unfold detach, issue. repeat step_shape.
    apply destroyScripts_not_forget.
  - revert Hstep. apply Hq. unfold resume, issue. repeat step_shape.
  - revert Hstep. apply Hq. unfold createScript, issue. repeat step_shape.
  - revert Hstep. apply Hq, _postToAgent_silent.
  - revert Hstep. apply Hq.
    unfold _handleIncomingMessages, _dispatchMessages, dispatchRecord.
    repeat step_shape. apply onScript_not_forget.
  - destruct (_onDetached_total reason c w Hw) as (w1 & out1 & Hrun & _ & Hout).
    rewrite Hrun in Hstep. by injection Hstep as _ <- _.
  - unfold settle in Hstep. destruct (calls w !! i) as [[rq []]|]; try done.
    apply (inj Some) in Hstep. rewrite bind_modify in Hstep.
    set (w0 := set_calls _ w) in Hstep.
    assert (Hw0 : session_ok w0) by done.
    assert (Hq0 : ∀ m : M Session.t effect unit,
              produces not_forget m → m w0 = (w', out, r) → Forall not_forget out).
    { intros m Hm Hrun. specialize (Hm w0). by rewrite Hrun in Hm. }
    destruct rq as [| b | source options | records batchId], rep as [v|];
      cbn [continuation] in Hstep;
      try (revert Hstep; apply Hq0; unfold scriptCreated, _deliverPendingMessages, issue;
           repeat step_shape; apply onScript_not_forget).
    all: pose proof (emitDetached_not_forget ApplicationRequested None w0 Hw0) as He;
      unfold bind in Hstep;
      destruct (emitDetached ApplicationRequested None w0) as [[w1 out1] [[]|x]];
      unfold effects_of in He; cbn in He, Hstep; injection Hstep as _ <- _;
      [apply Forall_app; split; [done | by apply Forall_singleton] | done].
  - revert Hstep. apply Hq. unfold subscribe. repeat step_shape.
  - case_bool_decide; [|done]. apply (inj Some) in Hstep. revert Hstep. apply Hq.
    repeat step_shape. apply onScript_not_forget.
Qed.
End forgetting.

Lemma onSession_registry ref (m : M Session.t Session.effect unit) c :
  (∀ so, sessions c !! ref = Some so →
         Forall SessionReach.not_forget (effects_of (m (session so)))) →
  _sessions (state_of (onSession ref m c)) = _sessions c.
Proof.
  intros Hm. unfold onSession. rewrite bind_get.
  destruct (sessions c !! ref) as [so|] eqn:Hso; [|done].
  specialize (Hm so eq_refl).
  destruct (m (session so)) as [[s' es] r]. unfold effects_of in Hm. cbn in Hm.
  refine ((_ : keeps _sessions _) c).
  apply keeps_bind; [by apply keeps_modify|]. intros _.
  apply keeps_bind; [|intros _; destruct r; [apply keeps_ret | apply keeps_throw]].
  induction Hm as [|e es He _ IH]; [apply keeps_ret|].
  cbn [for_of]. apply keeps_bind; [|done].
  destruct e; try apply keeps_tell. done.
Qed.


Section transport.
Variable serializeMessage : Bus.outgoing → option (list Z).
Variable parseMessages : list Z → option (list Bus.message).
Variable JSON_parse : string → option value.

(** How a step changes [_sessions]: not at all, or by the [set] of
    [attach]. *)
Definition registry_step (e : event) (c c' : t) : Prop :=
  _sessions c' = _sessions c
  ∨ ∃ i sessionId,
      e = SessionCreated i sessionId
      ∧ _sessions c' = JsMap.set sessionId (length (sessions c)) (_sessions c).

Lemma get_set {V} (k k' : string) (v : V) m :
  JsMap.get k (JsMap.set k' v m) = if decide (k' = k) then Some v else JsMap.get k m.
Proof.
  induction m as [|[k1 v1] m IH]; cbn; [done|].
  destruct (decide (k1 = k')) as [->|Hne]; cbn.
  - by destruct (decide (k' = k)).
  - rewrite IH. destruct (decide (k1 = k)) as [->|]; [|done].
    by rewrite decide_False.
Qed.

Lemma outer_sessions c c' : outer c' = outer c → _sessions c' = _sessions c.
Proof. intros H. by injection H. Qed.

Lemma error_sessions i c :
  client_ok c → ws_live i c = true →
  _sessions (state_of (wsEmit parseMessages i "error" [] c)) = _sessions c.
Proof.
  intros Hc (a & Ha & Hlive)%ws_live_lookup.
  destruct (attempt_wire_ok c i a Hc Ha) as (_ & [Herr|Herr] & _).
  - unfold wsEmit. rewrite (forEach_one _ _ c OnceError) by (by rewrite Ha).
    cbn [callWs]. unfold onAttempt. by rewrite !bind_modify.
  - unfold wsEmit. by rewrite forEach_nil by (by rewrite Ha).
Qed.

Lemma sessionCreated_sessions i sessionId c :
  _sessions (state_of (sessionCreated i sessionId c))
  = JsMap.set sessionId (length (sessions c)) (_sessions c).
Proof.
  unfold sessionCreated. rewrite bind_get, !bind_modify.
  set (c2 := set_sessions_map _ (set_sessions _ c)).
  change (JsMap.set sessionId (length (sessions c)) (_sessions c)) with (_sessions c2).
  generalize c2. refine (_ : keeps _sessions _).
  repeat step_shape. intros c0.
  exact (outer_sessions _ _ (onBus_outer i _ c0)).
Qed.

Lemma registry_step_ok e c c' out r :
  client_ok c →
  Client.step serializeMessage parseMessages JSON_parse e c = Some (c', out, r) →
  registry_step e c c'.
Proof.
  intros Hc Hstep. destruct e; cbn [Client.step] in Hstep.
  - apply (inj Some) in Hstep. left.
    destruct (_hostConnectionRequest c) as [k|] eqn:Hslot.
    + rewrite (getter_some c k Hslot) in Hstep. by injection Hstep as <- _ _.
    + rewrite (getter_none c Hslot) in Hstep. by injection Hstep as <- _ _.
  - destruct (ws_is i Connecting c); [|done]. apply (inj Some) in Hstep. left.
    pose proof (open_outer serializeMessage i c) as Ho. rewrite Hstep in Ho.
    by injection Ho.
  - destruct (ws_live i c) eqn:Hi; [|done]. apply (inj Some) in Hstep. left.
    pose proof (error_sessions i c Hc Hi) as Herr. by rewrite Hstep in Herr.
  - left. pose proof Hstep as Hi.
    change (Client.step serializeMessage parseMessages JSON_parse (WsClose i) c
            = Some (c', out, r)) in Hstep.
    destruct (ws_live i c) eqn:Hlive in Hi; [clear Hi|done].
    apply ws_live_lookup in Hlive as (a & Ha & Hlive).
    destruct (ws_state a) eqn:Hst; [| |done].
    + destruct (close_connecting serializeMessage parseMessages JSON_parse
                  i c a Hc Ha Hst) as [Hrun _].
      rewrite Hrun in Hstep. by injection Hstep as <- _ _.
    + destruct (close_open serializeMessage parseMessages JSON_parse i c a Hc Ha Hst)
        as (ss & out' & Hrun & _).
      rewrite Hrun in Hstep. by injection Hstep as <- _ _.
  - destruct (ws_is i Open c) eqn:Hi; [|done]. apply (inj Some) in Hstep. left.
    pose proof (message_step parseMessages i data c Hc Hi) as Ho.
    rewrite Hstep in Ho. by apply outer_sessions.
  - case_bool_decide; [|done]. apply (inj Some) in Hstep. left.
    pose proof (onBus_outer i
      (Bus.callMethod serializeMessage p destination objectPath interfaceName
         memberName args) c) as Ho.
    rewrite Hstep in Ho. by apply outer_sessions.
  - destruct (attempts c !! i) as [[? ? ? [b|] ?]|]; try done.
    destruct (Bus.step _ _ _ b); [|done]. apply (inj Some) in Hstep. left.
    pose proof (onBus_outer i
      (λ b, default (b, [], Ret tt)
              (Bus.step serializeMessage parseMessages (Bus.Timeout k) b)) c) as Ho.
    rewrite Hstep in Ho. by apply outer_sessions.
  - case_bool_decide; [|done]. apply (inj Some) in Hstep. left.
    pose proof (advance_outer dt c) as Ho. rewrite Hstep in Ho.
    by apply outer_sessions.
  - destruct (attempts c !! i) as [a|]; [|done].
    case_bool_decide; [|done]. apply (inj Some) in Hstep. right.
    exists i, sessionId. split; [done|].
    pose proof (sessionCreated_sessions i sessionId c) as Hset.
    by rewrite Hstep in Hset.
  - destruct (sessions c !! ref) as [so|] eqn:Hso; [|done].
    destruct (Session.step JSON_parse e (session so)) as [[[w1 out1] r1]|] eqn:Hs;
      [|done].
    apply (inj Some) in Hstep. left.
    pose proof (onSession_registry ref
      (λ s, default (s, [], Ret tt) (Session.step JSON_parse e s)) c) as Hreg.
    rewrite Hstep in Hreg. apply Hreg. intros so' Hso'.
    assert (so' = so) as -> by congruence. rewrite Hs. unfold effects_of. cbn.
    eapply step_not_forget; [|exact Hs].
    destruct Hc as [_ [Hobj _]]. rewrite Forall_lookup in Hobj. by apply (Hobj ref).
Qed.

(** X12. The Client never forgets a Session. In every state the Client
    reaches, a step leaves [_sessions] as it is, or is the end of [attach],
    which registers the new Session under its id: no entry is ever deleted,
    also not when the Session detaches or the connection closes. The
    once-listener of [attach] that would delete the entry waits for
    "destroyed", and a Session emits "detached" only. *)
Theorem sessions_never_forgotten (token : option string) (now : Z)
    (es : list event) (c : t) (out : list effect) (e : event) (c' : t)
    (out' : list effect) (r : result unit) :
  Client.run serializeMessage parseMessages JSON_parse es (new token now)
    = Some (c, out) →
  Client.step serializeMessage parseMessages JSON_parse e c = Some (c', out', r) →
  registry_step e c c'
  ∧ ∀ k ref, JsMap.get k (_sessions c) = Some ref → is_Some (JsMap.get k (_sessions c')).
Proof.
  intros Hrun Hstep.
  assert (Hc : client_ok c).
  { eapply client_run_ok; [|exact Hrun]. apply new_client_ok. }
  pose proof (registry_step_ok e c c' out' r Hc Hstep) as Hr.
  split; [done|]. intros k ref Hget.
  destruct Hr as [->|(i & sessionId & _ & ->)]; [by eexists|].
  rewrite get_set. destruct (decide (sessionId = k)); by eexists.
Qed.

End transport.

End runtime.

Section examples.
(** The examples run on a console whose members return. *)
#[local] Existing Instance quiet_console.

(** The attached Client after its connection has closed. *)
Definition closed_client : t :=
  default attached_client
    ((λ x, x.1.1) <$> Client.step BusFacts.codec_ok BusFacts.no_messages
                        SessionFacts.no_parse (WsClose 0) attached_client).

Lemma sessions_never_forgotten_witness :
  Client.run BusFacts.codec_ok BusFacts.no_messages SessionFacts.no_parse
      attached_run (new None 0)
    = Some (attached_client, [Returned 0%nat; Returned 0%nat])
  ∧ Client.step BusFacts.codec_ok BusFacts.no_messages SessionFacts.no_parse
      (WsClose 0) attached_client
    = Some (closed_client,
            [OfSession 0 (Session.CallDetached 4 Session.ConnectionTerminated None)],
            Ret tt)
  ∧ _sessions closed_client = _sessions attached_client
  ∧ JsMap.get "s" (_sessions closed_client) = Some 0%nat
  ∧ (λ so, Session._state (session so)) <$> sessions closed_client !! 0%nat
    = Some Session.detached.
Proof.
  assert (H1 : Client.run BusFacts.codec_ok BusFacts.no_messages SessionFacts.no_parse
                 attached_run (new None 0)
               = Some (attached_client, [Returned 0%nat; Returned 0%nat]))
    by (vm_compute; reflexivity).
  assert (H2 : Client.step BusFacts.codec_ok BusFacts.no_messages SessionFacts.no_parse
                 (WsClose 0) attached_client
               = Some (closed_client,
                       [OfSession 0 (Session.CallDetached 4
                                       Session.ConnectionTerminated None)],
                       Ret tt))
    by (vm_compute; reflexivity).
  destruct (sessions_never_forgotten _ _ _ None 0 attached_run attached_client _
              (WsClose 0) closed_client _ _ H1 H2) as [[Hsame|Hset] _].
  - split_and!; [exact H1 | exact H2 | exact Hsame | reflexivity | reflexivity].
  - destruct Hset as (i & sessionId & Hcreated & _). discriminate Hcreated.
Defined.

End examples.

End ClientMore.

(** ** From the options of a call to the codec *)

Module Wiring.
Import Js Eff EffFacts.

(** *** Options on their way to the codec *)

(** A [Variant], [{ signature, value }], and a [VariantDict] as the
    objects that [callMethod] is given. *)
Definition variant (sv : string * value) : value :=
  Obj [("signature", Str sv.1); ("value", sv.2)].

Definition dict (d : Session.VariantDict) : value :=
  Obj ((λ kv, (kv.1, variant kv.2)) <$> d).

(** [[key, [v.signature, v.value]]] *)
Definition entry (kv : string * (string * value)) : value :=
  Arr [Str kv.1; Arr [Str kv.2.1; kv.2.2]].

Lemma convertOptions_dict (d : Session.VariantDict) :
  Bus.convertOptions ((λ kv, (kv.1, variant kv.2)) <$> d) = Some (entry <$> d).
Proof.
  induction d as [|[k [sig v]] d IH]; [done|].
  rewrite !fmap_cons. cbn [Bus.convertOptions fst snd].
  change (Js.get (variant (sig, v)) "signature") with (Some (Str sig)).
  change (Js.get (variant (sig, v)) "value") with (Some v).
  cbn [mbind option_bind]. rewrite IH. done.
Qed.

Lemma withOptions_dict (first : value) (d : Session.VariantDict) :
  Bus.withOptions (Some [first; dict d]) = Some (Some [first; Arr (entry <$> d)]).
Proof.
  unfold Bus.withOptions, dict. cbn [Bus.Object_entries mbind option_bind].
  by rewrite convertOptions_dict.
Qed.

(** [interface SessionOptions] *)
Record SessionOptions : Type := mkSessionOptions {
  realm : option string;
  persistTimeout : option Z;
}.

(** [rawOptions] of [Client.attach] *)
Definition attachOptions (options : SessionOptions) : Session.VariantDict :=
  match realm options with
  | Some r => [("realm", ("s", Str r))]
  | None => []
  end ++
  match persistTimeout options with
  | Some t => [("persist-timeout", ("u", Num t))]
  | None => []
  end.

Section codec.
Variable serializeMessage : Bus.outgoing → option (list Z).

(** What [callMethod] does with a message it has prepared: the codec
    decides. *)
Lemma callMethod_handed p destination objectPath interfaceName memberName args b
    types margs :
  Bus.adapt memberName args = Some (types, margs) →
  Bus.callMethod serializeMessage p destination objectPath interfaceName
    memberName args b
  = match serializeMessage
            (Bus.mkOutgoing (Bus.serialCounter b) destination objectPath
               interfaceName memberName types margs) with
    | Some buffer =>
        (Bus.mk (Bus.serialCounter b + 1)
           (<[Bus.serialCounter b := p]> (Bus.pendingCalls b))
           (Bus.signalHandlers b) (Bus.sent b ++ [buffer])
           (Bus.timers b ++ [Bus.mkTimer (Bus.now b + 30000) (Bus.serialCounter b) p])
           (Bus.now b),
         [], Ret tt)
    | None =>
        (Bus.set_serialCounter (Bus.serialCounter b + 1) b,
         [Bus.Rejected p (Bus.Thrown (External "serializeMessage"))], Ret tt)
    end.
Proof.
  intros Ha. unfold Bus.callMethod.
  rewrite bind_get, bind_modify, Ha. cbn.
  destruct (serializeMessage _); [|done]. by rewrite !bind_modify.
Qed.

(** X13. The options of [createScript] on their way out.
    [Session.createScript] puts [name] and [runtime], when they are given,
    into [rawOptions] as variants of signature "s"; "CreateScript" of the
    agent session passes them to [callMethod], whose conversion never
    fails on them: the message handed to the codec has the signature
    "sa{sv}" and the arguments [[source, entries]], where [entries] holds
    [["name", ["s", name]]] and [["runtime", ["s", runtime]]], in this
    order, for the options given and nothing for the others. When the
    codec returns a buffer, it is sent and the call is pending under the
    serial drawn; when the codec throws, the promise of the call is
    rejected and nothing is sent. *)
Theorem script_options_handed_to_codec (p : nat) (sessionId source : string)
    (options : Session.ScriptOptions) (b : Bus.t) :
  Facade.createScript serializeMessage p sessionId (Str source)
    (dict (Session.rawOptions options)) b
  = match serializeMessage
            (Bus.mkOutgoing (Bus.serialCounter b) "re.frida.AgentSession17"
               ("/re/frida/AgentSession/" +:+ sessionId) "re.frida.AgentSession17"
               "CreateScript" (Some "sa{sv}")
               (Some [Str source;
                      Arr (match Session.opt_name options with
                           | Some n => [Arr [Str "name"; Arr [Str "s"; Str n]]]
                           | None => []
                           end ++
                           match Session.opt_runtime options with
                           | Some r => [Arr [Str "runtime"; Arr [Str "s"; Str r]]]
                           | None => []
                           end)])) with
    | Some buffer =>
        (Bus.mk (Bus.serialCounter b + 1)
           (<[Bus.serialCounter b := p]> (Bus.pendingCalls b))
           (Bus.signalHandlers b) (Bus.sent b ++ [buffer])
           (Bus.timers b ++ [Bus.mkTimer (Bus.now b + 30000) (Bus.serialCounter b) p])
           (Bus.now b),
         [], Ret tt)
    | None =>
        (Bus.set_serialCounter (Bus.serialCounter b + 1) b,
         [Bus.Rejected p (Bus.Thrown (External "serializeMessage"))], Ret tt)
    end.
Proof.
  unfold Facade.createScript, Facade.agentCall.
  rewrite callMethod_handed with (types := Some "sa{sv}")
    (margs := Some [Str source; Arr (entry <$> Session.rawOptions options)]).
  - unfold Session.rawOptions.
    by destruct (Session.opt_name options), (Session.opt_runtime options).
  - unfold Bus.adapt. rewrite bool_decide_eq_false_2 by done.
    rewrite bool_decide_eq_false_2 by done. rewrite bool_decide_eq_true_2 by done.
    by rewrite withOptions_dict.
Qed.

(** X14. The options of [attach] on their way out. [Client.attach] puts
    [realm], as a variant of signature "s", and [persistTimeout], as a
    variant of signature "u" under the key "persist-timeout", into
    [rawOptions] when they are given; "Attach" of the host session passes
    them to [callMethod], whose conversion never fails on them: the message
    handed to the codec has the signature "ua{sv}" and the arguments
    [[pid, entries]] with one entry [[key, [signature, value]]] for each
    option given, [realm] first. When the codec returns a buffer, it is
    sent and the call is pending under the serial drawn; when the codec
    throws, the promise of the call is rejected and nothing is sent. *)
Theorem attach_options_handed_to_codec (p : nat) (pid : Z)
    (options : SessionOptions) (b : Bus.t) :
  Facade.attach serializeMessage p (Num pid) (dict (attachOptions options)) b
  = match serializeMessage
            (Bus.mkOutgoing (Bus.serialCounter b) "re.frida.HostSession17"
               "/re/frida/HostSession" "re.frida.HostSession17"
               "Attach" (Some "ua{sv}")
               (Some [Num pid;
                      Arr (match realm options with
                           | Some r => [Arr [Str "realm"; Arr [Str "s"; Str r]]]
                           | None => []
                           end ++
                           match persistTimeout options with
                           | Some t => [Arr [Str "persist-timeout"; Arr [Str "u"; Num t]]]
                           | None => []
                           end)])) with
    | Some buffer =>
        (Bus.mk (Bus.serialCounter b + 1)
           (<[Bus.serialCounter b := p]> (Bus.pendingCalls b))
           (Bus.signalHandlers b) (Bus.sent b ++ [buffer])
           (Bus.timers b ++ [Bus.mkTimer (Bus.now b + 30000) (Bus.serialCounter b) p])
           (Bus.now b),
         [], Ret tt)
    | None =>
        (Bus.set_serialCounter (Bus.serialCounter b + 1) b,
         [Bus.Rejected p (Bus.Thrown (External "serializeMessage"))], Ret tt)
    end.
Proof.
  unfold Facade.attach, Facade.hostCall.
  rewrite callMethod_handed with (types := Some "ua{sv}")
    (margs := Some [Num pid; Arr (entry <$> attachOptions options)]).
  - unfold attachOptions.
    by destruct (realm options), (persistTimeout options).
  - unfold Bus.adapt. rewrite bool_decide_eq_false_2 by done.
    rewrite bool_decide_eq_true_2 by done.
    by rewrite withOptions_dict.
Qed.
End codec.

(** With a codec that accepts the message, and with one that refuses
    it. *)
Example script_options_sent :
  Facade.createScript BusFacts.codec_ok 11 "s" (Str "source")
    (dict (Session.rawOptions (Session.mkOptions (Some "agent") None)))
    (Bus.new 0)
  = (Bus.mk 2 {[1 := 11%nat]} ∅ [[]] [Bus.mkTimer 30000 1 11] 0, [], Ret tt).
Proof. reflexivity. Qed.

Example attach_options_refused :
  Facade.attach (λ _, None) 11 (Num 1234)
    (dict (attachOptions (mkSessionOptions None (Some 60)))) (Bus.new 0)
  = (Bus.mk 2 ∅ ∅ [] [] 0,
     [Bus.Rejected 11 (Bus.Thrown (External "serializeMessage"))], Ret tt).
Proof. reflexivity. Qed.

End Wiring.

(** ** The Client: opening a connection *)

Module Handshake.
Import Js Eff EffFacts Client ClientFacts.

Section runtime.
Context {runtime_console : Console}.

(** *** The open handler and the reply to "Authenticate" *)

(** The Client with [a'] for attempt [i]. *)
Definition with_attempt (i : nat) (a' : attempt) (c : t) : t :=
  set_attempts (<[i := a']> (attempts c)) c.

Lemma onAttempt_at i f c a :
  attempts c !! i = Some a →
  onAttempt i f c = (with_attempt i (f a) c, [], Ret tt).
Proof.
  intros Ha. unfold onAttempt, modify, with_attempt. do 3 f_equal.
  apply list_eq. intros j. destruct (decide (i = j)) as [<-|Hne].
  - rewrite list_lookup_alter_eq, Ha, list_lookup_insert_eq; [done|].
    by eapply lookup_lt_Some.
  - by rewrite list_lookup_alter_ne, list_lookup_insert_ne.
Qed.

Lemma with_attempt_lookup i a' c a :
  attempts c !! i = Some a → attempts (with_attempt i a' c) !! i = Some a'.
Proof. intros Ha. cbn. apply list_lookup_insert_eq. by eapply lookup_lt_Some. Qed.

Lemma with_attempt_twice i a1 a2 c :
  with_attempt i a2 (with_attempt i a1 c) = with_attempt i a2 c.
Proof. unfold with_attempt. cbn. by rewrite list_insert_insert_eq. Qed.

Lemma bind_onAttempt {B} i f (k : unit → M t effect B) c a :
  attempts c !! i = Some a →
  bind (onAttempt i f) k c = k tt (with_attempt i (f a) c).
Proof.
  intros Ha. unfold bind. rewrite (onAttempt_at i f c a Ha).
  by destruct (k tt _) as [[? ?] ?].
Qed.

Section transport.
Variable serializeMessage : Bus.outgoing → option (list Z).
Variable parseMessages : list Z → option (list Bus.message).
Variable JSON_parse : string → option value.

(** The message of the "Authenticate" call, the first call of a Bus. *)
Definition authenticate (token : string) : Bus.outgoing :=
  Bus.mkOutgoing 1 "re.frida.AuthenticationService16"
    "/re/frida/AuthenticationService" "re.frida.AuthenticationService16"
    "Authenticate" None (Some [Str token]).

(** The Bus after that call has gone out at time [clock]. *)
Definition authenticating_bus (clock : Z) (buffer : list Z) : Bus.t :=
  Bus.mk 2 {[1 := authPromise]} ∅ [buffer]
         [Bus.mkTimer (clock + 30000) 1 authPromise] clock.

(** The attempt once its transport is open and "Authenticate" is on its
    way. *)
Definition waiting (clock : Z) (buffer : list Z) (a : attempt) : attempt :=
  mkAttempt Open
    (Emitter.addListener "message" BusHandleMessage
       (Emitter.addListener "close" OnceClose (ws_listeners a)))
    (request a) (Some (authenticating_bus clock buffer)) true.

Lemma open_with_token i c a token buffer :
  attempts c !! i = Some a → ws_state a = Connecting →
  _token c = Some token →
  serializeMessage (authenticate token) = Some buffer →
  Client.step serializeMessage parseMessages JSON_parse (WsOpen i) c
  = Some (with_attempt i (waiting (clock c) buffer a) c, [], Ret tt).
Proof.
  intros Ha Hst Htok Hs. cbn [Client.step].
  assert (ws_is i Connecting c = true) as -> by (apply ws_is_lookup; eauto).
  f_equal.
  rewrite (bind_onAttempt i _ _ c a Ha).
  unfold onOpen.
  erewrite bind_onAttempt by (by eapply with_attempt_lookup).
  rewrite with_attempt_twice, bind_get.
  erewrite bind_onAttempt by (by eapply with_attempt_lookup).
  rewrite with_attempt_twice.
  erewrite bind_onAttempt by (by eapply with_attempt_lookup).
  rewrite with_attempt_twice.
  change (_token (with_attempt i _ c)) with (_token c). rewrite Htok.
  erewrite bind_onAttempt by (by eapply with_attempt_lookup).
  rewrite with_attempt_twice.
  unfold onBus. rewrite bind_get.
  rewrite (with_attempt_lookup i _ c a Ha).
  cbn [bus set_bus set_authenticating set_ws_listeners set_ws_state].
  change (clock (with_attempt i _ c)) with (clock c).
  rewrite (BusFacts.callMethod_sent serializeMessage authPromise
             "re.frida.AuthenticationService16" "/re/frida/AuthenticationService"
             "re.frida.AuthenticationService16" "Authenticate" (Some [Str token])
             (Bus.new (clock c)) None (Some [Str token]) buffer eq_refl Hs).
  erewrite bind_onAttempt by (by eapply with_attempt_lookup).
  rewrite with_attempt_twice. cbn [for_of]. unfold ret. do 2 f_equal.
Qed.


(** What settles the promise of "Authenticate" settles the promise of the
    connection. *)
Definition decides (e : Bus.effect) : option promise :=
  match e with
  | Bus.Resolved p _ => if bool_decide (p = authPromise) then Some Fulfilled else None
  | Bus.Rejected p _ => if bool_decide (p = authPromise) then Some Rejected else None
  | _ => None
  end.

Lemma onBus_decides i c a b (m : M Bus.t Bus.effect unit) b' e r x :
  attempts c !! i = Some a → bus a = Some b → authenticating a = true →
  m b = (b', [e], r) → decides e = Some x →
  onBus i m c
  = (with_attempt i (settle x (set_authenticating false (set_bus (Some b') a))) c,
     [OfBus i e], Ret tt).
Proof.
  intros Ha Hb Hauth Hm Hx. unfold onBus. rewrite bind_get, Ha, Hb, Hm.
  rewrite (bind_onAttempt i _ _ c a Ha). cbn [for_of].
  assert (Hk : onAttempt i (λ a0, settle x (set_authenticating false a0))
                 (with_attempt i (set_bus (Some b') a) c)
               = (with_attempt i
                    (settle x (set_authenticating false (set_bus (Some b') a))) c,
                  [], Ret tt)).
  { erewrite onAttempt_at by (by eapply with_attempt_lookup).
    by rewrite with_attempt_twice. }
  assert (He : busEffect i e (with_attempt i (set_bus (Some b') a) c)
               = (with_attempt i
                    (settle x (set_authenticating false (set_bus (Some b') a))) c,
                  [OfBus i e], Ret tt)).
  { unfold busEffect. rewrite bind_tell, bind_get, (with_attempt_lookup i _ c a Ha).
    cbn [authenticating set_bus]. rewrite Hauth.
    destruct e as [p v|p rj| |]; cbn [decides] in Hx; try done;
      case_bool_decide; try done; injection Hx as <-; by rewrite Hk. }
  unfold bind at 1. by rewrite He.
Qed.

(** What settles no promise of "Authenticate" leaves the promise of the
    connection as it is. *)
Lemma onBus_undecided i c a b (m : M Bus.t Bus.effect unit) b' e r :
  attempts c !! i = Some a → bus a = Some b →
  m b = (b', [e], r) → decides e = None →
  onBus i m c = (with_attempt i (set_bus (Some b') a) c, [OfBus i e], Ret tt).
Proof.
  intros Ha Hb Hm Hx. unfold onBus. rewrite bind_get, Ha, Hb, Hm.
  rewrite (bind_onAttempt i _ _ c a Ha). cbn [for_of].
  assert (He : busEffect i e (with_attempt i (set_bus (Some b') a) c)
               = (with_attempt i (set_bus (Some b') a) c, [OfBus i e], Ret tt)).
  { unfold busEffect. rewrite bind_tell, bind_get, (with_attempt_lookup i _ c a Ha).
    destruct (authenticating (set_bus (Some b') a)); [|done].
    destruct e as [p v|p rj| |]; cbn [decides] in Hx; try done;
      by case_bool_decide. }
  unfold bind at 1. by rewrite He.
Qed.

(** The attempt once its transport is open, on a Client without a
    token. *)
Definition opened_plain (clock : Z) (a : attempt) : attempt :=
  mkAttempt Open
    (Emitter.addListener "message" BusHandleMessage
       (Emitter.addListener "close" OnceClose (ws_listeners a)))
    (match request a with Pending => Fulfilled | x => x end)
    (Some (Bus.new clock)) (authenticating a).

Lemma open_without_token i c a :
  attempts c !! i = Some a → ws_state a = Connecting → _token c = None →
  Client.step serializeMessage parseMessages JSON_parse (WsOpen i) c
  = Some (with_attempt i (opened_plain (clock c) a) c, [], Ret tt).
Proof.
  intros Ha Hst Htok. cbn [Client.step].
  assert (ws_is i Connecting c = true) as -> by (apply ws_is_lookup; eauto).
  f_equal.
  rewrite (bind_onAttempt i _ _ c a Ha).
  unfold onOpen.
  erewrite bind_onAttempt by (by eapply with_attempt_lookup).
  rewrite with_attempt_twice, bind_get.
  erewrite bind_onAttempt by (by eapply with_attempt_lookup).
  rewrite with_attempt_twice.
  erewrite bind_onAttempt by (by eapply with_attempt_lookup).
  rewrite with_attempt_twice.
  change (_token (with_attempt i _ c)) with (_token c). rewrite Htok.
  erewrite onAttempt_at by (by eapply with_attempt_lookup).
  rewrite with_attempt_twice. do 3 f_equal.
  clear. destruct a as [st ls rq b au]. unfold opened_plain, settle. cbn.
  by destruct rq.
Qed.

(** The attempt when the codec has refused the "Authenticate" call. *)
Definition refused (clock : Z) (a : attempt) : attempt :=
  mkAttempt Open
    (Emitter.addListener "message" BusHandleMessage
       (Emitter.addListener "close" OnceClose (ws_listeners a)))
    (match request a with Pending => Rejected | x => x end)
    (Some (Bus.set_serialCounter 2 (Bus.new clock))) false.

Lemma open_refused i c a token :
  attempts c !! i = Some a → ws_state a = Connecting →
  _token c = Some token →
  serializeMessage (authenticate token) = None →
  Client.step serializeMessage parseMessages JSON_parse (WsOpen i) c
  = Some (with_attempt i (refused (clock c) a) c,
          [OfBus i (Bus.Rejected authPromise (Bus.Thrown (External "serializeMessage")))],
          Ret tt).
Proof.
  intros Ha Hst Htok Hs. cbn [Client.step].
  assert (ws_is i Connecting c = true) as -> by (apply ws_is_lookup; eauto).
  f_equal.
  rewrite (bind_onAttempt i _ _ c a Ha).
  unfold onOpen.
  erewrite bind_onAttempt by (by eapply with_attempt_lookup).
  rewrite with_attempt_twice, bind_get.
  erewrite bind_onAttempt by (by eapply with_attempt_lookup).
  rewrite with_attempt_twice.
  erewrite bind_onAttempt by (by eapply with_attempt_lookup).
  rewrite with_attempt_twice.
  change (_token (with_attempt i _ c)) with (_token c). rewrite Htok.
  erewrite bind_onAttempt by (by eapply with_attempt_lookup).
  rewrite with_attempt_twice.
  change (clock (with_attempt i _ c)) with (clock c).
  assert (Hm : Bus.callMethod serializeMessage authPromise
                 "re.frida.AuthenticationService16" "/re/frida/AuthenticationService"
                 "re.frida.AuthenticationService16" "Authenticate" (Some [Str token])
                 (Bus.new (clock c))
               = (Bus.set_serialCounter 2 (Bus.new (clock c)),
                  [Bus.Rejected authPromise (Bus.Thrown (External "serializeMessage"))],
                  Ret tt)).
  { unfold Bus.callMethod. rewrite bind_get, bind_modify.
    change (Bus.adapt "Authenticate" (Some [Str token]))
      with (Some (None : option string, Some [Str token])).
    cbn [Bus.serialCounter Bus.new].
    change (Bus.mkOutgoing 1 _ _ _ _ None (Some [Str token]))
      with (authenticate token).
    rewrite Hs. reflexivity. }
  erewrite (onBus_decides i _ _ _ _ _ _ _ Rejected);
    [|by eapply with_attempt_lookup | reflexivity | reflexivity | exact Hm
     | reflexivity].
  rewrite with_attempt_twice. do 3 f_equal.
  clear. destruct a as [st ls rq b au]. unfold refused, settle. cbn.
  by destruct rq.
Qed.

Lemma request_settle x a : request a = Pending → request (settle x a) = x.
Proof. intros H. unfold settle. by rewrite H. Qed.

(** The promise of the connection, for attempt [i]. *)
Definition connection (i : nat) (c : t) : option promise :=
  request <$> attempts c !! i.

(** X15. Authentication decides the connection. The transport of an
    attempt whose promise is pending opens. Without a token the promise of
    the connection is fulfilled at once. With a token, "Authenticate" is
    the first call of the new Bus: when the codec refuses the message, the
    promise is rejected at once; otherwise the message is sent and the
    promise stays pending, and it is fulfilled by the method return that
    carries the serial of that call, rejected by the error reply that
    carries it (when the text of that error cannot be built, the exception
    is logged and the promise stays pending), and rejected with
    "D-Bus call timeout" by the timer of the call when 30000 ms have
    passed without a reply. *)
Theorem authentication_decides_connection (token0 : option string) (now : Z)
    (es : list event) (c : t) (out : list effect) (i : nat) (a : attempt) :
  Client.run serializeMessage parseMessages JSON_parse es (new token0 now)
    = Some (c, out) →
  attempts c !! i = Some a → ws_state a = Connecting → request a = Pending →
  match _token c with
  | None =>
      ∃ c1,
        Client.step serializeMessage parseMessages JSON_parse (WsOpen i) c
          = Some (c1, [], Ret tt)
        ∧ connection i c1 = Some Fulfilled
  | Some token =>
      match serializeMessage (authenticate token) with
      | None =>
          ∃ c1,
            Client.step serializeMessage parseMessages JSON_parse (WsOpen i) c
              = Some (c1, [OfBus i (Bus.Rejected authPromise
                                      (Bus.Thrown (External "serializeMessage")))],
                      Ret tt)
            ∧ connection i c1 = Some Rejected
      | Some buffer =>
          ∃ c1,
            Client.step serializeMessage parseMessages JSON_parse (WsOpen i) c
              = Some (c1, [], Ret tt)
            ∧ connection i c1 = Some Pending
            ∧ (Bus.sent <$> (attempts c1 !! i ≫= bus)) = Some [buffer]
            ∧ (∀ data r, parseMessages data = Some [BusFacts.replyMessage 1 r] →
                 ∃ c2,
                   Client.step serializeMessage parseMessages JSON_parse
                     (WsMessage i data) c1
                     = Some (c2, [OfBus i (BusFacts.settlement authPromise r)], Ret tt)
                   ∧ connection i c2
                     = Some match BusFacts.settlement authPromise r with
                            | Bus.Resolved _ _ => Fulfilled
                            | Bus.Rejected _ _ => Rejected
                            | _ => Pending
                            end)
            ∧ (∀ dt, 30000 ≤ dt →
                 ∃ c2 c3,
                   Client.step serializeMessage parseMessages JSON_parse (Advance dt) c1
                     = Some (c2, [], Ret tt)
                   ∧ Client.step serializeMessage parseMessages JSON_parse
                       (BusTimeout i 0) c2
                     = Some (c3, [OfBus i (Bus.Rejected authPromise
                                             (Bus.ErrorWith "D-Bus call timeout"))],
                             Ret tt)
                   ∧ connection i c3 = Some Rejected)
      end
  end.
Proof.
  intros Hrun Ha Hst Hreq.
  destruct (_token c) as [token|] eqn:Htok.
  2:{ eexists. split; [by apply open_without_token|].
      unfold connection. rewrite with_attempt_lookup with (a := a) by done.
      cbn. by rewrite Hreq. }
  destruct (serializeMessage (authenticate token)) as [buffer|] eqn:Hs.
  2:{ eexists. split; [by apply (open_refused i c a token)|].
      unfold connection. rewrite with_attempt_lookup with (a := a) by done.
      cbn. by rewrite Hreq. }
  assert (Hc : client_ok c).
  { eapply client_run_ok; [|exact Hrun]. apply new_client_ok. }
  assert (Hmsg : Emitter.listenersOf "message" (ws_listeners a) = []).
  { destruct (attempt_wire_ok c i a Hc Ha) as (_ & _ & [[_ Hne]|[Hm _]]); [|done].
    cbn in Hne. by rewrite Hst in Hne. }
  set (a1 := waiting (clock c) buffer a).
  set (c1 := with_attempt i a1 c).
  assert (Ha1 : attempts c1 !! i = Some a1) by (by eapply with_attempt_lookup).
  exists c1. split_and!.
  - by apply (open_with_token i c a token buffer).
  - unfold connection. rewrite Ha1. unfold a1. cbn. by rewrite Hreq.
  - by rewrite Ha1.
  - intros data r Hparse.
    assert (Hstep : ∀ c2,
              onBus i (Bus.handleMessage (Some [BusFacts.replyMessage 1 r])) c1
                = (c2, [OfBus i (BusFacts.settlement authPromise r)], Ret tt) →
              Client.step serializeMessage parseMessages JSON_parse
                (WsMessage i data) c1
                = Some (c2, [OfBus i (BusFacts.settlement authPromise r)], Ret tt)).
    { intros c2 Hon. cbn [Client.step].
      assert (ws_is i Open c1 = true) as -> by (apply ws_is_lookup; eauto).
      f_equal. unfold wsEmit.
      rewrite (forEach_one _ _ c1 BusHandleMessage).
      2:{ rewrite Ha1. subst a1. cbn [waiting ws_listeners].
          rewrite listenersOf_add, decide_True by done.
          rewrite listenersOf_add, decide_False by done. by rewrite Hmsg. }
      cbn [callWs]. rewrite Hparse. exact Hon. }
    assert (Hm : Bus.handleMessage (Some [BusFacts.replyMessage 1 r])
                   (authenticating_bus (clock c) buffer)
                 = (Bus.set_pendingCalls
                      (delete 1 (Bus.pendingCalls (authenticating_bus (clock c) buffer)))
                      (authenticating_bus (clock c) buffer),
                    [BusFacts.settlement authPromise r], Ret tt))
      by (by apply BusFacts.handleMessage_matched).
    destruct (decides (BusFacts.settlement authPromise r)) as [x|] eqn:Hx.
    + eexists. split.
      * apply Hstep.
        exact (onBus_decides i c1 a1 _ _ _ _ _ _ Ha1 eq_refl eq_refl Hm Hx).
      * unfold connection. rewrite with_attempt_lookup with (a := a1) by done.
        cbn [fmap option_fmap option_map]. f_equal.
        rewrite request_settle by (subst a1; cbn; by rewrite Hreq).
        destruct (BusFacts.settlement authPromise r) as [p v|p rj| |];
          cbn [decides] in Hx; try done; case_bool_decide; congruence.
    + eexists. split.
      * apply Hstep.
        exact (onBus_undecided i c1 a1 _ _ _ _ _ Ha1 eq_refl Hm Hx).
      * unfold connection. rewrite with_attempt_lookup with (a := a1) by done.
        cbn [fmap option_fmap option_map]. f_equal.
        subst a1. cbn. rewrite Hreq.
        destruct r as [rargs|errorName rargs]; cbn [BusFacts.settlement] in *.
        -- cbn [decides] in Hx. by rewrite bool_decide_eq_true_2 in Hx.
        -- destruct (Bus.errorText errorName rargs); [|done].
           cbn [decides] in Hx. by rewrite bool_decide_eq_true_2 in Hx.
  - intros dt Hdt.
    set (b2 := Bus.set_now (clock c + dt) (authenticating_bus (clock c) buffer)).
    set (a2 := set_bus (Some b2) a1).
    set (c2 := set_attempts
                 ((λ a, set_bus ((λ b, Bus.set_now (Bus.now b + dt) b) <$> bus a) a)
                  <$> attempts c1) (set_clock (clock c1 + dt) c1)).
    assert (Ha2 : attempts c2 !! i = Some a2).
    { subst c2. cbn [attempts set_attempts]. by rewrite list_lookup_fmap, Ha1. }
    eexists c2, _. split_and!.
    + cbn [Client.step]. rewrite bool_decide_eq_true_2 by lia.
      by rewrite !bind_modify.
    + cbn [Client.step]. rewrite Ha2. subst a2 a1. cbn [set_bus waiting].
      assert (Hstep : Bus.step serializeMessage parseMessages (Bus.Timeout 0) b2
                      = Some (Bus.set_pendingCalls ∅ (Bus.set_timers [] b2),
                              [Bus.Rejected authPromise
                                 (Bus.ErrorWith "D-Bus call timeout")], Ret tt)).
      { cbn [Bus.step]. subst b2. cbn [Bus.timers Bus.set_now authenticating_bus lookup
          list_lookup Bus.due Bus.now]. rewrite bool_decide_eq_true_2 by lia.
        reflexivity. }
      rewrite Hstep. f_equal.
      eapply (onBus_decides i c2 _ b2 _ _ _ (Ret tt) Rejected Ha2 eq_refl eq_refl);
        [by rewrite Hstep | done].
    + unfold connection. rewrite with_attempt_lookup with (a := a2) by done.
      cbn [fmap option_fmap option_map]. f_equal. by apply request_settle.
Qed.

End transport.

End runtime.

Section examples.
(** The examples run on a console whose members return. *)
#[local] Existing Instance quiet_console.

(** A codec whose every frame is the method return for serial 1. *)
Definition parse_return : list Z → option (list Bus.message) :=
  λ _, Some [Bus.MethodReturn 1 None].

Definition requested_client : t :=
  default (new (Some "t") 0)
    (fst <$> Client.run BusFacts.codec_ok parse_return SessionFacts.no_parse
               [GetHostConnection] (new (Some "t") 0)).

Lemma authentication_decides_connection_witness :
  Client.run BusFacts.codec_ok parse_return SessionFacts.no_parse
      [GetHostConnection] (new (Some "t") 0)
    = Some (requested_client, [Returned 0%nat])
  ∧ attempts requested_client !! 0%nat = Some fresh
  ∧ ∃ c1 c2,
      Client.step BusFacts.codec_ok parse_return SessionFacts.no_parse
        (WsOpen 0) requested_client = Some (c1, [], Ret tt)
      ∧ connection 0 c1 = Some Pending
      ∧ Client.step BusFacts.codec_ok parse_return SessionFacts.no_parse
          (WsMessage 0 []) c1
        = Some (c2, [OfBus 0 (Bus.Resolved authPromise None)], Ret tt)
      ∧ connection 0 c2 = Some Fulfilled.
Proof.
  assert (H1 : Client.run BusFacts.codec_ok parse_return SessionFacts.no_parse
                 [GetHostConnection] (new (Some "t") 0)
               = Some (requested_client, [Returned 0%nat]))
    by (vm_compute; reflexivity).
  assert (H2 : attempts requested_client !! 0%nat = Some fresh)
    by (vm_compute; reflexivity).
  destruct (authentication_decides_connection BusFacts.codec_ok parse_return
              SessionFacts.no_parse (Some "t") 0 [GetHostConnection] requested_client
              _ 0%nat fresh H1 H2 eq_refl eq_refl)
    as (c1 & Hopen & Hpending & _ & Hreply & _).
  destruct (Hreply [] (BusFacts.Returns None) eq_refl) as (c2 & Hmsg & Hdone).
  split_and!; [exact H1 | exact H2 |].
  exists c1, c2. split_and!; [exact Hopen | exact Hpending | exact Hmsg | exact Hdone].
Defined.

End examples.

End Handshake.

(** ** From [script.post] to the agent session *)

Module Outbound.
Import Js Eff EffFacts Protocol Session SessionFacts.

Section runtime.
Context {runtime_console : Console}.

Section posting.
Variable JSON_stringify : value → string.

(** X16. [script.post] reaches the agent. Whatever the state of the
    Session and of the Script (nothing on the way reads either [_state]),
    [post(message, data)] builds the record
    [[1, id, JSON.stringify(message), hasData, bytes]] and gives it the next
    serial. While a delivery is in flight the record is queued behind the
    messages that wait; otherwise it goes out at once, with those messages
    before it, in one [postMessages] call whose batch id is its serial. *)
Theorem post_reaches_agent (w : Session.t) (ref : nat) (s : Script.t)
    (message : value) (data : option (list Z)) :
  heap w !! ref = Some s →
  let r := mkRecord AgentMessageKind_Script (Script._id s) (JSON_stringify message)
             (bool_decide (is_Some data)) (default [] data) in
  let queued := _pendingMessages w ++ [mkPending (_nextSerial w) r] in
  onScript ref (Script.post JSON_stringify message data) w
  = if bool_decide (_pendingDeliveries w > 0)
    then (set_nextSerial (_nextSerial w + 1) (set_pendingMessages queued w),
          [], Ret (Some tt))
    else (set_calls
            (calls w ++ [mkCall (PostMessages (record <$> queued) (_nextSerial w))
                                Pending])
            (set_pendingDeliveries (_pendingDeliveries w + 1)
               (set_pendingMessages []
                  (set_nextSerial (_nextSerial w + 1) w))),
          [], Ret (Some tt)).
Proof.
  intros Href r queued.
  rewrite (SessionMore.onScript_posting ref _ w s s r tt Href)
    by (unfold Script.post; by rewrite bind_get).
  rewrite list_insert_id by done. rewrite SessionMore.set_heap_same.
  unfold _postToAgent. rewrite !bind_modify.
  set (w1 := set_nextSerial _ (set_pendingMessages _ w)).
  case_bool_decide as Hpd.
  - rewrite (deliver_noop w1) by (by left). reflexivity.
  - rewrite (deliver_send w1 (_pendingMessages w) (mkPending (_nextSerial w) r))
      by done.
    reflexivity.
Qed.
End posting.

End runtime.

Section examples.
(** The examples run on a console whose members return. *)
#[local] Existing Instance quiet_console.

Lemma post_reaches_agent_witness :
  heap SessionMore.one_script !! 0%nat
    = Some (Script.set_events
              (Emitter.addListener "destroyed" (Script.SessionOnce 5)
                 (Script._events (Script.new 5))) (Script.new 5))
  ∧ postMessages_calls
      (state_of (onScript 0 (Script.post SessionMore.no_text (Str "hi") (Some [1; 2]))
                   SessionMore.one_script))
    = [([mkRecord 1 5 "" true [1; 2]], 1)].
Proof.
  assert (H : heap SessionMore.one_script !! 0%nat
              = Some (Script.set_events
                        (Emitter.addListener "destroyed" (Script.SessionOnce 5)
                           (Script._events (Script.new 5))) (Script.new 5)))
    by reflexivity.
  split; [exact H|].
  rewrite (post_reaches_agent SessionMore.no_text SessionMore.one_script 0 _
             (Str "hi") (Some [1; 2]) H).
  reflexivity.
Defined.

End examples.

End Outbound.
